(** * PALMA: tropical linear algebra over 32-bit scalars

    A shallow embedding of the semiring kernel, the dense and CSR matrix
    engines, the vector operations, Karp's eigenvalue routine, the
    power-iteration eigenvector solver, the critical-node routine, the graph
    algorithms, the scheduler and the binary file format of
    [palma.c] / [palma_ext.c], followed by the properties established for
    them.

    Modelling conventions.
    - [palma_val_t] is [int32_t]: a scalar is a [Z]; where the C code
      converts a wider or an unsigned value to 32 signed bits, the result is
      written with [wrap32] (reduction modulo 2^32 into the signed range).
    - A signed 32-bit operation that can leave the range of [int32_t]
      ([y[i] -= lambda] in [palma_eigenvector], [(int)iter + 1] in
      [palma_scheduler_solve]) has no defined result in ISO C there: the
      operation is written with [sub_int32] / [add_int32], and the routine
      returns a [run], which is [Undef] once such an operation overflows.
    - [size_t] is [nat].  [palma_idx_t] is [uint32_t]: an index read from
      [col_idx] or [row_ptr] is a [nat], and where the code stores a
      [size_t] into one of these arrays the cast is written with
      [palma_idx] (reduction modulo 2^32).  The write index that
      [palma_sparse_compress] casts never exceeds an index it has read from
      these arrays, so that cast is the identity and is not written.
    - A pointer that the code tests against NULL is an [option].
    - [malloc]/[realloc] are taken to succeed; the out-of-memory exits are
      not modelled.
    - The scalar code path is modelled ([PALMA_USE_NEON = 0],
      [PALMA_USE_OPENMP = 0]). *)

From Stdlib Require Import ZArith List Lia Bool Arith Sorted.
Import ListNotations.

Local Open Scope Z_scope.

(** ** Scalars *)

Definition INT32_MIN : Z := -2147483648.
Definition INT32_MAX : Z := 2147483647.

Definition PALMA_NEG_INF : Z := INT32_MIN.
Definition PALMA_POS_INF : Z := INT32_MAX.
Definition PALMA_DEFAULT_MAX_ITER : nat := 1000.
Definition PALMA_DEFAULT_TOL : Z := 1.

(** Range of [palma_val_t]. *)
Definition is_int32 (a : Z) : Prop := INT32_MIN <= a <= INT32_MAX.

(** Conversion of an integer to [int32_t]. *)
Definition wrap32 (z : Z) : Z := (z + 2147483648) mod 4294967296 - 2147483648.

(** The outcome of a routine that executes signed 32-bit arithmetic without
    a range check: what it returns, or [Undef] when an operation has
    overflowed, from where on ISO C defines nothing. *)
Inductive run (A : Type) : Type :=
| Ret (a : A)
| Undef.

Arguments Ret {A} a.
Arguments Undef {A}.

(** [a - b] and [a + b] on [int]: the exact result where it is an
    [int32_t], nothing where it is not. *)
Definition sub_int32 (a b : Z) : option Z :=
  let d := a - b in
  if (INT32_MIN <=? d) && (d <=? INT32_MAX) then Some d else None.

Definition add_int32 (a b : Z) : option Z :=
  let d := a + b in
  if (INT32_MIN <=? d) && (d <=? INT32_MAX) then Some d else None.

(** The cast [(palma_idx_t)n] of a [size_t] to the 32-bit index type. *)
Definition palma_idx (n : nat) : nat := Z.to_nat (Z.of_nat n mod 4294967296).

(** ** Error codes *)

Inductive palma_error_t : Set :=
| PALMA_SUCCESS
| PALMA_ERR_NULL_PTR
| PALMA_ERR_INVALID_DIM
| PALMA_ERR_OUT_OF_MEMORY
| PALMA_ERR_INVALID_ARG
| PALMA_ERR_NOT_SQUARE
| PALMA_ERR_NOT_CONVERGED
| PALMA_ERR_FILE_OPEN
| PALMA_ERR_FILE_READ
| PALMA_ERR_FILE_WRITE
| PALMA_ERR_FILE_FORMAT
| PALMA_ERR_INDEX_BOUNDS
| PALMA_ERR_SPARSE_FORMAT
| PALMA_ERR_UNSUPPORTED.

(** ** Semiring kernel

    The five tags of [palma_semiring_t]; the [default:] arms of the C
    switches are unreachable for a value of the enumeration. *)

Inductive palma_semiring_t : Set :=
| PALMA_MAXPLUS
| PALMA_MINPLUS
| PALMA_MAXMIN
| PALMA_MINMAX
| PALMA_BOOLEAN.

Definition semiring_eqb (s t : palma_semiring_t) : bool :=
  match s, t with
  | PALMA_MAXPLUS, PALMA_MAXPLUS
  | PALMA_MINPLUS, PALMA_MINPLUS
  | PALMA_MAXMIN, PALMA_MAXMIN
  | PALMA_MINMAX, PALMA_MINMAX
  | PALMA_BOOLEAN, PALMA_BOOLEAN => true
  | _, _ => false
  end.

Definition palma_zero (semiring : palma_semiring_t) : Z :=
  match semiring with
  | PALMA_MAXPLUS => PALMA_NEG_INF
  | PALMA_MINPLUS => PALMA_POS_INF
  | PALMA_MAXMIN => PALMA_NEG_INF
  | PALMA_MINMAX => PALMA_POS_INF
  | PALMA_BOOLEAN => 0
  end.

Definition palma_one (semiring : palma_semiring_t) : Z :=
  match semiring with
  | PALMA_MAXPLUS => 0
  | PALMA_MINPLUS => 0
  | PALMA_MAXMIN => PALMA_POS_INF
  | PALMA_MINMAX => PALMA_NEG_INF
  | PALMA_BOOLEAN => 1
  end.

(** C truth value of a scalar. *)
Definition truthy (a : Z) : bool := negb (a =? 0).

Definition palma_add (a b : Z) (semiring : palma_semiring_t) : Z :=
  match semiring with
  | PALMA_MAXPLUS | PALMA_MAXMIN => if b <? a then a else b
  | PALMA_MINPLUS | PALMA_MINMAX => if a <? b then a else b
  | PALMA_BOOLEAN => if truthy a || truthy b then 1 else 0
  end.

Definition palma_mul (a b : Z) (semiring : palma_semiring_t) : Z :=
  match semiring with
  | PALMA_MAXPLUS | PALMA_MINPLUS =>
      if (a =? PALMA_NEG_INF) || (b =? PALMA_NEG_INF) then PALMA_NEG_INF
      else if (a =? PALMA_POS_INF) || (b =? PALMA_POS_INF) then PALMA_POS_INF
      else
        let sum := a + b in            (* exact: the sum is formed in int64_t *)
        if INT32_MAX <? sum then PALMA_POS_INF
        else if sum <? INT32_MIN then PALMA_NEG_INF
        else wrap32 sum
  | PALMA_MAXMIN => if a <? b then a else b
  | PALMA_MINMAX => if b <? a then a else b
  | PALMA_BOOLEAN => if truthy a && truthy b then 1 else 0
  end.

Definition palma_is_zero (a : Z) (semiring : palma_semiring_t) : bool :=
  a =? palma_zero semiring.

(** [semiring == PALMA_MAXPLUS || semiring == PALMA_MINPLUS] *)
Definition additive_tropical (semiring : palma_semiring_t) : bool :=
  semiring_eqb semiring PALMA_MAXPLUS || semiring_eqb semiring PALMA_MINPLUS.

(** ** Dense matrices

    [data] is the row-major buffer, element (i,j) at [i * stride + j].
    The ownership flag has no bearing on the values and is left out. *)

Record palma_matrix_t : Set := mkMatrix {
  m_data : list Z;
  m_rows : nat;
  m_cols : nat;
  m_stride : nat
}.

(** In-place store [a[i] = v]; a store outside the buffer leaves it as is. *)
Fixpoint upd {A : Type} (l : list A) (i : nat) (v : A) : list A :=
  match l, i with
  | [], _ => []
  | _ :: t, O => v :: t
  | h :: t, S i' => h :: upd t i' v
  end.

Definition ALIGN_STRIDE (cols : nat) : nat := ((cols + 3) / 4 * 4)%nat.

Definition palma_matrix_get (mat : palma_matrix_t) (row col : nat) : Z :=
  nth (row * m_stride mat + col) (m_data mat) 0.

Definition palma_matrix_set (mat : palma_matrix_t) (row col : nat) (val : Z)
  : palma_matrix_t :=
  mkMatrix (upd (m_data mat) (row * m_stride mat + col) val)
           (m_rows mat) (m_cols mat) (m_stride mat).

(** The buffer of a fresh matrix is uninitialised in C; it is shown here
    filled with 0, and every caller below overwrites all of it. *)
Definition palma_matrix_create (rows cols : nat) : option palma_matrix_t :=
  if (rows =? 0)%nat || (cols =? 0)%nat then None
  else Some (mkMatrix (repeat 0 (rows * ALIGN_STRIDE cols))
                      rows cols (ALIGN_STRIDE cols)).

Definition palma_matrix_create_zero (rows cols : nat) (semiring : palma_semiring_t)
  : option palma_matrix_t :=
  match palma_matrix_create rows cols with
  | None => None
  | Some mat =>
      let zero := palma_zero semiring in
      let total := (m_rows mat * m_stride mat)%nat in
      Some (mkMatrix (fold_left (fun d i => upd d i zero) (seq 0 total) (m_data mat))
                     (m_rows mat) (m_cols mat) (m_stride mat))
  end.

(** A matrix given by its rows, with stride equal to the column count
    (what [palma_matrix_wrap] accepts). *)
Definition matrix_of_rows (rws : list (list Z)) : palma_matrix_t :=
  mkMatrix (concat rws) (length rws) (length (hd [] rws)) (length (hd [] rws)).

(** ** Matrix-vector product *)

Definition palma_matvec (A : palma_matrix_t) (x : list Z)
           (semiring : palma_semiring_t) : list Z :=
  let zero := palma_zero semiring in
  map (fun i =>
         fold_left (fun sum j =>
                      let a_ij := palma_matrix_get A i j in
                      let prod := palma_mul a_ij (nth j x 0) semiring in
                      palma_add sum prod semiring)
                   (seq 0 (m_cols A)) zero)
      (seq 0 (m_rows A)).

(** ** Karp's maximum cycle mean *)

(** One step of the dynamic programme: row [k] of the table from row [k-1]. *)
Definition karp_step (A : palma_matrix_t) (semiring : palma_semiring_t)
           (n : nat) (prev : list Z) : list Z :=
  let zero := palma_zero semiring in
  map (fun v =>
         fold_left (fun best u =>
                      let edge := palma_matrix_get A u v in
                      if negb (edge =? zero) && negb (nth u prev 0 =? zero) then
                        let path := palma_mul (nth u prev 0) edge semiring in
                        palma_add best path semiring
                      else best)
                   (seq 0 n) zero)
      (seq 0 n).

(** Rows [D[k0]], [D[k0+1]], ... ([steps] further rows after [row]). *)
Fixpoint karp_rows (A : palma_matrix_t) (semiring : palma_semiring_t)
         (n steps : nat) (row : list Z) : list (list Z) :=
  match steps with
  | O => [row]
  | S steps' => row :: karp_rows A semiring n steps' (karp_step A semiring n row)
  end.

(** The table [D[0..n][0..n-1]]. *)
Definition karp_table (A : palma_matrix_t) (semiring : palma_semiring_t)
  : list (list Z) :=
  let n := m_rows A in
  karp_rows A semiring n n (repeat (palma_one semiring) n).

Definition tbl (D : list (list Z)) (k v : nat) : Z := nth v (nth k D []) 0.

(** The inner loop over [k] for a fixed [v]. *)
Definition karp_min_for (D : list (list Z)) (semiring : palma_semiring_t)
           (n v : nat) : Z :=
  let zero := palma_zero semiring in
  fold_left (fun min_for_v k =>
               if negb (tbl D k v =? zero) then
                 let diff := if additive_tropical semiring
                             then tbl D n v - tbl D k v
                             else 0 in
                 let mean := wrap32 (Z.quot diff (Z.of_nat (n - k))) in
                 if mean <? min_for_v then mean else min_for_v
               else min_for_v)
            (seq 0 n) PALMA_POS_INF.

(** The outer loop over [v]. *)
Definition karp_max_mean (D : list (list Z)) (semiring : palma_semiring_t)
           (n : nat) : Z :=
  let zero := palma_zero semiring in
  fold_left (fun max_mean v =>
               if tbl D n v =? zero then max_mean
               else
                 let min_for_v := karp_min_for D semiring n v in
                 if negb (min_for_v =? PALMA_POS_INF) && (max_mean <? min_for_v)
                 then min_for_v else max_mean)
            (seq 0 n) PALMA_NEG_INF.

(** [palma_eigenvalue]: the returned value and the content of the
    last-error slot after the call. *)
Definition palma_eigenvalue (A : option palma_matrix_t)
           (semiring : palma_semiring_t) : Z * palma_error_t :=
  match A with
  | None => (PALMA_NEG_INF, PALMA_ERR_NULL_PTR)
  | Some A =>
      if negb (m_rows A =? m_cols A)%nat then (PALMA_NEG_INF, PALMA_ERR_NOT_SQUARE)
      else
        let n := m_rows A in
        let D := karp_table A semiring in
        (karp_max_mean D semiring n, PALMA_SUCCESS)
  end.

(** ** Power-iteration eigenvector *)

(** Element-wise comparison of the first [n] entries. *)
Definition vec_eqb (n : nat) (y x : list Z) : bool :=
  forallb (fun i => nth i y 0 =? nth i x 0) (seq 0 n).

(** One step of the normalisation: [y[i] -= lambda] when [y[i]] is not ε.
    The subtraction is a plain signed one. *)
Definition normalize_entry (semiring : palma_semiring_t) (lambda yi : Z)
  : option Z :=
  if negb (yi =? palma_zero semiring) then sub_int32 yi lambda else Some yi.

(** The normalisation loop over the entries of [y]; [None] when one of the
    subtractions overflows. *)
Fixpoint normalize_entries (semiring : palma_semiring_t) (lambda : Z)
         (y : list Z) : option (list Z) :=
  match y with
  | [] => Some []
  | yi :: rest =>
      match normalize_entry semiring lambda yi with
      | None => None
      | Some d =>
          match normalize_entries semiring lambda rest with
          | None => None
          | Some rest' => Some (d :: rest')
          end
      end
  end.

Definition normalize (semiring : palma_semiring_t) (lambda : Z) (y : list Z)
  : option (list Z) :=
  if additive_tropical semiring then normalize_entries semiring lambda y
  else Some y.

(** The iteration loop, [fuel] iterations left, current iterate [x]. *)
Fixpoint power_iteration (A : palma_matrix_t) (semiring : palma_semiring_t)
         (lambda : Z) (n fuel : nat) (x : list Z)
  : run (palma_error_t * list Z) :=
  match fuel with
  | O => Ret (PALMA_ERR_NOT_CONVERGED, x)
  | S fuel' =>
      match normalize semiring lambda (palma_matvec A x semiring) with
      | None => Undef
      | Some y =>
          let converged := vec_eqb n y x in
          if converged then Ret (PALMA_SUCCESS, y)
          else power_iteration A semiring lambda n fuel' y
      end
  end.

(** [palma_eigenvector] with both output buffers supplied by the caller:
    the return code and, when they are written, the eigenvector and the
    eigenvalue. *)
Definition palma_eigenvector (A : option palma_matrix_t)
           (semiring : palma_semiring_t) (max_iter : nat)
  : run (palma_error_t * option (list Z * Z)) :=
  match A with
  | None => Ret (PALMA_ERR_NULL_PTR, None)
  | Some A =>
      if negb (m_rows A =? m_cols A)%nat then Ret (PALMA_ERR_NOT_SQUARE, None)
      else
        let n := m_rows A in
        let max_iter := if (max_iter =? 0)%nat then PALMA_DEFAULT_MAX_ITER
                        else max_iter in
        let lambda := fst (palma_eigenvalue (Some A) semiring) in
        if lambda =? PALMA_NEG_INF then
          Ret (PALMA_ERR_NOT_CONVERGED, Some (repeat (palma_zero semiring) n, lambda))
        else
          match power_iteration A semiring lambda n max_iter
                                (repeat (palma_one semiring) n) with
          | Undef => Undef
          | Ret (code, x) => Ret (code, Some (x, lambda))
          end
  end.

(** ** Critical nodes *)

(** The body of the loop over [j] for node [i]. *)
Definition critical_pair (A : palma_matrix_t) (semiring : palma_semiring_t)
           (lambda : Z) (i : nat) (critical_nodes : list Z) (j : nat) : list Z :=
  let a_ij := palma_matrix_get A i j in
  let a_ji := palma_matrix_get A j i in
  if negb (a_ij =? palma_zero semiring) && negb (a_ji =? palma_zero semiring) then
    let cycle_weight := palma_mul a_ij a_ji semiring in
    if additive_tropical semiring then
      let mean := Z.quot cycle_weight 2 in
      if wrap32 (lambda - PALMA_DEFAULT_TOL) <=? mean
      then upd (upd critical_nodes i 1) j 1
      else critical_nodes
    else critical_nodes
  else critical_nodes.

(** The body of the loop over [i]. *)
Definition critical_node (A : palma_matrix_t) (semiring : palma_semiring_t)
           (lambda : Z) (n : nat) (critical_nodes : list Z) (i : nat) : list Z :=
  let marks := fold_left (critical_pair A semiring lambda i) (seq 0 n)
                         critical_nodes in
  let diag := palma_matrix_get A i i in
  if negb (diag =? palma_zero semiring)
     && (wrap32 (lambda - PALMA_DEFAULT_TOL) <=? diag)
  then upd marks i 1 else marks.

(** [palma_critical_nodes] with the output array supplied by the caller:
    the returned count, the array when it is written, and the last-error
    slot after the call. *)
Definition palma_critical_nodes (A : option palma_matrix_t)
           (semiring : palma_semiring_t)
  : Z * option (list Z) * palma_error_t :=
  match A with
  | None => (-1, None, PALMA_ERR_NULL_PTR)
  | Some A =>
      if negb (m_rows A =? m_cols A)%nat then (-1, None, PALMA_ERR_NOT_SQUARE)
      else
        let n := m_rows A in
        let '(lambda, err) := palma_eigenvalue (Some A) semiring in
        if lambda =? PALMA_NEG_INF then (0, Some (repeat 0 n), err)
        else
          let marks := fold_left (critical_node A semiring lambda n) (seq 0 n)
                                 (repeat 0 n) in
          let count := fold_left (fun c i => if truthy (nth i marks 0)
                                             then c + 1 else c)
                                 (seq 0 n) 0 in
          (count, Some marks, PALMA_SUCCESS)
  end.

(** ** Scheduler *)

Record palma_scheduler_t : Set := mkSched {
  sch_system : palma_matrix_t;
  sch_state : list Z;
  sch_input : list Z;
  sch_n_tasks : nat;
  sch_semiring : palma_semiring_t
}.

Definition palma_scheduler_create (n_tasks : nat) (use_maxplus : bool)
  : option palma_scheduler_t :=
  let s := if use_maxplus then PALMA_MAXPLUS else PALMA_MINPLUS in
  match palma_matrix_create_zero n_tasks n_tasks s with
  | None => None
  | Some sys =>
      Some (mkSched sys (repeat (palma_zero s) n_tasks)
                    (repeat (palma_zero s) n_tasks) n_tasks s)
  end.

Definition palma_scheduler_add_constraint (sched : option palma_scheduler_t)
           (from to : nat) (duration : Z)
  : palma_error_t * option palma_scheduler_t :=
  match sched with
  | None => (PALMA_ERR_NULL_PTR, None)
  | Some sc =>
      if (sch_n_tasks sc <=? from)%nat || (sch_n_tasks sc <=? to)%nat
      then (PALMA_ERR_INDEX_BOUNDS, sched)
      else
        let current := palma_matrix_get (sch_system sc) to from in
        let updated := palma_add current duration (sch_semiring sc) in
        (PALMA_SUCCESS,
         Some (mkSched (palma_matrix_set (sch_system sc) to from updated)
                       (sch_state sc) (sch_input sc) (sch_n_tasks sc) (sch_semiring sc)))
  end.

Definition palma_scheduler_set_ready_time (sched : option palma_scheduler_t)
           (task : nat) (ready_time : Z)
  : palma_error_t * option palma_scheduler_t :=
  match sched with
  | None => (PALMA_ERR_NULL_PTR, None)
  | Some sc =>
      if (sch_n_tasks sc <=? task)%nat then (PALMA_ERR_INDEX_BOUNDS, sched)
      else
        let input' := upd (sch_input sc) task
                          (palma_add (nth task (sch_input sc) 0) ready_time (sch_semiring sc)) in
        let state' := upd (sch_state sc) task
                          (palma_add (nth task (sch_state sc) 0) ready_time (sch_semiring sc)) in
        (PALMA_SUCCESS,
         Some (mkSched (sch_system sc) state' input' (sch_n_tasks sc) (sch_semiring sc)))
  end.

(** One pass of the solve loop over the state: [prev] is the copy of the
    state taken at the start of the pass. *)
Definition solve_pass (sc : palma_scheduler_t) (prev : list Z) : list Z :=
  let temp := palma_matvec (sch_system sc) prev (sch_semiring sc) in
  fold_left (fun st i =>
               let st1 := upd st i (palma_add (nth i temp 0) (nth i (sch_input sc) 0)
                                              (sch_semiring sc)) in
               upd st1 i (palma_add (nth i st1 0) (nth i prev 0) (sch_semiring sc)))
            (seq 0 (sch_n_tasks sc)) prev.

(** The solve loop: [fuel] iterations left, [iter] done so far.  The
    counters are [unsigned int]; the loop returns [(int)iter + 1] on
    convergence and [(int)max_iter] when the iterations are used up, where
    [iter] has reached [max_iter].  The conversion to [int] is [wrap32]; the
    addition is a signed one. *)
Fixpoint solve_loop (sc : palma_scheduler_t) (fuel iter : nat)
  : run (Z * palma_scheduler_t) :=
  match fuel with
  | O => Ret (wrap32 (Z.of_nat iter), sc)
  | S fuel' =>
      let prev := sch_state sc in
      let sc' := mkSched (sch_system sc) (solve_pass sc prev) (sch_input sc)
                         (sch_n_tasks sc) (sch_semiring sc) in
      if vec_eqb (sch_n_tasks sc) (sch_state sc') prev
      then match add_int32 (wrap32 (Z.of_nat iter)) 1 with
           | Some r => Ret (r, sc')
           | None => Undef
           end
      else solve_loop sc' fuel' (S iter)
  end.

(** [palma_scheduler_solve]: the returned count and the scheduler after the
    call.  [max_iter] is an [unsigned int]. *)
Definition palma_scheduler_solve (sched : option palma_scheduler_t)
           (max_iter : nat) : run (Z * option palma_scheduler_t) :=
  match sched with
  | None => Ret (-1, None)
  | Some sc =>
      let max_iter := if (max_iter =? 0)%nat then sch_n_tasks sc else max_iter in
      match solve_loop sc max_iter 0 with
      | Undef => Undef
      | Ret (r, sc') => Ret (r, Some sc')
      end
  end.

Definition palma_scheduler_get_completion (sched : option palma_scheduler_t)
           (task : nat) : Z :=
  match sched with
  | None => PALMA_NEG_INF
  | Some sc => if (sch_n_tasks sc <=? task)%nat then PALMA_NEG_INF
               else nth task (sch_state sc) 0
  end.

(** ** Sparse matrices (CSR)

    [sp_values] and [sp_col_idx] hold the [nnz] entries in use (the part of
    the allocated arrays that the code has written); [sp_capacity] is the
    allocated length. *)

Record palma_sparse_t : Set := mkSparse {
  sp_values : list Z;
  sp_col_idx : list nat;
  sp_row_ptr : list nat;
  sp_rows : nat;
  sp_cols : nat;
  sp_nnz : nat;
  sp_capacity : nat;
  sp_semiring : palma_semiring_t
}.

Definition palma_sparse_create (rows cols capacity : nat)
           (semiring : palma_semiring_t) : option palma_sparse_t :=
  if (rows =? 0)%nat || (cols =? 0)%nat then None
  else Some (mkSparse [] [] (repeat 0%nat (rows + 1)) rows cols 0
                      (if (0 <? capacity)%nat then capacity else 16%nat)
                      semiring).

(** The counting pass of [palma_sparse_from_dense]. *)
Definition count_nonzero (dense : palma_matrix_t) (zero : Z) : nat :=
  fold_left (fun nnz i =>
               fold_left (fun nnz j =>
                            if negb (palma_matrix_get dense i j =? zero)
                            then S nnz else nnz)
                         (seq 0 (m_cols dense)) nnz)
            (seq 0 (m_rows dense)) 0%nat.

(** The state of the filling pass: values, column indices, row pointers and
    the write index [idx]. *)
Definition fill_state : Set := (list Z * list nat * list nat * nat)%type.

Definition fill_entry (dense : palma_matrix_t) (zero : Z) (i : nat)
           (st : fill_state) (j : nat) : fill_state :=
  let '(values, col_idx, row_ptr, idx) := st in
  let val := palma_matrix_get dense i j in
  if negb (val =? zero)
  then (values ++ [val], col_idx ++ [palma_idx j], row_ptr, S idx)
  else st.

Definition fill_row (dense : palma_matrix_t) (zero : Z)
           (st : fill_state) (i : nat) : fill_state :=
  let '(values, col_idx, row_ptr, idx) := st in
  fold_left (fill_entry dense zero i) (seq 0 (m_cols dense))
            (values, col_idx, upd row_ptr i (palma_idx idx), idx).

Definition palma_sparse_from_dense (dense : option palma_matrix_t)
           (semiring : palma_semiring_t) : option palma_sparse_t :=
  match dense with
  | None => None
  | Some dense =>
      let zero := palma_zero semiring in
      let nnz := count_nonzero dense zero in
      match palma_sparse_create (m_rows dense) (m_cols dense) nnz semiring with
      | None => None
      | Some sp =>
          let '(values, col_idx, row_ptr, idx) :=
            fold_left (fill_row dense zero) (seq 0 (m_rows dense))
                      (sp_values sp, sp_col_idx sp, sp_row_ptr sp, 0%nat) in
          Some (mkSparse values col_idx (upd row_ptr (m_rows dense) (palma_idx idx))
                         (sp_rows sp) (sp_cols sp) idx (sp_capacity sp)
                         (sp_semiring sp))
      end
  end.

Definition palma_sparse_to_dense (sparse : option palma_sparse_t)
  : option palma_matrix_t :=
  match sparse with
  | None => None
  | Some sp =>
      match palma_matrix_create_zero (sp_rows sp) (sp_cols sp) (sp_semiring sp) with
      | None => None
      | Some dense =>
          Some (fold_left
                  (fun d i =>
                     let lo := nth i (sp_row_ptr sp) 0%nat in
                     let hi := nth (i + 1) (sp_row_ptr sp) 0%nat in
                     fold_left (fun d k =>
                                  palma_matrix_set d i (nth k (sp_col_idx sp) 0%nat)
                                                   (nth k (sp_values sp) 0))
                               (seq lo (hi - lo)) d)
                  (seq 0 (sp_rows sp)) dense)
      end
  end.

(** The binary search of [palma_sparse_get] over [start, end); [None] when
    [fuel] runs out before the interval is empty. *)
Fixpoint sparse_get_search (sp : palma_sparse_t) (col : nat)
         (fuel start end_ : nat) : option Z :=
  if (start <? end_)%nat then
    match fuel with
    | O => None
    | S fuel' =>
        let mid := (start + (end_ - start) / 2)%nat in
        if (nth mid (sp_col_idx sp) 0 =? col)%nat then Some (nth mid (sp_values sp) 0)
        else if (nth mid (sp_col_idx sp) 0 <? col)%nat
             then sparse_get_search sp col fuel' (mid + 1) end_
             else sparse_get_search sp col fuel' start mid
    end
  else Some (palma_zero (sp_semiring sp)).

(** [palma_sparse_get] returns a value and nothing else: it has no error
    code and does not touch the last-error slot.  The search is started with
    the length of the row as fuel, which is enough (see
    [sparse_get_search_terminates]). *)
Definition palma_sparse_get (sp : option palma_sparse_t) (row col : nat) : Z :=
  match sp with
  | None => palma_zero PALMA_MAXPLUS
  | Some sp =>
      if (sp_rows sp <=? row)%nat || (sp_cols sp <=? col)%nat
      then palma_zero (sp_semiring sp)
      else
        let start := nth row (sp_row_ptr sp) 0%nat in
        let end_ := nth (row + 1) (sp_row_ptr sp) 0%nat in
        match sparse_get_search sp col (end_ - start) start end_ with
        | Some v => v
        | None => palma_zero (sp_semiring sp)
        end
  end.

(** The doubling loop of [sparse_ensure_capacity]; a capacity is never 0
    ([palma_sparse_create]), and [needed] rounds of doubling then reach
    [needed]. *)
Fixpoint grow_capacity (fuel new_cap needed : nat) : nat :=
  match fuel with
  | O => new_cap
  | S fuel' => if (new_cap <? needed)%nat
               then grow_capacity fuel' (new_cap * 2) needed
               else new_cap
  end.

Definition sparse_ensure_capacity (sp : palma_sparse_t) (needed : nat)
  : palma_error_t * palma_sparse_t :=
  if (needed <=? sp_capacity sp)%nat then (PALMA_SUCCESS, sp)
  else
    let new_cap := grow_capacity needed (sp_capacity sp * 2) needed in
    (PALMA_SUCCESS,
     mkSparse (sp_values sp) (sp_col_idx sp) (sp_row_ptr sp) (sp_rows sp)
              (sp_cols sp) (sp_nnz sp) new_cap (sp_semiring sp)).

(** The linear scan of [palma_sparse_set]: [fuel] is [end - pos]. *)
Fixpoint find_pos (col_idx : list nat) (col pos fuel : nat) : nat :=
  match fuel with
  | O => pos
  | S fuel' => if (nth pos col_idx 0 <? col)%nat
               then find_pos col_idx col (S pos) fuel'
               else pos
  end.

(** [memmove] of the tail by one slot followed by the store at [pos]. *)
Definition insert_at {A : Type} (l : list A) (pos : nat) (v : A) : list A :=
  firstn pos l ++ v :: skipn pos l.

(** [for (r = row + 1; r <= rows; r++) row_ptr[r]++], an increment of a
    [palma_idx_t] cell. *)
Definition bump_row_ptr (row_ptr : list nat) (row rows : nat) : list nat :=
  fold_left (fun rp r => upd rp r (palma_idx (S (nth r rp 0%nat))))
            (seq (row + 1) (rows - row)) row_ptr.

(** [palma_sparse_set]: the return code (which the error exits also store
    in the last-error slot) and the matrix after the call. *)
Definition palma_sparse_set (sp : option palma_sparse_t) (row col : nat) (val : Z)
  : palma_error_t * option palma_sparse_t :=
  match sp with
  | None => (PALMA_ERR_NULL_PTR, None)
  | Some s0 =>
      if (sp_rows s0 <=? row)%nat || (sp_cols s0 <=? col)%nat
      then (PALMA_ERR_INDEX_BOUNDS, sp)
      else
        let start := nth row (sp_row_ptr s0) 0%nat in
        let end_ := nth (row + 1) (sp_row_ptr s0) 0%nat in
        let pos := find_pos (sp_col_idx s0) col start (end_ - start) in
        if (pos <? end_)%nat && (nth pos (sp_col_idx s0) 0 =? col)%nat then
          (PALMA_SUCCESS,
           Some (mkSparse (upd (sp_values s0) pos val) (sp_col_idx s0)
                          (sp_row_ptr s0) (sp_rows s0) (sp_cols s0) (sp_nnz s0)
                          (sp_capacity s0) (sp_semiring s0)))
        else
          let '(err, s1) := sparse_ensure_capacity s0 (sp_nnz s0 + 1) in
          match err with
          | PALMA_SUCCESS =>
              (PALMA_SUCCESS,
               Some (mkSparse (insert_at (sp_values s1) pos val)
                              (insert_at (sp_col_idx s1) pos (palma_idx col))
                              (bump_row_ptr (sp_row_ptr s1) row (sp_rows s1))
                              (sp_rows s1) (sp_cols s1) (S (sp_nnz s1))
                              (sp_capacity s1) (sp_semiring s1)))
          | _ => (err, Some s1)
          end
  end.

(** ** Results of the allocating operations

    An allocating operation returns a handle, or NULL after storing an
    error kind in the last-error slot; a successful allocation clears the
    slot. *)

Inductive palma_handle (A : Type) : Type :=
| Handle (a : A)
| Null (err : palma_error_t).

Arguments Handle {A} a.
Arguments Null {A} err.

(** ** Further dense operations *)

Definition palma_matrix_create_identity (n : nat) (semiring : palma_semiring_t)
  : option palma_matrix_t :=
  match palma_matrix_create_zero n n semiring with
  | None => None
  | Some mat =>
      let one := palma_one semiring in
      Some (fold_left (fun m i => palma_matrix_set m i i one) (seq 0 n) mat)
  end.

(** [memcpy] of the [cols] cells of row [i] of [src] into row [i] of [dst]. *)
Definition copy_row (src dst : palma_matrix_t) (i : nat) : palma_matrix_t :=
  fold_left (fun d j => palma_matrix_set d i j (palma_matrix_get src i j))
            (seq 0 (m_cols src)) dst.

(** The cells of a clone outside the copied columns keep what
    [palma_matrix_create] left there; no operation below reads them. *)
Definition palma_matrix_clone (src : option palma_matrix_t)
  : palma_handle palma_matrix_t :=
  match src with
  | None => Null PALMA_ERR_NULL_PTR
  | Some src =>
      match palma_matrix_create (m_rows src) (m_cols src) with
      | None => Null PALMA_ERR_INVALID_DIM
      | Some dst => Handle (fold_left (copy_row src) (seq 0 (m_rows src)) dst)
      end
  end.

(** [palma_matrix_get_safe] with the output cell supplied: the return code
    and the value stored in it, if any. *)
Definition palma_matrix_get_safe (mat : option palma_matrix_t) (row col : nat)
  : palma_error_t * option Z :=
  match mat with
  | None => (PALMA_ERR_NULL_PTR, None)
  | Some m =>
      if (m_rows m <=? row)%nat || (m_cols m <=? col)%nat
      then (PALMA_ERR_INDEX_BOUNDS, None)
      else (PALMA_SUCCESS, Some (palma_matrix_get m row col))
  end.

Definition palma_matrix_set_safe (mat : option palma_matrix_t) (row col : nat)
           (val : Z) : palma_error_t * option palma_matrix_t :=
  match mat with
  | None => (PALMA_ERR_NULL_PTR, None)
  | Some m =>
      if (m_rows m <=? row)%nat || (m_cols m <=? col)%nat
      then (PALMA_ERR_INDEX_BOUNDS, mat)
      else (PALMA_SUCCESS, Some (palma_matrix_set m row col val))
  end.

(** The innermost loop of the dense product: the cell (i,j) of A ⊗ B. *)
Definition mul_cell (A B : palma_matrix_t) (semiring : palma_semiring_t)
           (i j : nat) : Z :=
  fold_left (fun sum k =>
               let a_ik := palma_matrix_get A i k in
               let b_kj := palma_matrix_get B k j in
               let prod := palma_mul a_ik b_kj semiring in
               palma_add sum prod semiring)
            (seq 0 (m_cols A)) (palma_zero semiring).

(** [palma_matrix_mul_into]: the return code and the output matrix after
    the call. *)
Definition palma_matrix_mul_into (C A B : option palma_matrix_t)
           (semiring : palma_semiring_t) : palma_error_t * option palma_matrix_t :=
  match C, A, B with
  | Some c, Some a, Some b =>
      if negb (m_cols a =? m_rows b)%nat then (PALMA_ERR_INVALID_DIM, C)
      else if negb (m_rows c =? m_rows a)%nat || negb (m_cols c =? m_cols b)%nat
           then (PALMA_ERR_INVALID_DIM, C)
           else
             (PALMA_SUCCESS,
              Some (fold_left
                      (fun c i =>
                         fold_left (fun c j =>
                                      palma_matrix_set c i j (mul_cell a b semiring i j))
                                   (seq 0 (m_cols b)) c)
                      (seq 0 (m_rows a)) c))
  | _, _, _ => (PALMA_ERR_NULL_PTR, C)
  end.

Definition palma_matrix_mul (A B : option palma_matrix_t)
           (semiring : palma_semiring_t) : palma_handle palma_matrix_t :=
  match A, B with
  | Some a, Some b =>
      if negb (m_cols a =? m_rows b)%nat then Null PALMA_ERR_INVALID_DIM
      else
        match palma_matrix_create (m_rows a) (m_cols b) with
        | None => Null PALMA_ERR_INVALID_DIM
        | Some c =>
            match palma_matrix_mul_into (Some c) A B semiring with
            | (PALMA_SUCCESS, Some c') => Handle c'
            | (err, _) => Null err
            end
        end
  | _, _ => Null PALMA_ERR_NULL_PTR
  end.

Definition palma_matrix_add (A B : option palma_matrix_t)
           (semiring : palma_semiring_t) : palma_handle palma_matrix_t :=
  match A, B with
  | Some a, Some b =>
      if negb (m_rows a =? m_rows b)%nat || negb (m_cols a =? m_cols b)%nat
      then Null PALMA_ERR_INVALID_DIM
      else
        match palma_matrix_create (m_rows a) (m_cols a) with
        | None => Null PALMA_ERR_INVALID_DIM
        | Some c =>
            Handle (fold_left
                      (fun c i =>
                         fold_left (fun c j =>
                                      palma_matrix_set c i j
                                        (palma_add (palma_matrix_get a i j)
                                                   (palma_matrix_get b i j) semiring))
                                   (seq 0 (m_cols a)) c)
                      (seq 0 (m_rows a)) c)
        end
  | _, _ => Null PALMA_ERR_NULL_PTR
  end.



(** One update of the Floyd-Warshall loop: D[i,j] ← D[i,j] ⊕ (D[i,k] ⊗ D[k,j]). *)
Definition closure_update (semiring : palma_semiring_t) (k i : nat)
           (D : palma_matrix_t) (j : nat) : palma_matrix_t :=
  let d_ij := palma_matrix_get D i j in
  let d_ik := palma_matrix_get D i k in
  let d_kj := palma_matrix_get D k j in
  let via_k := palma_mul d_ik d_kj semiring in
  palma_matrix_set D i j (palma_add d_ij via_k semiring).

(** The loops over [i] and [j] for a fixed [k]. *)
Definition closure_round (semiring : palma_semiring_t) (n : nat)
           (D : palma_matrix_t) (k : nat) : palma_matrix_t :=
  fold_left (fun D i => fold_left (closure_update semiring k i) (seq 0 n) D)
            (seq 0 n) D.

(** The diagonal pass: D[i,i] ← D[i,i] ⊕ e. *)
Definition closure_add_identity (semiring : palma_semiring_t) (n : nat)
           (D : palma_matrix_t) : palma_matrix_t :=
  fold_left (fun D i =>
               let diag := palma_matrix_get D i i in
               palma_matrix_set D i i (palma_add diag (palma_one semiring) semiring))
            (seq 0 n) D.

Definition palma_matrix_closure (A : option palma_matrix_t)
           (semiring : palma_semiring_t) : palma_handle palma_matrix_t :=
  match A with
  | None => Null PALMA_ERR_NULL_PTR
  | Some a =>
      if negb (m_rows a =? m_cols a)%nat then Null PALMA_ERR_NOT_SQUARE
      else
        let n := m_rows a in
        match palma_matrix_clone A with
        | Null err => Null err
        | Handle D =>
            let D := closure_add_identity semiring n D in
            Handle (fold_left (closure_round semiring n) (seq 0 n) D)
        end
  end.

Definition palma_matrix_transitive_closure (A : option palma_matrix_t)
           (semiring : palma_semiring_t) : palma_handle palma_matrix_t :=
  match A with
  | None => Null PALMA_ERR_NULL_PTR
  | Some a =>
      if negb (m_rows a =? m_cols a)%nat then Null PALMA_ERR_NOT_SQUARE
      else
        match palma_matrix_closure A semiring with
        | Null err => Null err
        | Handle star => palma_matrix_mul (Some star) A semiring
        end
  end.

(** ** Vector operations *)

(** [palma_iterate]: the return code and the vector after the call. *)
Definition palma_iterate (A : option palma_matrix_t) (x : list Z) (n : nat)
           (semiring : palma_semiring_t) : palma_error_t * list Z :=
  match A with
  | None => (PALMA_ERR_NULL_PTR, x)
  | Some a =>
      if negb (m_rows a =? m_cols a)%nat then (PALMA_ERR_NOT_SQUARE, x)
      else
        (PALMA_SUCCESS,
         fold_left (fun x _ =>
                      let y := palma_matvec a x semiring in
                      (* memcpy(x, y, rows) *)
                      fold_left (fun x i => upd x i (nth i y 0)) (seq 0 (m_rows a)) x)
                   (seq 0 n) x)
  end.

Definition palma_dot (x y : list Z) (len : nat) (semiring : palma_semiring_t) : Z :=
  fold_left (fun result i =>
               let prod := palma_mul (nth i x 0) (nth i y 0) semiring in
               palma_add result prod semiring)
            (seq 0 len) (palma_zero semiring).

(** ** Graph algorithms *)

Definition palma_all_pairs_paths (adj : option palma_matrix_t)
           (semiring : palma_semiring_t) : palma_handle palma_matrix_t :=
  palma_matrix_closure adj semiring.

(** [palma_single_source_paths] with the distance buffer [dist] supplied
    (of [rows] cells): the return code and the buffer after the call.  The
    code returned by [palma_iterate] is dropped, as in the source. *)
Definition palma_single_source_paths (adj : option palma_matrix_t) (source : nat)
           (dist : list Z) (semiring : palma_semiring_t) : palma_error_t * list Z :=
  match adj with
  | None => (PALMA_ERR_NULL_PTR, dist)
  | Some a =>
      if (m_rows a <=? source)%nat then (PALMA_ERR_INDEX_BOUNDS, dist)
      else
        let zero := palma_zero semiring in
        let one := palma_one semiring in
        let dist := fold_left (fun d i => upd d i zero) (seq 0 (m_rows a)) dist in
        let dist := upd dist source one in
        (PALMA_SUCCESS, snd (palma_iterate adj dist (m_rows a) semiring))
  end.

Definition palma_reachability (adj : option palma_matrix_t)
  : palma_handle palma_matrix_t :=
  match adj with
  | None => Null PALMA_ERR_NULL_PTR
  | Some a =>
      match palma_matrix_create (m_rows a) (m_cols a) with
      | None => Null PALMA_ERR_INVALID_DIM
      | Some bool_adj =>
          let bool_adj :=
            fold_left
              (fun b i =>
                 fold_left
                   (fun b j =>
                      let val := palma_matrix_get a i j in
                      let is_edge := (negb (val =? PALMA_NEG_INF)
                                      && negb (val =? PALMA_POS_INF))
                                     || (i =? j)%nat in
                      palma_matrix_set b i j (if is_edge then 1 else 0))
                   (seq 0 (m_cols a)) b)
              (seq 0 (m_rows a)) bool_adj in
          palma_matrix_closure (Some bool_adj) PALMA_BOOLEAN
      end
  end.

Definition palma_bottleneck_paths (adj : option palma_matrix_t)
  : palma_handle palma_matrix_t :=
  match adj with
  | None => Null PALMA_ERR_NULL_PTR
  | Some _ => palma_matrix_closure adj PALMA_MAXMIN
  end.

(** ** Further sparse operations *)

Definition palma_sparse_clone (src : option palma_sparse_t)
  : palma_handle palma_sparse_t :=
  match src with
  | None => Null PALMA_ERR_NULL_PTR
  | Some s0 =>
      match palma_sparse_create (sp_rows s0) (sp_cols s0) (sp_nnz s0)
                                (sp_semiring s0) with
      | None => Null PALMA_ERR_INVALID_DIM
      | Some dst =>
          (* three memcpy: nnz values, nnz column indices, rows + 1 pointers *)
          Handle (mkSparse (firstn (sp_nnz s0) (sp_values s0))
                           (firstn (sp_nnz s0) (sp_col_idx s0))
                           (fold_left (fun rp r => upd rp r (nth r (sp_row_ptr s0) 0%nat))
                                      (seq 0 (sp_rows s0 + 1)) (sp_row_ptr dst))
                           (sp_rows dst) (sp_cols dst) (sp_nnz s0)
                           (sp_capacity dst) (sp_semiring dst))
      end
  end.

Definition palma_sparse_add_entry (sp : option palma_sparse_t) (row col : nat)
           (val : Z) : palma_error_t * option palma_sparse_t :=
  match sp with
  | None => (PALMA_ERR_NULL_PTR, None)
  | Some s0 =>
      if (sp_rows s0 <=? row)%nat || (sp_cols s0 <=? col)%nat
      then (PALMA_ERR_INDEX_BOUNDS, sp)
      else
        let '(err, s1) := sparse_ensure_capacity s0 (sp_nnz s0 + 1) in
        match err with
        | PALMA_SUCCESS => palma_sparse_set (Some s1) row col val
        | _ => (err, Some s1)
        end
  end.

(** The state of the in-place sweep of [palma_sparse_compress]: values,
    column indices and the write index. *)
Definition compress_entry (zero : Z) (st : list Z * list nat * nat) (k : nat)
  : list Z * list nat * nat :=
  let '(values, col_idx, write_idx) := st in
  if negb (nth k values 0 =? zero)
  then (upd values write_idx (nth k values 0),
        upd col_idx write_idx (nth k col_idx 0%nat),
        S write_idx)
  else st.

Definition compress_row (zero : Z) (st : list Z * list nat * list nat * nat)
           (row : nat) : list Z * list nat * list nat * nat :=
  let '(values, col_idx, row_ptr, write_idx) := st in
  let new_row_start := write_idx in
  let lo := nth row row_ptr 0%nat in
  let hi := nth (row + 1) row_ptr 0%nat in
  let '(values', col_idx', write_idx') :=
    fold_left (compress_entry zero) (seq lo (hi - lo)) (values, col_idx, write_idx) in
  (values', col_idx', upd row_ptr row new_row_start, write_idx').

(** [palma_sparse_compress]; the entries in use after the sweep are the
    first [write_idx] ones. *)
Definition palma_sparse_compress (sp : option palma_sparse_t)
  : palma_error_t * option palma_sparse_t :=
  match sp with
  | None => (PALMA_ERR_NULL_PTR, None)
  | Some s0 =>
      let zero := palma_zero (sp_semiring s0) in
      let '(values, col_idx, row_ptr, write_idx) :=
        fold_left (compress_row zero) (seq 0 (sp_rows s0))
                  (sp_values s0, sp_col_idx s0, sp_row_ptr s0, 0%nat) in
      (PALMA_SUCCESS,
       Some (mkSparse (firstn write_idx values) (firstn write_idx col_idx)
                      (upd row_ptr (sp_rows s0) write_idx)
                      (sp_rows s0) (sp_cols s0) write_idx
                      (sp_capacity s0) (sp_semiring s0)))
  end.

Definition palma_sparse_row_nnz (sp : option palma_sparse_t) (row : nat) : nat :=
  match sp with
  | None => 0%nat
  | Some s0 =>
      if (sp_rows s0 <=? row)%nat then 0%nat
      else (nth (row + 1) (sp_row_ptr s0) 0 - nth row (sp_row_ptr s0) 0)%nat
  end.

(** [palma_sparse_matvec] with the output buffer supplied: the return code
    and the [rows] cells written. *)
Definition palma_sparse_matvec (A : option palma_sparse_t) (x : list Z)
  : palma_error_t * list Z :=
  match A with
  | None => (PALMA_ERR_NULL_PTR, [])
  | Some a =>
      let semiring := sp_semiring a in
      let zero := palma_zero semiring in
      (PALMA_SUCCESS,
       map (fun i =>
              let lo := nth i (sp_row_ptr a) 0%nat in
              let hi := nth (i + 1) (sp_row_ptr a) 0%nat in
              fold_left (fun sum k =>
                           let j := nth k (sp_col_idx a) 0%nat in
                           let prod := palma_mul (nth k (sp_values a) 0) (nth j x 0)
                                                 semiring in
                           palma_add sum prod semiring)
                        (seq lo (hi - lo)) zero)
           (seq 0 (sp_rows a)))
  end.

(** ** Further scheduler operations *)

(** [palma_scheduler_cycle_time]: the value and the last-error slot. *)
Definition palma_scheduler_cycle_time (sched : option palma_scheduler_t)
  : Z * palma_error_t :=
  match sched with
  | None => (PALMA_NEG_INF, PALMA_ERR_NULL_PTR)
  | Some sc => palma_eigenvalue (Some (sch_system sc)) (sch_semiring sc)
  end.

(** The scan for the end task: the first task whose completion time is
    the largest, task 0 when no time exceeds -∞. *)
Definition find_end_task (sc : palma_scheduler_t) : nat :=
  snd (fold_left (fun acc i =>
                    let '(max_time, end_task) := acc in
                    if max_time <? nth i (sch_state sc) 0
                    then (nth i (sch_state sc) 0, i)
                    else acc)
                 (seq 0 (sch_n_tasks sc)) (PALMA_NEG_INF, 0%nat)).

(** The scan for a predecessor of [current]: the first task [j] with an
    edge into [current] and [x[j] ⊗ A[current,j] = x[current]]. *)
Definition find_predecessor (sc : palma_scheduler_t) (current : nat) : option nat :=
  find (fun j =>
          let edge := palma_matrix_get (sch_system sc) current j in
          negb (edge =? palma_zero (sch_semiring sc))
          && (palma_mul (nth j (sch_state sc) 0) edge (sch_semiring sc)
              =? nth current (sch_state sc) 0))
       (seq 0 (sch_n_tasks sc)).

(** The backtracking loop: [temp_path] holds the tasks found so far, end
    task first; [fuel] bounds the rounds by the slots left, as the loop
    condition [len < n_tasks] does. *)
Fixpoint backtrack (sc : palma_scheduler_t) (fuel current : nat)
         (temp_path : list nat) : list nat :=
  match fuel with
  | O => temp_path
  | S fuel' =>
      match find_predecessor sc current with
      | None => temp_path
      | Some predecessor =>
          if (predecessor =? current)%nat then temp_path
          else backtrack sc fuel' predecessor (temp_path ++ [predecessor])
      end
  end.

(** [palma_scheduler_critical_path] with the output buffer supplied: the
    returned count and the [count] cells written. *)
Definition palma_scheduler_critical_path (sched : option palma_scheduler_t)
           (max_len : nat) : Z * list nat :=
  match sched with
  | None => (-1, [])
  | Some sc =>
      if (max_len =? 0)%nat then (-1, [])
      else
        let end_task := find_end_task sc in
        let temp_path := backtrack sc (sch_n_tasks sc - 1) end_task [end_task] in
        let len := length temp_path in
        let out_len := if (len <? max_len)%nat then len else max_len in
        (Z.of_nat out_len,
         map (fun i => nth (len - 1 - i) temp_path 0%nat) (seq 0 out_len))
  end.

(** ** Binary files

    A binary file is the sequence of 32-bit words that [fwrite] stores and
    [fread] returns, each given by the unsigned value of its bit pattern
    (the byte order is the host's on both sides).  Opening a file for
    writing is taken to succeed; a file that cannot be opened for reading is
    [None]. *)

Definition PALMA_BINARY_MAGIC : Z := 0x504C4D41.
Definition PALMA_BINARY_VERSION : Z := 1.

(** The bit pattern of an integer as a [uint32_t]. *)
Definition to_uint32 (z : Z) : Z := z mod 4294967296.

(** [palma_matrix_save_binary]: the return code and the words written. *)
Definition palma_matrix_save_binary (mat : option palma_matrix_t)
  : palma_error_t * list Z :=
  match mat with
  | None => (PALMA_ERR_NULL_PTR, [])
  | Some m =>
      let magic := PALMA_BINARY_MAGIC in
      let version := PALMA_BINARY_VERSION in
      let rows := to_uint32 (Z.of_nat (m_rows m)) in
      let cols := to_uint32 (Z.of_nat (m_cols m)) in
      (PALMA_SUCCESS,
       [magic; version; rows; cols]
       ++ flat_map (fun i => map (fun j => to_uint32 (palma_matrix_get m i j))
                                 (seq 0 (m_cols m)))
                   (seq 0 (m_rows m)))
  end.

(** The read loop of [palma_matrix_load_binary]: [nrows] rows left, row [i]
    next; [None] when [fread] returns fewer than [cols] words. *)
Fixpoint load_rows (mat : palma_matrix_t) (cols nrows i : nat) (words : list Z)
  : option palma_matrix_t :=
  match nrows with
  | O => Some mat
  | S nrows' =>
      if (length words <? cols)%nat then None
      else
        let row := firstn cols words in
        let mat' := fold_left (fun m j => palma_matrix_set m i j (wrap32 (nth j row 0)))
                              (seq 0 cols) mat in
        load_rows mat' cols nrows' (S i) (skipn cols words)
  end.

Definition palma_matrix_load_binary (file : option (list Z))
  : palma_handle palma_matrix_t :=
  match file with
  | None => Null PALMA_ERR_FILE_OPEN
  | Some (magic :: version :: rows :: cols :: data) =>
      if negb (magic =? PALMA_BINARY_MAGIC) then Null PALMA_ERR_FILE_FORMAT
      else
        match palma_matrix_create (Z.to_nat rows) (Z.to_nat cols) with
        | None => Null PALMA_ERR_INVALID_DIM
        | Some mat =>
            match load_rows mat (Z.to_nat cols) (Z.to_nat rows) 0 data with
            | Some m => Handle m
            | None => Null PALMA_ERR_FILE_READ
            end
        end
  | Some _ => Null PALMA_ERR_FILE_READ
  end.

(** ** Sparse product and sparse closure *)

(** The innermost loop body of [palma_sparse_mul]: entry [kb] of a row of B
    against the entry [a_ik] of A. *)
Definition sparse_mul_accumulate (B : palma_sparse_t) (semiring : palma_semiring_t)
           (a_ik : Z) (row_vals : list Z) (kb : nat) : list Z :=
  let j := nth kb (sp_col_idx B) 0%nat in
  let b_kj := nth kb (sp_values B) 0 in
  let prod := palma_mul a_ik b_kj semiring in
  upd row_vals j (palma_add (nth j row_vals 0) prod semiring).

(** The accumulator [row_vals] for row [i] of the product. *)
Definition sparse_mul_row_vals (A B : palma_sparse_t) (semiring : palma_semiring_t)
           (zero : Z) (i : nat) : list Z :=
  fold_left (fun row_vals ka =>
               let k := nth ka (sp_col_idx A) 0%nat in
               let a_ik := nth ka (sp_values A) 0 in
               fold_left (sparse_mul_accumulate B semiring a_ik)
                         (seq (nth k (sp_row_ptr B) 0%nat)
                              (nth (k + 1) (sp_row_ptr B) 0 - nth k (sp_row_ptr B) 0)%nat)
                         row_vals)
            (seq (nth i (sp_row_ptr A) 0%nat)
                 (nth (i + 1) (sp_row_ptr A) 0 - nth i (sp_row_ptr A) 0)%nat)
            (repeat zero (sp_cols B)).

(** The store loop body: append the accumulated cell [j] when it is not ε.
    The return code of [sparse_ensure_capacity] is not looked at. *)
Definition sparse_mul_store (zero : Z) (row_vals : list Z) (C : palma_sparse_t)
           (j : nat) : palma_sparse_t :=
  if negb (nth j row_vals 0 =? zero) then
    let C1 := snd (sparse_ensure_capacity C (sp_nnz C + 1)) in
    mkSparse (sp_values C1 ++ [nth j row_vals 0]) (sp_col_idx C1 ++ [palma_idx j])
             (sp_row_ptr C1) (sp_rows C1) (sp_cols C1) (S (sp_nnz C1))
             (sp_capacity C1) (sp_semiring C1)
  else C.

(** The loop body over the rows of A. *)
Definition sparse_mul_row (A B : palma_sparse_t) (semiring : palma_semiring_t)
           (zero : Z) (C : palma_sparse_t) (i : nat) : palma_sparse_t :=
  let C0 := mkSparse (sp_values C) (sp_col_idx C)
                     (upd (sp_row_ptr C) i (palma_idx (sp_nnz C)))
                     (sp_rows C) (sp_cols C) (sp_nnz C) (sp_capacity C)
                     (sp_semiring C) in
  let row_vals := sparse_mul_row_vals A B semiring zero i in
  fold_left (sparse_mul_store zero row_vals) (seq 0 (sp_cols B)) C0.

Definition palma_sparse_mul (A B : option palma_sparse_t)
  : palma_handle palma_sparse_t :=
  match A, B with
  | Some a, Some b =>
      if negb (sp_cols a =? sp_rows b)%nat
         || negb (semiring_eqb (sp_semiring a) (sp_semiring b))
      then Null PALMA_ERR_INVALID_DIM
      else
        let semiring := sp_semiring a in
        let zero := palma_zero semiring in
        let est_nnz := ((sp_nnz a + sp_nnz b) * 2)%nat in
        let est_nnz := if (sp_rows a * sp_cols b <? est_nnz)%nat
                       then (sp_rows a * sp_cols b)%nat else est_nnz in
        match palma_sparse_create (sp_rows a) (sp_cols b) est_nnz semiring with
        | None => Null PALMA_ERR_INVALID_DIM
        | Some C =>
            let C := fold_left (sparse_mul_row a b semiring zero)
                               (seq 0 (sp_rows a)) C in
            Handle (mkSparse (sp_values C) (sp_col_idx C)
                             (upd (sp_row_ptr C) (sp_rows a) (palma_idx (sp_nnz C)))
                             (sp_rows C) (sp_cols C) (sp_nnz C) (sp_capacity C)
                             (sp_semiring C))
        end
  | _, _ => Null PALMA_ERR_NULL_PTR
  end.

(** [palma_sparse_closure]: to dense, dense closure, back to sparse. *)
Definition palma_sparse_closure (A : option palma_sparse_t)
  : palma_handle palma_sparse_t :=
  match A with
  | None => Null PALMA_ERR_NULL_PTR
  | Some a =>
      if negb (sp_rows a =? sp_cols a)%nat then Null PALMA_ERR_NOT_SQUARE
      else
        match palma_sparse_to_dense A with
        | None => Null PALMA_ERR_INVALID_DIM
        | Some dense =>
            match palma_matrix_closure (Some dense) (sp_semiring a) with
            | Null err => Null err
            | Handle closure =>
                match palma_sparse_from_dense (Some closure) (sp_semiring a) with
                | None => Null PALMA_ERR_INVALID_DIM
                | Some result => Handle result
                end
            end
        end
  end.

(** ** Scenarios used by the statements below *)

(** Scenario D: two 2-cycles through node 0, [0 <-> 1] of mean 4 and
    [0 <-> 2] of mean 3. *)
Definition two_cycles : palma_matrix_t :=
  let e := PALMA_NEG_INF in
  matrix_of_rows [[e; 5; 4];
                  [3; e; e];
                  [2; e; e]].

(** Scenario C: the 3-cycle with weights 5, 3, 4. *)
Definition three_cycle : palma_matrix_t :=
  let e := PALMA_NEG_INF in
  matrix_of_rows [[e; e; 4];
                  [5; e; e];
                  [e; 3; e]].

(** A square matrix built the way the example programs build theirs:
    [palma_matrix_create_zero] followed by one [palma_matrix_set] per
    entry (row, column, value). *)
Definition matrix_build (n : nat) (s : palma_semiring_t)
           (entries : list (nat * nat * Z)) : option palma_matrix_t :=
  match palma_matrix_create_zero n n s with
  | None => None
  | Some mat =>
      Some (fold_left (fun m e => palma_matrix_set m (fst (fst e)) (snd (fst e)) (snd e))
                      entries mat)
  end.

(** Scenario D as [example_eigenvalue.c] builds it. *)
Definition two_cycles_built : option palma_matrix_t :=
  matrix_build 3 PALMA_MAXPLUS
               [(1%nat, 0%nat, 3); (0%nat, 1%nat, 5); (2%nat, 0%nat, 2); (0%nat, 2%nat, 4)].

(** Scenario C built entry by entry. *)
Definition three_cycle_built : option palma_matrix_t :=
  matrix_build 3 PALMA_MAXPLUS
               [(1%nat, 0%nat, 5); (2%nat, 1%nat, 3); (0%nat, 2%nat, 4)].

(** Scenario B: the boot schedule, built through the scheduler interface.
    Each step returns its code together with the scheduler. *)
Definition add_constraint_ok (sched : option palma_scheduler_t)
           (from to : nat) (duration : Z) : option palma_scheduler_t :=
  match palma_scheduler_add_constraint sched from to duration with
  | (PALMA_SUCCESS, sched') => sched'
  | _ => None
  end.

Definition boot_schedule : option palma_scheduler_t :=
  let s := palma_scheduler_create 6 true in
  let s := add_constraint_ok s 0 1 10 in
  let s := add_constraint_ok s 1 2 20 in
  let s := add_constraint_ok s 1 3 20 in
  let s := add_constraint_ok s 1 4 20 in
  let s := add_constraint_ok s 2 5 15 in
  let s := add_constraint_ok s 3 5 25 in
  let s := add_constraint_ok s 4 5 30 in
  match palma_scheduler_set_ready_time s 0 0 with
  | (PALMA_SUCCESS, s') => s'
  | _ => None
  end.


(** A 1x1 matrix whose only entry is +∞. *)
Definition loop_inf : palma_matrix_t := matrix_of_rows [[PALMA_POS_INF]].

(** A 2x2 matrix with a self-loop of weight 2 at each node and the entry
    (1,0) = 1. *)
Definition lower_pair : palma_matrix_t :=
  matrix_of_rows [[2; PALMA_NEG_INF];
                  [1; 2]].

(** A 3x3 matrix with finite entries close to the ends of the range: a
    self-loop of weight 2147483646 at node 0 and the entry (0,1) =
    -2147483647. *)
Definition steep_pair : palma_matrix_t :=
  let e := PALMA_NEG_INF in
  matrix_of_rows [[2147483646; -2147483647; e];
                  [e; e; e];
                  [e; e; e]].

(** A 2x2 matrix with a self-loop of weight 10 at node 0 and one very
    negative entry in row 1. *)
Definition deep_edge : palma_matrix_t :=
  matrix_of_rows [[10; PALMA_NEG_INF];
                  [-2147483643; PALMA_NEG_INF]].

(** * Definitions used by the statements

    Specification-side functions, validity predicates and sample inputs. *)

(** ** Saturation *)

(** The clamp of an exact sum to the 32-bit range. *)
Definition clamp32 (z : Z) : Z := Z.max INT32_MIN (Z.min INT32_MAX z).

(** ** Karp's rule *)


(** The rule for (max,+) as the specification words it, to be compared
    with [palma_eigenvalue].  D[k][v] = ⊕ᵤ (D[k−1][u] ⊗ A[u,v]), from the
    row D[k−1]. *)
Definition karp_spec_step (A : palma_matrix_t) (n : nat) (prev : list Z) : list Z :=
  map (fun v =>
         fold_left (fun acc u =>
                      palma_add acc
                                (palma_mul (nth u prev 0) (palma_matrix_get A u v)
                                           PALMA_MAXPLUS)
                                PALMA_MAXPLUS)
                   (seq 0 n) (palma_zero PALMA_MAXPLUS))
      (seq 0 n).

(** The row D[k]; D[0][v] = e. *)
Fixpoint karp_spec_row (A : palma_matrix_t) (n k : nat) : list Z :=
  match k with
  | O => repeat (palma_one PALMA_MAXPLUS) n
  | S k' => karp_spec_step A n (karp_spec_row A n k')
  end.

Definition karp_spec_D (A : palma_matrix_t) (k v : nat) : Z :=
  nth v (karp_spec_row A (m_rows A) k) 0.

Definition z_min_list (l : list Z) : option Z :=
  match l with
  | [] => None
  | h :: t => Some (fold_left Z.min t h)
  end.

Definition z_max_list (l : list Z) : option Z :=
  match l with
  | [] => None
  | h :: t => Some (fold_left Z.max t h)
  end.

(** The quotients (D[n][v] − D[k][v]) / (n − k) for k in [0, n), division
    truncating toward zero, entries D[k][v] = ε skipped. *)
Definition karp_spec_means (A : palma_matrix_t) (v : nat) : list Z :=
  let n := m_rows A in
  map (fun k => Z.quot (karp_spec_D A n v - karp_spec_D A k v) (Z.of_nat (n - k)))
      (filter (fun k => negb (karp_spec_D A k v =? palma_zero PALMA_MAXPLUS))
              (seq 0 n)).

(** The nodes that take part in the outer maximum: D[n][v] is not ε. *)
Definition karp_spec_nodes (A : palma_matrix_t) : list nat :=
  filter (fun v => negb (karp_spec_D A (m_rows A) v =? palma_zero PALMA_MAXPLUS))
         (seq 0 (m_rows A)).

(** λ = maxᵥ minₖ (D[n][v] − D[k][v]) / (n − k); -∞ when no node takes part. *)
Definition karp_spec (A : palma_matrix_t) : Z :=
  let mins := flat_map (fun v => match z_min_list (karp_spec_means A v) with
                                 | Some m => [m]
                                 | None => []
                                 end)
                       (karp_spec_nodes A) in
  match z_max_list mins with
  | Some m => m
  | None => PALMA_NEG_INF
  end.

(** Every quotient that enters the rule is a 32-bit value below +∞. *)
Definition mean_in_range (m : Z) : bool := (INT32_MIN <=? m) && (m <? INT32_MAX).

Definition karp_means_in_range (A : palma_matrix_t) : bool :=
  forallb (fun v => forallb mean_in_range (karp_spec_means A v))
          (karp_spec_nodes A).

(** ** Storage formats *)

(** A valid CSR matrix: the arrays have the lengths the header announces,
    the capacity is positive and covers the entries, [row_ptr] starts at 0,
    ends at [nnz] and does not decrease, the column indices of each row
    ascend strictly, and they lie inside the matrix. *)
Record csr_valid (sp : palma_sparse_t) : Prop := mkCsrValid {
  csr_row_ptr_length : length (sp_row_ptr sp) = (sp_rows sp + 1)%nat;
  csr_values_length : length (sp_values sp) = sp_nnz sp;
  csr_col_idx_length : length (sp_col_idx sp) = sp_nnz sp;
  csr_capacity : (0 < sp_capacity sp /\ sp_nnz sp <= sp_capacity sp)%nat;
  csr_row_ptr_first : nth 0 (sp_row_ptr sp) 0%nat = 0%nat;
  csr_row_ptr_last : nth (sp_rows sp) (sp_row_ptr sp) 0%nat = sp_nnz sp;
  csr_row_ptr_mono :
    forall r, (r < sp_rows sp)%nat ->
              (nth r (sp_row_ptr sp) 0 <= nth (r + 1) (sp_row_ptr sp) 0)%nat;
  csr_cols_ascending :
    forall r k, (r < sp_rows sp)%nat ->
                (nth r (sp_row_ptr sp) 0 <= k)%nat ->
                (k + 1 < nth (r + 1) (sp_row_ptr sp) 0)%nat ->
                (nth k (sp_col_idx sp) 0 < nth (k + 1) (sp_col_idx sp) 0)%nat;
  csr_cols_bounded :
    forall k, (k < sp_nnz sp)%nat -> (nth k (sp_col_idx sp) 0 < sp_cols sp)%nat
}.

(** A 2x3 (max,+) matrix with the entries (0,1) = 5 and (1,2) = 7. *)
Definition small_csr : palma_sparse_t :=
  mkSparse [5; 7] [1; 2]%nat [0; 1; 2]%nat 2 3 2 2 PALMA_MAXPLUS.

(** A valid 3x3 (max,+) matrix with rows {1 ↦ 5, 2 ↦ 4}, {0 ↦ 3, 2 ↦ 7}, {}. *)
Definition sample_csr : palma_sparse_t :=
  mkSparse [5; 4; 3; 7] [1; 2; 0; 2]%nat [0; 2; 4; 4]%nat 3 3 4 4 PALMA_MAXPLUS.

(** A well-formed dense matrix: rows of [stride >= cols] cells, and a buffer
    of [rows * stride] cells. *)
Definition dense_wf (d : palma_matrix_t) : Prop :=
  (m_cols d <= m_stride d)%nat /\ length (m_data d) = (m_rows d * m_stride d)%nat.

(** The stores of [palma_sparse_to_dense] for the entries [ks] of row [i]. *)
Definition row_writes (sp : palma_sparse_t) (i : nat) (ks : list nat)
           (d : palma_matrix_t) : palma_matrix_t :=
  fold_left (fun d k => palma_matrix_set d i (nth k (sp_col_idx sp) 0%nat)
                                         (nth k (sp_values sp) 0))
            ks d.

(** The entries of row [i]. *)
Definition row_range (sp : palma_sparse_t) (i : nat) : list nat :=
  seq (nth i (sp_row_ptr sp) 0%nat)
      (nth (i + 1) (sp_row_ptr sp) 0%nat - nth i (sp_row_ptr sp) 0%nat)%nat.

(** The stores for the rows [rws]. *)
Definition dense_writes (sp : palma_sparse_t) (rws : list nat)
           (d : palma_matrix_t) : palma_matrix_t :=
  fold_left (fun d i => row_writes sp i (row_range sp i) d) rws d.

(** The columns among [l] whose cell in row [i] is not [zero]. *)
Definition dense_row_filter (dense : palma_matrix_t) (zero : Z) (i : nat)
           (l : list nat) : list nat :=
  filter (fun j => negb (palma_matrix_get dense i j =? zero)) l.

(** The columns of row [i] whose cell is not [zero], in ascending order. *)
Definition dense_row_cols (dense : palma_matrix_t) (zero : Z) (i : nat) : list nat :=
  dense_row_filter dense zero i (seq 0 (m_cols dense)).

(** Their values. *)
Definition dense_row_vals (dense : palma_matrix_t) (zero : Z) (i : nat) : list Z :=
  map (palma_matrix_get dense i) (dense_row_cols dense zero i).

(** The number of entries in the rows before row [r]. *)
Definition dense_offset (dense : palma_matrix_t) (zero : Z) (r : nat) : nat :=
  length (flat_map (dense_row_cols dense zero) (seq 0 r)).

(** The CSR image of a dense matrix: the entries that are not [zero], row
    by row in ascending column order, and the row pointers that count
    them. *)
Record csr_image (dense : palma_matrix_t) (zero : Z) (s : palma_semiring_t)
       (sp : palma_sparse_t) : Prop := mkCsrImage {
  img_values :
    sp_values sp = flat_map (dense_row_vals dense zero) (seq 0 (m_rows dense));
  img_col_idx :
    sp_col_idx sp = flat_map (dense_row_cols dense zero) (seq 0 (m_rows dense));
  img_rows : sp_rows sp = m_rows dense;
  img_cols : sp_cols sp = m_cols dense;
  img_nnz : sp_nnz sp = dense_offset dense zero (m_rows dense);
  img_semiring : sp_semiring sp = s;
  img_capacity : (0 < sp_capacity sp /\ sp_nnz sp <= sp_capacity sp)%nat;
  img_row_ptr_length : length (sp_row_ptr sp) = (m_rows dense + 1)%nat;
  img_row_ptr :
    forall r, (r <= m_rows dense)%nat ->
              nth r (sp_row_ptr sp) 0%nat = dense_offset dense zero r
}.

(** A dense matrix whose CSR image [palma_idx_t] can hold: every cell that
    is not [zero] lies in a column below 2^32, and there are fewer than 2^32
    of them. *)
Definition dense_fits_idx (dense : palma_matrix_t) (zero : Z) : Prop :=
  (forall i j, (i < m_rows dense)%nat -> (j < m_cols dense)%nat ->
               palma_matrix_get dense i j <> zero -> Z.of_nat j < 4294967296) /\
  Z.of_nat (count_nonzero dense zero) < 4294967296.

(** The index arrays of a CSR matrix hold [palma_idx_t] values: the stored
    column indices and the entry count, which [row_ptr[rows]] holds, are
    below 2^32.  The type of the arrays gives this to the C code; the lists
    of the model do not carry it. *)
Definition csr_fits_idx (sp : palma_sparse_t) : Prop :=
  (forall k, (k < sp_nnz sp)%nat ->
             Z.of_nat (nth k (sp_col_idx sp) 0%nat) < 4294967296) /\
  Z.of_nat (sp_nnz sp) < 4294967296.

(** Two sparse matrices with the same content; the allocated capacity is
    not part of it. *)
Definition csr_same (a b : palma_sparse_t) : Prop :=
  sp_values a = sp_values b /\ sp_col_idx a = sp_col_idx b /\
  sp_row_ptr a = sp_row_ptr b /\ sp_rows a = sp_rows b /\
  sp_cols a = sp_cols b /\ sp_nnz a = sp_nnz b /\
  sp_semiring a = sp_semiring b.

(** A compressed matrix stores no ε. *)
Definition csr_compressed (sp : palma_sparse_t) : Prop :=
  forall k, (k < sp_nnz sp)%nat ->
            nth k (sp_values sp) 0 <> palma_zero (sp_semiring sp).

(** ** Scalars of a semiring *)

(** The scalars a semiring is meant for: 32-bit values, and only the truth
    values 0 and 1 in the Boolean semiring. *)
Definition sr_scalar (s : palma_semiring_t) (a : Z) : Prop :=
  is_int32 a /\ (s = PALMA_BOOLEAN -> a = 0 \/ a = 1).

(** The scalars that ε absorbs from the left: in (min,+) the operand -∞
    escapes ε (its test comes first in [palma_mul]). *)
Definition absorbed (s : palma_semiring_t) (a : Z) : Prop :=
  is_int32 a /\ (s = PALMA_MINPLUS -> a <> PALMA_NEG_INF).

(** ** Dense loops *)

(** The loop nest that stores [g i j] in every cell of the first [nr] rows
    and [nc] columns: the shape of the store loops of the dense product, the
    dense sum, the clone and the Boolean conversion. *)
Definition fill_cells (g : nat -> nat -> Z) (nr nc : nat) (c : palma_matrix_t)
  : palma_matrix_t :=
  fold_left (fun c i => fold_left (fun c j => palma_matrix_set c i j (g i j))
                                  (seq 0 nc) c)
            (seq 0 nr) c.

(** A strided 2x3 matrix: rows [1 2 3] and [4 5 6] in rows of four cells. *)
Definition strided_2x3 : palma_matrix_t :=
  mkMatrix [1; 2; 3; 99; 4; 5; 6; 99] 2 3 4.

(** ** Dense algebra *)

(** A matrix over the scalars of the semiring, all of which ε absorbs. *)
Definition sr_matrix (s : palma_semiring_t) (A : palma_matrix_t) : Prop :=
  forall i j, (i < m_rows A)%nat -> (j < m_cols A)%nat ->
              sr_scalar s (palma_matrix_get A i j) /\
              absorbed s (palma_matrix_get A i j).

(** [a ≤ b] in the order of the semiring: [b] absorbs [a] under ⊕. *)
Definition sr_le (s : palma_semiring_t) (a b : Z) : Prop := palma_add a b s = b.

(** A square matrix of dimension [n] whose cell (i,j) satisfies [P i j]. *)
Definition cells_inv (P : nat -> nat -> Z -> Prop) (n : nat) (D : palma_matrix_t)
  : Prop :=
  dense_wf D /\ m_rows D = n /\ m_cols D = n /\
  forall i j, (i < n)%nat -> (j < n)%nat -> P i j (palma_matrix_get D i j).

(** A 2x2 (min,+) distance matrix. *)
Definition two_hops : palma_matrix_t := matrix_of_rows [[PALMA_POS_INF; 4]; [1; PALMA_POS_INF]].

(** ** Closure and reachability *)

(** The edge test of [palma_reachability]: a cell that is neither -∞ nor
    +∞. *)
Definition has_edge (adj : palma_matrix_t) (i j : nat) : Prop :=
  palma_matrix_get adj i j <> PALMA_NEG_INF /\
  palma_matrix_get adj i j <> PALMA_POS_INF.

(** [j] is reached from [i] along edges of [adj] through nodes below [n]. *)
Inductive reachable (adj : palma_matrix_t) (n : nat) : nat -> nat -> Prop :=
| reach_here (i : nat) : reachable adj n i i
| reach_step (i m j : nat) :
    (m < n)%nat -> has_edge adj i m -> reachable adj n m j -> reachable adj n i j.

(** Walks over a relation [E] whose intermediate nodes are all below [k]. *)
Inductive walk (E : nat -> nat -> Prop) (k : nat) : nat -> nat -> Prop :=
| walk_edge (i j : nat) : E i j -> walk E k i j
| walk_via (i m j : nat) :
    (m < k)%nat -> walk E k i m -> walk E k m j -> walk E k i j.

(** The relation stored in the Boolean matrix that [palma_reachability]
    closes: an edge, or the diagonal. *)
Definition bool_edge (adj : palma_matrix_t) (n : nat) (i j : nat) : Prop :=
  (i < n)%nat /\ (j < n)%nat /\ (i = j \/ has_edge adj i j).

(** A chain 0 → 1 → 2 with weights 3 and 0, in (max,+) notation. *)
Definition chain3 : palma_matrix_t :=
  matrix_of_rows [[PALMA_NEG_INF; 3; PALMA_NEG_INF];
                  [PALMA_NEG_INF; PALMA_NEG_INF; 0];
                  [PALMA_NEG_INF; PALMA_NEG_INF; PALMA_NEG_INF]].

(** ** Vectors *)

(** Row [i] of a dense matrix as a vector. *)
Definition matrix_row (A : palma_matrix_t) (i : nat) : list Z :=
  map (palma_matrix_get A i) (seq 0 (m_cols A)).

(** The unit vector of dimension [n] at [source]: e there, ε elsewhere. *)
Definition unit_vector (s : palma_semiring_t) (n source : nat) : list Z :=
  upd (repeat (palma_zero s) n) source (palma_one s).

(** A 2x3 matrix, not square. *)
Definition wide_2x3 : palma_matrix_t := matrix_of_rows [[1; 2; 3]; [4; 5; 6]].

(** The entry-wise ⊕ of two vectors. *)
Definition vec_add (s : palma_semiring_t) (x y : list Z) : list Z :=
  map (fun i => palma_add (nth i x 0) (nth i y 0) s) (seq 0 (length x)).

(** ** Entries of a sparse matrix *)

(** Row [i] stores the value [v] for column [j]. *)
Definition csr_entry (sp : palma_sparse_t) (i j : nat) (v : Z) : Prop :=
  exists k, In k (row_range sp i) /\
            nth k (sp_col_idx sp) 0%nat = j /\ nth k (sp_values sp) 0 = v.

(** ** Compression *)

(** The positions below [n] whose value is not [zero], in ascending order:
    the entries [palma_sparse_compress] retains. *)
Definition kept (values : list Z) (zero : Z) (n : nat) : list nat :=
  filter (fun k => negb (nth k values 0 =? zero)) (seq 0 n).

(** The state of the sweep of [palma_sparse_compress] after the entries
    below [K]: the retained entries are in the first [w] slots, the other
    slots from [K] on are as in the original arrays [V0], [C0]. *)
Definition compress_inv (V0 : list Z) (C0 : list nat) (zero : Z) (K : nat)
           (values : list Z) (col_idx : list nat) (w : nat) : Prop :=
  length values = length V0 /\ length col_idx = length C0 /\
  w = length (kept V0 zero K) /\
  (forall t, (t < w)%nat ->
             nth t values 0 = nth (nth t (kept V0 zero K) 0%nat) V0 0 /\
             nth t col_idx 0%nat = nth (nth t (kept V0 zero K) 0%nat) C0 0%nat) /\
  (forall k, (K <= k)%nat ->
             nth k values 0 = nth k V0 0 /\ nth k col_idx 0%nat = nth k C0 0%nat).

(** A valid 2x3 (max,+) matrix that stores an ε: rows {0 ↦ ε, 2 ↦ 4} and
    {1 ↦ 6}. *)
Definition padded_csr : palma_sparse_t :=
  mkSparse [PALMA_NEG_INF; 4; 6] [0; 2; 1]%nat [0; 2; 3]%nat 2 3 3 4 PALMA_MAXPLUS.

(** ** Schedulers *)

(** A scheduler as [palma_scheduler_create] lays it out: a well-formed
    square system matrix and two vectors of the dimension. *)
Definition sched_wf (sc : palma_scheduler_t) : Prop :=
  dense_wf (sch_system sc) /\
  m_rows (sch_system sc) = sch_n_tasks sc /\
  m_cols (sch_system sc) = sch_n_tasks sc /\
  length (sch_state sc) = sch_n_tasks sc /\
  length (sch_input sc) = sch_n_tasks sc.

(** The first [n] entries of a vector are 32-bit values. *)
Definition int32_vector (n : nat) (x : list Z) : Prop :=
  forall i, (i < n)%nat -> is_int32 (nth i x 0).

(** Task [pred] is a tight predecessor of task [cur]: there is a constraint
    from [pred] to [cur], and it determines the time of [cur]. *)
Definition tight (sc : palma_scheduler_t) (pred cur : nat) : Prop :=
  palma_matrix_get (sch_system sc) cur pred <> palma_zero (sch_semiring sc) /\
  palma_mul (nth pred (sch_state sc) 0) (palma_matrix_get (sch_system sc) cur pred)
            (sch_semiring sc)
  = nth cur (sch_state sc) 0.

(** Two tasks: task 0 is ready at time 0, task 1 starts 5 after task 0. *)
Definition tiny_sched : palma_scheduler_t :=
  mkSched (matrix_of_rows [[PALMA_NEG_INF; PALMA_NEG_INF]; [5; PALMA_NEG_INF]])
          [0; PALMA_NEG_INF] [0; PALMA_NEG_INF] 2 PALMA_MAXPLUS.

(** The same scheduler after [palma_scheduler_solve]. *)
Definition tiny_sched_solved : palma_scheduler_t :=
  mkSched (matrix_of_rows [[PALMA_NEG_INF; PALMA_NEG_INF]; [5; PALMA_NEG_INF]])
          [0; 5] [0; PALMA_NEG_INF] 2 PALMA_MAXPLUS.

(** ** Cycles *)

(** Node [i] lies on a cycle of length one or two: some [j] has an edge
    from [i] and an edge back ([j = i] for a self-loop). *)
Definition on_short_cycle (A : palma_matrix_t) (s : palma_semiring_t) (i : nat) : Prop :=
  exists j, (j < m_rows A)%nat /\
            palma_matrix_get A i j <> palma_zero s /\
            palma_matrix_get A j i <> palma_zero s.

(** Every edge leads to a node of larger index: the cells on and below the
    diagonal are ε.  Such a graph has no cycle. *)
Definition strictly_upper (A : palma_matrix_t) (s : palma_semiring_t) : Prop :=
  forall u v, (u < m_rows A)%nat -> (v < m_rows A)%nat -> (v <= u)%nat ->
              palma_matrix_get A u v = palma_zero s.

(** ** Binary files *)

(** The words of row [i] of a matrix in a binary file. *)
Definition row_words (m : palma_matrix_t) (i : nat) : list Z :=
  map (fun j => to_uint32 (palma_matrix_get m i j)) (seq 0 (m_cols m)).

(** ** Sparse product *)

(** The arrays and the entry count of a sparse matrix, as the filling pass
    of [palma_sparse_from_dense] threads them. *)
Definition csr_state (C : palma_sparse_t) : fill_state :=
  (sp_values C, sp_col_idx C, sp_row_ptr C, sp_nnz C).

(** A sparse matrix under construction with the state [st], of the given
    dimensions and semiring, whose capacity covers its entries. *)
Definition csr_building (rows cols : nat) (s : palma_semiring_t)
           (C : palma_sparse_t) (st : fill_state) : Prop :=
  csr_state C = st /\ sp_rows C = rows /\ sp_cols C = cols /\ sp_semiring C = s /\
  (0 < sp_capacity C)%nat /\ (sp_nnz C <= sp_capacity C)%nat.

(** A 3x2 (max,+) matrix with rows {0 ↦ 1}, {1 ↦ 2}, {0 ↦ 3, 1 ↦ 4}. *)
Definition tall_csr : palma_sparse_t :=
  mkSparse [1; 2; 3; 4] [0; 1; 0; 1]%nat [0; 1; 2; 4]%nat 3 2 4 4 PALMA_MAXPLUS.

(** ** Indices beyond [palma_idx_t] *)

(** 2^32, the number of values of [palma_idx_t]; a column index five places
    beyond it; and a column count of 2^33. *)
Definition idx_span : nat := Z.to_nat 4294967296.
Definition far_col : nat := Z.to_nat 4294967301.
Definition wide_cols : nat := Z.to_nat 8589934592.

(** The matrix with one row of [cols] columns that
    [palma_sparse_create (1, cols, 0)] and [palma_sparse_set (0, 5, 1)]
    leave: one entry, at column 5. *)
Definition wide_row (cols : nat) : palma_sparse_t :=
  mkSparse [1] [5]%nat [0; 1]%nat 1 cols 1 16 PALMA_MAXPLUS.

(** A dense row of [n + 4] cells, ε everywhere but for a 7 at column [n],
    with the stride that [palma_matrix_create] gives a column count that is
    a multiple of 4. *)
Definition long_row (n : nat) : palma_matrix_t :=
  mkMatrix (repeat PALMA_NEG_INF n
            ++ [7; PALMA_NEG_INF; PALMA_NEG_INF; PALMA_NEG_INF])
           1 (n + 4) (n + 4).

(** * Properties *)

(** Case analysis on every comparison of naturals in the goal. *)
Ltac nat_cases :=
  repeat match goal with
         | |- context [(?a <=? ?b)%nat] => destruct (Nat.leb_spec a b)
         | |- context [(?a <? ?b)%nat] => destruct (Nat.ltb_spec a b)
         | |- context [(?a =? ?b)%nat] => destruct (Nat.eqb_spec a b)
         end;
  cbn [andb orb negb]; try reflexivity; try lia.

(** ** Scalars and the semiring kernel *)

Lemma wrap32_id (z : Z) : is_int32 z -> wrap32 z = z.
Proof.
  unfold is_int32, wrap32, INT32_MIN, INT32_MAX. intros H.
  rewrite Z.mod_small by lia. lia.
Qed.

Lemma wrap32_range (z : Z) : is_int32 (wrap32 z).
Proof.
  unfold is_int32, wrap32, INT32_MIN, INT32_MAX.
  pose proof (Z.mod_pos_bound (z + 2147483648) 4294967296 ltac:(lia)). lia.
Qed.

Lemma semiring_eqb_eq (s t : palma_semiring_t) : semiring_eqb s t = true <-> s = t.
Proof. destruct s, t; simpl; split; intros H; congruence. Qed.

(** Absorption holds in every case but one: (min,+) with left operand -∞. *)
Lemma palma_mul_zero_absorbs (s : palma_semiring_t) (a : Z) :
  is_int32 a ->
  s <> PALMA_MINPLUS \/ a <> PALMA_NEG_INF ->
  palma_mul a (palma_zero s) s = palma_zero s.
Proof.
  unfold is_int32, INT32_MIN, INT32_MAX. intros R H.
  destruct s; cbn [palma_mul palma_zero].
  - rewrite Z.eqb_refl, orb_true_r. reflexivity.
  - destruct (a =? PALMA_NEG_INF) eqn:E.
    + apply Z.eqb_eq in E. destruct H; congruence.
    + cbn [orb]. rewrite Z.eqb_refl, orb_true_r.
      destruct (PALMA_POS_INF =? PALMA_NEG_INF) eqn:E'; [discriminate E'|reflexivity].
  - unfold PALMA_NEG_INF, INT32_MIN.
    destruct (a <? -2147483648) eqn:E; [apply Z.ltb_lt in E; lia | reflexivity].
  - unfold PALMA_POS_INF, INT32_MAX.
    destruct (2147483647 <? a) eqn:E; [apply Z.ltb_lt in E; lia | reflexivity].
  - unfold truthy. cbn. rewrite andb_false_r. reflexivity.
Qed.

(** C3 (defect at the stated instance): in (min,+), where ε = +∞, the
    product of -∞ and ε is -∞ and not ε: [palma_mul] tests its operands
    against -∞ before it tests them against +∞, for (max,+) and (min,+)
    alike. *)
Theorem palma_mul_minplus_neg_inf_escapes_zero :
  palma_zero PALMA_MINPLUS = PALMA_POS_INF /\
  palma_mul PALMA_NEG_INF (palma_zero PALMA_MINPLUS) PALMA_MINPLUS = PALMA_NEG_INF /\
  palma_mul PALMA_NEG_INF (palma_zero PALMA_MINPLUS) PALMA_MINPLUS
    <> palma_zero PALMA_MINPLUS.
Proof. repeat split. intros H. discriminate H. Qed.

(** C6: for (max,+) and (min,+), [palma_mul] on two operands that are not
    sentinels is the exact sum clamped to the 32-bit range: a sum above
    INT32_MAX gives +∞, a sum below INT32_MIN gives -∞, and the result never
    leaves the range; and the three literal cases of the saturation rule. *)
Theorem palma_mul_saturating_clamp (s : palma_semiring_t) (a b : Z) :
  s = PALMA_MAXPLUS \/ s = PALMA_MINPLUS ->
  INT32_MIN < a < INT32_MAX ->
  INT32_MIN < b < INT32_MAX ->
  palma_mul a b s = clamp32 (a + b) /\
  (INT32_MAX < a + b -> palma_mul a b s = PALMA_POS_INF) /\
  (a + b < INT32_MIN -> palma_mul a b s = PALMA_NEG_INF) /\
  (INT32_MIN <= a + b <= INT32_MAX -> palma_mul a b s = a + b) /\
  palma_mul PALMA_POS_INF 1 s = PALMA_POS_INF /\
  palma_mul INT32_MAX 1 s = PALMA_POS_INF /\
  palma_mul (INT32_MIN + 1) (-2) s = PALMA_NEG_INF.
Proof.
  intros Hs Ha Hb.
  assert (E : palma_mul a b s =
              if INT32_MAX <? a + b then PALMA_POS_INF
              else if a + b <? INT32_MIN then PALMA_NEG_INF else a + b).
  { assert (Ea : (a =? PALMA_NEG_INF) = false) by (apply Z.eqb_neq; unfold PALMA_NEG_INF; lia).
    assert (Eb : (b =? PALMA_NEG_INF) = false) by (apply Z.eqb_neq; unfold PALMA_NEG_INF; lia).
    assert (Ea' : (a =? PALMA_POS_INF) = false) by (apply Z.eqb_neq; unfold PALMA_POS_INF; lia).
    assert (Eb' : (b =? PALMA_POS_INF) = false) by (apply Z.eqb_neq; unfold PALMA_POS_INF; lia).
    destruct Hs; subst s; cbn [palma_mul]; rewrite Ea, Eb, Ea', Eb'; cbn [orb];
      destruct (INT32_MAX <? a + b) eqn:E1; try reflexivity;
      destruct (a + b <? INT32_MIN) eqn:E2; try reflexivity;
      apply Z.ltb_ge in E1, E2; apply wrap32_id; split; assumption. }
  rewrite E. unfold clamp32, PALMA_POS_INF, PALMA_NEG_INF.
  destruct (INT32_MAX <? a + b) eqn:E1;
    [apply Z.ltb_lt in E1 | apply Z.ltb_ge in E1];
    (destruct (a + b <? INT32_MIN) eqn:E2;
     [apply Z.ltb_lt in E2 | apply Z.ltb_ge in E2]);
    unfold INT32_MIN, INT32_MAX in *;
    (repeat split; try lia; destruct Hs; subst s; reflexivity).
Qed.

Lemma palma_mul_saturating_clamp_witness :
  palma_mul 2147483000 1000 PALMA_MAXPLUS = clamp32 (2147483000 + 1000) /\
  palma_mul 2147483000 1000 PALMA_MAXPLUS = PALMA_POS_INF.
Proof.
  assert (Hs : PALMA_MAXPLUS = PALMA_MAXPLUS \/ PALMA_MAXPLUS = PALMA_MINPLUS)
    by (left; reflexivity).
  assert (Ha : INT32_MIN < 2147483000 < INT32_MAX)
    by (unfold INT32_MIN, INT32_MAX; lia).
  assert (Hb : INT32_MIN < 1000 < INT32_MAX)
    by (unfold INT32_MIN, INT32_MAX; lia).
  destruct (palma_mul_saturating_clamp PALMA_MAXPLUS 2147483000 1000 Hs Ha Hb)
    as (H1 & H2 & _).
  split; [exact H1 | apply H2; unfold INT32_MAX; lia].
Defined.

(** ** Critical nodes on scenario D *)

(** C1 (defect at the stated instance): on the two-cycle matrix, given by
    its rows or built entry by entry, the eigenvalue is 4, and
    [palma_critical_nodes] marks all three nodes and returns 3.  The
    2-cycle [0 <-> 2] has mean 3, which passes the test
    [mean >= lambda - PALMA_DEFAULT_TOL] (3 >= 4 - 1), so node 2 is marked
    although its cycle does not reach the eigenvalue. *)
Theorem two_cycles_marks_node_2 :
  palma_eigenvalue (Some two_cycles) PALMA_MAXPLUS = (4, PALMA_SUCCESS) /\
  palma_critical_nodes (Some two_cycles) PALMA_MAXPLUS
    = (3, Some [1; 1; 1], PALMA_SUCCESS) /\
  Z.quot (palma_mul (palma_matrix_get two_cycles 0 2)
                    (palma_matrix_get two_cycles 2 0) PALMA_MAXPLUS) 2 = 3 /\
  palma_eigenvalue two_cycles_built PALMA_MAXPLUS = (4, PALMA_SUCCESS) /\
  palma_critical_nodes two_cycles_built PALMA_MAXPLUS
    = (3, Some [1; 1; 1], PALMA_SUCCESS).
Proof. repeat split; vm_compute; reflexivity. Qed.

(** ** The boot schedule *)

Lemma upd_length {A : Type} (l : list A) (i : nat) (v : A) :
  length (upd l i v) = length l.
Proof.
  revert i; induction l as [|h t IH]; intros [|i]; simpl; auto.
Qed.

Lemma nth_upd {A : Type} (l : list A) (i j : nat) (v d : A) :
  nth j (upd l i v) d = if (j =? i)%nat && (i <? length l)%nat then v else nth j l d.
Proof.
  revert i j; induction l as [|h t IH]; intros i j.
  - simpl. rewrite andb_false_r. reflexivity.
  - destruct i as [|i], j as [|j]; simpl; try reflexivity.
    rewrite IH. reflexivity.
Qed.

Lemma upd_upd_same {A : Type} (l : list A) (i : nat) (v w : A) :
  upd (upd l i v) i w = upd l i w.
Proof.
  revert i; induction l as [|h t IH]; intros [|i]; simpl; auto.
  rewrite IH. reflexivity.
Qed.

Lemma upd_out_of_range {A : Type} (l : list A) (i : nat) (v : A) :
  (length l <= i)%nat -> upd l i v = l.
Proof.
  revert i; induction l as [|h t IH]; intros [|i] H; simpl in *; auto; try lia.
  rewrite IH by lia. reflexivity.
Qed.

(** A loop that stores [g i] at every index [i] of [lo, lo + len). *)
Lemma nth_fold_upd {A : Type} (g : nat -> A) (d : A) (len lo : nat)
      (l : list A) (j : nat) :
  nth j (fold_left (fun st i => upd st i (g i)) (seq lo len) l) d
  = if (lo <=? j)%nat && (j <? lo + len)%nat && (j <? length l)%nat
    then g j else nth j l d.
Proof.
  revert lo l; induction len as [|len IH]; intros lo l; simpl.
  - nat_cases.
  - rewrite IH, upd_length, nth_upd. nat_cases; subst; nat_cases.
Qed.

(** What one pass of the solve loop stores: for a state of [n_tasks]
    entries, entry [i] becomes [(A ⊗ prev)[i] ⊕ b[i] ⊕ prev[i]]. *)
Lemma solve_pass_entry (sc : palma_scheduler_t) (prev : list Z) (i : nat) :
  (i < sch_n_tasks sc)%nat -> length prev = sch_n_tasks sc ->
  nth i (solve_pass sc prev) 0
  = palma_add (palma_add (nth i (palma_matvec (sch_system sc) prev (sch_semiring sc)) 0)
                         (nth i (sch_input sc) 0) (sch_semiring sc))
              (nth i prev 0) (sch_semiring sc).
Proof.
  intros Hi Hlen. unfold solve_pass.
  set (temp := palma_matvec _ _ _).
  set (g := fun i => palma_add (palma_add (nth i temp 0) (nth i (sch_input sc) 0)
                                          (sch_semiring sc))
                               (nth i prev 0) (sch_semiring sc)).
  assert (E : forall l st,
             fold_left (fun st i =>
               let st1 := upd st i (palma_add (nth i temp 0) (nth i (sch_input sc) 0)
                                              (sch_semiring sc)) in
               upd st1 i (palma_add (nth i st1 0) (nth i prev 0) (sch_semiring sc)))
               l st
             = fold_left (fun st i => upd st i (g i)) l st).
  { induction l as [|k l IH]; intros st; simpl; [reflexivity|].
    rewrite IH. f_equal. rewrite upd_upd_same.
    destruct (Nat.lt_ge_cases k (length st)) as [Hk|Hk].
    - rewrite nth_upd, Nat.eqb_refl.
      replace (k <? length st)%nat with true by (symmetry; apply Nat.ltb_lt; lia).
      reflexivity.
    - rewrite !upd_out_of_range by lia. reflexivity. }
  rewrite E, nth_fold_upd.
  replace (0 <=? i)%nat with true by reflexivity.
  replace (i <? 0 + sch_n_tasks sc)%nat with true by (symmetry; apply Nat.ltb_lt; lia).
  replace (i <? length prev)%nat with true by (symmetry; apply Nat.ltb_lt; lia).
  reflexivity.
Qed.

(** C5: the boot schedule is built without error with the stated system
    matrix and ready time; [palma_scheduler_solve] with the default
    iteration bound (the 6 tasks) reports convergence on its 4th pass, within
    the bound, and leaves x = [0, 10, 30, 30, 30, 60], which one more pass
    maps to itself; every pass stores (A ⊗ prev)[i] ⊕ b[i] ⊕ prev[i]. *)
Theorem boot_schedule_solved :
  exists sc sc',
    boot_schedule = Some sc /\
    sch_semiring sc = PALMA_MAXPLUS /\
    map (fun ij => palma_matrix_get (sch_system sc) (fst ij) (snd ij))
        [(1, 0); (2, 1); (3, 1); (4, 1); (5, 2); (5, 3); (5, 4)]%nat
      = [10; 20; 20; 20; 15; 25; 30] /\
    count_nonzero (sch_system sc) PALMA_NEG_INF = 7%nat /\
    sch_input sc = [0; PALMA_NEG_INF; PALMA_NEG_INF; PALMA_NEG_INF;
                    PALMA_NEG_INF; PALMA_NEG_INF] /\
    palma_scheduler_solve boot_schedule 0 = Ret (4, Some sc') /\
    4 <= Z.of_nat (sch_n_tasks sc) /\
    sch_state sc' = [0; 10; 30; 30; 30; 60] /\
    solve_pass sc' (sch_state sc') = sch_state sc' /\
    (forall prev i, (i < 6)%nat -> length prev = 6%nat ->
       nth i (solve_pass sc prev) 0
       = palma_add (palma_add (nth i (palma_matvec (sch_system sc) prev PALMA_MAXPLUS) 0)
                              (nth i (sch_input sc) 0) PALMA_MAXPLUS)
                   (nth i prev 0) PALMA_MAXPLUS).
Proof.
  eexists; eexists.
  do 6 (split; [vm_compute; reflexivity|]).
  split; [vm_compute; discriminate|].
  do 2 (split; [vm_compute; reflexivity|]).
  intros prev i Hi Hlen.
  match goal with
  | |- nth _ (solve_pass ?sc _) _ = _ => exact (solve_pass_entry sc prev i Hi Hlen)
  end.
Qed.

(** ** Index checks of the sparse accessors *)

(** The binary search always ends: each round at least halves the interval,
    so the length of the interval is enough fuel. *)
Lemma sparse_get_search_terminates (sp : palma_sparse_t) (col fuel start end_ : nat) :
  (end_ - start <= fuel)%nat ->
  exists v, sparse_get_search sp col fuel start end_ = Some v.
Proof.
  revert start end_; induction fuel as [|fuel IH]; intros start end_ H.
  - simpl. destruct (Nat.ltb_spec start end_); [lia | eauto].
  - cbn [sparse_get_search]. destruct (Nat.ltb_spec start end_) as [Hlt|]; [|eauto].
    assert (Hhalf : ((end_ - start) / 2 < end_ - start)%nat)
      by (apply Nat.div_lt; lia).
    remember ((end_ - start) / 2)%nat as half.
    destruct (nth _ (sp_col_idx sp) 0 =? col)%nat; [eauto|].
    destruct (nth _ (sp_col_idx sp) 0 <? col)%nat; apply IH; lia.
Qed.

(** C10: [palma_sparse_get] answers every index pair: for a row or column
    outside the matrix it returns the ε of the matrix's semiring, and for a
    NULL matrix the ε of (max,+), -∞; it has no error result.
    [palma_sparse_set] at the same indices returns PALMA_ERR_INDEX_BOUNDS and
    leaves the matrix as it was.  Inside the matrix the binary search of
    [palma_sparse_get] ends with a value for every row and column. *)
Theorem palma_sparse_get_silent_out_of_range
        (sp : palma_sparse_t) (row col : nat) (val : Z) :
  (sp_rows sp <= row \/ sp_cols sp <= col)%nat ->
  palma_sparse_get (Some sp) row col = palma_zero (sp_semiring sp) /\
  palma_sparse_get None row col = PALMA_NEG_INF /\
  palma_sparse_set (Some sp) row col val = (PALMA_ERR_INDEX_BOUNDS, Some sp) /\
  (forall r c,
      let start := nth r (sp_row_ptr sp) 0%nat in
      let end_ := nth (r + 1) (sp_row_ptr sp) 0%nat in
      exists v, sparse_get_search sp c (end_ - start) start end_ = Some v).
Proof.
  intros H.
  assert (E : ((sp_rows sp <=? row) || (sp_cols sp <=? col))%nat = true).
  { apply orb_true_iff. destruct H; [left | right]; apply Nat.leb_le; assumption. }
  unfold palma_sparse_get, palma_sparse_set. rewrite E.
  split; [reflexivity|]. split; [reflexivity|]. split; [reflexivity|].
  intros r c. cbv zeta. apply sparse_get_search_terminates. lia.
Qed.

Lemma palma_sparse_get_silent_out_of_range_witness :
  palma_sparse_get (Some small_csr) 2 0 = PALMA_NEG_INF /\
  palma_sparse_get None 2 0 = PALMA_NEG_INF /\
  palma_sparse_set (Some small_csr) 2 0 9 = (PALMA_ERR_INDEX_BOUNDS, Some small_csr).
Proof.
  destruct (palma_sparse_get_silent_out_of_range small_csr 2 0 9) as (H1 & H2 & H3 & _).
  - left. simpl. lia.
  - split; [exact H1|]. split; [exact H2 | exact H3].
Defined.

(** ** Power iteration *)

Lemma nth_map_in_range {A B : Type} (f : A -> B) (l : list A) (i : nat)
      (d : A) (d' : B) :
  (i < length l)%nat -> nth i (map f l) d' = f (nth i l d).
Proof.
  revert i; induction l as [|h t IH]; intros [|i] H; simpl in *; try lia.
  - reflexivity.
  - apply IH. lia.
Qed.

Lemma vec_eqb_true (n : nat) (y x : list Z) :
  vec_eqb n y x = true <-> forall i, (i < n)%nat -> nth i y 0 = nth i x 0.
Proof.
  unfold vec_eqb. rewrite forallb_forall. split.
  - intros H i Hi. apply Z.eqb_eq, H, in_seq. lia.
  - intros H i Hi. apply in_seq in Hi. apply Z.eqb_eq, H. lia.
Qed.

(** The product reads only the first [m_cols A] entries of the vector. *)
Lemma palma_matvec_ext (A : palma_matrix_t) (s : palma_semiring_t) (x y : list Z) :
  (forall j, (j < m_cols A)%nat -> nth j x 0 = nth j y 0) ->
  palma_matvec A x s = palma_matvec A y s.
Proof.
  intros H. unfold palma_matvec. apply map_ext. intros i.
  generalize (palma_zero s) as acc.
  assert (G : forall l, (forall j, In j l -> (j < m_cols A)%nat) ->
              forall acc,
                fold_left (fun sum j =>
                   palma_add sum (palma_mul (palma_matrix_get A i j) (nth j x 0) s) s) l acc
                = fold_left (fun sum j =>
                   palma_add sum (palma_mul (palma_matrix_get A i j) (nth j y 0) s) s) l acc).
  { induction l as [|j l IH]; intros Hl acc; simpl; [reflexivity|].
    rewrite (H j) by (apply Hl; left; reflexivity).
    apply IH. intros k Hk. apply Hl. right. exact Hk. }
  intros acc. apply G. intros j Hj. apply in_seq in Hj. lia.
Qed.

Lemma palma_matvec_length (A : palma_matrix_t) (s : palma_semiring_t) (x : list Z) :
  length (palma_matvec A x s) = m_rows A.
Proof. unfold palma_matvec. rewrite length_map, length_seq. reflexivity. Qed.

Lemma normalize_entries_nth (s : palma_semiring_t) (lambda : Z) (y y' : list Z) :
  normalize_entries s lambda y = Some y' ->
  length y' = length y /\
  forall i, (i < length y)%nat ->
            normalize_entry s lambda (nth i y 0) = Some (nth i y' 0).
Proof.
  revert y'; induction y as [|yi y IH]; intros y' H; cbn [normalize_entries] in H.
  - injection H as <-. split; [reflexivity|]. cbn [length]. intros i Hi. lia.
  - destruct (normalize_entry s lambda yi) as [d|] eqn:Ed; [|discriminate H].
    destruct (normalize_entries s lambda y) as [rest|]; [|discriminate H].
    injection H as <-. destruct (IH rest eq_refl) as [Hlen Hnth].
    split; [cbn [length]; rewrite Hlen; reflexivity|].
    intros [|i] Hi; cbn [nth length] in *; [exact Ed | apply Hnth; lia].
Qed.

Lemma normalize_length (s : palma_semiring_t) (lambda : Z) (y y' : list Z) :
  normalize s lambda y = Some y' -> length y' = length y.
Proof.
  unfold normalize. destruct (additive_tropical s); intros H.
  - apply (normalize_entries_nth s lambda y y' H).
  - injection H as <-. reflexivity.
Qed.

(** A run that ends with PALMA_SUCCESS returns a vector that the normalised
    product maps to itself, with no subtraction out of range. *)
Lemma power_iteration_success (A : palma_matrix_t) (s : palma_semiring_t)
      (lambda : Z) (fuel : nat) (x v : list Z) :
  m_rows A = m_cols A ->
  power_iteration A s lambda (m_rows A) fuel x = Ret (PALMA_SUCCESS, v) ->
  normalize s lambda (palma_matvec A v s) = Some v.
Proof.
  intros Hsq. revert x; induction fuel as [|fuel IH]; intros x H;
    cbn [power_iteration] in H.
  - discriminate H.
  - destruct (normalize s lambda (palma_matvec A x s)) as [y|] eqn:En;
      [|discriminate H].
    cbv zeta in H. destruct (vec_eqb (m_rows A) y x) eqn:E.
    + injection H as <-. rewrite <- En. f_equal. apply palma_matvec_ext.
      intros j Hj. apply (proj1 (vec_eqb_true _ _ _) E). lia.
    + apply IH in H. exact H.
Qed.

(** For (max,+): on a successful run, at every entry of the result that is
    not ε the product is not ε either, and the entry is the exact
    difference of the product and the eigenvalue. *)
Lemma palma_eigenvector_fixed_point (A : palma_matrix_t) (max_iter : nat)
      (v : list Z) (lambda : Z) (i : nat) :
  palma_eigenvector (Some A) PALMA_MAXPLUS max_iter
  = Ret (PALMA_SUCCESS, Some (v, lambda)) ->
  (i < m_rows A)%nat ->
  nth i v 0 <> palma_zero PALMA_MAXPLUS ->
  nth i (palma_matvec A v PALMA_MAXPLUS) 0 <> palma_zero PALMA_MAXPLUS /\
  nth i v 0 = nth i (palma_matvec A v PALMA_MAXPLUS) 0 - lambda.
Proof.
  unfold palma_eigenvector.
  generalize (fst (palma_eigenvalue (Some A) PALMA_MAXPLUS)) as l.
  intros l H Hi Hv.
  destruct (Nat.eqb_spec (m_rows A) (m_cols A)) as [Hsq|]; [|discriminate H].
  cbn [negb] in H.
  destruct (l =? PALMA_NEG_INF); [discriminate H|].
  destruct (power_iteration _ _ _ _ _ _) as [[code x]|] eqn:E; [|discriminate H].
  injection H as -> -> <-.
  apply power_iteration_success in E; [|exact Hsq].
  unfold normalize in E. cbn [additive_tropical semiring_eqb orb] in E.
  destruct (normalize_entries_nth _ _ _ _ E) as [_ Hnth].
  specialize (Hnth i ltac:(rewrite palma_matvec_length; exact Hi)).
  unfold normalize_entry, sub_int32 in Hnth. cbv zeta in Hnth.
  destruct (Z.eqb_spec (nth i (palma_matvec A v PALMA_MAXPLUS) 0)
                       (palma_zero PALMA_MAXPLUS)) as [Ez|Ez]; cbn [negb] in Hnth.
  - injection Hnth as Hn. congruence.
  - destruct (_ && _); [|discriminate Hnth].
    injection Hnth as Hn. split; [exact Ez | symmetry; exact Hn].
Qed.

(** On the runs that the language defines, the converged iterate is a
    tropical eigenvector: if [palma_eigenvector] returns PALMA_SUCCESS for a
    (max,+) matrix A with eigenvector v and eigenvalue λ, then A is square
    and at every index i with v[i] not ε, (A ⊗ v)[i] is not ε and
    (A ⊗ v)[i] = v[i] + λ. *)
Lemma palma_eigenvector_eigen_equation (A : palma_matrix_t) (max_iter : nat)
      (v : list Z) (lambda : Z) (i : nat) :
  palma_eigenvector (Some A) PALMA_MAXPLUS max_iter
  = Ret (PALMA_SUCCESS, Some (v, lambda)) ->
  (i < m_rows A)%nat ->
  nth i v 0 <> palma_zero PALMA_MAXPLUS ->
  m_rows A = m_cols A /\
  nth i (palma_matvec A v PALMA_MAXPLUS) 0 <> palma_zero PALMA_MAXPLUS /\
  nth i (palma_matvec A v PALMA_MAXPLUS) 0 = nth i v 0 + lambda.
Proof.
  intros H Hi Hv.
  destruct (palma_eigenvector_fixed_point A max_iter v lambda i H Hi Hv) as [Hne E].
  split.
  - unfold palma_eigenvector in H.
    destruct (Nat.eqb_spec (m_rows A) (m_cols A)); [assumption | discriminate H].
  - split; [exact Hne|]. rewrite E. lia.
Qed.

Lemma palma_eigenvector_eigen_equation_example :
  palma_eigenvector (Some lower_pair) PALMA_MAXPLUS 100
    = Ret (PALMA_SUCCESS, Some ([0; 0], 2)) /\
  nth 1 (palma_matvec lower_pair [0; 0] PALMA_MAXPLUS) 0 = nth 1 [0; 0] 0 + 2.
Proof.
  split; [reflexivity|].
  refine (proj2 (proj2 (palma_eigenvector_eigen_equation lower_pair 100 [0; 0] 2 1
                          eq_refl _ _))).
  - cbn. lia.
  - cbn. discriminate.
Defined.

(** C7 fails on the code.  On [deep_edge] the eigenvalue is λ = 10 and the
    first product is A ⊗ [e, e] = [10, -2147483643].  The normalisation
    [y[1] -= lambda] then subtracts 10 from -2147483643, which is not an
    [int32_t]: the run has no defined result, and nothing in
    [palma_eigenvector] saturates or checks the range.  Where the
    subtraction wraps around, the iterates are v = [0, 2147483643] from the
    first pass on, so v is accepted as converged and returned with
    PALMA_SUCCESS; but (A ⊗ v)[1] = -2147483643, which is neither
    v[1] + λ nor v[1] ⊗ λ although v[1] is not ε. *)
Theorem deep_edge_eigenvector_not_eigen :
  let v := [0; 2147483643] in
  let wrapped := map (fun yi => if negb (yi =? palma_zero PALMA_MAXPLUS)
                               then wrap32 (yi - 10) else yi) in
  palma_eigenvalue (Some deep_edge) PALMA_MAXPLUS = (10, PALMA_SUCCESS) /\
  palma_matvec deep_edge [0; 0] PALMA_MAXPLUS = [10; -2147483643] /\
  sub_int32 (-2147483643) 10 = None /\
  palma_eigenvector (Some deep_edge) PALMA_MAXPLUS 0 = Undef /\
  wrapped (palma_matvec deep_edge [0; 0] PALMA_MAXPLUS) = v /\
  wrapped (palma_matvec deep_edge v PALMA_MAXPLUS) = v /\
  nth 1 v 0 <> palma_zero PALMA_MAXPLUS /\
  nth 1 (palma_matvec deep_edge v PALMA_MAXPLUS) 0 = -2147483643 /\
  nth 1 (palma_matvec deep_edge v PALMA_MAXPLUS) 0 <> nth 1 v 0 + 10 /\
  nth 1 (palma_matvec deep_edge v PALMA_MAXPLUS) 0
    <> palma_mul (nth 1 v 0) 10 PALMA_MAXPLUS.
Proof.
  cbv zeta. repeat split; try (vm_compute; reflexivity); vm_compute; discriminate.
Qed.

(** ** The eigenvalue routine outside (max,+) and (min,+) *)

Lemma nth_repeat_lt {A : Type} (a d : A) (n i : nat) :
  (i < n)%nat -> nth i (repeat a n) d = a.
Proof.
  revert i; induction n as [|n IH]; intros [|i] H; simpl; try lia; auto.
  apply IH. lia.
Qed.

Lemma karp_rows_head (A : palma_matrix_t) (s : palma_semiring_t)
      (n steps : nat) (row : list Z) :
  nth 0 (karp_rows A s n steps row) [] = row.
Proof. destruct steps; reflexivity. Qed.








(** ** Karp's rule for (max,+)

    The rule as the specification words it, to be compared with
    [palma_eigenvalue]. *)

Lemma fold_left_ext_in {A B : Type} (f g : A -> B -> A) (l : list B) :
  (forall acc x, In x l -> f acc x = g acc x) ->
  forall acc, fold_left f l acc = fold_left g l acc.
Proof.
  induction l as [|x l IH]; intros H acc; simpl; [reflexivity|].
  rewrite H by (left; reflexivity). apply IH.
  intros acc' y Hy. apply H. right. exact Hy.
Qed.

(** The guards of the C loop change nothing: a product with ε is ε, and ε
    is neutral for the running maximum. *)
Lemma karp_step_unguarded (A : palma_matrix_t) (n : nat) (prev : list Z) :
  karp_step A PALMA_MAXPLUS n prev = karp_spec_step A n prev.
Proof.
  unfold karp_step, karp_spec_step. apply map_ext. intros v.
  assert (G : forall l acc, PALMA_NEG_INF <= acc ->
             fold_left (fun best u =>
                let edge := palma_matrix_get A u v in
                if negb (edge =? palma_zero PALMA_MAXPLUS)
                   && negb (nth u prev 0 =? palma_zero PALMA_MAXPLUS)
                then let path := palma_mul (nth u prev 0) edge PALMA_MAXPLUS in
                     palma_add best path PALMA_MAXPLUS
                else best) l acc
             = fold_left (fun acc u =>
                 palma_add acc
                   (palma_mul (nth u prev 0) (palma_matrix_get A u v) PALMA_MAXPLUS)
                   PALMA_MAXPLUS) l acc).
  { induction l as [|u l IH]; intros acc Hacc; [reflexivity|].
    cbn [fold_left]. cbv zeta.
    set (e := palma_matrix_get A u v). set (p := nth u prev 0).
    assert (Hge : PALMA_NEG_INF <= palma_add acc (palma_mul p e PALMA_MAXPLUS) PALMA_MAXPLUS).
    { cbn [palma_add]. destruct (Z.ltb_spec (palma_mul p e PALMA_MAXPLUS) acc); lia. }
    destruct (Z.eqb_spec e (palma_zero PALMA_MAXPLUS)) as [He|He];
      [|destruct (Z.eqb_spec p (palma_zero PALMA_MAXPLUS)) as [Hp|Hp]];
      cbn [negb andb].
    - rewrite <- IH by exact Hge. f_equal.
      cbn [palma_mul]. change (palma_zero PALMA_MAXPLUS) with PALMA_NEG_INF in He.
      rewrite (proj2 (Z.eqb_eq e PALMA_NEG_INF) He), orb_true_r.
      cbn [palma_add]. destruct (Z.ltb_spec PALMA_NEG_INF acc); lia.
    - rewrite <- IH by exact Hge. f_equal.
      cbn [palma_mul]. change (palma_zero PALMA_MAXPLUS) with PALMA_NEG_INF in Hp.
      rewrite (proj2 (Z.eqb_eq p PALMA_NEG_INF) Hp). cbn [orb].
      cbn [palma_add]. destruct (Z.ltb_spec PALMA_NEG_INF acc); lia.
    - apply IH. exact Hge. }
  apply G. cbn. lia.
Qed.

Lemma karp_rows_nth (A : palma_matrix_t) (s : palma_semiring_t)
      (n steps : nat) (row : list Z) (k : nat) :
  (k <= steps)%nat ->
  nth k (karp_rows A s n steps row) [] = Nat.iter k (karp_step A s n) row.
Proof.
  revert steps row; induction k as [|k IH]; intros steps row H.
  - apply karp_rows_head.
  - destruct steps as [|steps]; [lia|].
    cbn [karp_rows nth]. rewrite IH by lia.
    symmetry. apply Nat.iter_succ_r.
Qed.

Lemma karp_spec_row_iter (A : palma_matrix_t) (n k : nat) :
  karp_spec_row A n k
  = Nat.iter k (karp_step A PALMA_MAXPLUS n) (repeat (palma_one PALMA_MAXPLUS) n).
Proof.
  induction k as [|k IH]; [reflexivity|].
  cbn [karp_spec_row Nat.iter nat_rect]. rewrite IH.
  symmetry. apply karp_step_unguarded.
Qed.

(** The table built by the code holds the D[k][v] of the rule. *)
Lemma karp_table_spec (A : palma_matrix_t) (k v : nat) :
  (k <= m_rows A)%nat ->
  tbl (karp_table A PALMA_MAXPLUS) k v = karp_spec_D A k v.
Proof.
  intros H. unfold tbl, karp_table, karp_spec_D.
  rewrite karp_rows_nth by exact H. rewrite karp_spec_row_iter. reflexivity.
Qed.

Lemma fold_left_min_in (t : list Z) (h : Z) : In (fold_left Z.min t h) (h :: t).
Proof.
  revert h; induction t as [|x t IH]; intros h; simpl; [left; reflexivity|].
  destruct (IH (Z.min h x)) as [E|E].
  - rewrite <- E. destruct (Z.min_spec h x) as [[_ ->]|[_ ->]]; auto.
  - right. right. exact E.
Qed.

Lemma mean_in_range_spec (m : Z) :
  mean_in_range m = true <-> INT32_MIN <= m < INT32_MAX.
Proof.
  unfold mean_in_range. rewrite andb_true_iff, Z.leb_le, Z.ltb_lt. tauto.
Qed.

(** The minimum of a non-empty list of quotients in range is in range. *)
Lemma z_min_list_in_range (l : list Z) (m : Z) :
  forallb mean_in_range l = true -> z_min_list l = Some m ->
  INT32_MIN <= m < INT32_MAX.
Proof.
  intros Hl Hm. destruct l as [|h t]; [discriminate Hm|].
  injection Hm as <-. apply mean_in_range_spec.
  apply (proj1 (forallb_forall _ _) Hl). apply fold_left_min_in.
Qed.

(** The inner loop of the code computes the minimum of the quotients, and
    +∞ when there is none. *)
Lemma karp_min_for_spec (A : palma_matrix_t) (v : nat) :
  forallb mean_in_range (karp_spec_means A v) = true ->
  karp_min_for (karp_table A PALMA_MAXPLUS) PALMA_MAXPLUS (m_rows A) v
  = match z_min_list (karp_spec_means A v) with
    | Some m => m
    | None => PALMA_POS_INF
    end.
Proof.
  intros Hr. unfold karp_min_for.
  change (additive_tropical PALMA_MAXPLUS) with true. cbv iota zeta.
  set (n := m_rows A) in *.
  set (q := fun k => Z.quot (karp_spec_D A n v - karp_spec_D A k v) (Z.of_nat (n - k))).
  set (c := fun k => negb (karp_spec_D A k v =? palma_zero PALMA_MAXPLUS)).
  rewrite (fold_left_ext_in _
             (fun min_for_v k =>
                if c k then if wrap32 (q k) <? min_for_v then wrap32 (q k) else min_for_v
                else min_for_v)).
  2:{ intros acc k Hk. apply in_seq in Hk. unfold c, q.
      rewrite !karp_table_spec by (fold n; lia). reflexivity. }
  assert (G : forall l acc,
             forallb mean_in_range (map q (filter c l)) = true ->
             fold_left (fun min_for_v k =>
                if c k then if wrap32 (q k) <? min_for_v then wrap32 (q k) else min_for_v
                else min_for_v) l acc
             = fold_left Z.min (map q (filter c l)) acc).
  { induction l as [|k l IH]; intros acc Hl; [reflexivity|].
    cbn [fold_left filter] in *. destruct (c k).
    - cbn [map forallb fold_left] in *. apply andb_true_iff in Hl.
      destruct Hl as [Hk Hl]. apply mean_in_range_spec in Hk.
      rewrite wrap32_id by (unfold is_int32; lia).
      rewrite <- IH by exact Hl. f_equal.
      destruct (Z.ltb_spec (q k) acc); lia.
    - apply IH. exact Hl. }
  unfold karp_spec_means in *. fold n q c in Hr |- *.
  rewrite G by exact Hr.
  destruct (map q (filter c (seq 0 n))) as [|h t]; [reflexivity|].
  cbn [fold_left z_min_list forallb] in *. apply andb_true_iff in Hr.
  destruct Hr as [Hh _]. apply mean_in_range_spec in Hh.
  f_equal. unfold PALMA_POS_INF. lia.
Qed.

(** C4 (as the code has it): for every square (max,+) matrix all of whose
    quotients (D[n][v] − D[k][v]) / (n − k) over entries that are not ε are
    32-bit values below +∞, [palma_eigenvalue] clears the last-error slot and
    returns the value of Karp's rule: the maximum over the nodes v with
    D[n][v] not ε of the minimum over k in [0, n) of the truncating
    quotient, and -∞ when every D[n][v] is ε; on the 3-cycle it returns 4. *)
Theorem palma_eigenvalue_karp (A : palma_matrix_t) :
  m_rows A = m_cols A ->
  karp_means_in_range A = true ->
  palma_eigenvalue (Some A) PALMA_MAXPLUS = (karp_spec A, PALMA_SUCCESS) /\
  (karp_spec_nodes A = [] -> karp_spec A = PALMA_NEG_INF) /\
  palma_eigenvalue (Some three_cycle) PALMA_MAXPLUS = (4, PALMA_SUCCESS) /\
  palma_eigenvalue three_cycle_built PALMA_MAXPLUS = (4, PALMA_SUCCESS).
Proof.
  intros Hsq Hr. split; [|split; [|split; vm_compute; reflexivity]].
  2:{ intros E. unfold karp_spec. rewrite E. reflexivity. }
  unfold palma_eigenvalue. rewrite (proj2 (Nat.eqb_eq _ _) Hsq). cbn [negb].
  f_equal. unfold karp_max_mean, karp_spec.
  set (n := m_rows A) in *. set (D := karp_table A PALMA_MAXPLUS).
  set (cand := fun v => match z_min_list (karp_spec_means A v) with
                        | Some m => [m]
                        | None => []
                        end).
  set (cn := fun v => negb (karp_spec_D A n v =? palma_zero PALMA_MAXPLUS)).
  assert (G : forall l acc,
             forallb (fun v => forallb mean_in_range (karp_spec_means A v))
                     (filter cn l) = true ->
             fold_left
               (fun max_mean v =>
                  if tbl D n v =? palma_zero PALMA_MAXPLUS then max_mean
                  else
                    let min_for_v := karp_min_for D PALMA_MAXPLUS n v in
                    if negb (min_for_v =? PALMA_POS_INF) && (max_mean <? min_for_v)
                    then min_for_v else max_mean) l acc
             = fold_left Z.max (flat_map cand (filter cn l)) acc).
  { induction l as [|v l IH]; intros acc Hl; [reflexivity|].
    cbn [fold_left filter] in *.
    assert (Et : tbl D n v = karp_spec_D A n v)
      by (apply karp_table_spec; unfold n; lia).
    rewrite Et. unfold cn at 1 in Hl. unfold cn at 1.
    destruct (karp_spec_D A n v =? palma_zero PALMA_MAXPLUS); cbn [negb] in *.
    - apply IH. exact Hl.
    - cbn [forallb flat_map] in *. apply andb_true_iff in Hl.
      destruct Hl as [Hv Hl]. cbv zeta.
      rewrite (karp_min_for_spec A v Hv : karp_min_for D PALMA_MAXPLUS n v = _).
      rewrite fold_left_app, <- IH by exact Hl. f_equal.
      unfold cand.
      destruct (z_min_list (karp_spec_means A v)) as [m|] eqn:Em.
      + pose proof (z_min_list_in_range _ _ Hv Em) as Hm.
        cbn [fold_left].
        replace (m =? PALMA_POS_INF) with false
          by (symmetry; apply Z.eqb_neq; unfold PALMA_POS_INF; lia).
        cbn [negb andb]. destruct (Z.ltb_spec acc m); lia.
      + rewrite Z.eqb_refl. reflexivity. }
  unfold karp_means_in_range, karp_spec_nodes in Hr. fold n cn in Hr.
  rewrite G by exact Hr. unfold karp_spec_nodes. fold n cn.
  destruct (flat_map cand (filter cn (seq 0 n))) as [|h t] eqn:Ec; [reflexivity|].
  cbn [fold_left z_max_list]. f_equal.
  assert (Hin : In h (flat_map cand (filter cn (seq 0 n))))
    by (rewrite Ec; left; reflexivity).
  apply in_flat_map in Hin. destruct Hin as (v & Hv & Hh).
  pose proof (proj1 (forallb_forall _ _) Hr v Hv) as Hrv. cbv beta in Hrv.
  unfold cand in Hh.
  destruct (z_min_list (karp_spec_means A v)) as [m|] eqn:Em; [|destruct Hh].
  destruct Hh as [<-|[]].
  pose proof (z_min_list_in_range _ _ Hrv Em). unfold PALMA_NEG_INF. lia.
Qed.

Lemma palma_eigenvalue_karp_witness :
  palma_eigenvalue (Some three_cycle) PALMA_MAXPLUS
  = (karp_spec three_cycle, PALMA_SUCCESS) /\
  karp_spec three_cycle = 4.
Proof.
  split; [|reflexivity].
  exact (proj1 (palma_eigenvalue_karp three_cycle eq_refl eq_refl)).
Defined.

(** C4 as stated fails.  On the 1x1 (max,+) matrix [+∞] the table has
    D[1][0] = +∞, which is not ε, and the rule gives +∞ / 1 = +∞; the code
    keeps +∞ as the mark of "no quotient seen" and returns -∞.  On
    [steep_pair], with finite entries, the table is D[1] = [2147483646,
    -2147483647, ε], D[2] = [+∞, -1, ε], D[3] = [+∞, +∞, ε]; for v = 1 the
    quotient at k = 2 is 2147483648, which the code narrows to -2147483648,
    so it returns 0 where the rule gives 715827882. *)
Lemma palma_eigenvalue_not_karp_at_extremes :
  (karp_spec_D loop_inf 1 0 = PALMA_POS_INF /\
   karp_spec loop_inf = PALMA_POS_INF /\
   palma_eigenvalue (Some loop_inf) PALMA_MAXPLUS = (PALMA_NEG_INF, PALMA_SUCCESS) /\
   fst (palma_eigenvalue (Some loop_inf) PALMA_MAXPLUS) <> karp_spec loop_inf) /\
  (karp_table steep_pair PALMA_MAXPLUS
   = [[0; 0; 0];
      [2147483646; -2147483647; PALMA_NEG_INF];
      [PALMA_POS_INF; -1; PALMA_NEG_INF];
      [PALMA_POS_INF; PALMA_POS_INF; PALMA_NEG_INF]] /\
   karp_spec_means steep_pair 1 = [715827882; 2147483647; 2147483648] /\
   karp_spec steep_pair = 715827882 /\
   palma_eigenvalue (Some steep_pair) PALMA_MAXPLUS = (0, PALMA_SUCCESS) /\
   fst (palma_eigenvalue (Some steep_pair) PALMA_MAXPLUS) <> karp_spec steep_pair).
Proof.
  split; repeat split; try (vm_compute; reflexivity); vm_compute; discriminate.
Qed.

(** ** CSR invariants under [palma_sparse_set] *)

Lemma palma_idx_small (n : nat) : Z.of_nat n < 4294967296 -> palma_idx n = n.
Proof.
  intros H. unfold palma_idx. rewrite Z.mod_small by lia. apply Nat2Z.id.
Qed.

Lemma palma_idx_fits (n : nat) : Z.of_nat (palma_idx n) < 4294967296.
Proof.
  unfold palma_idx.
  pose proof (Z.mod_pos_bound (Z.of_nat n) 4294967296 ltac:(lia)). lia.
Qed.

Lemma csr_row_ptr_le (sp : palma_sparse_t) (r1 r2 : nat) :
  csr_valid sp -> (r1 <= r2)%nat -> (r2 <= sp_rows sp)%nat ->
  (nth r1 (sp_row_ptr sp) 0 <= nth r2 (sp_row_ptr sp) 0)%nat.
Proof.
  intros V H12 H2. induction r2 as [|r2 IH].
  - replace r1 with 0%nat by lia. lia.
  - destruct (Nat.eq_dec r1 (S r2)) as [->|Hne]; [lia|].
    pose proof (csr_row_ptr_mono sp V r2 ltac:(lia)) as Hm.
    replace (r2 + 1)%nat with (S r2) in Hm by lia.
    specialize (IH ltac:(lia) ltac:(lia)). lia.
Qed.

(** Where the scan stops: everything passed is smaller than [col], and the
    stop is at the end of the row or at an index that is not smaller. *)
Lemma find_pos_spec (col_idx : list nat) (col fuel pos : nat) :
  let p := find_pos col_idx col pos fuel in
  (pos <= p <= pos + fuel)%nat /\
  (forall k, (pos <= k < p)%nat -> (nth k col_idx 0 < col)%nat) /\
  ((p < pos + fuel)%nat -> (col <= nth p col_idx 0)%nat).
Proof.
  revert pos; induction fuel as [|fuel IH]; intros pos; cbn [find_pos]; cbv zeta.
  - repeat split; lia.
  - destruct (Nat.ltb_spec (nth pos col_idx 0%nat) col) as [Hlt|Hge].
    + specialize (IH (S pos)). cbv zeta in IH. destruct IH as (H1 & H2 & H3).
      split; [lia|]. split.
      * intros k Hk. destruct (Nat.eq_dec k pos) as [->|]; [exact Hlt|].
        apply H2. lia.
      * intros Hp. apply H3. lia.
    + repeat split; lia.
Qed.

Lemma grow_capacity_reaches (fuel new_cap needed : nat) :
  (0 < new_cap)%nat -> (needed <= fuel + new_cap)%nat ->
  (needed <= grow_capacity fuel new_cap needed)%nat.
Proof.
  revert new_cap; induction fuel as [|fuel IH]; intros c Hc H; cbn [grow_capacity].
  - lia.
  - destruct (Nat.ltb_spec c needed); [apply IH; lia | lia].
Qed.

Lemma insert_at_length {A : Type} (l : list A) (pos : nat) (v : A) :
  length (insert_at l pos v) = S (length l).
Proof.
  unfold insert_at. rewrite length_app. cbn [length].
  rewrite length_firstn, length_skipn. lia.
Qed.

Lemma nth_insert_at {A : Type} (l : list A) (pos k : nat) (v d : A) :
  (pos <= length l)%nat ->
  nth k (insert_at l pos v) d
  = if (k <? pos)%nat then nth k l d
    else if (k =? pos)%nat then v else nth (k - 1) l d.
Proof.
  intros Hp. unfold insert_at.
  assert (Hf : length (firstn pos l) = pos) by (apply firstn_length_le; exact Hp).
  destruct (Nat.ltb_spec k pos) as [Hlt|Hge].
  - rewrite app_nth1 by lia. rewrite nth_firstn.
    destruct (Nat.ltb_spec k pos); [reflexivity | lia].
  - rewrite app_nth2 by lia. rewrite Hf.
    destruct (Nat.eqb_spec k pos) as [->|Hne].
    + rewrite Nat.sub_diag. reflexivity.
    + destruct (k - pos)%nat as [|m] eqn:Em; [lia|].
      cbn [nth]. rewrite nth_skipn. f_equal. lia.
Qed.

Lemma bump_row_ptr_length (row_ptr : list nat) (row rows : nat) :
  length (bump_row_ptr row_ptr row rows) = length row_ptr.
Proof.
  unfold bump_row_ptr. generalize (seq (row + 1) (rows - row)) as l.
  intros l; revert row_ptr; induction l as [|r l IH]; intros rp; cbn [fold_left];
    [reflexivity|].
  rewrite IH. apply upd_length.
Qed.

(** The loop over [row + 1 .. rows] increments each of these pointers. *)
Lemma nth_bump_row_ptr (row_ptr : list nat) (row rows j : nat) :
  (rows < length row_ptr)%nat ->
  nth j (bump_row_ptr row_ptr row rows) 0%nat
  = if (row <? j)%nat && (j <=? rows)%nat then palma_idx (S (nth j row_ptr 0%nat))
    else nth j row_ptr 0%nat.
Proof.
  intros Hlen. unfold bump_row_ptr.
  assert (G : forall len lo l,
             nth j (fold_left (fun rp r => upd rp r (palma_idx (S (nth r rp 0%nat))))
                              (seq lo len) l) 0%nat
             = if (lo <=? j)%nat && (j <? lo + len)%nat && (j <? length l)%nat
               then palma_idx (S (nth j l 0%nat)) else nth j l 0%nat).
  { induction len as [|len IH]; intros lo l; cbn [seq fold_left].
    - nat_cases.
    - rewrite IH, upd_length, !nth_upd. nat_cases; subst; nat_cases. }
  rewrite G. nat_cases.
Qed.

(** On a valid matrix whose entry count can grow by one inside
    [palma_idx_t], the increments do not wrap. *)
Lemma nth_bump_row_ptr_valid (sp : palma_sparse_t) (row j : nat) :
  csr_valid sp -> Z.of_nat (sp_nnz sp) + 1 < 4294967296 ->
  nth j (bump_row_ptr (sp_row_ptr sp) row (sp_rows sp)) 0%nat
  = if (row <? j)%nat && (j <=? sp_rows sp)%nat then S (nth j (sp_row_ptr sp) 0%nat)
    else nth j (sp_row_ptr sp) 0%nat.
Proof.
  intros V Hfit.
  rewrite nth_bump_row_ptr by (rewrite (csr_row_ptr_length sp V); lia).
  destruct (Nat.ltb_spec row j); [|reflexivity].
  destruct (Nat.leb_spec j (sp_rows sp)); [|reflexivity]. cbn [andb].
  pose proof (csr_row_ptr_le sp j (sp_rows sp) V ltac:(lia) ltac:(lia)) as Hle.
  rewrite (csr_row_ptr_last sp V) in Hle.
  apply palma_idx_small. lia.
Qed.

(** Insertion of a new column at the place the scan found keeps the matrix
    valid, whatever capacity the arrays have grown to. *)
Lemma insert_keeps_csr (sp : palma_sparse_t) (row col pos cap : nat) (val : Z) :
  csr_valid sp ->
  (row < sp_rows sp)%nat -> (col < sp_cols sp)%nat ->
  (nth row (sp_row_ptr sp) 0 <= pos <= nth (row + 1) (sp_row_ptr sp) 0)%nat ->
  (forall k, (nth row (sp_row_ptr sp) 0 <= k < pos)%nat ->
             (nth k (sp_col_idx sp) 0 < col)%nat) ->
  ((pos < nth (row + 1) (sp_row_ptr sp) 0)%nat ->
   (col < nth pos (sp_col_idx sp) 0)%nat) ->
  (sp_nnz sp + 1 <= cap)%nat ->
  Z.of_nat (sp_nnz sp) + 1 < 4294967296 ->
  csr_valid (mkSparse (insert_at (sp_values sp) pos val)
                      (insert_at (sp_col_idx sp) pos col)
                      (bump_row_ptr (sp_row_ptr sp) row (sp_rows sp))
                      (sp_rows sp) (sp_cols sp) (S (sp_nnz sp)) cap
                      (sp_semiring sp)).
Proof.
  intros V Hrow Hcol Hpos Hbefore Hafter Hcap Hfit.
  pose proof (csr_row_ptr_length sp V) as Lrp.
  pose proof (csr_col_idx_length sp V) as Lci.
  pose proof (csr_row_ptr_le sp (row + 1) (sp_rows sp) V ltac:(lia) ltac:(lia)) as Hend.
  rewrite (csr_row_ptr_last sp V) in Hend.
  assert (Hposlen : (pos <= length (sp_col_idx sp))%nat) by lia.
  assert (Hrows : (sp_rows sp < length (sp_row_ptr sp))%nat) by lia.
  constructor; cbn [sp_values sp_col_idx sp_row_ptr sp_rows sp_cols sp_nnz
                    sp_capacity sp_semiring].
  - rewrite bump_row_ptr_length. exact Lrp.
  - rewrite insert_at_length, (csr_values_length sp V). reflexivity.
  - rewrite insert_at_length, Lci. reflexivity.
  - lia.
  - rewrite (nth_bump_row_ptr_valid sp row _ V Hfit). cbn [Nat.ltb Nat.leb andb].
    exact (csr_row_ptr_first sp V).
  - rewrite (nth_bump_row_ptr_valid sp row _ V Hfit).
    replace (row <? sp_rows sp)%nat with true by (symmetry; apply Nat.ltb_lt; lia).
    rewrite Nat.leb_refl. cbn [andb]. rewrite (csr_row_ptr_last sp V). reflexivity.
  - intros r Hr. rewrite !(fun j => nth_bump_row_ptr_valid sp row j V Hfit).
    pose proof (csr_row_ptr_mono sp V r Hr). nat_cases.
  - intros r k Hr. rewrite !(fun j => nth_bump_row_ptr_valid sp row j V Hfit).
    rewrite !nth_insert_at by exact Hposlen.
    pose proof (csr_cols_ascending sp V r) as Hasc.
    destruct (Nat.lt_trichotomy r row) as [Hlt|[->|Hgt]].
    + (* a row above the insertion: untouched, and it ends before pos *)
      pose proof (csr_row_ptr_le sp (r + 1) row V ltac:(lia) ltac:(lia)).
      specialize (Hasc k Hr). nat_cases.
    + (* the row of the insertion *)
      pose proof (Hasc k Hr) as Hk. pose proof (Hasc (k - 1)%nat Hr) as Hk1.
      pose proof (Hbefore k) as Hb.
      nat_cases; intros; try lia.
      * replace (k + 1 - 1)%nat with pos by lia. apply Hafter. lia.
      * replace (k + 1 - 1)%nat with (k - 1 + 1)%nat by lia. apply Hk1; lia.
    + (* a row below the insertion: shifted by one slot *)
      pose proof (csr_row_ptr_le sp (row + 1) r V ltac:(lia) ltac:(lia)).
      pose proof (Hasc (k - 1)%nat Hr) as Hk1.
      nat_cases; intros;
        try (replace (k + 1 - 1)%nat with (k - 1 + 1)%nat by lia); try lia.
      all: try (apply Hk1; lia).
  - intros k Hk. rewrite nth_insert_at by exact Hposlen.
    pose proof (csr_cols_bounded sp V k). pose proof (csr_cols_bounded sp V (k - 1)%nat).
    nat_cases.
Qed.

(** C8 (as the code has it): after every successful [palma_sparse_set] on a
    valid CSR matrix -- the overwrite of an existing entry or the insertion
    of a new one, for any value, ε included -- at a column index and with
    an entry count that [palma_idx_t] can hold (col < 2^32 and
    nnz + 1 < 2^32), the matrix is again valid: [row_ptr[0] = 0],
    [row_ptr[rows] = nnz], and the column indices of every row ascend
    strictly (together with the lengths, the capacity and the bounds that
    make up [csr_valid]). *)
Theorem palma_sparse_set_keeps_csr (sp sp' : palma_sparse_t) (row col : nat) (val : Z) :
  csr_valid sp ->
  Z.of_nat col < 4294967296 ->
  Z.of_nat (sp_nnz sp) + 1 < 4294967296 ->
  palma_sparse_set (Some sp) row col val = (PALMA_SUCCESS, Some sp') ->
  csr_valid sp' /\
  nth 0 (sp_row_ptr sp') 0%nat = 0%nat /\
  nth (sp_rows sp') (sp_row_ptr sp') 0%nat = sp_nnz sp' /\
  (forall r k, (r < sp_rows sp')%nat ->
               (nth r (sp_row_ptr sp') 0 <= k)%nat ->
               (k + 1 < nth (r + 1) (sp_row_ptr sp') 0)%nat ->
               (nth k (sp_col_idx sp') 0 < nth (k + 1) (sp_col_idx sp') 0)%nat).
Proof.
  intros V Hcolfit Hnnzfit H.
  assert (V' : csr_valid sp').
  { unfold palma_sparse_set in H.
    destruct (Nat.leb_spec (sp_rows sp) row) as [|Hrow]; [discriminate H|].
    destruct (Nat.leb_spec (sp_cols sp) col) as [|Hcol]; [discriminate H|].
    cbn [orb] in H.
    set (start := nth row (sp_row_ptr sp) 0%nat) in *.
    set (end_ := nth (row + 1) (sp_row_ptr sp) 0%nat) in *.
    pose proof (find_pos_spec (sp_col_idx sp) col (end_ - start) start) as Hfp.
    cbv zeta in Hfp.
    set (pos := find_pos (sp_col_idx sp) col start (end_ - start)) in *.
    destruct Hfp as (Hp1 & Hp2 & Hp3).
    pose proof (csr_row_ptr_mono sp V row Hrow) as Hse. fold start end_ in Hse.
    destruct ((pos <? end_)%nat && (nth pos (sp_col_idx sp) 0 =? col)%nat) eqn:Ehit.
    - (* overwrite *)
      injection H as <-. destruct V.
      constructor; cbn [sp_values sp_col_idx sp_row_ptr sp_rows sp_cols sp_nnz
                        sp_capacity sp_semiring]; try assumption.
      rewrite upd_length. assumption.
    - (* insertion *)
      assert (Hafter : (pos < end_)%nat -> (col < nth pos (sp_col_idx sp) 0)%nat).
      { intros Hlt. specialize (Hp3 ltac:(lia)).
        apply andb_false_iff in Ehit. destruct Ehit as [E|E].
        - apply Nat.ltb_ge in E. lia.
        - apply Nat.eqb_neq in E. lia. }
      pose proof (csr_capacity sp V) as [Hc0 Hc].
      unfold sparse_ensure_capacity in H.
      destruct (Nat.leb_spec (sp_nnz sp + 1) (sp_capacity sp)) as [Hfit|Hgrow];
        injection H as <-;
        cbn [sp_values sp_col_idx sp_row_ptr sp_rows sp_cols sp_nnz
             sp_capacity sp_semiring];
        rewrite (palma_idx_small col Hcolfit);
        apply insert_keeps_csr; try assumption; try (fold start end_; lia).
      apply grow_capacity_reaches; lia. }
  split; [exact V'|]. split; [exact (csr_row_ptr_first sp' V')|].
  split; [exact (csr_row_ptr_last sp' V')|]. exact (csr_cols_ascending sp' V').
Qed.

Lemma sample_csr_valid : csr_valid sample_csr.
Proof.
  constructor; cbn; try reflexivity; try lia.
  - intros [|[|[|r]]] Hr; cbn; lia.
  - intros [|[|[|r]]] [|[|[|[|k]]]] Hr; cbn; lia.
  - intros [|[|[|[|k]]]] Hk; cbn; lia.
Qed.

Lemma palma_sparse_set_keeps_csr_witness :
  exists sp', palma_sparse_set (Some sample_csr) 1 1 PALMA_NEG_INF
              = (PALMA_SUCCESS, Some sp')
              /\ csr_valid sp' /\ sp_col_idx sp' = [1; 2; 0; 1; 2]%nat
              /\ sp_row_ptr sp' = [0; 2; 5; 5]%nat /\ sp_nnz sp' = 5%nat.
Proof.
  eexists. split; [vm_compute; reflexivity|].
  split; [|repeat split].
  exact (proj1 (palma_sparse_set_keeps_csr sample_csr _ 1 1 PALMA_NEG_INF
                  sample_csr_valid eq_refl eq_refl eq_refl)).
Defined.

(** A column index of 2^32 + 5 in a matrix that has room for it: the insert
    stores column 5 next to the entry that is already there. *)
Lemma wide_row_set (cols col : nat) :
  Z.of_nat col = 4294967301 -> (col < cols)%nat ->
  csr_valid (wide_row cols) /\
  palma_sparse_create 1 cols 0 PALMA_MAXPLUS
  = Some (mkSparse [] [] [0; 0]%nat 1 cols 0 16 PALMA_MAXPLUS) /\
  palma_sparse_set (Some (mkSparse [] [] [0; 0]%nat 1 cols 0 16 PALMA_MAXPLUS)) 0 5 1
  = (PALMA_SUCCESS, Some (wide_row cols)) /\
  palma_sparse_set (Some (wide_row cols)) 0 col 2
  = (PALMA_SUCCESS,
     Some (mkSparse [1; 2] [5; 5]%nat [0; 2]%nat 1 cols 2 16 PALMA_MAXPLUS)) /\
  ~ csr_valid (mkSparse [1; 2] [5; 5]%nat [0; 2]%nat 1 cols 2 16 PALMA_MAXPLUS).
Proof.
  intros Hcol Hlt.
  assert (Hidx : palma_idx col = 5%nat) by (unfold palma_idx; rewrite Hcol; reflexivity).
  split; [|split; [|split; [|split]]].
  - constructor; unfold wide_row;
      cbn [sp_values sp_col_idx sp_row_ptr sp_rows sp_cols sp_nnz sp_capacity
           sp_semiring length]; try reflexivity; try lia.
    + intros [|r] Hr; cbn [nth Nat.add]; lia.
    + intros [|r] k Hr; cbn [nth Nat.add]; lia.
    + intros [|k] Hk; cbn [nth]; lia.
  - unfold palma_sparse_create.
    destruct (Nat.eqb_spec cols 0); [lia|]. reflexivity.
  - unfold palma_sparse_set.
    cbn [sp_values sp_col_idx sp_row_ptr sp_rows sp_cols sp_nnz sp_capacity
         sp_semiring Nat.leb orb].
    destruct (Nat.leb_spec cols 5); [lia|]. reflexivity.
  - unfold palma_sparse_set, wide_row.
    cbn [sp_values sp_col_idx sp_row_ptr sp_rows sp_cols sp_nnz sp_capacity
         sp_semiring Nat.leb orb].
    destruct (Nat.leb_spec cols col); [lia|]. cbv zeta.
    cbn [nth Nat.add Nat.sub find_pos].
    destruct (Nat.ltb_spec 5 col); [|lia].
    cbn [Nat.ltb Nat.leb andb].
    unfold sparse_ensure_capacity.
    cbn [sp_values sp_col_idx sp_row_ptr sp_rows sp_cols sp_nnz sp_capacity
         sp_semiring Nat.add Nat.leb].
    rewrite Hidx. reflexivity.
  - intros V.
    pose proof (csr_cols_ascending _ V 0%nat 0%nat) as H.
    cbn [sp_rows sp_row_ptr sp_col_idx nth Nat.add] in H. lia.
Qed.

(** C8 as stated fails beyond the 32-bit index type.  [palma_sparse_create]
    and [palma_sparse_set (0, 5, 1)] give a valid matrix of one row and 2^33
    columns; [palma_sparse_set (0, 2^32 + 5, 2)] on it succeeds and stores
    the column index as [(palma_idx_t)col] = 5, next to the entry at column
    5: the row holds the columns [5; 5], which do not ascend strictly. *)
Lemma palma_sparse_set_wraps_column :
  Z.of_nat far_col = 4294967296 + 5 /\ Z.of_nat wide_cols = 2 * 4294967296 /\
  csr_valid (wide_row wide_cols) /\
  palma_sparse_create 1 wide_cols 0 PALMA_MAXPLUS
  = Some (mkSparse [] [] [0; 0]%nat 1 wide_cols 0 16 PALMA_MAXPLUS) /\
  palma_sparse_set (Some (mkSparse [] [] [0; 0]%nat 1 wide_cols 0 16 PALMA_MAXPLUS)) 0 5 1
  = (PALMA_SUCCESS, Some (wide_row wide_cols)) /\
  palma_sparse_set (Some (wide_row wide_cols)) 0 far_col 2
  = (PALMA_SUCCESS,
     Some (mkSparse [1; 2] [5; 5]%nat [0; 2]%nat 1 wide_cols 2 16 PALMA_MAXPLUS)) /\
  ~ csr_valid (mkSparse [1; 2] [5; 5]%nat [0; 2]%nat 1 wide_cols 2 16 PALMA_MAXPLUS).
Proof.
  assert (Hc : Z.of_nat far_col = 4294967301) by (apply Z2Nat.id; lia).
  assert (Hw : Z.of_nat wide_cols = 8589934592) by (apply Z2Nat.id; lia).
  split; [rewrite Hc; reflexivity|]. split; [rewrite Hw; reflexivity|].
  apply (wide_row_set wide_cols far_col Hc). lia.
Qed.

(** ** Dense storage *)

Lemma cell_index_lt (rows st i j : nat) :
  (i < rows)%nat -> (j < st)%nat -> (i * st + j < rows * st)%nat.
Proof. intros Hi Hj. nia. Qed.

Lemma cell_index_inj (st i j i' j' : nat) :
  (j < st)%nat -> (j' < st)%nat ->
  (i * st + j = i' * st + j')%nat -> i = i' /\ j = j'.
Proof.
  intros Hj Hj' E. destruct (Nat.lt_trichotomy i i') as [H|[H|H]]; nia.
Qed.

Lemma palma_matrix_set_wf (d : palma_matrix_t) (i j : nat) (v : Z) :
  dense_wf d -> dense_wf (palma_matrix_set d i j v).
Proof.
  intros [H1 H2]. split; cbn; [exact H1 | rewrite upd_length; exact H2].
Qed.

Lemma get_set_same (d : palma_matrix_t) (i j : nat) (v : Z) :
  dense_wf d -> (i < m_rows d)%nat -> (j < m_stride d)%nat ->
  palma_matrix_get (palma_matrix_set d i j v) i j = v.
Proof.
  intros [_ Hlen] Hi Hj. unfold palma_matrix_get, palma_matrix_set. cbn.
  rewrite nth_upd, Nat.eqb_refl, Hlen.
  pose proof (cell_index_lt _ _ _ _ Hi Hj) as Hlt.
  apply Nat.ltb_lt in Hlt. rewrite Hlt. reflexivity.
Qed.

Lemma get_set_other (d : palma_matrix_t) (i j i' j' : nat) (v : Z) :
  (j < m_stride d)%nat -> (j' < m_stride d)%nat -> i <> i' \/ j <> j' ->
  palma_matrix_get (palma_matrix_set d i j v) i' j' = palma_matrix_get d i' j'.
Proof.
  intros Hj Hj' Hne. unfold palma_matrix_get, palma_matrix_set. cbn.
  rewrite nth_upd.
  destruct (Nat.eqb_spec (i' * m_stride d + j') (i * m_stride d + j)) as [E|E];
    [|reflexivity].
  apply cell_index_inj in E; [|assumption|assumption]. destruct E; subst.
  destruct Hne; congruence.
Qed.

Lemma ALIGN_STRIDE_ge (cols : nat) : (cols <= ALIGN_STRIDE cols)%nat.
Proof.
  unfold ALIGN_STRIDE.
  pose proof (Nat.div_mod_eq (cols + 3) 4) as E.
  pose proof (Nat.mod_upper_bound (cols + 3) 4 ltac:(lia)) as B.
  lia.
Qed.

(** [palma_matrix_create_zero] on positive dimensions: a well-formed matrix
    all of whose cells hold ε. *)
Lemma palma_matrix_create_zero_spec (rows cols : nat) (s : palma_semiring_t) :
  (0 < rows)%nat -> (0 < cols)%nat ->
  exists d, palma_matrix_create_zero rows cols s = Some d /\
            m_rows d = rows /\ m_cols d = cols /\ dense_wf d /\
            (forall i j, (i < rows)%nat -> (j < m_stride d)%nat ->
                         palma_matrix_get d i j = palma_zero s).
Proof.
  intros Hr Hc. unfold palma_matrix_create_zero, palma_matrix_create.
  destruct (Nat.eqb_spec rows 0); [lia|]. destruct (Nat.eqb_spec cols 0); [lia|].
  cbn [orb m_rows m_cols m_stride m_data].
  eexists. split; [reflexivity|]. cbn [m_rows m_cols m_stride m_data].
  assert (Hlen : forall l (d : list Z),
             length (fold_left (fun d i => upd d i (palma_zero s)) l d) = length d).
  { induction l as [|k l IH]; intros d; cbn [fold_left]; [reflexivity|].
    rewrite IH. apply upd_length. }
  split; [reflexivity|]. split; [reflexivity|]. split.
  - split; cbn [m_rows m_cols m_stride m_data]; [apply ALIGN_STRIDE_ge|].
    rewrite Hlen. apply repeat_length.
  - intros i j Hi Hj. unfold palma_matrix_get. cbn [m_stride m_data].
    rewrite (nth_fold_upd (fun _ => palma_zero s)), repeat_length.
    pose proof (cell_index_lt _ _ _ _ Hi Hj) as Hlt.
    cbn [Nat.leb Nat.add andb]. apply Nat.ltb_lt in Hlt. rewrite Hlt. reflexivity.
Qed.

(** ** From CSR to dense *)

Section ToDense.

Variable sp : palma_sparse_t.
Hypothesis V : csr_valid sp.

Lemma row_writes_cons (i k : nat) (ks : list nat) (d : palma_matrix_t) :
  row_writes sp i (k :: ks) d
  = row_writes sp i ks (palma_matrix_set d i (nth k (sp_col_idx sp) 0%nat)
                                      (nth k (sp_values sp) 0)).
Proof. reflexivity. Qed.

Lemma row_writes_app (i : nat) (l1 l2 : list nat) (d : palma_matrix_t) :
  row_writes sp i (l1 ++ l2) d = row_writes sp i l2 (row_writes sp i l1 d).
Proof. apply fold_left_app. Qed.

Lemma row_writes_shape (i : nat) (ks : list nat) (d : palma_matrix_t) :
  m_rows (row_writes sp i ks d) = m_rows d /\
  m_cols (row_writes sp i ks d) = m_cols d /\
  m_stride (row_writes sp i ks d) = m_stride d /\
  (dense_wf d -> dense_wf (row_writes sp i ks d)).
Proof.
  revert d; induction ks as [|k ks IH]; intros d; cbn [row_writes fold_left].
  - auto.
  - destruct (IH (palma_matrix_set d i (nth k (sp_col_idx sp) 0%nat)
                                   (nth k (sp_values sp) 0)))
      as (H1 & H2 & H3 & H4).
    unfold row_writes in *.
    split; [exact H1|]. split; [exact H2|]. split; [exact H3|].
    intros W. apply H4, palma_matrix_set_wf, W.
Qed.

Lemma dense_writes_shape (rws : list nat) (d : palma_matrix_t) :
  m_rows (dense_writes sp rws d) = m_rows d /\
  m_cols (dense_writes sp rws d) = m_cols d /\
  m_stride (dense_writes sp rws d) = m_stride d /\
  (dense_wf d -> dense_wf (dense_writes sp rws d)).
Proof.
  revert d; induction rws as [|i rws IH]; intros d; cbn [dense_writes fold_left].
  - auto.
  - destruct (IH (row_writes sp i (row_range sp i) d)) as (H1 & H2 & H3 & H4).
    destruct (row_writes_shape i (row_range sp i) d) as (G1 & G2 & G3 & G4).
    unfold dense_writes in *.
    rewrite H1, H2, H3, G1, G2, G3.
    split; [reflexivity|]. split; [reflexivity|]. split; [reflexivity|].
    intros W. apply H4, G4, W.
Qed.

(** A cell that no store addresses keeps its content. *)
Lemma row_writes_untouched (i i0 j0 : nat) (ks : list nat) (d : palma_matrix_t) :
  (j0 < m_stride d)%nat ->
  (forall k, In k ks ->
             (nth k (sp_col_idx sp) 0 < m_stride d)%nat /\
             (i <> i0 \/ nth k (sp_col_idx sp) 0%nat <> j0)) ->
  palma_matrix_get (row_writes sp i ks d) i0 j0 = palma_matrix_get d i0 j0.
Proof.
  revert d; induction ks as [|k ks IH]; intros d Hj H; [reflexivity|].
  rewrite row_writes_cons, IH.
  - destruct (H k (or_introl eq_refl)) as [Hk Hne].
    apply get_set_other; assumption.
  - exact Hj.
  - intros k' Hk'. apply H. right. exact Hk'.
Qed.

(** The last store to a cell decides its content. *)
Lemma row_writes_hit (i k0 : nat) (l1 l2 : list nat) (d : palma_matrix_t) :
  dense_wf d -> (i < m_rows d)%nat ->
  (forall k, In k (l1 ++ k0 :: l2) ->
             (nth k (sp_col_idx sp) 0 < m_stride d)%nat) ->
  (forall k, In k l2 -> nth k (sp_col_idx sp) 0%nat <> nth k0 (sp_col_idx sp) 0%nat) ->
  palma_matrix_get (row_writes sp i (l1 ++ k0 :: l2) d) i (nth k0 (sp_col_idx sp) 0%nat)
  = nth k0 (sp_values sp) 0.
Proof.
  intros W Hi Hst Hne. rewrite row_writes_app, row_writes_cons.
  destruct (row_writes_shape i l1 d) as (S1 & _ & S3 & S4).
  set (d1 := row_writes sp i l1 d) in *.
  assert (Hk0 : (nth k0 (sp_col_idx sp) 0 < m_stride d1)%nat).
  { rewrite S3. apply Hst. apply in_or_app. right. left. reflexivity. }
  rewrite row_writes_untouched.
  - apply get_set_same; [apply S4, W | rewrite S1; exact Hi | exact Hk0].
  - exact Hk0.
  - intros k Hk. split.
    + cbn [palma_matrix_set m_stride]. rewrite S3. apply Hst.
      apply in_or_app. right. right. exact Hk.
    + right. apply Hne. exact Hk.
Qed.

Lemma seq_split (lo len k : nat) :
  (lo <= k < lo + len)%nat ->
  seq lo len = seq lo (k - lo) ++ k :: seq (S k) (lo + len - S k).
Proof.
  intros H. replace len with ((k - lo) + S (lo + len - S k))%nat at 1 by lia.
  rewrite seq_app. cbn [seq]. repeat f_equal; lia.
Qed.

Lemma in_row_range (i k : nat) :
  In k (row_range sp i)
  <-> (nth i (sp_row_ptr sp) 0 <= k < nth (i + 1) (sp_row_ptr sp) 0)%nat.
Proof. unfold row_range. rewrite in_seq. lia. Qed.

(** Within a row the column indices increase with the position. *)
Lemma csr_cols_increasing (i k1 k2 : nat) :
  (i < sp_rows sp)%nat ->
  (nth i (sp_row_ptr sp) 0 <= k1)%nat -> (k1 < k2)%nat ->
  (k2 < nth (i + 1) (sp_row_ptr sp) 0)%nat ->
  (nth k1 (sp_col_idx sp) 0 < nth k2 (sp_col_idx sp) 0)%nat.
Proof.
  intros Hi H1 H12 H2. induction k2 as [|k2 IH]; [lia|].
  pose proof (csr_cols_ascending sp V i k2 Hi) as Hstep.
  replace (k2 + 1)%nat with (S k2) in Hstep by lia.
  destruct (Nat.eq_dec k1 k2) as [->|Hne].
  - apply Hstep; lia.
  - specialize (IH ltac:(lia) ltac:(lia)). specialize (Hstep ltac:(lia) ltac:(lia)). lia.
Qed.

(** Every entry of a row lies in the arrays and its column in the matrix. *)
Lemma csr_entry_bounded (i k : nat) :
  (i < sp_rows sp)%nat -> In k (row_range sp i) ->
  (k < sp_nnz sp)%nat /\ (nth k (sp_col_idx sp) 0 < sp_cols sp)%nat.
Proof.
  intros Hi Hk. apply in_row_range in Hk.
  pose proof (csr_row_ptr_le sp (i + 1) (sp_rows sp) V ltac:(lia) ltac:(lia)) as Hle.
  rewrite (csr_row_ptr_last sp V) in Hle.
  split; [lia | apply (csr_cols_bounded sp V); lia].
Qed.

Lemma dense_writes_app (l1 l2 : list nat) (d : palma_matrix_t) :
  dense_writes sp (l1 ++ l2) d = dense_writes sp l2 (dense_writes sp l1 d).
Proof. apply fold_left_app. Qed.

Lemma dense_writes_cons (i : nat) (l : list nat) (d : palma_matrix_t) :
  dense_writes sp (i :: l) d = dense_writes sp l (row_writes sp i (row_range sp i) d).
Proof. reflexivity. Qed.

(** The stores for other rows leave a row as it is. *)
Lemma dense_writes_other_rows (i0 j0 : nat) (rws : list nat) (d : palma_matrix_t) :
  (sp_cols sp <= m_stride d)%nat -> (j0 < m_stride d)%nat ->
  (forall i, In i rws -> i <> i0 /\ (i < sp_rows sp)%nat) ->
  palma_matrix_get (dense_writes sp rws d) i0 j0 = palma_matrix_get d i0 j0.
Proof.
  revert d; induction rws as [|i rws IH]; intros d Hst Hj H; [reflexivity|].
  destruct (H i (or_introl eq_refl)) as [Hne Hi].
  destruct (row_writes_shape i (row_range sp i) d) as (_ & _ & S3 & _).
  rewrite dense_writes_cons, IH.
  - apply row_writes_untouched; [exact Hj|].
    intros k Hk. split; [|left; exact Hne].
    pose proof (csr_entry_bounded i k Hi Hk). lia.
  - rewrite S3. exact Hst.
  - rewrite S3. exact Hj.
  - intros i' Hi'. apply H. right. exact Hi'.
Qed.

(** What [palma_sparse_to_dense] builds from a valid matrix: the stored
    value at every stored position, and ε at every other position. *)
Lemma palma_sparse_to_dense_spec :
  (0 < sp_rows sp)%nat -> (0 < sp_cols sp)%nat ->
  exists d,
    palma_sparse_to_dense (Some sp) = Some d /\
    m_rows d = sp_rows sp /\ m_cols d = sp_cols sp /\
    (forall i k, (i < sp_rows sp)%nat -> In k (row_range sp i) ->
       palma_matrix_get d i (nth k (sp_col_idx sp) 0%nat) = nth k (sp_values sp) 0) /\
    (forall i j, (i < sp_rows sp)%nat -> (j < sp_cols sp)%nat ->
       (forall k, In k (row_range sp i) -> nth k (sp_col_idx sp) 0%nat <> j) ->
       palma_matrix_get d i j = palma_zero (sp_semiring sp)).
Proof.
  intros Hr Hc.
  destruct (palma_matrix_create_zero_spec (sp_rows sp) (sp_cols sp) (sp_semiring sp) Hr Hc)
    as (d0 & E0 & R0 & C0 & W0 & Z0).
  exists (dense_writes sp (seq 0 (sp_rows sp)) d0).
  destruct (dense_writes_shape (seq 0 (sp_rows sp)) d0) as (S1 & S2 & S3 & S4).
  assert (Hst0 : (sp_cols sp <= m_stride d0)%nat) by (destruct W0; lia).
  split; [unfold palma_sparse_to_dense; rewrite E0; reflexivity|].
  split; [lia|]. split; [lia|].
  assert (Hrow : forall i j, (i < sp_rows sp)%nat -> (j < m_stride d0)%nat ->
            palma_matrix_get (dense_writes sp (seq 0 (sp_rows sp)) d0) i j
            = palma_matrix_get
                (row_writes sp i (row_range sp i) (dense_writes sp (seq 0 i) d0)) i j).
  { intros i j Hi Hj.
    rewrite (seq_split 0 (sp_rows sp) i) by lia.
    rewrite dense_writes_app, dense_writes_cons. rewrite Nat.sub_0_r.
    destruct (dense_writes_shape (seq 0 i) d0) as (_ & _ & T3 & _).
    destruct (row_writes_shape i (row_range sp i) (dense_writes sp (seq 0 i) d0))
      as (_ & _ & U3 & _).
    apply dense_writes_other_rows.
    - rewrite U3, T3. exact Hst0.
    - rewrite U3, T3. exact Hj.
    - intros i' Hi'. apply in_seq in Hi'. lia. }
  assert (Hbefore : forall i j, (i < sp_rows sp)%nat -> (j < m_stride d0)%nat ->
            palma_matrix_get (dense_writes sp (seq 0 i) d0) i j
            = palma_zero (sp_semiring sp)).
  { intros i j Hi Hj. rewrite dense_writes_other_rows.
    - apply Z0; assumption.
    - exact Hst0.
    - exact Hj.
    - intros i' Hi'. apply in_seq in Hi'. lia. }
  split.
  - intros i k Hi Hk.
    destruct (csr_entry_bounded i k Hi Hk) as [_ Hcol].
    rewrite Hrow by lia.
    destruct (dense_writes_shape (seq 0 i) d0) as (T1 & _ & T3 & T4).
    pose proof Hk as Hk'. apply in_row_range in Hk'.
    unfold row_range.
    rewrite (seq_split _ _ k) by lia.
    apply row_writes_hit.
    + apply T4, W0.
    + rewrite T1, R0. exact Hi.
    + intros k' Hk'2. rewrite <- seq_split in Hk'2 by lia.
      destruct (csr_entry_bounded i k' Hi Hk'2). rewrite T3. lia.
    + intros k' Hk'2. apply in_seq in Hk'2.
      pose proof (csr_cols_increasing i k k' Hi ltac:(lia) ltac:(lia) ltac:(lia)). lia.
  - intros i j Hi Hj Hmiss.
    rewrite Hrow by lia.
    destruct (dense_writes_shape (seq 0 i) d0) as (_ & _ & T3 & _).
    rewrite row_writes_untouched.
    + apply Hbefore; lia.
    + rewrite T3. lia.
    + intros k Hk. destruct (csr_entry_bounded i k Hi Hk). split.
      * rewrite T3. lia.
      * right. apply Hmiss. exact Hk.
Qed.

End ToDense.

(** ** From dense to CSR *)

Section FromDense.

Variable dense : palma_matrix_t.
Variable zero : Z.

Lemma fill_entries_spec (i : nat) (l : list nat)
      (values : list Z) (col_idx row_ptr : list nat) (idx : nat) :
  let f := fun j => negb (palma_matrix_get dense i j =? zero) in
  fold_left (fill_entry dense zero i) l (values, col_idx, row_ptr, idx)
  = (values ++ map (palma_matrix_get dense i) (filter f l),
     col_idx ++ map palma_idx (filter f l), row_ptr,
     (idx + length (filter f l))%nat).
Proof.
  cbv zeta. revert values col_idx idx; induction l as [|j l IH]; intros v c idx.
  - cbn. rewrite !app_nil_r, Nat.add_0_r. reflexivity.
  - cbn [fold_left filter]. unfold fill_entry at 2.
    destruct (negb (palma_matrix_get dense i j =? zero)).
    + rewrite IH. cbn [map length]. rewrite <- !app_assoc. cbn [app].
      f_equal. lia.
    + apply IH.
Qed.

Lemma fill_row_spec (i : nat) (values : list Z) (col_idx row_ptr : list nat)
      (idx : nat) :
  fill_row dense zero (values, col_idx, row_ptr, idx) i
  = (values ++ dense_row_vals dense zero i,
     col_idx ++ map palma_idx (dense_row_cols dense zero i),
     upd row_ptr i (palma_idx idx),
     (idx + length (dense_row_cols dense zero i))%nat).
Proof. unfold fill_row. apply fill_entries_spec. Qed.

(** The filling pass over the rows [lo .. lo + len - 1], with the stored
    indices as the casts leave them. *)
Lemma fill_rows_stored (len lo : nat) (values : list Z) (col_idx row_ptr : list nat)
      (idx : nat) :
  exists row_ptr',
    fold_left (fill_row dense zero) (seq lo len) (values, col_idx, row_ptr, idx)
    = (values ++ flat_map (dense_row_vals dense zero) (seq lo len),
       col_idx ++ map palma_idx (flat_map (dense_row_cols dense zero) (seq lo len)),
       row_ptr',
       (idx + length (flat_map (dense_row_cols dense zero) (seq lo len)))%nat) /\
    length row_ptr' = length row_ptr /\
    forall r, nth r row_ptr' 0%nat
              = if (lo <=? r)%nat && (r <? lo + len)%nat && (r <? length row_ptr)%nat
                then palma_idx
                       (idx + length (flat_map (dense_row_cols dense zero)
                                               (seq lo (r - lo))))
                else nth r row_ptr 0%nat.
Proof.
  revert lo values col_idx row_ptr idx; induction len as [|len IH];
    intros lo v c rp idx.
  - exists rp. cbn [seq fold_left flat_map length map]. rewrite !app_nil_r, Nat.add_0_r.
    split; [reflexivity|]. split; [reflexivity|]. intros r. nat_cases.
  - cbn [seq fold_left flat_map]. rewrite fill_row_spec.
    destruct (IH (S lo) (v ++ dense_row_vals dense zero lo)
                 (c ++ map palma_idx (dense_row_cols dense zero lo))
                 (upd rp lo (palma_idx idx))
                 (idx + length (dense_row_cols dense zero lo))%nat)
      as (rp' & E & L & N).
    exists rp'. split; [|split].
    + rewrite E, map_app, <- !app_assoc, length_app. f_equal. lia.
    + rewrite L. apply upd_length.
    + intros r. rewrite N, upd_length, nth_upd.
      destruct (Nat.eq_dec r lo) as [->|Hne].
      * rewrite Nat.sub_diag. cbn [seq flat_map length]. rewrite Nat.add_0_r.
        nat_cases.
      * destruct (Nat.lt_ge_cases lo r) as [Hlt|Hge]; [|nat_cases].
        replace (r - lo)%nat with (S (r - S lo)) by lia.
        cbn [seq flat_map]. rewrite length_app, Nat.add_assoc. nat_cases.
Qed.

Lemma flat_map_prefix_length {A : Type} (g : nat -> list A) (lo len k : nat) :
  (k <= len)%nat ->
  (length (flat_map g (seq lo k)) <= length (flat_map g (seq lo len)))%nat.
Proof.
  intros Hk. replace len with (k + (len - k))%nat at 1 by lia.
  rewrite seq_app, flat_map_app, length_app. lia.
Qed.

(** The filling pass where [palma_idx_t] holds every stored column index
    and the final write index: no stored index is reduced. *)
Lemma fill_rows_spec (len lo : nat) (values : list Z) (col_idx row_ptr : list nat)
      (idx : nat) :
  (forall i j, (lo <= i < lo + len)%nat -> In j (dense_row_cols dense zero i) ->
               Z.of_nat j < 4294967296) ->
  Z.of_nat (idx + length (flat_map (dense_row_cols dense zero) (seq lo len)))
  < 4294967296 ->
  exists row_ptr',
    fold_left (fill_row dense zero) (seq lo len) (values, col_idx, row_ptr, idx)
    = (values ++ flat_map (dense_row_vals dense zero) (seq lo len),
       col_idx ++ flat_map (dense_row_cols dense zero) (seq lo len),
       row_ptr',
       (idx + length (flat_map (dense_row_cols dense zero) (seq lo len)))%nat) /\
    length row_ptr' = length row_ptr /\
    forall r, nth r row_ptr' 0%nat
              = if (lo <=? r)%nat && (r <? lo + len)%nat && (r <? length row_ptr)%nat
                then (idx + length (flat_map (dense_row_cols dense zero) (seq lo (r - lo))))%nat
                else nth r row_ptr 0%nat.
Proof.
  intros Hc Hn.
  destruct (fill_rows_stored len lo values col_idx row_ptr idx) as (rp' & E & L & N).
  exists rp'. split; [|split; [exact L|]].
  - rewrite E. f_equal. f_equal. f_equal. f_equal.
    rewrite <- (map_id (flat_map _ _)) at 2.
    apply map_ext_in. intros j Hj. apply in_flat_map in Hj.
    destruct Hj as (i & Hi & Hj). apply in_seq in Hi.
    apply palma_idx_small. apply (Hc i j Hi Hj).
  - intros r. rewrite N.
    destruct (Nat.leb_spec lo r); [|reflexivity].
    destruct (Nat.ltb_spec r (lo + len)); [|reflexivity].
    destruct (Nat.ltb_spec r (length row_ptr)); [|reflexivity]. cbn [andb].
    apply palma_idx_small.
    pose proof (flat_map_prefix_length (dense_row_cols dense zero) lo len (r - lo)
                                       ltac:(lia)).
    lia.
Qed.

Lemma count_nonzero_spec :
  count_nonzero dense zero = dense_offset dense zero (m_rows dense).
Proof.
  unfold count_nonzero, dense_offset.
  assert (Gin : forall i l n,
             fold_left (fun nnz j =>
                          if negb (palma_matrix_get dense i j =? zero)
                          then S nnz else nnz) l n
             = (n + length (dense_row_filter dense zero i l))%nat).
  { intros i l; induction l as [|j l IH]; intros n;
      unfold dense_row_filter in *; cbn [fold_left filter].
    - cbn. lia.
    - destruct (negb (palma_matrix_get dense i j =? zero)); rewrite IH; cbn; lia. }
  assert (Gout : forall l n,
             fold_left (fun nnz i =>
                          fold_left (fun nnz j =>
                                       if negb (palma_matrix_get dense i j =? zero)
                                       then S nnz else nnz)
                                    (seq 0 (m_cols dense)) nnz) l n
             = (n + length (flat_map (dense_row_cols dense zero) l))%nat).
  { induction l as [|i l IH]; intros n; cbn [fold_left flat_map].
    - cbn. lia.
    - rewrite IH, Gin, length_app. unfold dense_row_cols. lia. }
  rewrite Gout. reflexivity.
Qed.

End FromDense.

Lemma seq_snoc (n : nat) : seq 0 (S n) = seq 0 n ++ [n].
Proof. rewrite seq_S. reflexivity. Qed.

Lemma dense_offset_succ (dense : palma_matrix_t) (zero : Z) (r : nat) :
  dense_offset dense zero (S r)
  = (dense_offset dense zero r + length (dense_row_cols dense zero r))%nat.
Proof.
  unfold dense_offset. rewrite seq_snoc, flat_map_app, length_app.
  cbn [flat_map]. rewrite app_nil_r. reflexivity.
Qed.

Lemma dense_offset_le (dense : palma_matrix_t) (zero : Z) (r1 r2 : nat) :
  (r1 <= r2)%nat -> (dense_offset dense zero r1 <= dense_offset dense zero r2)%nat.
Proof.
  induction 1 as [|r2 _ IH]; [lia|]. rewrite dense_offset_succ. lia.
Qed.

(** No row stores more entries than it has columns. *)
Lemma dense_offset_cells (dense : palma_matrix_t) (zero : Z) (r : nat) :
  (dense_offset dense zero r <= r * m_cols dense)%nat.
Proof.
  induction r as [|r IH]; [reflexivity|].
  rewrite dense_offset_succ.
  assert (H : (length (dense_row_cols dense zero r) <= m_cols dense)%nat).
  { unfold dense_row_cols, dense_row_filter.
    etransitivity; [apply filter_length_le|]. rewrite length_seq. reflexivity. }
  cbn [Nat.mul]. lia.
Qed.

Lemma dense_vals_offset (dense : palma_matrix_t) (zero : Z) (r : nat) :
  length (flat_map (dense_row_vals dense zero) (seq 0 r)) = dense_offset dense zero r.
Proof.
  unfold dense_offset. generalize (seq 0 r) as l.
  induction l as [|i l IH]; [reflexivity|].
  cbn [flat_map]. rewrite !length_app, IH. unfold dense_row_vals.
  rewrite length_map. reflexivity.
Qed.

(** Entry [t] of row [r] sits [t] places after the entries of the rows
    before it. *)
Lemma flat_map_nth_offset {A : Type} (g : nat -> list A) (n r t : nat) (d : A) :
  (r < n)%nat -> (t < length (g r))%nat ->
  nth (length (flat_map g (seq 0 r)) + t) (flat_map g (seq 0 n)) d = nth t (g r) d.
Proof.
  intros Hr Ht. rewrite (seq_split 0 n r) by lia.
  rewrite flat_map_app, Nat.sub_0_r, app_nth2_plus. cbn [flat_map].
  apply app_nth1. exact Ht.
Qed.

(** A filtered interval ascends strictly. *)
Lemma filter_seq_increasing (f : nat -> bool) (len lo t : nat) :
  (t + 1 < length (filter f (seq lo len)))%nat ->
  (nth t (filter f (seq lo len)) 0 < nth (t + 1) (filter f (seq lo len)) 0)%nat.
Proof.
  revert lo t; induction len as [|len IH]; intros lo t; cbn [seq filter].
  - cbn. lia.
  - destruct (f lo).
    + cbn [length]. intros Ht. destruct t as [|t].
      * cbn [nth Nat.add].
        assert (Hin : In (nth 0 (filter f (seq (S lo) len)) 0%nat)
                         (filter f (seq (S lo) len)))
          by (apply nth_In; lia).
        apply filter_In in Hin. destruct Hin as [Hin _].
        apply in_seq in Hin. lia.
      * cbn [nth Nat.add]. apply IH. lia.
    + apply IH.
Qed.

(** [palma_sparse_from_dense] on positive dimensions returns the CSR image
    for the ε of the semiring, when [palma_idx_t] holds every column index
    and the number of cells that are not ε. *)
Lemma palma_sparse_from_dense_spec (dense : palma_matrix_t) (s : palma_semiring_t) :
  (0 < m_rows dense)%nat -> (0 < m_cols dense)%nat ->
  dense_fits_idx dense (palma_zero s) ->
  exists sp,
    palma_sparse_from_dense (Some dense) s = Some sp /\
    csr_image dense (palma_zero s) s sp.
Proof.
  intros Hr Hc [Hcfit Hnfit]. set (zero := palma_zero s) in *.
  unfold palma_sparse_from_dense, palma_sparse_create.
  fold zero. rewrite count_nonzero_spec in *. unfold dense_offset in Hnfit.
  destruct (Nat.eqb_spec (m_rows dense) 0); [lia|].
  destruct (Nat.eqb_spec (m_cols dense) 0); [lia|].
  cbn [orb sp_values sp_col_idx sp_row_ptr sp_rows sp_cols sp_capacity sp_semiring].
  assert (Hcfit' : forall i j, (0 <= i < 0 + m_rows dense)%nat ->
                               In j (dense_row_cols dense zero i) ->
                               Z.of_nat j < 4294967296).
  { intros i j Hi Hj. unfold dense_row_cols, dense_row_filter in Hj.
    apply filter_In in Hj. destruct Hj as [Hj Hnz]. apply in_seq in Hj.
    rewrite negb_true_iff, Z.eqb_neq in Hnz. apply (Hcfit i j); [lia | lia | exact Hnz]. }
  destruct (fill_rows_spec dense zero (m_rows dense) 0 [] []
                           (repeat 0%nat (m_rows dense + 1)) 0 Hcfit' Hnfit)
    as (rp' & E & L & N).
  rewrite E. cbn [app Nat.add]. rewrite (palma_idx_small _ Hnfit).
  eexists. split; [reflexivity|].
  rewrite repeat_length in L, N.
  constructor;
    cbn [sp_values sp_col_idx sp_row_ptr sp_rows sp_cols sp_nnz sp_capacity
         sp_semiring]; try reflexivity.
  - fold (dense_offset dense zero (m_rows dense)).
    destruct (Nat.ltb_spec 0 (dense_offset dense zero (m_rows dense))); lia.
  - rewrite upd_length; exact L.
  - intros r Hle. rewrite nth_upd, L, N.
    destruct (Nat.eq_dec r (m_rows dense)) as [->|Hne].
    + rewrite Nat.eqb_refl.
      replace (m_rows dense <? m_rows dense + 1)%nat with true
        by (symmetry; apply Nat.ltb_lt; lia).
      reflexivity.
    + replace (r =? m_rows dense)%nat with false by (symmetry; apply Nat.eqb_neq; lia).
      cbn [andb Nat.leb].
      replace (r <? 0 + m_rows dense)%nat with true by (symmetry; apply Nat.ltb_lt; lia).
      replace (r <? m_rows dense + 1)%nat with true by (symmetry; apply Nat.ltb_lt; lia).
      cbn [andb]. rewrite Nat.sub_0_r. reflexivity.
Qed.

Section CsrImage.

Variable dense : palma_matrix_t.
Variable zero : Z.
Variable s : palma_semiring_t.
Variable sp : palma_sparse_t.
Hypothesis I : csr_image dense zero s sp.

Lemma csr_image_row_range (i k : nat) :
  (i < m_rows dense)%nat ->
  (In k (row_range sp i)
   <-> (dense_offset dense zero i <= k
        < dense_offset dense zero i + length (dense_row_cols dense zero i))%nat).
Proof.
  intros Hi. rewrite in_row_range.
  rewrite !(img_row_ptr _ _ _ _ I) by lia.
  replace (i + 1)%nat with (S i) by lia. rewrite dense_offset_succ. reflexivity.
Qed.

Lemma csr_image_entry (i t : nat) :
  (i < m_rows dense)%nat -> (t < length (dense_row_cols dense zero i))%nat ->
  nth (dense_offset dense zero i + t) (sp_col_idx sp) 0%nat
  = nth t (dense_row_cols dense zero i) 0%nat /\
  nth (dense_offset dense zero i + t) (sp_values sp) 0
  = palma_matrix_get dense i (nth t (dense_row_cols dense zero i) 0%nat).
Proof.
  intros Hi Ht. rewrite (img_col_idx _ _ _ _ I), (img_values _ _ _ _ I). split.
  - apply flat_map_nth_offset; assumption.
  - rewrite <- dense_vals_offset.
    rewrite flat_map_nth_offset
      by (try assumption; unfold dense_row_vals; rewrite length_map; exact Ht).
    unfold dense_row_vals.
    apply (nth_map_in_range (palma_matrix_get dense i)). exact Ht.
Qed.

(** A column listed for row [i] holds a cell that is not [zero]. *)
Lemma dense_row_cols_In (i j : nat) :
  In j (dense_row_cols dense zero i)
  <-> (j < m_cols dense)%nat /\ palma_matrix_get dense i j <> zero.
Proof.
  unfold dense_row_cols, dense_row_filter. rewrite filter_In, in_seq, negb_true_iff.
  rewrite Z.eqb_neq. intuition lia.
Qed.

(** The image of a dense matrix is a valid CSR matrix. *)
Lemma csr_image_valid : csr_valid sp.
Proof.
  pose proof (img_rows _ _ _ _ I) as Er. pose proof (img_nnz _ _ _ _ I) as En.
  constructor.
  - rewrite (img_row_ptr_length _ _ _ _ I), Er. reflexivity.
  - rewrite (img_values _ _ _ _ I), dense_vals_offset, En. reflexivity.
  - rewrite (img_col_idx _ _ _ _ I), En. reflexivity.
  - exact (img_capacity _ _ _ _ I).
  - rewrite (img_row_ptr _ _ _ _ I) by lia. reflexivity.
  - rewrite Er, (img_row_ptr _ _ _ _ I), En by lia. reflexivity.
  - intros r Hr. rewrite !(img_row_ptr _ _ _ _ I) by lia.
    apply dense_offset_le. lia.
  - intros r k Hr. rewrite !(img_row_ptr _ _ _ _ I) by lia.
    replace (r + 1)%nat with (S r) by lia. rewrite dense_offset_succ.
    intros H1 H2.
    set (t := (k - dense_offset dense zero r)%nat).
    replace k with (dense_offset dense zero r + t)%nat by (unfold t; lia).
    replace (dense_offset dense zero r + t + 1)%nat
      with (dense_offset dense zero r + (t + 1))%nat by lia.
    rewrite (proj1 (csr_image_entry r t ltac:(lia) ltac:(unfold t; lia))).
    rewrite (proj1 (csr_image_entry r (t + 1) ltac:(lia) ltac:(unfold t; lia))).
    apply filter_seq_increasing. fold (dense_row_filter dense zero r (seq 0 (m_cols dense))).
    fold (dense_row_cols dense zero r). unfold t. lia.
  - intros k Hk. rewrite (img_col_idx _ _ _ _ I), (img_cols _ _ _ _ I).
    assert (Hin : In (nth k (flat_map (dense_row_cols dense zero) (seq 0 (m_rows dense))) 0%nat)
                     (flat_map (dense_row_cols dense zero) (seq 0 (m_rows dense)))).
    { apply nth_In. fold (dense_offset dense zero (m_rows dense)). lia. }
    apply in_flat_map in Hin. destruct Hin as (i & _ & Hin).
    apply dense_row_cols_In in Hin. lia.
Qed.

End CsrImage.

(** ** Round trips between the two storage formats *)

Lemma flat_map_ext_in {A B : Type} (f g : A -> list B) (l : list A) :
  (forall x, In x l -> f x = g x) -> flat_map f l = flat_map g l.
Proof.
  induction l as [|x l IH]; intros H; [reflexivity|].
  cbn [flat_map]. rewrite (H x (or_introl eq_refl)), IH; [reflexivity|].
  intros y Hy. apply H. right. exact Hy.
Qed.

Lemma flat_map_map {A B C : Type} (g : B -> C) (h : A -> list B) (l : list A) :
  flat_map (fun i => map g (h i)) l = map g (flat_map h l).
Proof.
  induction l as [|x l IH]; [reflexivity|].
  cbn [flat_map]. rewrite map_app, IH. reflexivity.
Qed.

Lemma map_nth_seq {A : Type} (l : list A) (d : A) :
  map (fun k => nth k l d) (seq 0 (length l)) = l.
Proof.
  induction l as [|x l IH]; [reflexivity|].
  cbn [length seq map nth]. f_equal.
  rewrite <- seq_shift, map_map. exact IH.
Qed.

(** A strictly ascending list inside an interval is what a filter of the
    interval returns, when the filter accepts exactly its elements. *)
Lemma filter_seq_sorted (f : nat -> bool) (len lo : nat) (L : list nat) :
  StronglySorted lt L ->
  (forall j, In j L -> (lo <= j < lo + len)%nat) ->
  (forall j, (lo <= j < lo + len)%nat -> (f j = true <-> In j L)) ->
  filter f (seq lo len) = L.
Proof.
  revert lo L; induction len as [|len IH]; intros lo L HS Hin Hf.
  - destruct L as [|h T]; [reflexivity|].
    specialize (Hin h (or_introl eq_refl)). lia.
  - cbn [seq filter]. destruct (f lo) eqn:E.
    + apply (Hf lo ltac:(lia)) in E.
      destruct L as [|h T]; [destruct E|].
      apply StronglySorted_inv in HS. destruct HS as [HT Hh].
      rewrite Forall_forall in Hh.
      assert (h = lo).
      { destruct E as [E|E]; [exact E|].
        specialize (Hh lo E). specialize (Hin h (or_introl eq_refl)). lia. }
      subst h. f_equal. apply IH.
      * exact HT.
      * intros j Hj. specialize (Hh j Hj). specialize (Hin j (or_intror Hj)). lia.
      * intros j Hj. rewrite (Hf j ltac:(lia)). split.
        -- intros [Hjl|Hjt]; [lia | exact Hjt].
        -- intros Hjt. right. exact Hjt.
    + assert (Hlo : ~ In lo L).
      { intros Hl. apply (Hf lo ltac:(lia)) in Hl. congruence. }
      apply IH.
      * exact HS.
      * intros j Hj. specialize (Hin j Hj).
        assert (j <> lo) by (intros ->; exact (Hlo Hj)). lia.
      * intros j Hj. apply Hf. lia.
Qed.

Lemma map_seq_sorted (g : nat -> nat) (len lo : nat) :
  (forall k1 k2, (lo <= k1)%nat -> (k1 < k2)%nat -> (k2 < lo + len)%nat ->
                 (g k1 < g k2)%nat) ->
  StronglySorted lt (map g (seq lo len)).
Proof.
  revert lo; induction len as [|len IH]; intros lo H; cbn [seq map].
  - constructor.
  - constructor.
    + apply IH. intros k1 k2 H1 H2 H3. apply H; lia.
    + apply Forall_forall. intros x Hx. apply in_map_iff in Hx.
      destruct Hx as (k & <- & Hk). apply in_seq in Hk. apply H; lia.
Qed.

(** The entries of the rows before row [r] are the first [row_ptr[r]]
    entries. *)
Lemma row_ranges_prefix (sp : palma_sparse_t) (r : nat) :
  csr_valid sp -> (r <= sp_rows sp)%nat ->
  flat_map (row_range sp) (seq 0 r) = seq 0 (nth r (sp_row_ptr sp) 0%nat).
Proof.
  intros V. induction r as [|r IH]; intros Hr.
  - rewrite (csr_row_ptr_first sp V). reflexivity.
  - rewrite seq_snoc, flat_map_app, IH by lia. cbn [flat_map].
    rewrite app_nil_r. unfold row_range.
    pose proof (csr_row_ptr_mono sp V r ltac:(lia)) as Hm.
    replace (r + 1)%nat with (S r) in * by lia.
    rewrite <- seq_app. f_equal. lia.
Qed.

(** Dense to sparse and back: the same cells. *)
Lemma to_dense_from_dense (dense : palma_matrix_t) (s : palma_semiring_t) :
  (0 < m_rows dense)%nat -> (0 < m_cols dense)%nat ->
  dense_fits_idx dense (palma_zero s) ->
  exists sp d,
    palma_sparse_from_dense (Some dense) s = Some sp /\
    palma_sparse_to_dense (Some sp) = Some d /\
    m_rows d = m_rows dense /\ m_cols d = m_cols dense /\
    forall i j, (i < m_rows dense)%nat -> (j < m_cols dense)%nat ->
                palma_matrix_get d i j = palma_matrix_get dense i j.
Proof.
  intros Hr Hc Hfit.
  destruct (palma_sparse_from_dense_spec dense s Hr Hc Hfit) as (sp & Esp & I).
  pose proof (csr_image_valid _ _ _ _ I) as V.
  pose proof (img_rows _ _ _ _ I) as Er. pose proof (img_cols _ _ _ _ I) as Ec.
  destruct (palma_sparse_to_dense_spec sp V ltac:(lia) ltac:(lia))
    as (d & Ed & Rd & Cd & Hhit & Hmiss).
  exists sp, d. split; [exact Esp|]. split; [exact Ed|].
  split; [lia|]. split; [lia|].
  intros i j Hi Hj.
  destruct (Z.eq_dec (palma_matrix_get dense i j) (palma_zero s)) as [Ez|Ez].
  - rewrite Ez, <- (img_semiring _ _ _ _ I). apply Hmiss; try lia.
    intros k Hk Hkj. apply (csr_image_row_range _ _ _ _ I) in Hk; [|exact Hi].
    set (t := (k - dense_offset dense (palma_zero s) i)%nat).
    assert (Ht : (t < length (dense_row_cols dense (palma_zero s) i))%nat)
      by (unfold t; lia).
    destruct (csr_image_entry _ _ _ _ I i t Hi Ht) as [Ecol _].
    replace (dense_offset dense (palma_zero s) i + t)%nat with k in Ecol
      by (unfold t; lia).
    assert (Hin : In j (dense_row_cols dense (palma_zero s) i))
      by (rewrite <- Hkj, Ecol; apply nth_In; exact Ht).
    apply dense_row_cols_In in Hin. destruct Hin as [_ Hne]. exact (Hne Ez).
  - assert (Hin : In j (dense_row_cols dense (palma_zero s) i))
      by (apply dense_row_cols_In; split; assumption).
    destruct (In_nth _ _ 0%nat Hin) as (t & Ht & Et).
    destruct (csr_image_entry _ _ _ _ I i t Hi Ht) as [Ecol Eval].
    rewrite Et in Ecol, Eval. rewrite <- Ecol at 1. rewrite <- Eval.
    apply Hhit; [lia|].
    apply (csr_image_row_range _ _ _ _ I); [exact Hi | lia].
Qed.

(** Sparse to dense and back: the same content, for a valid compressed
    matrix and its own semiring. *)
Lemma from_dense_to_dense (sp : palma_sparse_t) :
  csr_valid sp -> csr_compressed sp -> csr_fits_idx sp ->
  (0 < sp_rows sp)%nat -> (0 < sp_cols sp)%nat ->
  exists d sp',
    palma_sparse_to_dense (Some sp) = Some d /\
    palma_sparse_from_dense (Some d) (sp_semiring sp) = Some sp' /\
    csr_same sp' sp.
Proof.
  intros V Hcomp [Hcfit Hnfit] Hr Hc.
  destruct (palma_sparse_to_dense_spec sp V Hr Hc)
    as (d & Ed & Rd & Cd & Hhit & Hmiss).
  set (zero := palma_zero (sp_semiring sp)) in *.
  set (ci := fun k => nth k (sp_col_idx sp) 0%nat).
  set (vl := fun k => nth k (sp_values sp) 0).
  assert (Hcols : forall i, (i < sp_rows sp)%nat ->
            dense_row_cols d zero i = map ci (row_range sp i)).
  { intros i Hi. unfold dense_row_cols, dense_row_filter. rewrite Cd.
    apply filter_seq_sorted.
    - apply map_seq_sorted. intros k1 k2 H1 H2 H3. unfold ci.
      pose proof (csr_row_ptr_mono sp V i Hi).
      apply (csr_cols_increasing sp V i); lia.
    - intros j Hj. apply in_map_iff in Hj. destruct Hj as (k & <- & Hk).
      destruct (csr_entry_bounded sp V i k Hi Hk). unfold ci. lia.
    - intros j Hj. rewrite negb_true_iff, Z.eqb_neq. split.
      + intros Hne.
        destruct (in_dec Nat.eq_dec j (map ci (row_range sp i))) as [Hin|Hnin];
          [exact Hin|].
        exfalso. apply Hne. apply Hmiss; [exact Hi | lia |].
        intros k Hk Ekj. apply Hnin. apply in_map_iff. exists k. split; assumption.
      + intros Hin. apply in_map_iff in Hin. destruct Hin as (k & <- & Hk).
        unfold ci. rewrite (Hhit i k Hi Hk).
        apply Hcomp. apply (csr_entry_bounded sp V i k Hi Hk). }
  assert (Hvals : forall i, (i < sp_rows sp)%nat ->
            dense_row_vals d zero i = map vl (row_range sp i)).
  { intros i Hi. unfold dense_row_vals. rewrite (Hcols i Hi), map_map.
    apply map_ext_in. intros k Hk. apply (Hhit i k Hi Hk). }
  assert (Hoff : forall r, (r <= sp_rows sp)%nat ->
            dense_offset d zero r = nth r (sp_row_ptr sp) 0%nat).
  { intros r Hle. unfold dense_offset.
    rewrite (flat_map_ext_in _ (fun i => map ci (row_range sp i)))
      by (intros i Hi; apply in_seq in Hi; apply Hcols; lia).
    rewrite flat_map_map, length_map, row_ranges_prefix by assumption.
    apply length_seq. }
  pose proof (csr_row_ptr_last sp V) as Hlast.
  assert (Hfit : dense_fits_idx d zero).
  { split.
    - intros i j Hi Hj Hnz.
      destruct (in_dec Nat.eq_dec j (map ci (row_range sp i))) as [Hin|Hnin].
      + apply in_map_iff in Hin. destruct Hin as (k & <- & Hk).
        apply Hcfit. apply (csr_entry_bounded sp V i k ltac:(lia) Hk).
      + exfalso. apply Hnz. apply Hmiss; [lia | lia |].
        intros k Hk Ekj. apply Hnin. apply in_map_iff. exists k. split; assumption.
    - rewrite count_nonzero_spec, Rd, Hoff, Hlast by lia. exact Hnfit. }
  destruct (palma_sparse_from_dense_spec d (sp_semiring sp) ltac:(lia) ltac:(lia) Hfit)
    as (sp' & Esp' & I).
  exists d, sp'. split; [exact Ed|]. split; [exact Esp'|].
  unfold csr_same. rewrite (img_values _ _ _ _ I), (img_col_idx _ _ _ _ I),
    (img_rows _ _ _ _ I), (img_cols _ _ _ _ I), (img_nnz _ _ _ _ I),
    (img_semiring _ _ _ _ I), Rd, Cd.
  split; [|split; [|split; [|split; [|split; [|split]]]]]; try reflexivity.
  - rewrite (flat_map_ext_in _ (fun i => map vl (row_range sp i)))
      by (intros i Hi; apply in_seq in Hi; apply Hvals; lia).
    rewrite flat_map_map, row_ranges_prefix, Hlast by (assumption || lia).
    rewrite <- (csr_values_length sp V). apply map_nth_seq.
  - rewrite (flat_map_ext_in _ (fun i => map ci (row_range sp i)))
      by (intros i Hi; apply in_seq in Hi; apply Hcols; lia).
    rewrite flat_map_map, row_ranges_prefix, Hlast by (assumption || lia).
    rewrite <- (csr_col_idx_length sp V). apply map_nth_seq.
  - apply (nth_ext _ _ 0%nat 0%nat).
    + rewrite (img_row_ptr_length _ _ _ _ I), (csr_row_ptr_length sp V), Rd.
      reflexivity.
    + intros r Hlt. rewrite (img_row_ptr_length _ _ _ _ I), Rd in Hlt.
      rewrite (img_row_ptr _ _ _ _ I) by lia. apply Hoff. lia.
  - rewrite Hoff, Hlast by lia. reflexivity.
Qed.

(** C9 (as the code has it): both conversions round-trip where
    [palma_idx_t] holds the indices.  For every valid compressed CSR matrix
    on positive dimensions, whose index arrays hold [palma_idx_t] values,
    converting it to dense and back with its own semiring returns a matrix
    with the same values, column indices, row pointers, dimensions, entry
    count and semiring.  For every semiring and every dense matrix on
    positive dimensions whose cells other than ε lie in columns below 2^32
    and number fewer than 2^32, converting it to CSR and back returns a
    matrix with the same dimensions and the same cell at every position. *)
Theorem dense_sparse_round_trips :
  (forall sp,
      csr_valid sp -> csr_compressed sp -> csr_fits_idx sp ->
      (0 < sp_rows sp)%nat -> (0 < sp_cols sp)%nat ->
      exists sp',
        palma_sparse_from_dense (palma_sparse_to_dense (Some sp)) (sp_semiring sp)
        = Some sp' /\ csr_same sp' sp) /\
  (forall dense s,
      (0 < m_rows dense)%nat -> (0 < m_cols dense)%nat ->
      dense_fits_idx dense (palma_zero s) ->
      exists d,
        palma_sparse_to_dense (palma_sparse_from_dense (Some dense) s) = Some d /\
        m_rows d = m_rows dense /\ m_cols d = m_cols dense /\
        forall i j, (i < m_rows dense)%nat -> (j < m_cols dense)%nat ->
                    palma_matrix_get d i j = palma_matrix_get dense i j).
Proof.
  split.
  - intros sp V Hcomp Hfit Hr Hc.
    destruct (from_dense_to_dense sp V Hcomp Hfit Hr Hc) as (d & sp' & Ed & Esp' & Hs).
    exists sp'. rewrite Ed. split; assumption.
  - intros dense s Hr Hc Hfit.
    destruct (to_dense_from_dense dense s Hr Hc Hfit) as (sp & d & Esp & Ed & H).
    exists d. rewrite Esp. split; assumption.
Qed.

Lemma sample_csr_compressed : csr_compressed sample_csr.
Proof.
  intros [|[|[|[|k]]]] Hk; cbn in *; try lia; discriminate.
Qed.

Lemma sample_csr_fits_idx : csr_fits_idx sample_csr.
Proof.
  split; [|reflexivity].
  intros [|[|[|[|k]]]] Hk; cbn in *; lia.
Qed.

(** A dense matrix with fewer than 2^32 cells fits. *)
Lemma small_dense_fits_idx (dense : palma_matrix_t) (zero : Z) :
  Z.of_nat (m_rows dense * m_cols dense) < 4294967296 ->
  (0 < m_rows dense)%nat ->
  dense_fits_idx dense zero.
Proof.
  intros H Hr. split.
  - intros i j Hi Hj _. nia.
  - rewrite count_nonzero_spec.
    pose proof (dense_offset_cells dense zero (m_rows dense)). lia.
Qed.

Lemma dense_sparse_round_trips_witness :
  (exists sp',
      palma_sparse_from_dense (palma_sparse_to_dense (Some sample_csr)) PALMA_MAXPLUS
      = Some sp' /\ csr_same sp' sample_csr) /\
  (exists d,
      palma_sparse_to_dense (palma_sparse_from_dense (Some two_cycles) PALMA_MINPLUS)
      = Some d /\
      m_rows d = 3%nat /\ m_cols d = 3%nat /\
      forall i j, (i < 3)%nat -> (j < 3)%nat ->
                  palma_matrix_get d i j = palma_matrix_get two_cycles i j).
Proof.
  split.
  - apply (proj1 dense_sparse_round_trips sample_csr
                 sample_csr_valid sample_csr_compressed sample_csr_fits_idx); cbn; lia.
  - apply (proj2 dense_sparse_round_trips two_cycles PALMA_MINPLUS);
      [cbn; lia | cbn; lia |].
    apply small_dense_fits_idx; [reflexivity | cbn; lia].
Defined.

Lemma filter_none {A : Type} (f : A -> bool) (l : list A) :
  (forall x, In x l -> f x = false) -> filter f l = [].
Proof.
  induction l as [|x l IH]; intros H; [reflexivity|].
  cbn [filter]. rewrite (H x (or_introl eq_refl)).
  apply IH. intros y Hy. apply H. right. exact Hy.
Qed.

(** The one cell of [long_row n] that is not ε, and what
    [palma_sparse_from_dense] stores for it when [n] is 2^32: column 0. *)
Lemma long_row_from_dense (n : nat) :
  Z.of_nat n = 4294967296 ->
  let M := long_row n in
  dense_wf M /\ m_stride M = ALIGN_STRIDE (m_cols M) /\
  palma_matrix_get M 0 n = 7 /\
  palma_matrix_get M 0 0 = PALMA_NEG_INF /\
  exists d,
    palma_sparse_from_dense (Some M) PALMA_MAXPLUS
    = Some (mkSparse [7] [0]%nat [0; 1]%nat 1 (n + 4) 1 1 PALMA_MAXPLUS) /\
    palma_sparse_to_dense
      (Some (mkSparse [7] [0]%nat [0; 1]%nat 1 (n + 4) 1 1 PALMA_MAXPLUS))
    = Some d /\
    palma_matrix_get d 0 0 = 7.
Proof.
  intros Hn M.
  assert (Hget : forall j, palma_matrix_get M 0 j
                           = nth j (repeat PALMA_NEG_INF n
                                    ++ [7; PALMA_NEG_INF; PALMA_NEG_INF; PALMA_NEG_INF]) 0).
  { intros j. unfold palma_matrix_get, M, long_row. cbn [m_data m_stride Nat.mul Nat.add].
    reflexivity. }
  assert (Hlow : forall j, (j < n)%nat -> palma_matrix_get M 0 j = PALMA_NEG_INF).
  { intros j Hj. rewrite Hget, app_nth1 by (rewrite repeat_length; exact Hj).
    apply nth_repeat_lt, Hj. }
  assert (Hhigh : forall t, palma_matrix_get M 0 (n + t)
                            = nth t [7; PALMA_NEG_INF; PALMA_NEG_INF; PALMA_NEG_INF] 0).
  { intros t. rewrite Hget, app_nth2 by (rewrite repeat_length; lia).
    rewrite repeat_length. f_equal. lia. }
  assert (Hcols : dense_row_cols M PALMA_NEG_INF 0 = [n]).
  { unfold dense_row_cols, dense_row_filter.
    change (m_cols M) with (n + 4)%nat.
    rewrite seq_app, filter_app, filter_none.
    - cbn [Nat.add seq filter app].
      rewrite <- (Nat.add_0_r n) at 1. rewrite (Hhigh 0%nat).
      replace (S n) with (n + 1)%nat by lia. rewrite (Hhigh 1%nat).
      replace (S (n + 1)) with (n + 2)%nat by lia. rewrite (Hhigh 2%nat).
      replace (S (n + 2)) with (n + 3)%nat by lia. rewrite (Hhigh 3%nat).
      reflexivity.
    - intros j Hj%in_seq. rewrite (Hlow j) by lia. reflexivity. }
  assert (Hvals : dense_row_vals M PALMA_NEG_INF 0 = [7]).
  { unfold dense_row_vals. rewrite Hcols. cbn [map].
    rewrite <- (Nat.add_0_r n), (Hhigh 0%nat). reflexivity. }
  assert (Hidx : palma_idx n = 0%nat) by (unfold palma_idx; rewrite Hn; reflexivity).
  split; [|split; [|split; [|split]]].
  - split; [cbn [M long_row m_cols m_stride]; lia|].
    cbn [M long_row m_data m_rows m_stride]. rewrite length_app, repeat_length.
    cbn [length]. lia.
  - cbn [M long_row m_cols m_stride]. unfold ALIGN_STRIDE.
    assert (Hq : exists q, n = (4 * q)%nat).
    { exists (n / 4)%nat. pose proof (Nat.div_mod_eq n 4) as Hd.
      assert (Hm : (n mod 4 = 0)%nat); [|lia].
      apply Nat2Z.inj. rewrite Nat2Z.inj_mod, Hn. reflexivity. }
    destruct Hq as [q Hq].
    replace (n + 4 + 3)%nat with (3 + (q + 1) * 4)%nat by lia.
    rewrite Nat.div_add by lia. change (3 / 4)%nat with 0%nat. lia.
  - rewrite <- (Nat.add_0_r n), (Hhigh 0%nat). reflexivity.
  - destruct (Nat.eq_dec n 0) as [E|E]; [rewrite E in Hn; discriminate Hn|].
    apply Hlow. lia.
  - set (sp := mkSparse [7] [0]%nat [0; 1]%nat 1 (n + 4) 1 1 PALMA_MAXPLUS).
    assert (V : csr_valid sp).
    { constructor; unfold sp;
        cbn [sp_values sp_col_idx sp_row_ptr sp_rows sp_cols sp_nnz sp_capacity
             sp_semiring length]; try reflexivity; try lia.
      - intros [|r] Hr; cbn [nth Nat.add]; lia.
      - intros [|r] k Hr; cbn [nth Nat.add]; lia.
      - intros [|k] Hk; cbn [nth]; lia. }
    destruct (palma_sparse_to_dense_spec sp V ltac:(cbn; lia) ltac:(cbn; lia))
      as (d & Ed & _ & _ & Hhit & _).
    exists d. split; [|split; [exact Ed|]].
    + unfold palma_sparse_from_dense. rewrite count_nonzero_spec.
      change (palma_zero PALMA_MAXPLUS) with PALMA_NEG_INF.
      change (m_rows M) with 1%nat. change (m_cols M) with (n + 4)%nat.
      unfold dense_offset. cbn [seq flat_map]. rewrite Hcols.
      unfold palma_sparse_create.
      destruct (Nat.eqb_spec (n + 4) 0); [lia|].
      cbn [Nat.eqb orb app length Nat.ltb Nat.leb sp_values sp_col_idx sp_row_ptr
           sp_rows sp_cols sp_capacity sp_semiring fold_left].
      rewrite fill_row_spec, Hcols, Hvals.
      cbn [map app length Nat.add]. rewrite Hidx. reflexivity.
    + apply (Hhit 0%nat 0%nat); [cbn; lia|]. left. reflexivity.
Qed.

(** C9 as stated fails beyond the 32-bit index type.  The dense matrix of
    one row and 2^32 + 4 columns with a single cell that is not ε, at column
    2^32, is converted to a CSR matrix that stores the column index
    [(palma_idx_t)j] = 0, and converting that back puts the cell at column
    0, where the dense matrix holds ε. *)
Lemma palma_sparse_from_dense_wraps_column :
  let M := long_row idx_span in
  Z.of_nat idx_span = 4294967296 /\
  dense_wf M /\ m_stride M = ALIGN_STRIDE (m_cols M) /\
  exists d,
    palma_sparse_to_dense (palma_sparse_from_dense (Some M) PALMA_MAXPLUS) = Some d /\
    palma_matrix_get d 0 0 = 7 /\
    palma_matrix_get M 0 0 = PALMA_NEG_INF /\
    palma_matrix_get d 0 0 <> palma_matrix_get M 0 0.
Proof.
  assert (Hn : Z.of_nat idx_span = 4294967296) by (apply Z2Nat.id; lia).
  destruct (long_row_from_dense idx_span Hn) as (W & St & _ & H0 & d & Es & Ed & Hd).
  cbv zeta. split; [exact Hn|]. split; [exact W|]. split; [exact St|].
  exists d. rewrite Es. split; [exact Ed|]. split; [exact Hd|]. split; [exact H0|].
  rewrite Hd, H0. discriminate.
Qed.

(** * Further properties of the library *)

(** ** Laws of the semiring kernel *)

Ltac no_branch t :=
  lazymatch t with
  | context [if _ then _ else _] => fail
  | _ => idtac
  end.

(** Case analysis on every comparison of integers in the goal, innermost
    first. *)
Ltac z_cases :=
  repeat (match goal with
          | |- context [?a <? ?b] =>
              no_branch a; no_branch b; destruct (Z.ltb_spec a b)
          | |- context [?a =? ?b] =>
              no_branch a; no_branch b; destruct (Z.eqb_spec a b)
          | |- context [?a <=? ?b] =>
              no_branch a; no_branch b; destruct (Z.leb_spec a b)
          end; cbn [andb orb negb]);
  try reflexivity; try lia.

Lemma palma_add_form (s : palma_semiring_t) (a b : Z) :
  palma_add a b s
  = match s with
    | PALMA_MAXPLUS | PALMA_MAXMIN => Z.max a b
    | PALMA_MINPLUS | PALMA_MINMAX => Z.min a b
    | PALMA_BOOLEAN => if truthy a || truthy b then 1 else 0
    end.
Proof. destruct s; cbn [palma_add]; z_cases. Qed.

Lemma palma_mul_form (s : palma_semiring_t) (a b : Z) :
  palma_mul a b s
  = match s with
    | PALMA_MAXPLUS | PALMA_MINPLUS =>
        if (a =? PALMA_NEG_INF) || (b =? PALMA_NEG_INF) then PALMA_NEG_INF
        else if (a =? PALMA_POS_INF) || (b =? PALMA_POS_INF) then PALMA_POS_INF
             else clamp32 (a + b)
    | PALMA_MAXMIN => Z.min a b
    | PALMA_MINMAX => Z.max a b
    | PALMA_BOOLEAN => if truthy a && truthy b then 1 else 0
    end.
Proof.
  destruct s; cbn [palma_mul]; cbv zeta;
    unfold clamp32, PALMA_NEG_INF, PALMA_POS_INF, INT32_MIN, INT32_MAX;
    z_cases; rewrite wrap32_id by (unfold is_int32, INT32_MIN, INT32_MAX; lia); lia.
Qed.

Ltac kernel_forms :=
  rewrite ?palma_add_form, ?palma_mul_form;
  unfold sr_scalar, absorbed, is_int32, clamp32, truthy, palma_zero, palma_one,
    PALMA_NEG_INF, PALMA_POS_INF, INT32_MIN, INT32_MAX in *.

Ltac boolean_scalar a :=
  match goal with
  | B : PALMA_BOOLEAN = PALMA_BOOLEAN -> a = 0 \/ a = 1 |- _ =>
      specialize (B eq_refl)
  end.

Lemma palma_add_comm (s : palma_semiring_t) (a b : Z) :
  palma_add a b s = palma_add b a s.
Proof. destruct s; kernel_forms; try lia. z_cases. Qed.

Lemma palma_add_assoc (s : palma_semiring_t) (a b c : Z) :
  palma_add (palma_add a b s) c s = palma_add a (palma_add b c s) s.
Proof. destruct s; kernel_forms; try lia. z_cases. Qed.

Lemma palma_add_idem (s : palma_semiring_t) (a : Z) :
  sr_scalar s a -> palma_add a a s = a.
Proof.
  intros [R B]. destruct s; kernel_forms; try lia. boolean_scalar a. z_cases.
Qed.

Lemma palma_add_zero_r (s : palma_semiring_t) (a : Z) :
  sr_scalar s a -> palma_add a (palma_zero s) s = a.
Proof.
  intros [R B]. destruct s; kernel_forms; try lia. boolean_scalar a. z_cases.
Qed.

Lemma palma_add_zero_l (s : palma_semiring_t) (a : Z) :
  sr_scalar s a -> palma_add (palma_zero s) a s = a.
Proof. intros H. rewrite palma_add_comm. apply palma_add_zero_r, H. Qed.

Lemma palma_add_scalar (s : palma_semiring_t) (a b : Z) :
  is_int32 a -> is_int32 b -> sr_scalar s (palma_add a b s).
Proof.
  intros Ra Rb. destruct s; kernel_forms; try (split; [lia|discriminate]).
  split; [|intros _]; z_cases.
Qed.

Lemma palma_mul_scalar (s : palma_semiring_t) (a b : Z) :
  is_int32 a -> is_int32 b -> sr_scalar s (palma_mul a b s).
Proof.
  intros Ra Rb.
  destruct s; kernel_forms; try (split; [z_cases|discriminate]).
  split; [|intros _]; z_cases.
Qed.

Lemma palma_mul_comm (s : palma_semiring_t) (a b : Z) :
  palma_mul a b s = palma_mul b a s.
Proof. destruct s; kernel_forms; try lia; z_cases. Qed.

Lemma palma_mul_one_r (s : palma_semiring_t) (a : Z) :
  sr_scalar s a -> palma_mul a (palma_one s) s = a.
Proof.
  intros [R B]. destruct s; kernel_forms; try lia; try (z_cases; fail).
  boolean_scalar a. z_cases.
Qed.

Lemma palma_mul_one_l (s : palma_semiring_t) (a : Z) :
  sr_scalar s a -> palma_mul (palma_one s) a s = a.
Proof. intros H. rewrite palma_mul_comm. apply palma_mul_one_r, H. Qed.

Lemma palma_mul_zero_l (s : palma_semiring_t) (a : Z) :
  absorbed s a -> palma_mul (palma_zero s) a s = palma_zero s.
Proof.
  intros [R N]. destruct s; kernel_forms; try lia; try (z_cases; fail).
  specialize (N eq_refl). z_cases.
Qed.

Lemma sr_scalar_zero (s : palma_semiring_t) : sr_scalar s (palma_zero s).
Proof. destruct s; kernel_forms; split; try lia; try discriminate. Qed.

Lemma sr_scalar_one (s : palma_semiring_t) : sr_scalar s (palma_one s).
Proof. destruct s; kernel_forms; split; try lia; try discriminate. Qed.

Lemma palma_mul_add_distr_l (s : palma_semiring_t) (a b c : Z) :
  is_int32 a -> is_int32 b -> is_int32 c ->
  palma_mul a (palma_add b c s) s
  = palma_add (palma_mul a b s) (palma_mul a c s) s.
Proof. intros Ra Rb Rc. destruct s; kernel_forms; try lia; z_cases. Qed.

(** X1: ⊕ is commutative and associative on all scalars, with no condition
    on the operands; on the scalars of the semiring it is idempotent and has
    ε as its neutral element. *)
Theorem palma_add_semilattice (s : palma_semiring_t) (a b c : Z) :
  palma_add a b s = palma_add b a s /\
  palma_add (palma_add a b s) c s = palma_add a (palma_add b c s) s /\
  (sr_scalar s a ->
   palma_add a a s = a /\
   palma_add a (palma_zero s) s = a /\
   palma_add (palma_zero s) a s = a).
Proof.
  split; [apply palma_add_comm|]. split; [apply palma_add_assoc|].
  intros H. split; [apply palma_add_idem, H|].
  split; [apply palma_add_zero_r, H | apply palma_add_zero_l, H].
Qed.

Lemma palma_add_semilattice_witness :
  sr_scalar PALMA_MINPLUS 7 /\
  palma_add 7 PALMA_POS_INF PALMA_MINPLUS = 7 /\
  palma_add 7 7 PALMA_MINPLUS = 7.
Proof.
  assert (H : sr_scalar PALMA_MINPLUS 7).
  { split; [unfold is_int32, INT32_MIN, INT32_MAX; lia | discriminate]. }
  split; [exact H|].
  destruct (proj2 (proj2 (palma_add_semilattice PALMA_MINPLUS 7 0 0)) H)
    as (Hi & Hz & _).
  split; [exact Hz | exact Hi].
Defined.

(** X2: ⊗ keeps the scalars of the semiring, is commutative, and has e as
    its neutral element on both sides. *)
Theorem palma_mul_monoid (s : palma_semiring_t) (a b : Z) :
  sr_scalar s a -> sr_scalar s b ->
  sr_scalar s (palma_mul a b s) /\
  palma_mul a b s = palma_mul b a s /\
  palma_mul a (palma_one s) s = a /\
  palma_mul (palma_one s) a s = a.
Proof.
  intros Ha Hb.
  split; [apply palma_mul_scalar; [apply Ha | apply Hb]|].
  split; [apply palma_mul_comm|].
  split; [apply palma_mul_one_r, Ha | apply palma_mul_one_l, Ha].
Qed.

Lemma palma_mul_monoid_witness :
  sr_scalar PALMA_MAXMIN 12 /\ sr_scalar PALMA_MAXMIN (-3) /\
  palma_mul 12 (-3) PALMA_MAXMIN = palma_mul (-3) 12 PALMA_MAXMIN /\
  palma_mul 12 PALMA_POS_INF PALMA_MAXMIN = 12.
Proof.
  assert (Ha : sr_scalar PALMA_MAXMIN 12).
  { split; [unfold is_int32, INT32_MIN, INT32_MAX; lia | discriminate]. }
  assert (Hb : sr_scalar PALMA_MAXMIN (-3)).
  { split; [unfold is_int32, INT32_MIN, INT32_MAX; lia | discriminate]. }
  split; [exact Ha|]. split; [exact Hb|].
  destruct (palma_mul_monoid PALMA_MAXMIN 12 (-3) Ha Hb) as (_ & Hc & Hr & _).
  split; [exact Hc | exact Hr].
Defined.

(** X3: on 32-bit scalars ⊗ distributes over ⊕ from both sides, in all
    five semirings, saturation included. *)
Theorem palma_mul_distributes (s : palma_semiring_t) (a b c : Z) :
  is_int32 a -> is_int32 b -> is_int32 c ->
  palma_mul a (palma_add b c s) s
  = palma_add (palma_mul a b s) (palma_mul a c s) s /\
  palma_mul (palma_add b c s) a s
  = palma_add (palma_mul b a s) (palma_mul c a s) s.
Proof.
  intros Ra Rb Rc. split.
  - apply palma_mul_add_distr_l; assumption.
  - rewrite (palma_mul_comm s (palma_add b c s) a),
      (palma_mul_comm s b a), (palma_mul_comm s c a).
    apply palma_mul_add_distr_l; assumption.
Qed.

Lemma palma_mul_distributes_witness :
  palma_mul 2147483000 (palma_add 1000 (-5) PALMA_MAXPLUS) PALMA_MAXPLUS
  = palma_add (palma_mul 2147483000 1000 PALMA_MAXPLUS)
              (palma_mul 2147483000 (-5) PALMA_MAXPLUS) PALMA_MAXPLUS.
Proof.
  apply (palma_mul_distributes PALMA_MAXPLUS 2147483000 1000 (-5));
    unfold is_int32, INT32_MIN, INT32_MAX; lia.
Defined.

(** ** Dense matrices: creation, copy and checked access *)

Lemma palma_matrix_create_spec (rows cols : nat) :
  (0 < rows)%nat -> (0 < cols)%nat ->
  exists d, palma_matrix_create rows cols = Some d /\
            m_rows d = rows /\ m_cols d = cols /\
            m_stride d = ALIGN_STRIDE cols /\ dense_wf d.
Proof.
  intros Hr Hc. unfold palma_matrix_create.
  destruct (Nat.eqb_spec rows 0); [lia|].
  destruct (Nat.eqb_spec cols 0); [lia|]. cbn [orb].
  eexists. split; [reflexivity|]. cbn [m_rows m_cols m_stride].
  split; [reflexivity|]. split; [reflexivity|]. split; [reflexivity|].
  split; cbn [m_data m_rows m_cols m_stride].
  - apply ALIGN_STRIDE_ge.
  - apply repeat_length.
Qed.

Lemma palma_matrix_create_none (rows cols : nat) :
  (rows = 0 \/ cols = 0)%nat -> palma_matrix_create rows cols = None.
Proof.
  intros H. unfold palma_matrix_create.
  destruct (Nat.eqb_spec rows 0); [reflexivity|].
  destruct (Nat.eqb_spec cols 0); [reflexivity|]. lia.
Qed.

Lemma fill_row_cells_spec (g : nat -> Z) (i len lo : nat) (c : palma_matrix_t) :
  dense_wf c -> (i < m_rows c)%nat -> (lo + len <= m_stride c)%nat ->
  let r := fold_left (fun c j => palma_matrix_set c i j (g j)) (seq lo len) c in
  m_rows r = m_rows c /\ m_cols r = m_cols c /\ m_stride r = m_stride c /\
  dense_wf r /\
  forall i' j', (j' < m_stride c)%nat ->
    palma_matrix_get r i' j'
    = if (i' =? i)%nat && (lo <=? j')%nat && (j' <? lo + len)%nat
      then g j' else palma_matrix_get c i' j'.
Proof.
  revert lo c. induction len as [|len IH]; intros lo c W Hi Hlen; cbn [seq fold_left].
  - do 3 (split; [reflexivity|]). split; [exact W|]. intros i' j' _. nat_cases.
  - assert (W1 : dense_wf (palma_matrix_set c i lo (g lo)))
      by (apply palma_matrix_set_wf, W).
    destruct (IH (S lo) (palma_matrix_set c i lo (g lo)) W1 Hi ltac:(cbn; lia))
      as (Hr & Hc & Hs & Hw & Hg).
    cbn [palma_matrix_set m_rows m_cols m_stride] in Hr, Hc, Hs.
    split; [exact Hr|]. split; [exact Hc|]. split; [exact Hs|]. split; [exact Hw|].
    intros i' j' Hj. rewrite (Hg i' j' Hj).
    destruct (Nat.eqb_spec i' i) as [->|Ne]; cbn [andb].
    + destruct (Nat.eqb_spec j' lo) as [->|Nj].
      * rewrite get_set_same by (try assumption; lia). nat_cases.
      * rewrite get_set_other by (try lia; right; lia). nat_cases.
    + apply get_set_other; lia.
Qed.

Lemma fill_cells_spec (g : nat -> nat -> Z) (nr nc : nat) (c : palma_matrix_t) :
  dense_wf c -> (nr <= m_rows c)%nat -> (nc <= m_stride c)%nat ->
  m_rows (fill_cells g nr nc c) = m_rows c /\
  m_cols (fill_cells g nr nc c) = m_cols c /\
  m_stride (fill_cells g nr nc c) = m_stride c /\
  dense_wf (fill_cells g nr nc c) /\
  forall i j, (j < m_stride c)%nat ->
    palma_matrix_get (fill_cells g nr nc c) i j
    = if (i <? nr)%nat && (j <? nc)%nat then g i j else palma_matrix_get c i j.
Proof.
  intros W. induction nr as [|nr IH]; intros Hr Hc.
  - unfold fill_cells. cbn [seq fold_left].
    do 3 (split; [reflexivity|]). split; [exact W|]. intros i j _. nat_cases.
  - unfold fill_cells in *. rewrite seq_snoc, fold_left_app. cbn [fold_left].
    destruct (IH ltac:(lia) Hc) as (Hr1 & Hc1 & Hs1 & Hw1 & Hg1).
    set (c1 := fold_left _ (seq 0 nr) c) in *.
    destruct (fill_row_cells_spec (g nr) nr nc 0 c1 Hw1 ltac:(lia) ltac:(lia))
      as (Hr2 & Hc2 & Hs2 & Hw2 & Hg2).
    split; [congruence|]. split; [congruence|]. split; [congruence|].
    split; [exact Hw2|].
    intros i j Hj. rewrite Hg2 by lia. rewrite Hg1 by lia.
    nat_cases; subst; reflexivity.
Qed.

Lemma diag_loop_spec (h : Z -> Z) (len lo : nat) (m : palma_matrix_t) :
  dense_wf m -> (lo + len <= m_rows m)%nat -> (lo + len <= m_stride m)%nat ->
  let r := fold_left (fun m i => palma_matrix_set m i i (h (palma_matrix_get m i i)))
                     (seq lo len) m in
  m_rows r = m_rows m /\ m_cols r = m_cols m /\ m_stride r = m_stride m /\
  dense_wf r /\
  forall i j, (j < m_stride m)%nat ->
    palma_matrix_get r i j
    = if (i =? j)%nat && (lo <=? i)%nat && (i <? lo + len)%nat
      then h (palma_matrix_get m i i) else palma_matrix_get m i j.
Proof.
  revert lo m. induction len as [|len IH]; intros lo m W Hr Hs; cbn [seq fold_left].
  - do 3 (split; [reflexivity|]). split; [exact W|]. intros i j _. nat_cases.
  - set (m1 := palma_matrix_set m lo lo (h (palma_matrix_get m lo lo))).
    assert (W1 : dense_wf m1) by (apply palma_matrix_set_wf, W).
    destruct (IH (S lo) m1 W1 ltac:(cbn; lia) ltac:(cbn; lia))
      as (Hr1 & Hc1 & Hs1 & Hw1 & Hg1).
    cbn [m1 palma_matrix_set m_rows m_cols m_stride] in Hr1, Hc1, Hs1.
    split; [exact Hr1|]. split; [exact Hc1|]. split; [exact Hs1|]. split; [exact Hw1|].
    intros i j Hj. rewrite (Hg1 i j Hj).
    destruct (Nat.eqb_spec i j) as [<-|Nij]; cbn [andb].
    + destruct (Nat.eqb_spec i lo) as [->|Ni].
      * unfold m1. rewrite get_set_same by (try assumption; lia). nat_cases.
      * unfold m1. rewrite get_set_other by (try lia; left; lia). nat_cases.
    + unfold m1.
      destruct (Nat.eqb_spec i lo) as [->|Ni].
      * rewrite get_set_other by (try lia; right; lia). reflexivity.
      * rewrite get_set_other by (try lia; left; lia). reflexivity.
Qed.

Lemma palma_matrix_create_identity_spec (n : nat) (s : palma_semiring_t) :
  (0 < n)%nat ->
  exists id, palma_matrix_create_identity n s = Some id /\
             m_rows id = n /\ m_cols id = n /\ dense_wf id /\
             forall i j, (i < n)%nat -> (j < n)%nat ->
                         palma_matrix_get id i j
                         = if (i =? j)%nat then palma_one s else palma_zero s.
Proof.
  intros Hn. unfold palma_matrix_create_identity.
  destruct (palma_matrix_create_zero_spec n n s Hn Hn) as (d & -> & Hr & Hc & W & Hz).
  eexists. split; [reflexivity|].
  assert (Hs : (n <= m_stride d)%nat) by (destruct W; lia).
  destruct (diag_loop_spec (fun _ => palma_one s) n 0 d W ltac:(lia) ltac:(lia))
    as (Hr1 & Hc1 & Hs1 & Hw1 & Hg1).
  cbv beta in *.
  split; [congruence|]. split; [congruence|]. split; [exact Hw1|].
  intros i j Hi Hj. rewrite Hg1 by lia.
  destruct (Nat.eqb_spec i j); cbn [andb]; [nat_cases|].
  apply Hz; lia.
Qed.


Lemma palma_matrix_clone_spec (src : palma_matrix_t) :
  (0 < m_rows src)%nat -> (0 < m_cols src)%nat ->
  exists d, palma_matrix_clone (Some src) = Handle d /\
            m_rows d = m_rows src /\ m_cols d = m_cols src /\
            m_stride d = ALIGN_STRIDE (m_cols src) /\ dense_wf d /\
            forall i j, (i < m_rows src)%nat -> (j < m_cols src)%nat ->
                        palma_matrix_get d i j = palma_matrix_get src i j.
Proof.
  intros Hr Hc. unfold palma_matrix_clone.
  destruct (palma_matrix_create_spec _ _ Hr Hc) as (d & -> & Dr & Dc & Ds & W).
  eexists. split; [reflexivity|].
  change (fold_left (copy_row src) (seq 0 (m_rows src)) d)
    with (fill_cells (palma_matrix_get src) (m_rows src) (m_cols src) d).
  assert (Hst : (m_cols src <= m_stride d)%nat) by (destruct W; lia).
  destruct (fill_cells_spec (palma_matrix_get src) (m_rows src) (m_cols src) d W
                            ltac:(lia) Hst) as (Hr1 & Hc1 & Hs1 & Hw1 & Hg1).
  split; [congruence|]. split; [congruence|]. split; [congruence|].
  split; [exact Hw1|].
  intros i j Hi Hj. rewrite Hg1 by lia. nat_cases.
Qed.

(** X4: [palma_matrix_clone] of a non-empty matrix returns a matrix of the
    same dimensions whose cells equal the source's, whatever the stride of
    the source; the copy has the aligned stride.  A NULL source gives NULL
    with the null-pointer error, an empty one NULL with the dimension
    error. *)
Theorem palma_matrix_clone_cells (src : palma_matrix_t) :
  palma_matrix_clone None = Null PALMA_ERR_NULL_PTR /\
  ((m_rows src = 0 \/ m_cols src = 0)%nat ->
   palma_matrix_clone (Some src) = Null PALMA_ERR_INVALID_DIM) /\
  ((0 < m_rows src)%nat -> (0 < m_cols src)%nat ->
   exists d, palma_matrix_clone (Some src) = Handle d /\
             m_rows d = m_rows src /\ m_cols d = m_cols src /\
             m_stride d = ALIGN_STRIDE (m_cols src) /\
             forall i j, (i < m_rows src)%nat -> (j < m_cols src)%nat ->
                         palma_matrix_get d i j = palma_matrix_get src i j).
Proof.
  split; [reflexivity|]. split.
  - intros H. unfold palma_matrix_clone.
    rewrite (palma_matrix_create_none _ _ H). reflexivity.
  - intros Hr Hc.
    destruct (palma_matrix_clone_spec src Hr Hc) as (d & E & H1 & H2 & H3 & _ & H4).
    exists d. repeat split; assumption.
Qed.

Lemma palma_matrix_clone_cells_witness :
  exists d, palma_matrix_clone (Some strided_2x3) = Handle d /\
            m_stride d = 4%nat /\
            palma_matrix_get d 1 2 = 6.
Proof.
  destruct (proj2 (proj2 (palma_matrix_clone_cells strided_2x3)))
    as (d & E & _ & _ & Hs & Hg); [cbn; lia | cbn; lia |].
  exists d. split; [exact E|]. split; [exact Hs|].
  rewrite (Hg 1%nat 2%nat) by (cbn; lia). reflexivity.
Defined.

(** X5: the checked accessors.  Outside the matrix both return the bounds
    error and [palma_matrix_set_safe] leaves the matrix as it is; inside a
    well-formed matrix a checked store succeeds, a checked load of the same
    cell returns the stored value, and every other cell of the matrix reads
    as before. *)
Theorem palma_matrix_safe_access (m : palma_matrix_t) (row col : nat) (val : Z) :
  dense_wf m ->
  ((m_rows m <= row \/ m_cols m <= col)%nat ->
   palma_matrix_get_safe (Some m) row col = (PALMA_ERR_INDEX_BOUNDS, None) /\
   palma_matrix_set_safe (Some m) row col val = (PALMA_ERR_INDEX_BOUNDS, Some m)) /\
  ((row < m_rows m)%nat -> (col < m_cols m)%nat ->
   exists m', palma_matrix_set_safe (Some m) row col val = (PALMA_SUCCESS, Some m') /\
              palma_matrix_get_safe (Some m') row col = (PALMA_SUCCESS, Some val) /\
              forall i j, (i < m_rows m)%nat -> (j < m_cols m)%nat ->
                          i <> row \/ j <> col ->
                          palma_matrix_get_safe (Some m') i j
                          = palma_matrix_get_safe (Some m) i j).
Proof.
  intros W. split.
  - intros H. unfold palma_matrix_get_safe, palma_matrix_set_safe.
    destruct (Nat.leb_spec (m_rows m) row); cbn [orb]; [split; reflexivity|].
    destruct (Nat.leb_spec (m_cols m) col); [split; reflexivity|]. lia.
  - intros Hr Hc. unfold palma_matrix_get_safe, palma_matrix_set_safe.
    destruct (Nat.leb_spec (m_rows m) row); [lia|].
    destruct (Nat.leb_spec (m_cols m) col); [lia|]. cbn [orb].
    eexists. split; [reflexivity|].
    cbn [palma_matrix_set m_rows m_cols].
    destruct (Nat.leb_spec (m_rows m) row); [lia|].
    destruct (Nat.leb_spec (m_cols m) col); [lia|]. cbn [orb].
    assert (Hst : (m_cols m <= m_stride m)%nat) by apply W.
    split.
    + f_equal. f_equal. apply get_set_same; [exact W | lia | lia].
    + intros i j Hi Hj Hne.
      destruct (Nat.leb_spec (m_rows m) i); [lia|].
      destruct (Nat.leb_spec (m_cols m) j); [lia|]. cbn [orb].
      f_equal. f_equal. apply get_set_other; lia.
Qed.

Lemma palma_matrix_safe_access_witness :
  exists m', palma_matrix_set_safe (Some strided_2x3) 1 2 42 = (PALMA_SUCCESS, Some m') /\
             palma_matrix_get_safe (Some m') 1 2 = (PALMA_SUCCESS, Some 42) /\
             palma_matrix_get_safe (Some m') 0 2 = (PALMA_SUCCESS, Some 3).
Proof.
  assert (W : dense_wf strided_2x3) by (split; cbn; lia).
  destruct (proj2 (palma_matrix_safe_access strided_2x3 1 2 42 W))
    as (m' & E & Hg & Ho); [cbn; lia | cbn; lia |].
  exists m'. split; [exact E|]. split; [exact Hg|].
  rewrite (Ho 0%nat 2%nat) by (cbn; lia). reflexivity.
Defined.

(** ** Dense product, sum and power *)

Lemma palma_matrix_mul_spec (a b : palma_matrix_t) (s : palma_semiring_t) :
  m_cols a = m_rows b -> (0 < m_rows a)%nat -> (0 < m_cols b)%nat ->
  exists c, palma_matrix_mul (Some a) (Some b) s = Handle c /\
            m_rows c = m_rows a /\ m_cols c = m_cols b /\ dense_wf c /\
            forall i j, (i < m_rows a)%nat -> (j < m_cols b)%nat ->
                        palma_matrix_get c i j = mul_cell a b s i j.
Proof.
  intros Hd Hr Hc. unfold palma_matrix_mul.
  rewrite Hd, Nat.eqb_refl. cbn [negb].
  destruct (palma_matrix_create_spec _ _ Hr Hc) as (c & -> & Cr & Cc & Cs & W).
  unfold palma_matrix_mul_into.
  rewrite Hd, Cr, Cc, !Nat.eqb_refl. cbn [negb orb].
  change (fold_left _ (seq 0 (m_rows a)) c)
    with (fill_cells (mul_cell a b s) (m_rows a) (m_cols b) c).
  assert (Hst : (m_cols b <= m_stride c)%nat) by (destruct W; lia).
  destruct (fill_cells_spec (mul_cell a b s) (m_rows a) (m_cols b) c W
                            ltac:(lia) Hst) as (Hr1 & Hc1 & Hs1 & Hw1 & Hg1).
  eexists. split; [reflexivity|].
  split; [congruence|]. split; [congruence|]. split; [exact Hw1|].
  intros i j Hi Hj. rewrite Hg1 by lia. nat_cases.
Qed.

Lemma sum_zeros (s : palma_semiring_t) (t : nat -> Z) (l : list nat) (acc : Z) :
  sr_scalar s acc ->
  (forall k, In k l -> t k = palma_zero s) ->
  fold_left (fun sum k => palma_add sum (t k) s) l acc = acc.
Proof.
  intros Ha. induction l as [|k l IH]; intros Hz; [reflexivity|].
  cbn [fold_left]. rewrite (Hz k (or_introl eq_refl)), palma_add_zero_r by exact Ha.
  apply IH. intros k' Hk. apply Hz. right. exact Hk.
Qed.

Lemma sum_single (s : palma_semiring_t) (t : nat -> Z) (n i : nat) :
  (i < n)%nat -> sr_scalar s (t i) ->
  (forall k, (k < n)%nat -> k <> i -> t k = palma_zero s) ->
  fold_left (fun sum k => palma_add sum (t k) s) (seq 0 n) (palma_zero s) = t i.
Proof.
  intros Hi Hs Hz.
  rewrite (seq_split 0 n i) by lia. rewrite fold_left_app. cbn [fold_left].
  rewrite (sum_zeros s t (seq 0 (i - 0)) (palma_zero s)).
  - rewrite palma_add_zero_l by exact Hs. apply sum_zeros; [exact Hs|].
    intros k Hk. apply in_seq in Hk. apply Hz; lia.
  - apply sr_scalar_zero.
  - intros k Hk. apply in_seq in Hk. apply Hz; lia.
Qed.

Lemma mul_cell_identity_l (id A : palma_matrix_t) (s : palma_semiring_t) (i j : nat) :
  m_cols id = m_rows A ->
  (forall i k, (i < m_rows A)%nat -> (k < m_rows A)%nat ->
               palma_matrix_get id i k
               = if (i =? k)%nat then palma_one s else palma_zero s) ->
  sr_matrix s A -> (i < m_rows A)%nat -> (j < m_cols A)%nat ->
  mul_cell id A s i j = palma_matrix_get A i j.
Proof.
  intros Hd Hid HA Hi Hj. unfold mul_cell. rewrite Hd.
  rewrite (sum_single s (fun k => palma_mul (palma_matrix_get id i k)
                                            (palma_matrix_get A k j) s)
                      (m_rows A) i Hi).
  - rewrite Hid, Nat.eqb_refl by assumption. apply palma_mul_one_l, HA; assumption.
  - rewrite Hid, Nat.eqb_refl by assumption.
    rewrite palma_mul_one_l by (apply HA; assumption). apply HA; assumption.
  - intros k Hk Hne. rewrite Hid by assumption.
    destruct (Nat.eqb_spec i k); [congruence|].
    apply palma_mul_zero_l, HA; assumption.
Qed.

Lemma mul_cell_identity_r (id A : palma_matrix_t) (s : palma_semiring_t) (i j : nat) :
  (forall k j, (k < m_cols A)%nat -> (j < m_cols A)%nat ->
               palma_matrix_get id k j
               = if (k =? j)%nat then palma_one s else palma_zero s) ->
  sr_matrix s A -> (i < m_rows A)%nat -> (j < m_cols A)%nat ->
  mul_cell A id s i j = palma_matrix_get A i j.
Proof.
  intros Hid HA Hi Hj. unfold mul_cell.
  rewrite (sum_single s (fun k => palma_mul (palma_matrix_get A i k)
                                            (palma_matrix_get id k j) s)
                      (m_cols A) j Hj).
  - rewrite Hid, Nat.eqb_refl by assumption. apply palma_mul_one_r, HA; assumption.
  - rewrite Hid, Nat.eqb_refl by assumption.
    rewrite palma_mul_one_r by (apply HA; assumption). apply HA; assumption.
  - intros k Hk Hne. rewrite Hid by assumption.
    destruct (Nat.eqb_spec k j); [congruence|].
    rewrite palma_mul_comm. apply palma_mul_zero_l, HA; assumption.
Qed.

(** X6: the identity matrix is neutral for the dense product on both
    sides: for a non-empty matrix A over the scalars of the semiring, I ⊗ A
    and A ⊗ I are allocated and have the cells of A.  (In (min,+) the
    scalars exclude -∞, which ε does not absorb.) *)
Theorem palma_matrix_mul_identity (A : palma_matrix_t) (s : palma_semiring_t) :
  (0 < m_rows A)%nat -> (0 < m_cols A)%nat -> sr_matrix s A ->
  exists idl idr L R,
    palma_matrix_create_identity (m_rows A) s = Some idl /\
    palma_matrix_create_identity (m_cols A) s = Some idr /\
    palma_matrix_mul (Some idl) (Some A) s = Handle L /\
    palma_matrix_mul (Some A) (Some idr) s = Handle R /\
    m_rows L = m_rows A /\ m_cols L = m_cols A /\
    m_rows R = m_rows A /\ m_cols R = m_cols A /\
    forall i j, (i < m_rows A)%nat -> (j < m_cols A)%nat ->
                palma_matrix_get L i j = palma_matrix_get A i j /\
                palma_matrix_get R i j = palma_matrix_get A i j.
Proof.
  intros Hr Hc HA.
  destruct (palma_matrix_create_identity_spec (m_rows A) s Hr)
    as (idl & El & Lr & Lc & _ & Lg).
  destruct (palma_matrix_create_identity_spec (m_cols A) s Hc)
    as (idr & Er & Rr & Rc & _ & Rg).
  destruct (palma_matrix_mul_spec idl A s ltac:(lia) ltac:(lia) Hc)
    as (L & EL & HLr & HLc & _ & HLg).
  destruct (palma_matrix_mul_spec A idr s ltac:(lia) Hr ltac:(lia))
    as (R & ER & HRr & HRc & _ & HRg).
  exists idl, idr, L, R.
  do 4 (split; [assumption|]).
  split; [lia|]. split; [lia|]. split; [lia|]. split; [lia|].
  intros i j Hi Hj. split.
  - rewrite HLg by lia. apply mul_cell_identity_l; try assumption; lia.
  - rewrite HRg by lia. apply mul_cell_identity_r; assumption.
Qed.

Lemma two_hops_sr_matrix : sr_matrix PALMA_MINPLUS two_hops.
Proof.
  intros i j Hi Hj. cbn in Hi, Hj.
  assert (Hc : (i = 0 \/ i = 1)%nat /\ (j = 0 \/ j = 1)%nat) by lia.
  destruct Hc as [[-> | ->] [-> | ->]]; cbn;
    (split; split; [unfold is_int32, PALMA_POS_INF, INT32_MIN, INT32_MAX; lia
                   | discriminate
                   | unfold is_int32, PALMA_POS_INF, INT32_MIN, INT32_MAX; lia
                   | intros _; discriminate]).
Qed.

Lemma palma_matrix_mul_identity_witness :
  exists idl L,
    palma_matrix_create_identity 2 PALMA_MINPLUS = Some idl /\
    palma_matrix_mul (Some idl) (Some two_hops) PALMA_MINPLUS = Handle L /\
    palma_matrix_get L 0 1 = 4.
Proof.
  destruct (palma_matrix_mul_identity two_hops PALMA_MINPLUS
              ltac:(cbn; lia) ltac:(cbn; lia) two_hops_sr_matrix)
    as (idl & idr & L & R & E1 & _ & E2 & _ & _ & _ & _ & _ & Hg).
  exists idl, L. split; [exact E1|]. split; [exact E2|].
  rewrite (proj1 (Hg 0%nat 1%nat ltac:(cbn; lia) ltac:(cbn; lia))). reflexivity.
Defined.

Lemma palma_matrix_add_spec (a b : palma_matrix_t) (s : palma_semiring_t) :
  m_rows a = m_rows b -> m_cols a = m_cols b ->
  (0 < m_rows a)%nat -> (0 < m_cols a)%nat ->
  exists c, palma_matrix_add (Some a) (Some b) s = Handle c /\
            m_rows c = m_rows a /\ m_cols c = m_cols a /\
            forall i j, (i < m_rows a)%nat -> (j < m_cols a)%nat ->
                        palma_matrix_get c i j
                        = palma_add (palma_matrix_get a i j) (palma_matrix_get b i j) s.
Proof.
  intros Hdr Hdc Hr Hc. unfold palma_matrix_add.
  rewrite <- Hdr, <- Hdc, !Nat.eqb_refl. cbn [negb orb].
  destruct (palma_matrix_create_spec _ _ Hr Hc) as (c & -> & Cr & Cc & Cs & W).
  change (fold_left _ (seq 0 (m_rows a)) c)
    with (fill_cells (fun i j => palma_add (palma_matrix_get a i j)
                                           (palma_matrix_get b i j) s)
                     (m_rows a) (m_cols a) c).
  assert (Hst : (m_cols a <= m_stride c)%nat) by (destruct W; lia).
  destruct (fill_cells_spec (fun i j => palma_add (palma_matrix_get a i j)
                                                  (palma_matrix_get b i j) s)
                            (m_rows a) (m_cols a) c W ltac:(lia) Hst)
    as (Hr1 & Hc1 & Hs1 & Hw1 & Hg1).
  eexists. split; [reflexivity|].
  split; [congruence|]. split; [congruence|].
  intros i j Hi Hj. rewrite Hg1 by lia. nat_cases.
Qed.

(** X7: [palma_matrix_add] of two non-empty matrices of equal dimensions
    returns their cell-wise ⊕, so A ⊕ B and B ⊕ A have the same cells;
    unequal dimensions give NULL with the dimension error. *)
Theorem palma_matrix_add_cells (a b : palma_matrix_t) (s : palma_semiring_t) :
  (0 < m_rows a)%nat -> (0 < m_cols a)%nat ->
  ((m_rows a <> m_rows b \/ m_cols a <> m_cols b) ->
   palma_matrix_add (Some a) (Some b) s = Null PALMA_ERR_INVALID_DIM) /\
  (m_rows a = m_rows b -> m_cols a = m_cols b ->
   exists c c',
     palma_matrix_add (Some a) (Some b) s = Handle c /\
     palma_matrix_add (Some b) (Some a) s = Handle c' /\
     m_rows c = m_rows a /\ m_cols c = m_cols a /\
     forall i j, (i < m_rows a)%nat -> (j < m_cols a)%nat ->
                 palma_matrix_get c i j
                 = palma_add (palma_matrix_get a i j) (palma_matrix_get b i j) s /\
                 palma_matrix_get c' i j = palma_matrix_get c i j).
Proof.
  intros Hr Hc. split.
  - intros H. unfold palma_matrix_add.
    destruct (Nat.eqb_spec (m_rows a) (m_rows b)); cbn [negb orb]; [|reflexivity].
    destruct (Nat.eqb_spec (m_cols a) (m_cols b)); cbn [negb]; [lia|reflexivity].
  - intros Hdr Hdc.
    destruct (palma_matrix_add_spec a b s Hdr Hdc Hr Hc) as (c & E & Cr & Cc & Cg).
    destruct (palma_matrix_add_spec b a s ltac:(lia) ltac:(lia) ltac:(lia) ltac:(lia))
      as (c' & E' & _ & _ & Cg').
    exists c, c'. do 4 (split; [assumption|]).
    intros i j Hi Hj. split; [apply Cg; assumption|].
    rewrite Cg', Cg by lia. apply palma_add_comm.
Qed.

Lemma palma_matrix_add_cells_witness :
  exists c, palma_matrix_add (Some two_hops) (Some two_hops) PALMA_MINPLUS = Handle c /\
            palma_matrix_get c 1 0 = 1.
Proof.
  destruct (proj2 (palma_matrix_add_cells two_hops two_hops PALMA_MINPLUS
                     ltac:(cbn; lia) ltac:(cbn; lia)) eq_refl eq_refl)
    as (c & c' & E & _ & _ & _ & Hg).
  exists c. split; [exact E|].
  rewrite (proj1 (Hg 1%nat 0%nat ltac:(cbn; lia) ltac:(cbn; lia))). reflexivity.
Defined.




(** ** Closure *)

Lemma sr_le_refl (s : palma_semiring_t) (a : Z) : sr_scalar s a -> sr_le s a a.
Proof. apply palma_add_idem. Qed.

Lemma sr_le_trans (s : palma_semiring_t) (a b c : Z) :
  sr_le s a b -> sr_le s b c -> sr_le s a c.
Proof.
  unfold sr_le. intros Hab Hbc.
  rewrite <- Hbc, <- palma_add_assoc, Hab. reflexivity.
Qed.

Lemma sr_le_add_l (s : palma_semiring_t) (a b : Z) :
  sr_scalar s a -> sr_le s a (palma_add a b s).
Proof.
  unfold sr_le. intros Ha. rewrite <- palma_add_assoc, palma_add_idem by exact Ha.
  reflexivity.
Qed.

Lemma sr_le_add_r (s : palma_semiring_t) (a b : Z) :
  sr_scalar s b -> sr_le s b (palma_add a b s).
Proof. intros Hb. rewrite palma_add_comm. apply sr_le_add_l, Hb. Qed.

Lemma fold_left_inv {S X : Type} (f : S -> X -> S) (Inv : S -> Prop) (l : list X) :
  (forall st x, In x l -> Inv st -> Inv (f st x)) ->
  forall st, Inv st -> Inv (fold_left f l st).
Proof.
  induction l as [|x l IH]; intros Hf st Hst; [exact Hst|].
  cbn [fold_left]. apply IH.
  - intros st' y Hy. apply Hf. right. exact Hy.
  - apply Hf; [left; reflexivity | exact Hst].
Qed.

Lemma closure_update_get (s : palma_semiring_t) (k i j : nat) (D : palma_matrix_t)
      (i' j' : nat) :
  dense_wf D -> (i < m_rows D)%nat -> (j < m_stride D)%nat -> (j' < m_stride D)%nat ->
  palma_matrix_get (closure_update s k i D j) i' j'
  = if (i' =? i)%nat && (j' =? j)%nat
    then palma_add (palma_matrix_get D i j)
                   (palma_mul (palma_matrix_get D i k) (palma_matrix_get D k j) s) s
    else palma_matrix_get D i' j'.
Proof.
  intros W Hi Hj Hj'. unfold closure_update.
  destruct (Nat.eqb_spec i' i) as [->|Ni]; cbn [andb].
  - destruct (Nat.eqb_spec j' j) as [->|Nj].
    + apply get_set_same; assumption.
    + apply get_set_other; lia.
  - apply get_set_other; lia.
Qed.

Lemma closure_update_cells (P : nat -> nat -> Z -> Prop) (s : palma_semiring_t)
      (n k i j : nat) (D : palma_matrix_t) :
  cells_inv P n D -> (i < n)%nat -> (j < n)%nat ->
  P i j (palma_add (palma_matrix_get D i j)
                   (palma_mul (palma_matrix_get D i k) (palma_matrix_get D k j) s) s) ->
  cells_inv P n (closure_update s k i D j).
Proof.
  intros (W & Hr & Hc & HP) Hi Hj Hnew.
  assert (Hst : (n <= m_stride D)%nat) by (destruct W; lia).
  split; [apply palma_matrix_set_wf, W|].
  split; [exact Hr|]. split; [exact Hc|].
  intros i' j' Hi' Hj'. rewrite closure_update_get by (try assumption; lia).
  destruct (Nat.eqb_spec i' i) as [->|]; cbn [andb]; [|apply HP; assumption].
  destruct (Nat.eqb_spec j' j) as [->|]; [exact Hnew | apply HP; assumption].
Qed.

Lemma closure_round_cells (P : nat -> nat -> Z -> Prop) (s : palma_semiring_t)
      (n k : nat) (D : palma_matrix_t) :
  (forall i j d dik dkj, (i < n)%nat -> (j < n)%nat ->
     P i j d -> P i k dik -> P k j dkj ->
     P i j (palma_add d (palma_mul dik dkj s) s)) ->
  (k < n)%nat -> cells_inv P n D -> cells_inv P n (closure_round s n D k).
Proof.
  intros Hstep Hk. unfold closure_round.
  apply fold_left_inv. intros D1 i Hi%in_seq HD1.
  apply fold_left_inv; [|exact HD1]. intros D2 j Hj%in_seq HD2.
  apply closure_update_cells; try assumption; try lia.
  destruct HD2 as (_ & _ & _ & HP). apply Hstep; try lia; apply HP; lia.
Qed.

Lemma closure_add_identity_spec (s : palma_semiring_t) (n : nat) (D : palma_matrix_t) :
  dense_wf D -> m_rows D = n -> m_cols D = n ->
  cells_inv (fun i j d =>
               d = if (i =? j)%nat
                   then palma_add (palma_matrix_get D i i) (palma_one s) s
                   else palma_matrix_get D i j)
            n (closure_add_identity s n D).
Proof.
  intros W Hr Hc.
  assert (Hst : (n <= m_stride D)%nat) by (destruct W; lia).
  destruct (diag_loop_spec (fun d => palma_add d (palma_one s) s) n 0 D W
                           ltac:(lia) ltac:(lia)) as (Hr1 & Hc1 & Hs1 & Hw1 & Hg1).
  cbv beta zeta in *. unfold closure_add_identity.
  split; [exact Hw1|]. split; [congruence|]. split; [congruence|].
  intros i j Hi Hj. rewrite Hg1 by lia. nat_cases.
Qed.

Lemma palma_matrix_closure_unfold (A : palma_matrix_t) (s : palma_semiring_t) :
  m_rows A = m_cols A -> (0 < m_rows A)%nat ->
  exists D, dense_wf D /\ m_rows D = m_rows A /\ m_cols D = m_rows A /\
            (forall i j, (i < m_rows A)%nat -> (j < m_rows A)%nat ->
                         palma_matrix_get D i j = palma_matrix_get A i j) /\
            palma_matrix_closure (Some A) s
            = Handle (fold_left (closure_round s (m_rows A)) (seq 0 (m_rows A))
                                (closure_add_identity s (m_rows A) D)).
Proof.
  intros Hsq Hpos.
  destruct (palma_matrix_clone_spec A Hpos ltac:(lia))
    as (D & E & Dr & Dc & _ & W & Dg).
  exists D. split; [exact W|]. split; [exact Dr|]. split; [lia|].
  split; [intros i j Hi Hj; apply Dg; lia|].
  unfold palma_matrix_closure. rewrite Hsq, Nat.eqb_refl. cbn [negb].
  rewrite <- Hsq, E. reflexivity.
Qed.

Lemma closure_rounds_cells (P : nat -> nat -> Z -> Prop) (s : palma_semiring_t)
      (n : nat) (D : palma_matrix_t) :
  (forall i j k d dik dkj, (i < n)%nat -> (j < n)%nat -> (k < n)%nat ->
     P i j d -> P i k dik -> P k j dkj ->
     P i j (palma_add d (palma_mul dik dkj s) s)) ->
  cells_inv P n D ->
  cells_inv P n (fold_left (closure_round s n) (seq 0 n) D).
Proof.
  intros Hstep. apply fold_left_inv. intros D1 k Hk%in_seq HD1.
  apply closure_round_cells; try assumption; try lia.
  intros i j d dik dkj Hi Hj. apply Hstep; lia.
Qed.

Lemma palma_matrix_closure_spec (A : palma_matrix_t) (s : palma_semiring_t) :
  m_rows A = m_cols A -> (0 < m_rows A)%nat ->
  (forall i j, (i < m_rows A)%nat -> (j < m_rows A)%nat ->
               sr_scalar s (palma_matrix_get A i j)) ->
  exists star,
    palma_matrix_closure (Some A) s = Handle star /\
    m_rows star = m_rows A /\ m_cols star = m_rows A /\
    forall i j, (i < m_rows A)%nat -> (j < m_rows A)%nat ->
      sr_scalar s (palma_matrix_get star i j) /\
      sr_le s (palma_matrix_get A i j) (palma_matrix_get star i j) /\
      sr_le s (palma_one s) (palma_matrix_get star i i).
Proof.
  intros Hsq Hpos HA. set (n := m_rows A) in *.
  destruct (palma_matrix_closure_unfold A s Hsq Hpos) as (D & W & Dr & Dc & Dg & E).
  fold n in Dr, Dc, Dg, E.
  pose proof (closure_add_identity_spec s n D W Dr Dc) as H1.
  set (D1 := closure_add_identity s n D) in *.
  assert (Hs1 : forall i j, (i < n)%nat -> (j < n)%nat ->
                            sr_scalar s (palma_matrix_get D1 i j)).
  { intros i j Hi Hj. destruct H1 as (_ & _ & _ & H1). rewrite (H1 i j Hi Hj).
    destruct (Nat.eqb_spec i j).
    - apply palma_add_scalar; [rewrite Dg by lia; apply HA; lia | apply sr_scalar_one].
    - rewrite Dg by lia. apply HA; lia. }
  assert (H2 : cells_inv (fun i j d => sr_scalar s d /\
                                       sr_le s (palma_matrix_get D1 i j) d) n D1).
  { destruct H1 as (W1 & R1 & C1 & _). split; [exact W1|].
    split; [exact R1|]. split; [exact C1|].
    intros i j Hi Hj. split; [apply Hs1; assumption|].
    apply sr_le_refl, Hs1; assumption. }
  apply (closure_rounds_cells _ s n D1) in H2.
  - rewrite E. eexists. split; [reflexivity|].
    destruct H2 as (_ & R2 & C2 & H2). split; [exact R2|]. split; [exact C2|].
    destruct H1 as (_ & _ & _ & H1).
    intros i j Hi Hj. destruct (H2 i j Hi Hj) as [Hsc Hle].
    split; [exact Hsc|]. split.
    + apply (sr_le_trans s _ (palma_matrix_get D1 i j)); [|exact Hle].
      rewrite (H1 i j Hi Hj). destruct (Nat.eqb_spec i j) as [<-|].
      * rewrite Dg by lia. apply sr_le_add_l, HA; lia.
      * rewrite Dg by lia. apply sr_le_refl, HA; lia.
    + destruct (H2 i i Hi Hi) as [_ Hle'].
      apply (sr_le_trans s _ (palma_matrix_get D1 i i)); [|exact Hle'].
      rewrite (H1 i i Hi Hi), Nat.eqb_refl. apply sr_le_add_r, sr_scalar_one.
  - intros i j k d dik dkj Hi Hj Hk [Sd Ld] [Sik _] [Skj _]. split.
    + apply palma_add_scalar; [apply Sd|].
      apply palma_mul_scalar; [apply Sik | apply Skj].
    + apply (sr_le_trans s _ d); [exact Ld | apply sr_le_add_l, Sd].
Qed.

(** X9: the closure dominates its operand and the identity.  For a
    non-empty square matrix A over the scalars of the semiring,
    [palma_matrix_closure] returns a matrix A* of the same dimension over
    these scalars with A ⊕ A* = A* and I ⊕ A* = A*: no cell of A* is worse
    than the direct edge, and no diagonal cell is worse than e.  A NULL
    operand and a non-square one are refused.  [palma_all_pairs_paths] is
    this closure, and [palma_bottleneck_paths] is it in (max,min). *)
Theorem palma_matrix_closure_dominates (A : palma_matrix_t) (s : palma_semiring_t) :
  palma_matrix_closure None s = Null PALMA_ERR_NULL_PTR /\
  palma_all_pairs_paths (Some A) s = palma_matrix_closure (Some A) s /\
  palma_bottleneck_paths (Some A) = palma_matrix_closure (Some A) PALMA_MAXMIN /\
  (m_rows A <> m_cols A ->
   palma_matrix_closure (Some A) s = Null PALMA_ERR_NOT_SQUARE) /\
  (m_rows A = m_cols A -> (0 < m_rows A)%nat ->
   (forall i j, (i < m_rows A)%nat -> (j < m_rows A)%nat ->
                sr_scalar s (palma_matrix_get A i j)) ->
   exists star,
     palma_matrix_closure (Some A) s = Handle star /\
     m_rows star = m_rows A /\ m_cols star = m_rows A /\
     forall i j, (i < m_rows A)%nat -> (j < m_rows A)%nat ->
       sr_scalar s (palma_matrix_get star i j) /\
       palma_add (palma_matrix_get A i j) (palma_matrix_get star i j) s
       = palma_matrix_get star i j /\
       palma_add (palma_one s) (palma_matrix_get star i i) s
       = palma_matrix_get star i i).
Proof.
  split; [reflexivity|]. split; [reflexivity|]. split; [reflexivity|]. split.
  - intros Hne. unfold palma_matrix_closure.
    destruct (Nat.eqb_spec (m_rows A) (m_cols A)); [contradiction|reflexivity].
  - intros Hsq Hpos HA.
    destruct (palma_matrix_closure_spec A s Hsq Hpos HA) as (star & E & Hr & Hc & Hg).
    exists star. split; [exact E|]. split; [exact Hr|]. split; [exact Hc|].
    intros i j Hi Hj. destruct (Hg i j Hi Hj) as (H1 & H2 & H3).
    split; [exact H1|]. split; [exact H2 | exact H3].
Qed.

Lemma palma_matrix_closure_dominates_witness :
  exists star,
    palma_bottleneck_paths (Some two_hops) = Handle star /\
    palma_add (palma_matrix_get two_hops 0 1) (palma_matrix_get star 0 1) PALMA_MAXMIN
    = palma_matrix_get star 0 1.
Proof.
  destruct (proj2 (proj2 (proj2 (proj2
              (palma_matrix_closure_dominates two_hops PALMA_MAXMIN))))
              eq_refl ltac:(cbn; lia)) as (star & E & _ & _ & Hg).
  - intros i j Hi Hj. cbn in Hi, Hj.
    assert (Hc : (i = 0 \/ i = 1)%nat /\ (j = 0 \/ j = 1)%nat) by lia.
    destruct Hc as [[-> | ->] [-> | ->]]; cbn;
      (split; [unfold is_int32, PALMA_POS_INF, INT32_MIN, INT32_MAX; lia
              | discriminate]).
  - exists star. split; [exact E|].
    apply (Hg 0%nat 1%nat); cbn; lia.
Defined.

(** ** Reachability: Warshall's algorithm on the Boolean semiring *)

Lemma fold_left_stable {S X : Type} (f : S -> X -> S) (Inv Q : S -> Prop)
      (l : list X) :
  (forall st x, In x l -> Inv st -> Inv (f st x)) ->
  (forall st x, In x l -> Inv st -> Q st -> Q (f st x)) ->
  forall st, Inv st -> Q st -> Q (fold_left f l st).
Proof.
  induction l as [|a l IH]; intros HI HQ st Hst Hq; [exact Hq|].
  cbn [fold_left]. apply IH.
  - intros st' x Hx. apply HI. right. exact Hx.
  - intros st' x Hx. apply HQ. right. exact Hx.
  - apply HI; [left; reflexivity | exact Hst].
  - apply HQ; [left; reflexivity | exact Hst | exact Hq].
Qed.

Lemma fold_left_post {S X : Type} (f : S -> X -> S) (Inv : S -> Prop)
      (post : X -> S -> Prop) (l : list X) :
  (forall st x, In x l -> Inv st -> Inv (f st x)) ->
  (forall st x, In x l -> Inv st -> post x (f st x)) ->
  (forall st x y, In x l -> Inv st -> post y st -> post y (f st x)) ->
  forall st, Inv st -> forall x, In x l -> post x (fold_left f l st).
Proof.
  induction l as [|a l IH]; intros HI HP HS st Hst x Hx; [destruct Hx|].
  cbn [fold_left]. destruct Hx as [<-|Hx].
  - apply (fold_left_stable f Inv (post a)).
    + intros st' y Hy. apply HI. right. exact Hy.
    + intros st' y Hy. apply HS. right. exact Hy.
    + apply HI; [left; reflexivity | exact Hst].
    + apply HP; [left; reflexivity | exact Hst].
  - apply IH; try assumption.
    + intros st' y Hy. apply HI. right. exact Hy.
    + intros st' y Hy. apply HP. right. exact Hy.
    + intros st' y z Hy. apply HS. right. exact Hy.
    + apply HI; [left; reflexivity | exact Hst].
Qed.

Lemma walk_mono (E : nat -> nat -> Prop) (k k' i j : nat) :
  (k <= k')%nat -> walk E k i j -> walk E k' i j.
Proof.
  intros Hk H. induction H as [i j He | i m j Hm _ IH1 _ IH2].
  - apply walk_edge, He.
  - apply (walk_via E k' i m j); [lia | exact IH1 | exact IH2].
Qed.

Lemma walk_zero (E : nat -> nat -> Prop) (i j : nat) : walk E 0 i j -> E i j.
Proof. intros H. induction H as [i j He | i m j Hm _ _ _ _]; [exact He | lia]. Qed.

Lemma walk_split (E : nat -> nat -> Prop) (k i j : nat) :
  walk E (S k) i j -> walk E k i j \/ (walk E k i k /\ walk E k k j).
Proof.
  intros H. induction H as [i j He | i m j Hm _ IH1 _ IH2].
  - left. apply walk_edge, He.
  - destruct (Nat.eq_dec m k) as [->|Hne].
    + right. split.
      * destruct IH1 as [H1 | [H1 _]]; exact H1.
      * destruct IH2 as [H2 | [_ H2]]; exact H2.
    + assert (Hm' : (m < k)%nat) by lia.
      destruct IH1 as [H1 | [H1 H1']], IH2 as [H2 | [H2 H2']].
      * left. apply (walk_via E k i m j); assumption.
      * right. split; [apply (walk_via E k i m k); assumption | exact H2'].
      * right. split; [exact H1 | apply (walk_via E k k m j); assumption].
      * right. split; [exact H1 | exact H2'].
Qed.

Lemma reachable_trans (adj : palma_matrix_t) (n i m j : nat) :
  reachable adj n i m -> reachable adj n m j -> reachable adj n i j.
Proof.
  intros H1 H2. induction H1 as [i | i m' m Hm He _ IH]; [exact H2|].
  apply (reach_step adj n i m' j); [exact Hm | exact He | apply IH, H2].
Qed.

Lemma walk_reachable (adj : palma_matrix_t) (n i j : nat) :
  (i < n)%nat -> (j < n)%nat ->
  (walk (bool_edge adj n) n i j <-> reachable adj n i j).
Proof.
  intros Hi Hj. split.
  - intros H. clear Hi Hj. induction H as [i j (Hi & Hj & [-> | He]) | i m j Hm _ IH1 _ IH2].
    + apply reach_here.
    + apply (reach_step adj n i j j); [exact Hj | exact He | apply reach_here].
    + apply (reachable_trans adj n i m j); assumption.
  - intros H. induction H as [i | i m j Hm He _ IH].
    + apply walk_edge. split; [exact Hi|]. split; [exact Hi|]. left. reflexivity.
    + apply (walk_via _ n i m j); [exact Hm | | apply IH; assumption].
      apply walk_edge. split; [exact Hi|]. split; [exact Hm|]. right. exact He.
Qed.

Lemma boolean_step (d x y : Z) :
  palma_add d (palma_mul x y PALMA_BOOLEAN) PALMA_BOOLEAN
  = if truthy d || (truthy x && truthy y) then 1 else 0.
Proof.
  cbn [palma_add palma_mul]. unfold truthy.
  destruct (d =? 0), (x =? 0), (y =? 0); reflexivity.
Qed.

Lemma boolean_step_bit (d x y : Z) :
  let v := palma_add d (palma_mul x y PALMA_BOOLEAN) PALMA_BOOLEAN in
  v = 0 \/ v = 1.
Proof.
  cbv zeta. rewrite boolean_step.
  destruct (truthy d || (truthy x && truthy y)); [right|left]; reflexivity.
Qed.

Lemma boolean_step_one (d x y : Z) :
  d = 0 \/ d = 1 -> x = 0 \/ x = 1 -> y = 0 \/ y = 1 ->
  (palma_add d (palma_mul x y PALMA_BOOLEAN) PALMA_BOOLEAN = 1
   <-> d = 1 \/ (x = 1 /\ y = 1)).
Proof.
  rewrite boolean_step. unfold truthy.
  intros [-> | ->] [-> | ->] [-> | ->]; cbn; split; intros H;
    try reflexivity; try discriminate; try lia; auto.
Qed.

(** One round of the closure on a Boolean matrix: what was 1 stays 1, and
    cell (i,j) is 1 afterwards when cells (i,k) and (k,j) were 1 before. *)
Lemma warshall_round (n k : nat) (D0 : palma_matrix_t) :
  (k < n)%nat ->
  cells_inv (fun _ _ d => d = 0 \/ d = 1) n D0 ->
  let D' := closure_round PALMA_BOOLEAN n D0 k in
  cells_inv (fun i j d => (d = 0 \/ d = 1) /\
                          (palma_matrix_get D0 i j = 1 -> d = 1)) n D' /\
  forall i j, (i < n)%nat -> (j < n)%nat ->
              palma_matrix_get D0 i k = 1 -> palma_matrix_get D0 k j = 1 ->
              palma_matrix_get D' i j = 1.
Proof.
  intros Hk H0. cbv zeta.
  set (Inv := cells_inv (fun i j d => (d = 0 \/ d = 1) /\
                                      (palma_matrix_get D0 i j = 1 -> d = 1)) n).
  set (C := fun (i j : nat) (D : palma_matrix_t) =>
              (i < n)%nat -> (j < n)%nat ->
              palma_matrix_get D0 i k = 1 -> palma_matrix_get D0 k j = 1 ->
              palma_matrix_get D i j = 1).
  assert (I0 : Inv D0).
  { destruct H0 as (W & Hr & Hc & Hb). split; [exact W|]. split; [exact Hr|].
    split; [exact Hc|]. intros i j Hi Hj. split; [apply Hb; assumption|tauto]. }
  assert (Hupd_inv : forall D i j, (i < n)%nat -> (j < n)%nat -> Inv D ->
                                   Inv (closure_update PALMA_BOOLEAN k i D j)).
  { intros D i j Hi Hj HD. apply closure_update_cells; try assumption.
    destruct HD as (_ & _ & _ & HP). split; [apply boolean_step_bit|].
    intros H1. apply boolean_step_one; try (apply HP; assumption).
    left. apply HP; assumption. }
  assert (Hupd_post : forall D i j, (i < n)%nat -> (j < n)%nat -> Inv D ->
                                    C i j (closure_update PALMA_BOOLEAN k i D j)).
  { intros D i j Hi Hj (W & Hr & Hc & HP) _ _ H1 H2.
    assert (Hst : (n <= m_stride D)%nat) by (destruct W; lia).
    rewrite closure_update_get by (try assumption; lia).
    rewrite !Nat.eqb_refl. cbn [andb].
    apply boolean_step_one; try (apply HP; assumption).
    right. split; apply HP; assumption. }
  assert (Hupd_stable : forall D i j i' j', (i < n)%nat -> (j < n)%nat -> Inv D ->
                          C i' j' D -> C i' j' (closure_update PALMA_BOOLEAN k i D j)).
  { intros D i j i' j' Hi Hj (W & Hr & Hc & HP) HC Hi' Hj' H1 H2.
    assert (Hst : (n <= m_stride D)%nat) by (destruct W; lia).
    rewrite closure_update_get by (try assumption; lia).
    destruct (Nat.eqb_spec i' i) as [->|]; cbn [andb]; [|apply HC; assumption].
    destruct (Nat.eqb_spec j' j) as [->|]; [|apply HC; assumption].
    apply boolean_step_one; try (apply HP; assumption).
    left. apply HC; assumption. }
  assert (Hrow_inv : forall D i, (i < n)%nat -> Inv D ->
                       Inv (fold_left (closure_update PALMA_BOOLEAN k i) (seq 0 n) D)).
  { intros D i Hi. apply fold_left_inv. intros D1 j Hj%in_seq. apply Hupd_inv; lia. }
  split.
  - unfold closure_round. apply (fold_left_inv _ Inv); [|exact I0].
    intros D i Hi%in_seq. apply Hrow_inv; lia.
  - intros i j Hi Hj.
    assert (HC : C i j (closure_round PALMA_BOOLEAN n D0 k)); [|apply HC; assumption].
    unfold closure_round.
    apply (fold_left_post
             (fun D i => fold_left (closure_update PALMA_BOOLEAN k i) (seq 0 n) D)
             Inv (fun i D => C i j D) (seq 0 n)); try exact I0; try (apply in_seq; lia).
    + intros D x Hx%in_seq. apply Hrow_inv; lia.
    + intros D x Hx%in_seq HD.
      apply (fold_left_post (closure_update PALMA_BOOLEAN k x) Inv
                            (fun j D => C x j D) (seq 0 n));
        try exact HD; try (apply in_seq; lia).
      * intros D1 y Hy%in_seq. apply Hupd_inv; lia.
      * intros D1 y Hy%in_seq. apply Hupd_post; lia.
      * intros D1 y z Hy%in_seq. apply Hupd_stable; lia.
    + intros D x y Hx%in_seq HD HCy.
      apply (fold_left_stable (closure_update PALMA_BOOLEAN k x) Inv
                              (fun D => C y j D) (seq 0 n)); try assumption.
      * intros D1 z Hz%in_seq. apply Hupd_inv; lia.
      * intros D1 z Hz%in_seq. apply Hupd_stable; lia.
Qed.

(** The rounds [lo], [lo+1], ... of the closure of a Boolean matrix whose
    1-cells are the walks of [E] through nodes below [lo]. *)
Lemma warshall_rounds (E : nat -> nat -> Prop) (n len lo : nat) (D : palma_matrix_t) :
  (lo + len <= n)%nat ->
  cells_inv (fun i j d => (d = 0 \/ d = 1) /\ (d = 1 <-> walk E lo i j)) n D ->
  cells_inv (fun i j d => (d = 0 \/ d = 1) /\ (d = 1 <-> walk E (lo + len) i j)) n
            (fold_left (closure_round PALMA_BOOLEAN n) (seq lo len) D).
Proof.
  revert lo D. induction len as [|len IH]; intros lo D Hlen HD.
  - cbn [seq fold_left]. rewrite Nat.add_0_r. exact HD.
  - cbn [seq fold_left]. replace (lo + S len)%nat with (S lo + len)%nat by lia.
    apply IH; [lia|].
    assert (Hbits : cells_inv (fun _ _ d => d = 0 \/ d = 1) n D).
    { destruct HD as (W & Hr & Hc & HP). split; [exact W|]. split; [exact Hr|].
      split; [exact Hc|]. intros i j Hi Hj. apply HP; assumption. }
    destruct (warshall_round n lo D ltac:(lia) Hbits) as [HI HC].
    cbv zeta in HI, HC.
    assert (Hsound : cells_inv (fun i j d => (d = 0 \/ d = 1) /\
                                             (d = 1 -> walk E (S lo) i j)) n
                               (closure_round PALMA_BOOLEAN n D lo)).
    { apply closure_round_cells; [|lia|].
      - intros i j d dik dkj Hi Hj [Bd Wd] [Bik Wik] [Bkj Wkj].
        split; [apply boolean_step_bit|].
        intros H1. apply boolean_step_one in H1; try assumption.
        destruct H1 as [H1 | [H1 H2]]; [apply Wd, H1|].
        apply (walk_via E (S lo) i lo j); [lia | apply Wik, H1 | apply Wkj, H2].
      - destruct HD as (W & Hr & Hc & HP). split; [exact W|]. split; [exact Hr|].
        split; [exact Hc|]. intros i j Hi Hj. destruct (HP i j Hi Hj) as [B Hw].
        split; [exact B|]. intros H1. apply (walk_mono E lo); [lia | apply Hw, H1]. }
    destruct HI as (W' & Hr' & Hc' & HP'). destruct Hsound as (_ & _ & _ & HS).
    destruct HD as (_ & _ & _ & HP).
    split; [exact W'|]. split; [exact Hr'|]. split; [exact Hc'|].
    intros i j Hi Hj. destruct (HP' i j Hi Hj) as [B Hmono].
    split; [exact B|]. split; [apply HS; assumption|].
    intros Hw. apply walk_split in Hw. destruct Hw as [Hw | [Hw1 Hw2]].
    + apply Hmono. apply (HP i j Hi Hj), Hw.
    + apply HC; try assumption.
      * apply (HP i lo Hi ltac:(lia)), Hw1.
      * apply (HP lo j ltac:(lia) Hj), Hw2.
Qed.

(** X10: [palma_reachability] decides reachability.  For a non-empty
    square adjacency matrix it returns a 0/1 matrix of the same dimension
    whose cell (i,j) is 1 exactly when j is reached from i along edges, an
    edge being a cell that is neither -∞ nor +∞ (a weight 0 included); every
    node reaches itself.  A matrix that is not square is refused after the
    conversion, by the closure. *)
Theorem palma_reachability_decides (adj : palma_matrix_t) :
  (0 < m_rows adj)%nat -> (0 < m_cols adj)%nat ->
  (m_rows adj <> m_cols adj ->
   palma_reachability (Some adj) = Null PALMA_ERR_NOT_SQUARE) /\
  (m_rows adj = m_cols adj ->
   exists reach,
     palma_reachability (Some adj) = Handle reach /\
     m_rows reach = m_rows adj /\ m_cols reach = m_rows adj /\
     forall i j, (i < m_rows adj)%nat -> (j < m_rows adj)%nat ->
       (palma_matrix_get reach i j = 0 \/ palma_matrix_get reach i j = 1) /\
       (palma_matrix_get reach i j = 1 <-> reachable adj (m_rows adj) i j)).
Proof.
  intros Hr Hc.
  destruct (palma_matrix_create_spec _ _ Hr Hc) as (c & Ec & Cr & Cc & Cs & W).
  set (g := fun i j : nat =>
              if (negb (palma_matrix_get adj i j =? PALMA_NEG_INF)
                  && negb (palma_matrix_get adj i j =? PALMA_POS_INF))
                 || (i =? j)%nat then 1 else 0).
  assert (Eb : palma_reachability (Some adj)
               = palma_matrix_closure
                   (Some (fill_cells g (m_rows adj) (m_cols adj) c)) PALMA_BOOLEAN).
  { unfold palma_reachability. rewrite Ec. reflexivity. }
  assert (Hst : (m_cols adj <= m_stride c)%nat) by (destruct W; lia).
  destruct (fill_cells_spec g (m_rows adj) (m_cols adj) c W ltac:(lia) Hst)
    as (Br & Bc & Bs & Bw & Bg).
  set (B := fill_cells g (m_rows adj) (m_cols adj) c) in *.
  split.
  - intros Hne. rewrite Eb. unfold palma_matrix_closure. rewrite Br, Bc, Cr, Cc.
    destruct (Nat.eqb_spec (m_rows adj) (m_cols adj)); [contradiction|reflexivity].
  - intros Hsq. set (n := m_rows adj) in *.
    assert (BrN : m_rows B = n) by lia.
    assert (BcN : m_cols B = n) by lia.
    destruct (palma_matrix_closure_unfold B PALMA_BOOLEAN ltac:(lia) ltac:(lia))
      as (D & WD & Dr & Dc & Dg & E).
    rewrite BrN in Dr, Dc, Dg, E.
    pose proof (closure_add_identity_spec PALMA_BOOLEAN n D WD Dr Dc) as H1.
    set (D1 := closure_add_identity PALMA_BOOLEAN n D) in *.
    assert (Hg : forall i j, (i < n)%nat -> (j < n)%nat ->
                             palma_matrix_get D i j = g i j).
    { intros i j Hi Hj. rewrite Dg by assumption. rewrite Bg by lia. nat_cases. }
    assert (H2 : cells_inv (fun i j d => (d = 0 \/ d = 1) /\
                                         (d = 1 <-> walk (bool_edge adj n) 0 i j))
                           n D1).
    { destruct H1 as (W1 & R1 & C1 & H1). split; [exact W1|].
      split; [exact R1|]. split; [exact C1|].
      intros i j Hi Hj. rewrite (H1 i j Hi Hj).
      destruct (Nat.eqb_spec i j) as [<-|Hne].
      - assert (Hone : palma_add (palma_matrix_get D i i) (palma_one PALMA_BOOLEAN)
                                 PALMA_BOOLEAN = 1).
        { cbn [palma_add palma_one]. unfold truthy.
          destruct (palma_matrix_get D i i =? 0); reflexivity. }
        rewrite Hone. split; [right; reflexivity|]. split; [|reflexivity].
        intros _. apply walk_edge. split; [exact Hi|]. split; [exact Hi|].
        left. reflexivity.
      - rewrite Hg by assumption. unfold g.
        destruct (Nat.eqb_spec i j); [contradiction|]. rewrite orb_false_r.
        destruct (Z.eqb_spec (palma_matrix_get adj i j) PALMA_NEG_INF) as [En|Nn];
          cbn [negb andb].
        + split; [left; reflexivity|]. split; [discriminate|].
          intros Hw%walk_zero. destruct Hw as (_ & _ & [Heq | [Hn _]]); contradiction.
        + destruct (Z.eqb_spec (palma_matrix_get adj i j) PALMA_POS_INF) as [Ep|Np];
            cbn [negb].
          * split; [left; reflexivity|]. split; [discriminate|].
            intros Hw%walk_zero. destruct Hw as (_ & _ & [Heq | [_ Hp]]); contradiction.
          * split; [right; reflexivity|]. split; [|reflexivity].
            intros _. apply walk_edge. split; [exact Hi|]. split; [exact Hj|].
            right. split; assumption. }
    apply (warshall_rounds (bool_edge adj n) n n 0 D1 ltac:(lia)) in H2.
    cbn [Nat.add] in H2. destruct H2 as (_ & R2 & C2 & H2).
    rewrite Eb, E. eexists. split; [reflexivity|].
    split; [exact R2|]. split; [exact C2|].
    intros i j Hi Hj. destruct (H2 i j Hi Hj) as [Bit Hw].
    split; [exact Bit|]. rewrite Hw. apply walk_reachable; assumption.
Qed.

Lemma palma_reachability_decides_witness :
  exists reach,
    palma_reachability (Some chain3) = Handle reach /\
    palma_matrix_get reach 0 2 = 1.
Proof.
  destruct (proj2 (palma_reachability_decides chain3 ltac:(cbn; lia) ltac:(cbn; lia))
              eq_refl) as (reach & E & _ & _ & Hg).
  exists reach. split; [exact E|].
  apply (Hg 0%nat 2%nat ltac:(cbn; lia) ltac:(cbn; lia)).
  apply (reach_step chain3 3 0 1 2); [lia | split; discriminate |].
  apply (reach_step chain3 3 1 2 2); [lia | split; discriminate |].
  apply reach_here.
Defined.

(** ** Vector operations *)

Lemma fold_left_const_seq {T : Type} (F : T -> T) (n lo : nat) (x : T) :
  fold_left (fun x (_ : nat) => F x) (seq lo n) x = Nat.iter n F x.
Proof.
  revert lo x. induction n as [|n IH]; intros lo x; [reflexivity|].
  cbn [seq fold_left]. rewrite IH. symmetry. apply Nat.iter_succ_r.
Qed.

Lemma iter_add {T : Type} (F : T -> T) (p q : nat) (x : T) :
  Nat.iter (p + q) F x = Nat.iter q F (Nat.iter p F x).
Proof.
  induction q as [|q IH].
  - rewrite Nat.add_0_r. reflexivity.
  - replace (p + S q)%nat with (S (p + q)) by lia.
    rewrite !Nat.iter_succ, IH. reflexivity.
Qed.

Lemma memcpy_full {A : Type} (x y : list A) (d : A) :
  length x = length y ->
  fold_left (fun x i => upd x i (nth i y d)) (seq 0 (length y)) x = y.
Proof.
  intros Hlen.
  assert (Hl : length (fold_left (fun x i => upd x i (nth i y d)) (seq 0 (length y)) x)
               = length x).
  { generalize (seq 0 (length y)). intros l. revert x Hlen.
    induction l as [|a l IH]; intros x Hlen; [reflexivity|].
    cbn [fold_left]. rewrite IH by (rewrite upd_length; exact Hlen).
    apply upd_length. }
  apply (nth_ext _ _ d d); [lia|].
  intros j Hj. rewrite (nth_fold_upd (fun i => nth i y d) d (length y) 0 x j).
  nat_cases.
Qed.

(** The loop body of [palma_iterate]. *)
Lemma palma_iterate_unfold (A : palma_matrix_t) (x : list Z) (n : nat)
      (s : palma_semiring_t) :
  m_rows A = m_cols A ->
  palma_iterate (Some A) x n s
  = (PALMA_SUCCESS,
     Nat.iter n (fun x => fold_left (fun v i => upd v i (nth i (palma_matvec A x s) 0))
                                    (seq 0 (m_rows A)) x) x).
Proof.
  intros Hsq. unfold palma_iterate. rewrite Hsq, Nat.eqb_refl. cbn [negb].
  f_equal. rewrite <- Hsq.
  apply (fold_left_const_seq
           (fun x => fold_left (fun v i => upd v i (nth i (palma_matvec A x s) 0))
                               (seq 0 (m_rows A)) x)).
Qed.

Lemma iterate_step_full (A : palma_matrix_t) (x : list Z) (s : palma_semiring_t) :
  length x = m_rows A ->
  fold_left (fun v i => upd v i (nth i (palma_matvec A x s) 0)) (seq 0 (m_rows A)) x
  = palma_matvec A x s.
Proof.
  intros Hlen.
  rewrite <- (palma_matvec_length A s x).
  apply memcpy_full. rewrite palma_matvec_length. exact Hlen.
Qed.

Lemma iterate_full (A : palma_matrix_t) (s : palma_semiring_t) (n : nat) (x : list Z) :
  length x = m_rows A ->
  Nat.iter n (fun x => fold_left (fun v i => upd v i (nth i (palma_matvec A x s) 0))
                                 (seq 0 (m_rows A)) x) x
  = Nat.iter n (fun x => palma_matvec A x s) x /\
  length (Nat.iter n (fun x => palma_matvec A x s) x) = m_rows A.
Proof.
  intros Hlen. induction n as [|n [IH1 IH2]]; [split; [reflexivity|exact Hlen]|].
  rewrite !Nat.iter_succ, IH1. split.
  - apply iterate_step_full, IH2.
  - apply palma_matvec_length.
Qed.

(** X11: [palma_iterate].  A NULL or non-square matrix is refused and the
    vector is left as it is.  For a square matrix and a vector of its
    dimension the call succeeds, n steps give the n-fold product
    A ⊗ (... ⊗ (A ⊗ x)), and p + q steps are p steps followed by q steps. *)
Theorem palma_iterate_steps (A : palma_matrix_t) (x : list Z) (s : palma_semiring_t) :
  (forall n, palma_iterate None x n s = (PALMA_ERR_NULL_PTR, x)) /\
  (m_rows A <> m_cols A ->
   forall n, palma_iterate (Some A) x n s = (PALMA_ERR_NOT_SQUARE, x)) /\
  (m_rows A = m_cols A -> length x = m_rows A ->
   (forall n, palma_iterate (Some A) x n s
              = (PALMA_SUCCESS, Nat.iter n (fun v => palma_matvec A v s) x)) /\
   (forall p q, palma_iterate (Some A) x (p + q) s
                = palma_iterate (Some A) (snd (palma_iterate (Some A) x p s)) q s)).
Proof.
  split; [reflexivity|]. split.
  - intros Hne n. unfold palma_iterate.
    destruct (Nat.eqb_spec (m_rows A) (m_cols A)); [contradiction|reflexivity].
  - intros Hsq Hlen.
    assert (H : forall n y, length y = m_rows A ->
                  palma_iterate (Some A) y n s
                  = (PALMA_SUCCESS, Nat.iter n (fun v => palma_matvec A v s) y)).
    { intros n y Hy. rewrite palma_iterate_unfold by exact Hsq.
      rewrite (proj1 (iterate_full A s n y Hy)). reflexivity. }
    split; [intros n; apply H, Hlen|].
    intros p q. rewrite (H (p + q)%nat x Hlen), (H p x Hlen). cbn [snd].
    rewrite H by (apply iterate_full, Hlen). rewrite iter_add. reflexivity.
Qed.

Lemma palma_iterate_steps_witness :
  palma_iterate (Some two_hops) [0; 7] 2 PALMA_MINPLUS = (PALMA_SUCCESS, [5; 12]) /\
  palma_iterate (Some wide_2x3) [0; 7] 2 PALMA_MINPLUS = (PALMA_ERR_NOT_SQUARE, [0; 7]).
Proof.
  split.
  - rewrite (proj1 (proj2 (proj2 (palma_iterate_steps two_hops [0; 7] PALMA_MINPLUS))
                      eq_refl eq_refl) 2%nat). reflexivity.
  - apply (proj1 (proj2 (palma_iterate_steps wide_2x3 [0; 7] PALMA_MINPLUS))).
    cbn. lia.
Defined.

Lemma fill_zero_full (zero : Z) (dist : list Z) :
  fold_left (fun d i => upd d i zero) (seq 0 (length dist)) dist
  = repeat zero (length dist).
Proof.
  assert (Hl : length (fold_left (fun d i => upd d i zero) (seq 0 (length dist)) dist)
               = length dist).
  { generalize (seq 0 (length dist)). intros l. revert dist.
    induction l as [|a l IH]; intros dist; [reflexivity|].
    cbn [fold_left]. rewrite IH. apply upd_length. }
  apply (nth_ext _ _ 0 0); [rewrite repeat_length; exact Hl|].
  intros j Hj. rewrite (nth_fold_upd (fun _ => zero) 0 (length dist) 0 dist j).
  rewrite nth_repeat_lt by lia. nat_cases.
Qed.

(** X12: [palma_single_source_paths].  A source outside the matrix is
    refused and the buffer is left as it is.  Otherwise the buffer is set to
    the unit vector at the source; for a square matrix the result is the
    n-fold product of the matrix with that vector, and the call succeeds.
    For a matrix that is not square the iteration refuses, its error code is
    dropped, and the call returns success with the unit vector as the
    distances. *)
Theorem palma_single_source_paths_steps (adj : palma_matrix_t) (source : nat)
        (dist : list Z) (s : palma_semiring_t) :
  length dist = m_rows adj ->
  ((m_rows adj <= source)%nat ->
   palma_single_source_paths (Some adj) source dist s
   = (PALMA_ERR_INDEX_BOUNDS, dist)) /\
  ((source < m_rows adj)%nat -> m_rows adj = m_cols adj ->
   palma_single_source_paths (Some adj) source dist s
   = (PALMA_SUCCESS,
      Nat.iter (m_rows adj) (fun v => palma_matvec adj v s)
               (unit_vector s (m_rows adj) source))) /\
  ((source < m_rows adj)%nat -> m_rows adj <> m_cols adj ->
   palma_single_source_paths (Some adj) source dist s
   = (PALMA_SUCCESS, unit_vector s (m_rows adj) source) /\
   fst (palma_iterate (Some adj) (unit_vector s (m_rows adj) source) (m_rows adj) s)
   = PALMA_ERR_NOT_SQUARE).
Proof.
  intros Hlen.
  assert (Hinit : fold_left (fun d i => upd d i (palma_zero s)) (seq 0 (m_rows adj)) dist
                  = repeat (palma_zero s) (m_rows adj)).
  { rewrite <- Hlen. apply fill_zero_full. }
  split; [|split].
  - intros H. unfold palma_single_source_paths.
    destruct (Nat.leb_spec (m_rows adj) source); [reflexivity|lia].
  - intros Hsrc Hsq. unfold palma_single_source_paths.
    destruct (Nat.leb_spec (m_rows adj) source); [lia|].
    cbv zeta. rewrite Hinit. fold (unit_vector s (m_rows adj) source).
    rewrite palma_iterate_unfold by exact Hsq. cbn [snd]. f_equal.
    apply iterate_full. unfold unit_vector. rewrite upd_length, repeat_length.
    reflexivity.
  - intros Hsrc Hne. unfold palma_single_source_paths.
    destruct (Nat.leb_spec (m_rows adj) source); [lia|].
    cbv zeta. rewrite Hinit. fold (unit_vector s (m_rows adj) source).
    unfold palma_iterate.
    destruct (Nat.eqb_spec (m_rows adj) (m_cols adj)); [contradiction|].
    cbn [negb snd fst]. split; reflexivity.
Qed.

Lemma palma_single_source_paths_steps_witness :
  palma_single_source_paths (Some wide_2x3) 1 [9; 9] PALMA_MINPLUS
  = (PALMA_SUCCESS, [PALMA_POS_INF; 0]).
Proof.
  apply (proj1 (proj2 (proj2 (palma_single_source_paths_steps
                                wide_2x3 1 [9; 9] PALMA_MINPLUS eq_refl))
                  ltac:(cbn; lia) ltac:(cbn; lia))).
Defined.

(** ** Linearity of the matrix-vector product *)

Lemma palma_add_interchange (s : palma_semiring_t) (p q a b : Z) :
  palma_add (palma_add p q s) (palma_add a b s) s
  = palma_add (palma_add p a s) (palma_add q b s) s.
Proof.
  rewrite (palma_add_assoc s p q), <- (palma_add_assoc s q a b),
    (palma_add_comm s q a), (palma_add_assoc s a q b), <- (palma_add_assoc s p a).
  reflexivity.
Qed.

Lemma sum_linear (s : palma_semiring_t) (a x y : nat -> Z) (l : list nat) :
  (forall j, In j l -> is_int32 (a j) /\ is_int32 (x j) /\ is_int32 (y j)) ->
  forall p q,
    fold_left (fun sum j => palma_add sum (palma_mul (a j) (palma_add (x j) (y j) s) s) s)
              l (palma_add p q s)
    = palma_add (fold_left (fun sum j => palma_add sum (palma_mul (a j) (x j) s) s) l p)
                (fold_left (fun sum j => palma_add sum (palma_mul (a j) (y j) s) s) l q)
                s.
Proof.
  induction l as [|j l IH]; intros H p q; [reflexivity|].
  cbn [fold_left].
  destruct (H j (or_introl eq_refl)) as (Ha & Hx & Hy).
  rewrite palma_mul_add_distr_l by assumption.
  rewrite palma_add_interchange.
  apply IH. intros j' Hj'. apply H. right. exact Hj'.
Qed.

(** X13: the matrix-vector product is linear over ⊕.  For a matrix and
    two vectors of 32-bit scalars, A ⊗ (x ⊕ y) = (A ⊗ x) ⊕ (A ⊗ y), in all
    five semirings and with saturation; and entry i of A ⊗ x is
    [palma_dot] of row i of A with x. *)
Theorem palma_matvec_linear (A : palma_matrix_t) (x y : list Z) (s : palma_semiring_t) :
  (forall i j, (i < m_rows A)%nat -> (j < m_cols A)%nat ->
               is_int32 (palma_matrix_get A i j)) ->
  length x = m_cols A -> length y = m_cols A ->
  (forall j, (j < m_cols A)%nat -> is_int32 (nth j x 0) /\ is_int32 (nth j y 0)) ->
  palma_matvec A (vec_add s x y) s
  = vec_add s (palma_matvec A x s) (palma_matvec A y s) /\
  forall i, (i < m_rows A)%nat ->
            nth i (palma_matvec A x s) 0 = palma_dot (matrix_row A i) x (m_cols A) s.
Proof.
  intros HA Hx Hy Hxy. split.
  - unfold vec_add at 2. rewrite palma_matvec_length.
    unfold palma_matvec at 1. apply map_ext_in. intros i Hi%in_seq. cbv zeta.
    assert (Hrow : forall v, nth i (palma_matvec A v s) 0
              = fold_left (fun sum j => palma_add sum
                             (palma_mul (palma_matrix_get A i j) (nth j v 0) s) s)
                          (seq 0 (m_cols A)) (palma_zero s)).
    { intros v. unfold palma_matvec.
      rewrite (nth_map_in_range _ (seq 0 (m_rows A)) i 0%nat 0)
        by (rewrite length_seq; lia).
      rewrite seq_nth by lia. reflexivity. }
    rewrite !Hrow.
    rewrite <- (palma_add_idem s (palma_zero s) (sr_scalar_zero s)) at 1.
    rewrite <- (sum_linear s (palma_matrix_get A i) (fun j => nth j x 0)
                           (fun j => nth j y 0)).
    + apply fold_left_ext_in. intros acc j Hj%in_seq. unfold vec_add.
      rewrite (nth_map_in_range _ (seq 0 (length x)) j 0%nat 0)
        by (rewrite length_seq; lia).
      rewrite seq_nth by lia. reflexivity.
    + intros j Hj%in_seq. split; [apply HA; lia | apply Hxy; lia].
  - intros i Hi. unfold palma_matvec.
    rewrite (nth_map_in_range _ (seq 0 (m_rows A)) i 0%nat 0)
      by (rewrite length_seq; exact Hi).
    rewrite seq_nth by exact Hi. cbn [Nat.add]. unfold palma_dot.
    apply fold_left_ext_in. intros acc j Hj%in_seq. cbv zeta.
    unfold matrix_row.
    rewrite (nth_map_in_range _ (seq 0 (m_cols A)) j 0%nat 0)
      by (rewrite length_seq; lia).
    rewrite seq_nth by lia. reflexivity.
Qed.

Lemma palma_matvec_linear_witness :
  palma_matvec wide_2x3 (vec_add PALMA_MAXPLUS [10; 0; 3] [1; 20; 2]) PALMA_MAXPLUS
  = vec_add PALMA_MAXPLUS (palma_matvec wide_2x3 [10; 0; 3] PALMA_MAXPLUS)
                          (palma_matvec wide_2x3 [1; 20; 2] PALMA_MAXPLUS).
Proof.
  apply (palma_matvec_linear wide_2x3 [10; 0; 3] [1; 20; 2] PALMA_MAXPLUS);
    try reflexivity.
  - intros [|[|i]] [|[|[|j]]] Hi Hj; cbn in *; try lia;
      unfold is_int32, INT32_MIN, INT32_MAX; lia.
  - intros [|[|[|j]]] Hj; cbn in *; try lia;
      unfold is_int32, INT32_MIN, INT32_MAX; lia.
Defined.

Lemma matvec_identity_fixes (n : nat) (id : palma_matrix_t) (x : list Z)
      (s : palma_semiring_t) :
  m_rows id = n -> m_cols id = n ->
  (forall i j, (i < n)%nat -> (j < n)%nat ->
               palma_matrix_get id i j
               = if (i =? j)%nat then palma_one s else palma_zero s) ->
  length x = n ->
  (forall j, (j < n)%nat -> sr_scalar s (nth j x 0) /\ absorbed s (nth j x 0)) ->
  palma_matvec id x s = x.
Proof.
  intros Ir Ic Ig Hlen Hx.
  apply (nth_ext _ _ 0 0); [rewrite palma_matvec_length; lia|].
  intros i Hi. rewrite palma_matvec_length in Hi.
  unfold palma_matvec.
  rewrite (nth_map_in_range _ (seq 0 (m_rows id)) i 0%nat 0)
    by (rewrite length_seq; exact Hi).
  rewrite seq_nth by exact Hi. cbn [Nat.add]. cbv zeta. rewrite Ic.
  rewrite (sum_single s (fun j => palma_mul (palma_matrix_get id i j) (nth j x 0) s)
                      n i ltac:(lia)).
  - rewrite Ig, Nat.eqb_refl by lia. apply palma_mul_one_l, Hx. lia.
  - rewrite Ig, Nat.eqb_refl by lia. rewrite palma_mul_one_l by (apply Hx; lia).
    apply Hx. lia.
  - intros k Hk Hne. rewrite Ig by lia.
    destruct (Nat.eqb_spec i k); [congruence|].
    apply palma_mul_zero_l, Hx. lia.
Qed.

(** X14: the identity matrix.  [palma_matrix_create_identity] returns, for
    every positive dimension, the n-by-n matrix with e on the diagonal and ε
    elsewhere, and [palma_matvec] with it fixes every vector over the
    scalars of the semiring: I ⊗ x = x.  For dimension 0 it returns NULL.
    (In (min,+) the scalars exclude -∞, which ε does not absorb.) *)
Theorem palma_matvec_identity (n : nat) (s : palma_semiring_t) :
  (n = 0%nat -> palma_matrix_create_identity n s = None) /\
  ((0 < n)%nat ->
   exists id, palma_matrix_create_identity n s = Some id /\
              m_rows id = n /\ m_cols id = n /\
              (forall i j, (i < n)%nat -> (j < n)%nat ->
                           palma_matrix_get id i j
                           = if (i =? j)%nat then palma_one s else palma_zero s) /\
              forall x, length x = n ->
                        (forall j, (j < n)%nat ->
                                   sr_scalar s (nth j x 0) /\ absorbed s (nth j x 0)) ->
                        palma_matvec id x s = x).
Proof.
  split.
  - intros ->. reflexivity.
  - intros Hn.
    destruct (palma_matrix_create_identity_spec n s Hn) as (id & E & Ir & Ic & _ & Ig).
    exists id. split; [exact E|]. split; [exact Ir|]. split; [exact Ic|].
    split; [exact Ig|].
    intros x Hlen Hx. apply (matvec_identity_fixes n id x s); assumption.
Qed.

Lemma palma_matvec_identity_witness :
  exists id, palma_matrix_create_identity 2 PALMA_MINPLUS = Some id /\
             palma_matrix_get id 1 1 = 0 /\
             palma_matrix_get id 0 1 = PALMA_POS_INF /\
             palma_matvec id [3; PALMA_POS_INF] PALMA_MINPLUS = [3; PALMA_POS_INF].
Proof.
  destruct (proj2 (palma_matvec_identity 2 PALMA_MINPLUS) ltac:(lia))
    as (id & E & _ & _ & Hg & Hx).
  exists id. split; [exact E|].
  rewrite (Hg 1%nat 1%nat), (Hg 0%nat 1%nat) by lia.
  split; [reflexivity|]. split; [reflexivity|].
  apply Hx; [reflexivity|].
  intros j Hj. assert (Hc : (j = 0 \/ j = 1)%nat) by lia.
  destruct Hc as [-> | ->]; cbn;
    (split; split; [unfold is_int32, PALMA_POS_INF, INT32_MIN, INT32_MAX; lia
                   | discriminate
                   | unfold is_int32, PALMA_POS_INF, INT32_MIN, INT32_MAX; lia
                   | intros _; discriminate]).
Defined.

(** ** Sparse reads *)

Lemma sparse_get_search_spec (sp : palma_sparse_t) (col fuel start end_ : nat) :
  (end_ - start <= fuel)%nat ->
  (forall k1 k2, (start <= k1)%nat -> (k1 < k2)%nat -> (k2 < end_)%nat ->
                 (nth k1 (sp_col_idx sp) 0 < nth k2 (sp_col_idx sp) 0)%nat) ->
  (forall k, (start <= k < end_)%nat -> nth k (sp_col_idx sp) 0%nat = col ->
             sparse_get_search sp col fuel start end_ = Some (nth k (sp_values sp) 0)) /\
  ((forall k, (start <= k < end_)%nat -> nth k (sp_col_idx sp) 0%nat <> col) ->
   sparse_get_search sp col fuel start end_ = Some (palma_zero (sp_semiring sp))).
Proof.
  revert start end_. induction fuel as [|fuel IH]; intros start end_ Hfuel Hsorted.
  - cbn [sparse_get_search]. destruct (Nat.ltb_spec start end_); [lia|].
    split; [intros k Hk; lia | reflexivity].
  - cbn [sparse_get_search]. destruct (Nat.ltb_spec start end_) as [Hlt|Hge];
      [|split; [intros k Hk; lia | reflexivity]].
    pose proof (Nat.div_lt (end_ - start) 2 ltac:(lia) ltac:(lia)) as Hdiv.
    remember ((end_ - start) / 2)%nat as half eqn:Ehalf. clear Ehalf.
    set (mid := (start + half)%nat).
    assert (Hmid : (start <= mid < end_)%nat) by (unfold mid; lia).
    destruct (Nat.eqb_spec (nth mid (sp_col_idx sp) 0%nat) col) as [Heq|Hne].
    + split.
      * intros k Hk Hc. f_equal. f_equal.
        destruct (Nat.lt_trichotomy k mid) as [Hl | [He | Hg]]; [|exact (eq_sym He)|].
        -- pose proof (Hsorted k mid ltac:(lia) Hl ltac:(lia)). lia.
        -- pose proof (Hsorted mid k ltac:(lia) Hg ltac:(lia)). lia.
      * intros Hnone. exfalso. apply (Hnone mid Hmid Heq).
    + destruct (Nat.ltb_spec (nth mid (sp_col_idx sp) 0%nat) col) as [Hless|Hmore].
      * destruct (IH (mid + 1)%nat end_ ltac:(lia)) as [IH1 IH2].
        { intros k1 k2 H1 H2 H3. apply Hsorted; lia. }
        split.
        -- intros k Hk Hc. apply IH1; [|exact Hc].
           destruct (Nat.le_gt_cases k mid) as [Hle|]; [|lia].
           destruct (Nat.eq_dec k mid) as [->|]; [lia|].
           pose proof (Hsorted k mid ltac:(lia) ltac:(lia) ltac:(lia)). lia.
        -- intros Hnone. apply IH2. intros k Hk. apply Hnone. lia.
      * destruct (IH start mid ltac:(unfold mid; lia)) as [IH1 IH2].
        { intros k1 k2 H1 H2 H3. apply Hsorted; lia. }
        split.
        -- intros k Hk Hc. apply IH1; [|exact Hc].
           destruct (Nat.le_gt_cases mid k) as [Hle|]; [|lia].
           destruct (Nat.eq_dec k mid) as [->|]; [lia|].
           pose proof (Hsorted mid k ltac:(lia) ltac:(lia) ltac:(lia)). lia.
        -- intros Hnone. apply IH2. intros k Hk. apply Hnone. lia.
Qed.

Lemma palma_sparse_get_search (sp : palma_sparse_t) (i j : nat) :
  csr_valid sp -> (i < sp_rows sp)%nat -> (j < sp_cols sp)%nat ->
  (forall k, In k (row_range sp i) -> nth k (sp_col_idx sp) 0%nat = j ->
             palma_sparse_get (Some sp) i j = nth k (sp_values sp) 0) /\
  ((forall k, In k (row_range sp i) -> nth k (sp_col_idx sp) 0%nat <> j) ->
   palma_sparse_get (Some sp) i j = palma_zero (sp_semiring sp)).
Proof.
  intros V Hi Hj. unfold palma_sparse_get.
  destruct (Nat.leb_spec (sp_rows sp) i); [lia|].
  destruct (Nat.leb_spec (sp_cols sp) j); [lia|]. cbn [orb]. cbv zeta.
  destruct (sparse_get_search_spec sp j
              (nth (i + 1) (sp_row_ptr sp) 0 - nth i (sp_row_ptr sp) 0)%nat
              (nth i (sp_row_ptr sp) 0%nat) (nth (i + 1) (sp_row_ptr sp) 0%nat)
              (Nat.le_refl _)) as [H1 H2].
  { intros k1 k2 Hk1 Hk12 Hk2. apply (csr_cols_increasing sp V i); assumption. }
  split.
  - intros k Hk Hc. apply in_row_range in Hk. rewrite (H1 k Hk Hc). reflexivity.
  - intros Hnone. rewrite H2; [reflexivity|].
    intros k Hk. apply Hnone. apply in_row_range. exact Hk.
Qed.

Lemma palma_sparse_get_entry (sp : palma_sparse_t) (i j : nat) (v : Z) :
  csr_valid sp -> (i < sp_rows sp)%nat -> (j < sp_cols sp)%nat ->
  csr_entry sp i j v -> palma_sparse_get (Some sp) i j = v.
Proof.
  intros V Hi Hj (k & Hk & Hc & Hv). rewrite <- Hv.
  apply (palma_sparse_get_search sp i j V Hi Hj); assumption.
Qed.

Lemma palma_sparse_get_no_entry (sp : palma_sparse_t) (i j : nat) :
  csr_valid sp -> (i < sp_rows sp)%nat -> (j < sp_cols sp)%nat ->
  (forall v, ~ csr_entry sp i j v) ->
  palma_sparse_get (Some sp) i j = palma_zero (sp_semiring sp).
Proof.
  intros V Hi Hj Hnone. apply (palma_sparse_get_search sp i j V Hi Hj).
  intros k Hk Hc. apply (Hnone (nth k (sp_values sp) 0)).
  exists k. auto.
Qed.

Lemma csr_entry_dec (sp : palma_sparse_t) (i j : nat) :
  (exists v, csr_entry sp i j v) \/ (forall v, ~ csr_entry sp i j v).
Proof.
  unfold csr_entry. generalize (row_range sp i). intros l.
  induction l as [|k l [(v & k' & Hk' & Hc & Hv) | Hnone]].
  - right. intros v (k & [] & _).
  - left. exists v, k'. split; [right; exact Hk' | auto].
  - destruct (Nat.eq_dec (nth k (sp_col_idx sp) 0%nat) j) as [Hc|Hne].
    + left. exists (nth k (sp_values sp) 0), k. split; [left; reflexivity | auto].
    + right. intros v (k' & [<- | Hk'] & Hc & Hv); [contradiction|].
      apply (Hnone v). exists k'. auto.
Qed.

Lemma palma_sparse_get_to_dense (sp : palma_sparse_t) :
  csr_valid sp -> (0 < sp_rows sp)%nat -> (0 < sp_cols sp)%nat ->
  exists d, palma_sparse_to_dense (Some sp) = Some d /\
            m_rows d = sp_rows sp /\ m_cols d = sp_cols sp /\
            forall i j, (i < sp_rows sp)%nat -> (j < sp_cols sp)%nat ->
                        palma_sparse_get (Some sp) i j = palma_matrix_get d i j.
Proof.
  intros V Hr Hc.
  destruct (palma_sparse_to_dense_spec sp V Hr Hc) as (d & E & Dr & Dc & Hhit & Hmiss).
  exists d. split; [exact E|]. split; [exact Dr|]. split; [exact Dc|].
  intros i j Hi Hj.
  destruct (csr_entry_dec sp i j) as [(v & He) | Hnone].
  - rewrite (palma_sparse_get_entry sp i j v V Hi Hj He).
    destruct He as (k & Hk & Hcol & Hv). rewrite <- Hcol, <- Hv. symmetry.
    apply Hhit; assumption.
  - rewrite (palma_sparse_get_no_entry sp i j V Hi Hj Hnone). symmetry.
    apply Hmiss; try assumption.
    intros k Hk Hcol. apply (Hnone (nth k (sp_values sp) 0)). exists k. auto.
Qed.

(** X15: on a valid CSR matrix the binary search of [palma_sparse_get]
    reads the matrix: inside the bounds it returns the cell of the dense
    expansion [palma_sparse_to_dense] -- the stored value where the row has
    an entry for the column, ε where it has none. *)
Theorem palma_sparse_get_reads_dense (sp : palma_sparse_t) :
  csr_valid sp -> (0 < sp_rows sp)%nat -> (0 < sp_cols sp)%nat ->
  exists d, palma_sparse_to_dense (Some sp) = Some d /\
            forall i j, (i < sp_rows sp)%nat -> (j < sp_cols sp)%nat ->
              palma_sparse_get (Some sp) i j = palma_matrix_get d i j /\
              (forall v, csr_entry sp i j v -> palma_sparse_get (Some sp) i j = v) /\
              ((forall v, ~ csr_entry sp i j v) ->
               palma_sparse_get (Some sp) i j = palma_zero (sp_semiring sp)).
Proof.
  intros V Hr Hc.
  destruct (palma_sparse_get_to_dense sp V Hr Hc) as (d & E & _ & _ & Hg).
  exists d. split; [exact E|].
  intros i j Hi Hj. split; [apply Hg; assumption|]. split.
  - intros v. apply palma_sparse_get_entry; assumption.
  - apply palma_sparse_get_no_entry; assumption.
Qed.

Lemma palma_sparse_get_reads_dense_witness :
  exists d, palma_sparse_to_dense (Some sample_csr) = Some d /\
            palma_sparse_get (Some sample_csr) 1 2 = palma_matrix_get d 1 2.
Proof.
  destruct (palma_sparse_get_reads_dense sample_csr sample_csr_valid
              ltac:(cbn; lia) ltac:(cbn; lia)) as (d & E & Hg).
  exists d. split; [exact E|].
  exact (proj1 (Hg 1%nat 2%nat ltac:(cbn; lia) ltac:(cbn; lia))).
Defined.

Lemma csr_image_compressed (dense : palma_matrix_t) (s : palma_semiring_t)
      (sp : palma_sparse_t) :
  csr_image dense (palma_zero s) s sp -> csr_compressed sp.
Proof.
  intros I k Hk.
  pose proof (csr_values_length sp (csr_image_valid dense (palma_zero s) s sp I)) as Hlen.
  assert (Hin : In (nth k (sp_values sp) 0) (sp_values sp))
    by (apply nth_In; lia).
  rewrite (img_values _ _ _ _ I) in Hin at 2.
  apply in_flat_map in Hin. destruct Hin as (i & _ & Hin).
  unfold dense_row_vals in Hin. apply in_map_iff in Hin.
  destruct Hin as (j & Hj & Hin).
  apply (dense_row_cols_In dense (palma_zero s)) in Hin.
  rewrite (img_semiring _ _ _ _ I), <- Hj. apply Hin.
Qed.

(** X16: [palma_sparse_from_dense] of a non-empty matrix, whose cells
    other than ε lie in columns below 2^32 and number fewer than 2^32 (what
    [palma_idx_t] can hold), returns a valid CSR matrix of the same
    dimensions that stores no ε, and [palma_sparse_get] reads from it every
    cell of the dense matrix. *)
Theorem palma_sparse_from_dense_reads (dense : palma_matrix_t) (s : palma_semiring_t) :
  (0 < m_rows dense)%nat -> (0 < m_cols dense)%nat ->
  dense_fits_idx dense (palma_zero s) ->
  exists sp,
    palma_sparse_from_dense (Some dense) s = Some sp /\
    csr_valid sp /\ csr_compressed sp /\
    sp_rows sp = m_rows dense /\ sp_cols sp = m_cols dense /\ sp_semiring sp = s /\
    forall i j, (i < m_rows dense)%nat -> (j < m_cols dense)%nat ->
                palma_sparse_get (Some sp) i j = palma_matrix_get dense i j.
Proof.
  intros Hr Hc Hfit.
  destruct (palma_sparse_from_dense_spec dense s Hr Hc Hfit) as (sp & E & I).
  pose proof (csr_image_valid dense (palma_zero s) s sp I) as V.
  exists sp. split; [exact E|]. split; [exact V|].
  split; [apply (csr_image_compressed dense s sp I)|].
  split; [apply (img_rows _ _ _ _ I)|]. split; [apply (img_cols _ _ _ _ I)|].
  split; [apply (img_semiring _ _ _ _ I)|].
  intros i j Hi Hj.
  destruct (to_dense_from_dense dense s Hr Hc Hfit) as (sp1 & d & E1 & Ed & _ & _ & Hd).
  rewrite E in E1. injection E1 as <-.
  destruct (palma_sparse_get_to_dense sp V)
    as (d' & Ed' & _ & _ & Hg);
    [rewrite (img_rows _ _ _ _ I); exact Hr | rewrite (img_cols _ _ _ _ I); exact Hc |].
  rewrite Ed in Ed'. injection Ed' as <-.
  rewrite Hg by (rewrite ?(img_rows _ _ _ _ I), ?(img_cols _ _ _ _ I); assumption).
  apply Hd; assumption.
Qed.

Lemma palma_sparse_from_dense_reads_witness :
  exists sp, palma_sparse_from_dense (Some two_hops) PALMA_MINPLUS = Some sp /\
             sp_nnz sp = 2%nat /\
             palma_sparse_get (Some sp) 1 0 = 1.
Proof.
  destruct (palma_sparse_from_dense_reads two_hops PALMA_MINPLUS
              ltac:(cbn; lia) ltac:(cbn; lia)
              (small_dense_fits_idx two_hops _ eq_refl ltac:(cbn; lia)))
    as (sp & E & _ & _ & _ & _ & _ & Hg).
  exists sp. split; [exact E|]. split.
  - vm_compute in E. injection E as <-. reflexivity.
  - rewrite (Hg 1%nat 0%nat) by (cbn; lia). reflexivity.
Defined.

(** ** Sparse writes *)

Lemma row_range_disjoint (sp : palma_sparse_t) (i i' k : nat) :
  csr_valid sp -> (i < sp_rows sp)%nat -> (i' < sp_rows sp)%nat ->
  In k (row_range sp i) -> In k (row_range sp i') -> i = i'.
Proof.
  intros V Hi Hi' Hk Hk'. apply in_row_range in Hk, Hk'.
  destruct (Nat.lt_trichotomy i i') as [Hlt | [He | Hgt]]; [|exact He|].
  - pose proof (csr_row_ptr_le sp (i + 1) i' V ltac:(lia) ltac:(lia)). lia.
  - pose proof (csr_row_ptr_le sp (i' + 1) i V ltac:(lia) ltac:(lia)). lia.
Qed.

(** The two ways [palma_sparse_set] ends on a valid matrix. *)
Lemma palma_sparse_set_cases (sp : palma_sparse_t) (row col : nat) (val : Z) :
  csr_valid sp -> (row < sp_rows sp)%nat -> (col < sp_cols sp)%nat ->
  Z.of_nat col < 4294967296 ->
  exists pos,
    (nth row (sp_row_ptr sp) 0 <= pos <= nth (row + 1) (sp_row_ptr sp) 0)%nat /\
    (forall k, (nth row (sp_row_ptr sp) 0 <= k < pos)%nat ->
               (nth k (sp_col_idx sp) 0 < col)%nat) /\
    (((pos < nth (row + 1) (sp_row_ptr sp) 0)%nat /\
      nth pos (sp_col_idx sp) 0%nat = col /\
      palma_sparse_set (Some sp) row col val
      = (PALMA_SUCCESS,
         Some (mkSparse (upd (sp_values sp) pos val) (sp_col_idx sp)
                        (sp_row_ptr sp) (sp_rows sp) (sp_cols sp) (sp_nnz sp)
                        (sp_capacity sp) (sp_semiring sp)))) \/
     (((pos < nth (row + 1) (sp_row_ptr sp) 0)%nat ->
       (col < nth pos (sp_col_idx sp) 0)%nat) /\
      exists cap,
        (sp_nnz sp + 1 <= cap)%nat /\
        palma_sparse_set (Some sp) row col val
        = (PALMA_SUCCESS,
           Some (mkSparse (insert_at (sp_values sp) pos val)
                          (insert_at (sp_col_idx sp) pos col)
                          (bump_row_ptr (sp_row_ptr sp) row (sp_rows sp))
                          (sp_rows sp) (sp_cols sp) (S (sp_nnz sp)) cap
                          (sp_semiring sp))))).
Proof.
  intros V Hrow Hcol Hcolfit. unfold palma_sparse_set.
  rewrite (palma_idx_small col Hcolfit).
  destruct (Nat.leb_spec (sp_rows sp) row); [lia|].
  destruct (Nat.leb_spec (sp_cols sp) col); [lia|]. cbn [orb]. cbv zeta.
  set (start := nth row (sp_row_ptr sp) 0%nat).
  set (end_ := nth (row + 1) (sp_row_ptr sp) 0%nat).
  pose proof (find_pos_spec (sp_col_idx sp) col (end_ - start) start) as Hfp.
  cbv zeta in Hfp.
  set (pos := find_pos (sp_col_idx sp) col start (end_ - start)) in *.
  destruct Hfp as (Hp1 & Hp2 & Hp3).
  pose proof (csr_row_ptr_mono sp V row Hrow) as Hse. fold start end_ in Hse.
  exists pos. split; [lia|]. split; [exact Hp2|].
  destruct (Nat.ltb_spec pos end_) as [Hlt|Hge]; cbn [andb].
  - destruct (Nat.eqb_spec (nth pos (sp_col_idx sp) 0%nat) col) as [Heq|Hne].
    + left. split; [exact Hlt|]. split; [exact Heq|]. reflexivity.
    + right. split; [intros _; specialize (Hp3 ltac:(lia)); lia|].
      pose proof (csr_capacity sp V) as [Hc0 Hc].
      unfold sparse_ensure_capacity.
      destruct (Nat.leb_spec (sp_nnz sp + 1) (sp_capacity sp)).
      * exists (sp_capacity sp). split; [lia|]. reflexivity.
      * eexists. split; [|reflexivity].
        cbn [sp_capacity]. apply grow_capacity_reaches; lia.
  - right. split; [intros Hlt; lia|].
    pose proof (csr_capacity sp V) as [Hc0 Hc].
    unfold sparse_ensure_capacity.
    destruct (Nat.leb_spec (sp_nnz sp + 1) (sp_capacity sp)).
    + exists (sp_capacity sp). split; [lia|]. reflexivity.
    + eexists. split; [|reflexivity].
      cbn [sp_capacity]. apply grow_capacity_reaches; lia.
Qed.

Lemma overwrite_entries (sp : palma_sparse_t) (row col pos : nat) (val : Z) :
  csr_valid sp -> (row < sp_rows sp)%nat ->
  In pos (row_range sp row) -> nth pos (sp_col_idx sp) 0%nat = col ->
  let sp' := mkSparse (upd (sp_values sp) pos val) (sp_col_idx sp)
                      (sp_row_ptr sp) (sp_rows sp) (sp_cols sp) (sp_nnz sp)
                      (sp_capacity sp) (sp_semiring sp) in
  csr_valid sp' /\ csr_entry sp' row col val /\
  forall i j v, (i < sp_rows sp)%nat -> i <> row \/ j <> col ->
                (csr_entry sp' i j v <-> csr_entry sp i j v).
Proof.
  intros V Hrow Hpos Hcol sp'.
  pose proof (csr_entry_bounded sp V row pos Hrow Hpos) as [Hnnz _].
  pose proof (csr_values_length sp V) as Hlen.
  split; [|split].
  - destruct V. constructor;
      cbn [sp' sp_values sp_col_idx sp_row_ptr sp_rows sp_cols sp_nnz
           sp_capacity sp_semiring]; try assumption.
    rewrite upd_length. assumption.
  - exists pos. split; [exact Hpos|]. split; [exact Hcol|].
    cbn [sp' sp_values]. rewrite nth_upd.
    destruct (Nat.eqb_spec pos pos); [|contradiction].
    destruct (Nat.ltb_spec pos (length (sp_values sp))); [reflexivity|lia].
  - intros i j v Hi Hne. unfold csr_entry.
    change (row_range sp' i) with (row_range sp i).
    cbn [sp' sp_values sp_col_idx].
    assert (Hk : forall k, In k (row_range sp i) -> nth k (sp_col_idx sp) 0%nat = j ->
                           nth k (upd (sp_values sp) pos val) 0 = nth k (sp_values sp) 0).
    { intros k Hk Hc. rewrite nth_upd.
      destruct (Nat.eqb_spec k pos) as [->|]; [|reflexivity].
      exfalso. pose proof (row_range_disjoint sp i row pos V Hi Hrow Hk Hpos).
      destruct Hne; congruence. }
    split; intros (k & Hin & Hc & Hv); exists k;
      (split; [exact Hin|]; split; [exact Hc|]);
      [rewrite <- (Hk k Hin Hc) | rewrite (Hk k Hin Hc)]; exact Hv.
Qed.

Lemma insert_entries (sp : palma_sparse_t) (row col pos cap : nat) (val : Z) :
  csr_valid sp -> (row < sp_rows sp)%nat ->
  (nth row (sp_row_ptr sp) 0 <= pos <= nth (row + 1) (sp_row_ptr sp) 0)%nat ->
  Z.of_nat (sp_nnz sp) + 1 < 4294967296 ->
  let sp' := mkSparse (insert_at (sp_values sp) pos val)
                      (insert_at (sp_col_idx sp) pos col)
                      (bump_row_ptr (sp_row_ptr sp) row (sp_rows sp))
                      (sp_rows sp) (sp_cols sp) (S (sp_nnz sp)) cap
                      (sp_semiring sp) in
  csr_entry sp' row col val /\
  forall i j v, (i < sp_rows sp)%nat ->
                (csr_entry sp i j v -> csr_entry sp' i j v) /\
                (i <> row \/ j <> col -> csr_entry sp' i j v -> csr_entry sp i j v).
Proof.
  intros V Hrow Hpos Hfit sp'.
  pose proof (csr_row_ptr_length sp V) as Hrl.
  pose proof (csr_values_length sp V) as Hvl.
  pose proof (csr_col_idx_length sp V) as Hcl.
  pose proof (csr_row_ptr_le sp (row + 1) (sp_rows sp) V ltac:(lia) ltac:(lia)) as Hend.
  rewrite (csr_row_ptr_last sp V) in Hend.
  assert (Hrange : forall i k, In k (row_range sp' i)
            <-> ((if (row <? i)%nat && (i <=? sp_rows sp)%nat
                  then S (nth i (sp_row_ptr sp) 0%nat)
                  else nth i (sp_row_ptr sp) 0%nat) <= k
                 < (if (row <? i + 1)%nat && (i + 1 <=? sp_rows sp)%nat
                    then S (nth (i + 1) (sp_row_ptr sp) 0%nat)
                    else nth (i + 1) (sp_row_ptr sp) 0%nat))%nat).
  { intros i k. rewrite in_row_range. cbn [sp' sp_row_ptr].
    rewrite !(fun j => nth_bump_row_ptr_valid sp row j V Hfit). reflexivity. }
  assert (Hci : forall k, nth k (sp_col_idx sp') 0%nat
                          = if (k <? pos)%nat then nth k (sp_col_idx sp) 0%nat
                            else if (k =? pos)%nat then col
                                 else nth (k - 1) (sp_col_idx sp) 0%nat).
  { intros k. cbn [sp' sp_col_idx]. apply nth_insert_at. lia. }
  assert (Hva : forall k, nth k (sp_values sp') 0
                          = if (k <? pos)%nat then nth k (sp_values sp) 0
                            else if (k =? pos)%nat then val
                                 else nth (k - 1) (sp_values sp) 0).
  { intros k. cbn [sp' sp_values]. apply nth_insert_at. lia. }
  assert (Hbefore : forall i, (i < row)%nat ->
                      (nth (i + 1) (sp_row_ptr sp) 0 <= nth row (sp_row_ptr sp) 0)%nat).
  { intros i Hi. apply csr_row_ptr_le; [exact V | lia | lia]. }
  assert (Hafter : forall i, (row < i)%nat -> (i < sp_rows sp)%nat ->
                     (nth (row + 1) (sp_row_ptr sp) 0 <= nth i (sp_row_ptr sp) 0)%nat).
  { intros i Hi Hi'. apply csr_row_ptr_le; [exact V | lia | lia]. }
  split.
  - exists pos. split; [|split].
    + apply Hrange. revert Hpos. nat_cases.
    + rewrite Hci. nat_cases.
    + rewrite Hva. nat_cases.
  - intros i j v Hi.
    pose proof (csr_row_ptr_mono sp V i Hi) as Hmono.
    split.
    + intros (k & Hk & Hc & Hv). apply in_row_range in Hk.
      exists (if (k <? pos)%nat then k else (k + 1)%nat).
      destruct (Nat.lt_trichotomy i row) as [Hlt | [-> | Hgt]].
      * specialize (Hbefore i Hlt).
        destruct (Nat.ltb_spec k pos); [|lia].
        split; [apply Hrange; nat_cases|].
        rewrite Hci, Hva. destruct (Nat.ltb_spec k pos); [auto|lia].
      * destruct (Nat.ltb_spec k pos).
        -- split; [apply Hrange; nat_cases|].
           rewrite Hci, Hva. destruct (Nat.ltb_spec k pos); [auto|lia].
        -- split; [apply Hrange; nat_cases|].
           rewrite Hci, Hva. destruct (Nat.ltb_spec (k + 1) pos); [lia|].
           destruct (Nat.eqb_spec (k + 1) pos); [lia|].
           replace (k + 1 - 1)%nat with k by lia. auto.
      * specialize (Hafter i Hgt Hi).
        destruct (Nat.ltb_spec k pos); [lia|].
        split; [apply Hrange; nat_cases|].
        rewrite Hci, Hva. destruct (Nat.ltb_spec (k + 1) pos); [lia|].
        destruct (Nat.eqb_spec (k + 1) pos); [lia|].
        replace (k + 1 - 1)%nat with k by lia. auto.
    + intros Hne (k & Hk & Hc & Hv). apply Hrange in Hk.
      rewrite Hci in Hc. rewrite Hva in Hv.
      destruct (Nat.lt_trichotomy i row) as [Hlt | [-> | Hgt]].
      * specialize (Hbefore i Hlt).
        destruct (Nat.ltb_spec row i); [lia|]. cbn [andb] in Hk.
        destruct (Nat.ltb_spec row (i + 1)); [lia|]. cbn [andb] in Hk.
        destruct (Nat.ltb_spec k pos); [|lia].
        exists k. split; [apply in_row_range; lia | auto].
      * destruct (Nat.ltb_spec row row); [lia|]. cbn [andb] in Hk.
        destruct (Nat.ltb_spec row (row + 1)); [|lia].
        destruct (Nat.leb_spec (row + 1) (sp_rows sp)); [|lia]. cbn [andb] in Hk.
        destruct (Nat.ltb_spec k pos).
        -- exists k. split; [apply in_row_range; lia | auto].
        -- destruct (Nat.eqb_spec k pos) as [->|].
           ++ exfalso. destruct Hne as [Hne|Hne]; [apply Hne; reflexivity|].
              apply Hne. symmetry. exact Hc.
           ++ exists (k - 1)%nat. split; [apply in_row_range; lia | auto].
      * specialize (Hafter i Hgt Hi).
        destruct (Nat.ltb_spec row i); [|lia].
        destruct (Nat.leb_spec i (sp_rows sp)); [|lia]. cbn [andb] in Hk.
        destruct (Nat.ltb_spec row (i + 1)); [|lia].
        destruct (Nat.leb_spec (i + 1) (sp_rows sp)); [|lia]. cbn [andb] in Hk.
        destruct (Nat.ltb_spec k pos); [lia|].
        destruct (Nat.eqb_spec k pos); [lia|].
        exists (k - 1)%nat. split; [apply in_row_range; lia | auto].
Qed.

Lemma palma_sparse_set_entries (sp : palma_sparse_t) (row col : nat) (val : Z) :
  csr_valid sp -> (row < sp_rows sp)%nat -> (col < sp_cols sp)%nat ->
  Z.of_nat col < 4294967296 -> Z.of_nat (sp_nnz sp) + 1 < 4294967296 ->
  exists sp',
    palma_sparse_set (Some sp) row col val = (PALMA_SUCCESS, Some sp') /\
    csr_valid sp' /\
    sp_rows sp' = sp_rows sp /\ sp_cols sp' = sp_cols sp /\
    sp_semiring sp' = sp_semiring sp /\
    csr_entry sp' row col val /\
    forall i j v, (i < sp_rows sp)%nat -> i <> row \/ j <> col ->
                  (csr_entry sp' i j v <-> csr_entry sp i j v).
Proof.
  intros V Hrow Hcol Hcolfit Hfit.
  destruct (palma_sparse_set_cases sp row col val V Hrow Hcol Hcolfit)
    as (pos & Hpos & Hlow & [(Hlt & Heq & E) | (Hhigh & cap & Hcap & E)]).
  - assert (Hin : In pos (row_range sp row)) by (apply in_row_range; lia).
    destruct (overwrite_entries sp row col pos val V Hrow Hin Heq) as (V' & He & Ho).
    eexists. split; [exact E|]. split; [exact V'|].
    do 3 (split; [reflexivity|]). split; [exact He | exact Ho].
  - destruct (insert_entries sp row col pos cap val V Hrow Hpos Hfit) as (He & Ho).
    eexists. split; [exact E|].
    split; [apply insert_keeps_csr; assumption|].
    do 3 (split; [reflexivity|]). split; [exact He|].
    intros i j v Hi Hne. split.
    + apply (Ho i j v Hi). exact Hne.
    + apply (Ho i j v Hi).
Qed.

(** ** Sparse compression *)

Lemma kept_succ (V0 : list Z) (zero : Z) (K : nat) :
  kept V0 zero (S K)
  = kept V0 zero K ++ (if negb (nth K V0 0 =? zero) then [K] else []).
Proof.
  unfold kept. rewrite seq_snoc, filter_app. cbn [filter]. reflexivity.
Qed.

Lemma kept_split (V0 : list Z) (zero : Z) (a n : nat) :
  (a <= n)%nat ->
  kept V0 zero n
  = kept V0 zero a ++ filter (fun k => negb (nth k V0 0 =? zero)) (seq a (n - a)).
Proof.
  intros Ha. unfold kept. rewrite <- filter_app. f_equal.
  replace n with (a + (n - a))%nat at 1 by lia. apply seq_app.
Qed.

Lemma kept_length_le (V0 : list Z) (zero : Z) (K : nat) :
  (length (kept V0 zero K) <= K)%nat.
Proof.
  unfold kept. pose proof (filter_length_le (fun k => negb (nth k V0 0 =? zero)) (seq 0 K)) as H.
  rewrite length_seq in H. exact H.
Qed.

Lemma kept_length_mono (V0 : list Z) (zero : Z) (a b : nat) :
  (a <= b)%nat -> (length (kept V0 zero a) <= length (kept V0 zero b))%nat.
Proof.
  intros H. rewrite (kept_split V0 zero a b H), length_app. lia.
Qed.

Lemma kept_In (V0 : list Z) (zero : Z) (n k : nat) :
  In k (kept V0 zero n) <-> (k < n)%nat /\ nth k V0 0 <> zero.
Proof.
  unfold kept. rewrite filter_In, in_seq, negb_true_iff, Z.eqb_neq. lia.
Qed.

Lemma compress_entries_spec (V0 : list Z) (C0 : list nat) (zero : Z) (len lo : nat)
      (values : list Z) (col_idx : list nat) (w : nat) :
  (lo + len <= length V0)%nat -> length V0 = length C0 ->
  compress_inv V0 C0 zero lo values col_idx w ->
  exists values' col_idx' w',
    fold_left (compress_entry zero) (seq lo len) (values, col_idx, w)
    = (values', col_idx', w') /\
    compress_inv V0 C0 zero (lo + len) values' col_idx' w'.
Proof.
  revert lo values col_idx w.
  induction len as [|len IH]; intros lo values col_idx w Hlen HVC Inv.
  - cbn [seq fold_left]. rewrite Nat.add_0_r. eauto.
  - cbn [seq fold_left]. replace (lo + S len)%nat with (S lo + len)%nat by lia.
    destruct Inv as (Lv & Lc & Hw & Hdone & Hrest).
    pose proof (kept_length_le V0 zero lo) as Hwle.
    destruct (Hrest lo (Nat.le_refl _)) as [Ev Ec].
    unfold compress_entry at 2. rewrite Ev, Ec.
    destruct (Z.eqb_spec (nth lo V0 0) zero) as [Hz|Hnz]; cbn [negb];
      (apply IH; [lia | exact HVC |]).
    + split; [exact Lv|]. split; [exact Lc|].
      rewrite kept_succ. destruct (Z.eqb_spec (nth lo V0 0) zero); [|contradiction].
      cbn [negb]. rewrite app_nil_r.
      split; [exact Hw|]. split; [exact Hdone|].
      intros k Hk. apply Hrest. lia.
    + split; [rewrite upd_length; exact Lv|]. split; [rewrite upd_length; exact Lc|].
      rewrite kept_succ. destruct (Z.eqb_spec (nth lo V0 0) zero); [contradiction|].
      cbn [negb]. split; [rewrite length_app; cbn [length]; lia|].
      split.
      * intros t Ht. rewrite !nth_upd.
        destruct (Nat.eqb_spec t w) as [->|Hne]; cbn [andb].
        -- destruct (Nat.ltb_spec w (length values)); [|lia].
           destruct (Nat.ltb_spec w (length col_idx)); [|lia].
           rewrite Hw, nth_middle. split; reflexivity.
        -- rewrite app_nth1 by lia. apply Hdone. lia.
      * intros k Hk. rewrite !nth_upd.
        destruct (Nat.eqb_spec k w); [lia|]. cbn [andb]. apply Hrest. lia.
Qed.

Lemma compress_rows_spec (sp : palma_sparse_t) (zero : Z) (len lo : nat)
      (values : list Z) (col_idx row_ptr : list nat) (w : nat) :
  csr_valid sp -> (lo + len <= sp_rows sp)%nat ->
  compress_inv (sp_values sp) (sp_col_idx sp) zero (nth lo (sp_row_ptr sp) 0%nat)
               values col_idx w ->
  length row_ptr = (sp_rows sp + 1)%nat ->
  (forall r, (lo <= r)%nat -> nth r row_ptr 0%nat = nth r (sp_row_ptr sp) 0%nat) ->
  (forall r, (r < lo)%nat ->
             nth r row_ptr 0%nat
             = length (kept (sp_values sp) zero (nth r (sp_row_ptr sp) 0%nat))) ->
  exists values' col_idx' row_ptr' w',
    fold_left (compress_row zero) (seq lo len) (values, col_idx, row_ptr, w)
    = (values', col_idx', row_ptr', w') /\
    compress_inv (sp_values sp) (sp_col_idx sp) zero
                 (nth (lo + len) (sp_row_ptr sp) 0%nat) values' col_idx' w' /\
    length row_ptr' = (sp_rows sp + 1)%nat /\
    (forall r, (lo + len <= r)%nat ->
               nth r row_ptr' 0%nat = nth r (sp_row_ptr sp) 0%nat) /\
    (forall r, (r < lo + len)%nat ->
               nth r row_ptr' 0%nat
               = length (kept (sp_values sp) zero (nth r (sp_row_ptr sp) 0%nat))).
Proof.
  intros V. revert lo values col_idx row_ptr w.
  induction len as [|len IH]; intros lo values col_idx row_ptr w Hlen Inv Lrp Hhigh Hlow.
  - cbn [seq fold_left]. rewrite Nat.add_0_r. exists values, col_idx, row_ptr, w. auto.
  - cbn [seq fold_left]. replace (lo + S len)%nat with (S lo + len)%nat by lia.
    unfold compress_row at 2.
    rewrite (Hhigh lo (Nat.le_refl _)), (Hhigh (lo + 1)%nat ltac:(lia)).
    pose proof (csr_row_ptr_mono sp V lo ltac:(lia)) as Hmono.
    pose proof (csr_row_ptr_le sp (lo + 1) (sp_rows sp) V ltac:(lia) ltac:(lia)) as Hend.
    rewrite (csr_row_ptr_last sp V) in Hend.
    destruct (compress_entries_spec (sp_values sp) (sp_col_idx sp) zero
                (nth (lo + 1) (sp_row_ptr sp) 0 - nth lo (sp_row_ptr sp) 0)%nat
                (nth lo (sp_row_ptr sp) 0%nat) values col_idx w)
      as (values1 & col_idx1 & w1 & E1 & Inv1).
    { rewrite (csr_values_length sp V). lia. }
    { rewrite (csr_values_length sp V), (csr_col_idx_length sp V). reflexivity. }
    { exact Inv. }
    rewrite E1.
    replace (nth lo (sp_row_ptr sp) 0 +
             (nth (lo + 1) (sp_row_ptr sp) 0 - nth lo (sp_row_ptr sp) 0))%nat
      with (nth (S lo) (sp_row_ptr sp) 0%nat) in Inv1
      by (replace (S lo) with (lo + 1)%nat by lia; lia).
    apply IH; [lia | exact Inv1 | rewrite upd_length; exact Lrp | |].
    + intros r Hr. rewrite nth_upd. destruct (Nat.eqb_spec r lo); [lia|].
      cbn [andb]. apply Hhigh. lia.
    + intros r Hr. rewrite nth_upd.
      destruct (Nat.eqb_spec r lo) as [->|]; cbn [andb].
      * destruct (Nat.ltb_spec lo (length row_ptr)); [|lia].
        destruct Inv as (_ & _ & Hw & _). exact Hw.
      * apply Hlow. lia.
Qed.

Lemma compress_inv_init (V0 : list Z) (C0 : list nat) (zero : Z) :
  compress_inv V0 C0 zero 0 V0 C0 0.
Proof.
  split; [reflexivity|]. split; [reflexivity|]. split; [reflexivity|].
  split; [intros t Ht; lia|]. intros k _. split; reflexivity.
Qed.

(** The outcome of the sweep on a valid matrix. *)
Lemma palma_sparse_compress_spec (sp : palma_sparse_t) :
  csr_valid sp ->
  let zero := palma_zero (sp_semiring sp) in
  let ks := kept (sp_values sp) zero (sp_nnz sp) in
  exists sp',
    palma_sparse_compress (Some sp) = (PALMA_SUCCESS, Some sp') /\
    sp_values sp' = map (fun k => nth k (sp_values sp) 0) ks /\
    sp_col_idx sp' = map (fun k => nth k (sp_col_idx sp) 0%nat) ks /\
    length (sp_row_ptr sp') = (sp_rows sp + 1)%nat /\
    (forall r, (r <= sp_rows sp)%nat ->
               nth r (sp_row_ptr sp') 0%nat
               = length (kept (sp_values sp) zero (nth r (sp_row_ptr sp) 0%nat))) /\
    sp_rows sp' = sp_rows sp /\ sp_cols sp' = sp_cols sp /\
    sp_nnz sp' = length ks /\ sp_capacity sp' = sp_capacity sp /\
    sp_semiring sp' = sp_semiring sp.
Proof.
  intros V zero ks. subst ks. unfold palma_sparse_compress. fold zero.
  set (ks := kept (sp_values sp) zero (sp_nnz sp)).
  destruct (compress_rows_spec sp zero (sp_rows sp) 0 (sp_values sp) (sp_col_idx sp)
              (sp_row_ptr sp) 0 V ltac:(lia))
    as (values & col_idx & row_ptr & w & E & Inv & Lrp & Hhigh & Hlow).
  { rewrite (csr_row_ptr_first sp V). apply compress_inv_init. }
  { apply (csr_row_ptr_length sp V). }
  { intros r _. reflexivity. }
  { intros r Hr. lia. }
  rewrite E. cbn [Nat.add] in Inv, Hhigh, Hlow.
  rewrite (csr_row_ptr_last sp V) in Inv. fold ks in Inv.
  assert (Hwks : w = length ks) by apply Inv.
  destruct Inv as (Lv & Lc & Hw & Hdone & _).
  pose proof (kept_length_le (sp_values sp) zero (sp_nnz sp)) as Hwle. fold ks in Hwle.
  pose proof (csr_values_length sp V) as Hvl.
  pose proof (csr_col_idx_length sp V) as Hcl.
  eexists. split; [reflexivity|].
  cbn [sp_values sp_col_idx sp_row_ptr sp_rows sp_cols sp_nnz sp_capacity sp_semiring].
  split; [|split; [|split; [|split]]].
  - apply (nth_ext _ _ 0 0).
    + rewrite length_firstn, length_map. lia.
    + intros t Ht. rewrite length_firstn in Ht.
      rewrite nth_firstn. destruct (Nat.ltb_spec t w); [|lia].
      rewrite (nth_map_in_range _ ks t 0%nat 0) by lia. apply Hdone. lia.
  - apply (nth_ext _ _ 0%nat 0%nat).
    + rewrite length_firstn, length_map. lia.
    + intros t Ht. rewrite length_firstn in Ht.
      rewrite nth_firstn. destruct (Nat.ltb_spec t w); [|lia].
      rewrite (nth_map_in_range _ ks t 0%nat 0%nat) by lia. apply Hdone. lia.
  - rewrite upd_length. exact Lrp.
  - intros r Hr. rewrite nth_upd.
    destruct (Nat.eqb_spec r (sp_rows sp)) as [->|]; cbn [andb].
    + destruct (Nat.ltb_spec (sp_rows sp) (length row_ptr)); [|lia].
      rewrite (csr_row_ptr_last sp V). exact Hw.
    + apply Hlow. lia.
  - repeat split. exact Hw.
Qed.

Lemma kept_nth_ge (V0 : list Z) (zero : Z) (a n t : nat) :
  (a <= n)%nat -> (length (kept V0 zero a) <= t)%nat ->
  (t < length (kept V0 zero n))%nat ->
  (a <= nth t (kept V0 zero n) 0)%nat.
Proof.
  intros Ha Ht Htn. rewrite (kept_split V0 zero a n Ha) in Htn |- *.
  rewrite length_app in Htn. rewrite app_nth2 by lia.
  set (l := filter _ (seq a (n - a))) in *.
  assert (Hin : In (nth (t - length (kept V0 zero a)) l 0%nat) l)
    by (apply nth_In; lia).
  unfold l in Hin at 2. apply filter_In in Hin. destruct Hin as [Hin _].
  apply in_seq in Hin. lia.
Qed.

Lemma kept_nth_lt (V0 : list Z) (zero : Z) (b n t : nat) :
  (b <= n)%nat -> (t < length (kept V0 zero b))%nat ->
  (nth t (kept V0 zero n) 0 < b)%nat.
Proof.
  intros Hb Ht. rewrite (kept_split V0 zero b n Hb), app_nth1 by exact Ht.
  assert (Hin : In (nth t (kept V0 zero b) 0%nat) (kept V0 zero b))
    by (apply nth_In; exact Ht).
  apply kept_In in Hin. lia.
Qed.

Lemma kept_nth_nz (V0 : list Z) (zero : Z) (n t : nat) :
  (t < length (kept V0 zero n))%nat ->
  (nth t (kept V0 zero n) 0 < n)%nat /\
  nth (nth t (kept V0 zero n) 0%nat) V0 0 <> zero.
Proof.
  intros Ht.
  assert (Hin : In (nth t (kept V0 zero n) 0%nat) (kept V0 zero n))
    by (apply nth_In; exact Ht).
  apply kept_In in Hin. exact Hin.
Qed.

Lemma kept_index (V0 : list Z) (zero : Z) (n k : nat) :
  (k < n)%nat -> nth k V0 0 <> zero ->
  length (kept V0 zero (S k)) = S (length (kept V0 zero k)) /\
  nth (length (kept V0 zero k)) (kept V0 zero n) 0%nat = k.
Proof.
  intros Hk Hnz.
  assert (Hs : kept V0 zero (S k) = kept V0 zero k ++ [k]).
  { rewrite kept_succ. destruct (Z.eqb_spec (nth k V0 0) zero); [contradiction|].
    reflexivity. }
  split.
  - rewrite Hs, length_app. cbn [length]. lia.
  - rewrite (kept_split V0 zero (S k) n ltac:(lia)), Hs, <- app_assoc.
    cbn [app]. apply nth_middle.
Qed.

Lemma kept_all (V0 : list Z) (zero : Z) (n : nat) :
  (forall k, (k < n)%nat -> nth k V0 0 <> zero) -> kept V0 zero n = seq 0 n.
Proof.
  intros H. unfold kept. apply forallb_filter_id. apply forallb_forall.
  intros k Hk%in_seq. apply negb_true_iff, Z.eqb_neq, H. lia.
Qed.

Lemma csr_entry_unique (sp : palma_sparse_t) (i j : nat) (v v' : Z) :
  csr_valid sp -> (i < sp_rows sp)%nat ->
  csr_entry sp i j v -> csr_entry sp i j v' -> v = v'.
Proof.
  intros V Hi (k & Hk & Hc & Hv) (k' & Hk' & Hc' & Hv').
  apply in_row_range in Hk, Hk'.
  destruct (Nat.lt_trichotomy k k') as [Hlt | [-> | Hgt]]; [|congruence|].
  - pose proof (csr_cols_increasing sp V i k k' Hi ltac:(lia) Hlt ltac:(lia)). lia.
  - pose proof (csr_cols_increasing sp V i k' k Hi ltac:(lia) Hgt ltac:(lia)). lia.
Qed.

Section Compress.

Variable sp sp' : palma_sparse_t.
Hypothesis V : csr_valid sp.
Hypothesis Hvals :
  sp_values sp'
  = map (fun k => nth k (sp_values sp) 0)
        (kept (sp_values sp) (palma_zero (sp_semiring sp)) (sp_nnz sp)).
Hypothesis Hcols :
  sp_col_idx sp'
  = map (fun k => nth k (sp_col_idx sp) 0%nat)
        (kept (sp_values sp) (palma_zero (sp_semiring sp)) (sp_nnz sp)).
Hypothesis Hrpl : length (sp_row_ptr sp') = (sp_rows sp + 1)%nat.
Hypothesis Hrp :
  forall r, (r <= sp_rows sp)%nat ->
            nth r (sp_row_ptr sp') 0%nat
            = length (kept (sp_values sp) (palma_zero (sp_semiring sp))
                           (nth r (sp_row_ptr sp) 0%nat)).
Hypothesis Hrows : sp_rows sp' = sp_rows sp.
Hypothesis Hcls : sp_cols sp' = sp_cols sp.
Hypothesis Hnnz :
  sp_nnz sp' = length (kept (sp_values sp) (palma_zero (sp_semiring sp)) (sp_nnz sp)).
Hypothesis Hcap : sp_capacity sp' = sp_capacity sp.
Hypothesis Hsr : sp_semiring sp' = sp_semiring sp.

Lemma compress_nth (t : nat) :
  (t < sp_nnz sp')%nat ->
  nth t (sp_values sp') 0
  = nth (nth t (kept (sp_values sp) (palma_zero (sp_semiring sp)) (sp_nnz sp)) 0%nat)
        (sp_values sp) 0 /\
  nth t (sp_col_idx sp') 0%nat
  = nth (nth t (kept (sp_values sp) (palma_zero (sp_semiring sp)) (sp_nnz sp)) 0%nat)
        (sp_col_idx sp) 0%nat.
Proof.
  intros Ht. rewrite Hnnz in Ht. rewrite Hvals, Hcols. split.
  - apply (nth_map_in_range (fun k => nth k (sp_values sp) 0)). exact Ht.
  - apply (nth_map_in_range (fun k => nth k (sp_col_idx sp) 0%nat)). exact Ht.
Qed.

Lemma compress_row_bounds (r : nat) :
  (r < sp_rows sp)%nat ->
  (nth r (sp_row_ptr sp') 0 <= nth (r + 1) (sp_row_ptr sp') 0)%nat /\
  (nth (r + 1) (sp_row_ptr sp') 0 <= sp_nnz sp')%nat.
Proof.
  intros Hr. rewrite !Hrp, Hnnz by lia.
  pose proof (csr_row_ptr_mono sp V r Hr).
  pose proof (csr_row_ptr_le sp (r + 1) (sp_rows sp) V ltac:(lia) ltac:(lia)) as Hend.
  rewrite (csr_row_ptr_last sp V) in Hend.
  split; apply kept_length_mono; assumption.
Qed.

(** An entry of the compressed matrix sits at a retained position of the
    same row of the original. *)
Lemma compress_position (r t : nat) :
  (r < sp_rows sp)%nat ->
  (nth r (sp_row_ptr sp') 0 <= t < nth (r + 1) (sp_row_ptr sp') 0)%nat ->
  let k := nth t (kept (sp_values sp) (palma_zero (sp_semiring sp)) (sp_nnz sp)) 0%nat in
  (nth r (sp_row_ptr sp) 0 <= k < nth (r + 1) (sp_row_ptr sp) 0)%nat /\
  nth k (sp_values sp) 0 <> palma_zero (sp_semiring sp) /\
  nth t (sp_values sp') 0 = nth k (sp_values sp) 0 /\
  nth t (sp_col_idx sp') 0%nat = nth k (sp_col_idx sp) 0%nat.
Proof.
  intros Hr Ht k.
  destruct (compress_row_bounds r Hr) as [_ Hend'].
  pose proof (csr_row_ptr_mono sp V r Hr) as Hmono.
  pose proof (csr_row_ptr_le sp (r + 1) (sp_rows sp) V ltac:(lia) ltac:(lia)) as Hend.
  rewrite (csr_row_ptr_last sp V) in Hend.
  rewrite !Hrp in Ht by lia.
  assert (Htn : (t < sp_nnz sp')%nat) by (rewrite !Hrp in Hend' by lia; lia).
  destruct (compress_nth t Htn) as [Ev Ec]. rewrite Hnnz in Htn.
  split; [split|].
  - apply kept_nth_ge; [lia | lia | exact Htn].
  - apply kept_nth_lt; lia.
  - split; [apply kept_nth_nz; exact Htn|]. split; [exact Ev | exact Ec].
Qed.

Lemma compress_valid : csr_valid sp'.
Proof.
  constructor.
  - rewrite Hrows. exact Hrpl.
  - rewrite Hvals, length_map, Hnnz. reflexivity.
  - rewrite Hcols, length_map, Hnnz. reflexivity.
  - rewrite Hcap, Hnnz.
    pose proof (csr_capacity sp V).
    pose proof (kept_length_le (sp_values sp) (palma_zero (sp_semiring sp)) (sp_nnz sp)).
    lia.
  - rewrite Hrp by lia. rewrite (csr_row_ptr_first sp V). reflexivity.
  - rewrite Hrows, Hrp, Hnnz by lia. rewrite (csr_row_ptr_last sp V). reflexivity.
  - intros r Hr. rewrite Hrows in Hr. apply compress_row_bounds, Hr.
  - intros r t Hr Hlo Hhi. rewrite Hrows in Hr.
    destruct (compress_position r t Hr ltac:(lia)) as (Hk & _ & _ & Ec).
    destruct (compress_position r (t + 1) Hr ltac:(lia)) as (Hk' & _ & _ & Ec').
    cbv zeta in *. rewrite Ec, Ec'.
    apply (csr_cols_increasing sp V r); try lia.
    apply filter_seq_increasing.
    destruct (compress_row_bounds r Hr) as [_ Hend']. rewrite Hnnz in Hend'.
    unfold kept in Hend'. lia.
  - intros t Ht. destruct (compress_nth t Ht) as [_ Ec]. rewrite Ec, Hcls.
    apply (csr_cols_bounded sp V). rewrite Hnnz in Ht.
    apply (kept_nth_nz (sp_values sp) (palma_zero (sp_semiring sp))), Ht.
Qed.

Lemma compress_compressed : csr_compressed sp'.
Proof.
  intros t Ht. destruct (compress_nth t Ht) as [Ev _]. rewrite Ev, Hsr.
  rewrite Hnnz in Ht.
  apply (kept_nth_nz (sp_values sp) (palma_zero (sp_semiring sp))), Ht.
Qed.

Lemma compress_entries (i j : nat) (v : Z) :
  (i < sp_rows sp)%nat ->
  (csr_entry sp' i j v
   <-> csr_entry sp i j v /\ v <> palma_zero (sp_semiring sp)).
Proof.
  intros Hi. split.
  - intros (t & Ht & Hc & Hv). apply in_row_range in Ht.
    destruct (compress_position i t Hi Ht) as (Hk & Hnz & Ev & Ec). cbv zeta in *.
    split.
    + eexists. split; [apply in_row_range; exact Hk|]. split; congruence.
    + rewrite <- Hv, Ev. exact Hnz.
  - intros [(k & Hk & Hc & Hv) Hnz]. apply in_row_range in Hk.
    pose proof (csr_row_ptr_le sp (i + 1) (sp_rows sp) V ltac:(lia) ltac:(lia)) as Hend.
    rewrite (csr_row_ptr_last sp V) in Hend.
    destruct (kept_index (sp_values sp) (palma_zero (sp_semiring sp)) (sp_nnz sp) k
                         ltac:(lia) ltac:(congruence)) as [Hlen Hidx].
    set (t := length (kept (sp_values sp) (palma_zero (sp_semiring sp)) k)) in *.
    assert (Ht : (nth i (sp_row_ptr sp') 0 <= t < nth (i + 1) (sp_row_ptr sp') 0)%nat).
    { rewrite !Hrp by lia. split.
      - apply kept_length_mono. lia.
      - pose proof (kept_length_mono (sp_values sp) (palma_zero (sp_semiring sp))
                                     (S k) (nth (i + 1) (sp_row_ptr sp) 0%nat)
                                     ltac:(lia)). lia. }
    destruct (compress_position i t Hi Ht) as (_ & _ & Ev & Ec). cbv zeta in *.
    rewrite Hidx in Ev, Ec.
    exists t. split; [apply in_row_range; exact Ht|]. split; congruence.
Qed.

Lemma compress_reads (i j : nat) :
  (i < sp_rows sp)%nat -> (j < sp_cols sp)%nat ->
  palma_sparse_get (Some sp') i j = palma_sparse_get (Some sp) i j.
Proof.
  intros Hi Hj.
  destruct (csr_entry_dec sp i j) as [(v & Hv) | Hnone].
  - rewrite (palma_sparse_get_entry sp i j v V Hi Hj Hv).
    destruct (Z.eq_dec v (palma_zero (sp_semiring sp))) as [Hz|Hnz].
    + rewrite Hz, <- Hsr.
      apply palma_sparse_get_no_entry; [apply compress_valid | lia | lia |].
      intros v' Hv'. apply compress_entries in Hv'; [|exact Hi].
      destruct Hv' as [Hv' Hnz'].
      apply Hnz'. rewrite <- Hz. apply (csr_entry_unique sp i j v' v V Hi Hv' Hv).
    + apply palma_sparse_get_entry; [apply compress_valid | lia | lia |].
      apply compress_entries; [exact Hi|]. split; assumption.
  - rewrite (palma_sparse_get_no_entry sp i j V Hi Hj Hnone), <- Hsr.
    apply palma_sparse_get_no_entry; [apply compress_valid | lia | lia |].
    intros v Hv. apply compress_entries in Hv; [|exact Hi].
    apply (Hnone v), Hv.
Qed.

Lemma compress_of_compressed : csr_compressed sp -> csr_same sp' sp.
Proof.
  intros Hc.
  assert (Hall : forall n, (n <= sp_nnz sp)%nat ->
                   kept (sp_values sp) (palma_zero (sp_semiring sp)) n = seq 0 n).
  { intros n Hn. apply kept_all. intros k Hk. apply Hc. lia. }
  unfold csr_same.
  split; [|split; [|split; [|split; [|split; [|split]]]]].
  - rewrite Hvals, Hall by lia. rewrite <- (csr_values_length sp V). apply map_nth_seq.
  - rewrite Hcols, Hall by lia. rewrite <- (csr_col_idx_length sp V). apply map_nth_seq.
  - apply (nth_ext _ _ 0%nat 0%nat); [rewrite Hrpl, (csr_row_ptr_length sp V); reflexivity|].
    intros r Hr. rewrite Hrpl in Hr. rewrite Hrp by lia.
    pose proof (csr_row_ptr_le sp r (sp_rows sp) V ltac:(lia) ltac:(lia)) as Hend.
    rewrite (csr_row_ptr_last sp V) in Hend.
    rewrite Hall by lia. apply length_seq.
  - exact Hrows.
  - exact Hcls.
  - rewrite Hnnz, Hall by lia. apply length_seq.
  - exact Hsr.
Qed.

End Compress.

(** X17: [palma_sparse_compress] on a valid CSR matrix succeeds and leaves
    a valid matrix of the same dimensions that stores no ε, with no more
    entries than before; [palma_sparse_get] returns at every cell inside the
    bounds what it returned before; and a matrix that stored no ε comes out
    with the same content. *)
Theorem palma_sparse_compress_keeps_reads (sp : palma_sparse_t) :
  csr_valid sp ->
  exists sp',
    palma_sparse_compress (Some sp) = (PALMA_SUCCESS, Some sp') /\
    csr_valid sp' /\ csr_compressed sp' /\
    sp_rows sp' = sp_rows sp /\ sp_cols sp' = sp_cols sp /\
    (sp_nnz sp' <= sp_nnz sp)%nat /\
    (forall i j, (i < sp_rows sp)%nat -> (j < sp_cols sp)%nat ->
                 palma_sparse_get (Some sp') i j = palma_sparse_get (Some sp) i j) /\
    (csr_compressed sp -> csr_same sp' sp).
Proof.
  intros V.
  destruct (palma_sparse_compress_spec sp V)
    as (sp' & E & Hv & Hc & Hrl & Hrp & Hr & Hcl & Hn & Hcap & Hs).
  exists sp'. split; [exact E|].
  split; [apply (compress_valid sp sp'); assumption|].
  split; [apply (compress_compressed sp sp'); assumption|].
  split; [exact Hr|]. split; [exact Hcl|].
  split; [rewrite Hn; apply kept_length_le|].
  split.
  - intros i j. apply (compress_reads sp sp'); assumption.
  - apply (compress_of_compressed sp sp'); assumption.
Qed.

Lemma padded_csr_valid : csr_valid padded_csr.
Proof.
  constructor; cbn; try reflexivity; try lia.
  - intros [|[|r]] Hr; cbn; lia.
  - intros [|[|r]] [|[|[|k]]] Hr; cbn; lia.
  - intros [|[|[|k]]] Hk; cbn; lia.
Qed.

Lemma palma_sparse_compress_keeps_reads_witness :
  exists sp',
    palma_sparse_compress (Some padded_csr) = (PALMA_SUCCESS, Some sp') /\
    sp_nnz sp' = 2%nat /\
    palma_sparse_get (Some sp') 0 2 = 4 /\
    palma_sparse_get (Some sp') 0 0 = PALMA_NEG_INF.
Proof.
  destruct (palma_sparse_compress_keeps_reads padded_csr padded_csr_valid)
    as (sp' & E & _ & _ & _ & _ & _ & Hg & _).
  exists sp'. split; [exact E|]. split.
  - vm_compute in E. injection E as <-. reflexivity.
  - rewrite !Hg by (cbn; lia). split; reflexivity.
Defined.

(** ** Sparse product, row counts and copy *)

Lemma fold_left_map {A B C : Type} (f : A -> C -> A) (g : B -> C) (l : list B) (a : A) :
  fold_left f (map g l) a = fold_left (fun a x => f a (g x)) l a.
Proof. revert a. induction l as [|x l IH]; intros a; [reflexivity | apply IH]. Qed.

(** A dense row sum equals the sum over the entries of the row, when the
    cells without an entry are ε. *)
Lemma row_sum_merge (s : palma_semiring_t) (x D : nat -> Z) (len : nat) :
  forall (lo : nat) (es : list (nat * Z)) (sum : Z),
    StronglySorted lt (map fst es) ->
    (forall e, In e es -> (lo <= fst e < lo + len)%nat /\
                          D (fst e) = snd e /\ is_int32 (snd e)) ->
    (forall j, (lo <= j < lo + len)%nat -> ~ In j (map fst es) ->
               D j = palma_zero s) ->
    (forall j, (lo <= j < lo + len)%nat -> absorbed s (x j)) ->
    sr_scalar s sum ->
    fold_left (fun sum j => palma_add sum (palma_mul (D j) (x j) s) s) (seq lo len) sum
    = fold_left (fun sum e => palma_add sum (palma_mul (snd e) (x (fst e)) s) s) es sum.
Proof.
  induction len as [|len IH]; intros lo es sum Hs He Hz Hx Hsum.
  - destruct es as [|e es]; [reflexivity|].
    destruct (He e (or_introl eq_refl)) as [H _]. lia.
  - cbn [seq fold_left].
    assert (Hstep : forall es', (forall e, In e es' -> In e es) ->
              StronglySorted lt (map fst es') ->
              (forall e, In e es' -> (S lo <= fst e)%nat) ->
              (forall j, (S lo <= j < S lo + len)%nat -> ~ In j (map fst es') ->
                         D j = palma_zero s) ->
              forall sum', sr_scalar s sum' ->
              fold_left (fun sum j => palma_add sum (palma_mul (D j) (x j) s) s)
                        (seq (S lo) len) sum'
              = fold_left (fun sum e => palma_add sum (palma_mul (snd e) (x (fst e)) s) s)
                          es' sum').
    { intros es' Hsub Hs' Hlow Hz' sum' Hsum'. apply IH; try assumption.
      - intros e Hin. destruct (He e (Hsub e Hin)) as (H1 & H2 & H3).
        specialize (Hlow e Hin). split; [lia|]. split; assumption.
      - intros j Hj. apply Hx. lia. }
    destruct es as [|[c v] es].
    + rewrite (Hz lo ltac:(lia)) by (intros []).
      rewrite palma_mul_zero_l by (apply Hx; lia).
      rewrite palma_add_zero_r by exact Hsum.
      apply Hstep; try assumption.
      * intros e [].
      * intros e [].
      * intros j Hj _. apply Hz; [lia | intros []].
    + cbn [map fst] in Hs. apply StronglySorted_inv in Hs. destruct Hs as [Hs Hall].
      rewrite Forall_forall in Hall.
      destruct (He (c, v) (or_introl eq_refl)) as (Hc & Hd & Hv). cbn [fst snd] in *.
      destruct (Nat.eq_dec c lo) as [->|Hne].
      * cbn [fold_left fst snd]. rewrite Hd.
        apply Hstep.
        -- intros e Hin. right. exact Hin.
        -- exact Hs.
        -- intros e Hin. specialize (Hall (fst e) (in_map fst es e Hin)). lia.
        -- intros j Hj Hnin. apply Hz; [lia|]. cbn [map fst].
           intros [Heq|Hin]; [lia | contradiction].
        -- apply palma_add_scalar; [apply Hsum|].
           apply palma_mul_scalar; [exact Hv | apply Hx; lia].
      * assert (Hnin : ~ In lo (map fst ((c, v) :: es))).
        { cbn [map fst]. intros [Heq|Hin]; [lia|]. specialize (Hall lo Hin). lia. }
        rewrite (Hz lo ltac:(lia) Hnin).
        rewrite palma_mul_zero_l by (apply Hx; lia).
        rewrite palma_add_zero_r by exact Hsum.
        apply Hstep; try assumption.
        -- intros e Hin. exact Hin.
        -- cbn [map fst]. constructor; [exact Hs|]. apply Forall_forall. exact Hall.
        -- intros e [<-|Hin]; cbn [fst]; [lia|].
           specialize (Hall (fst e) (in_map fst es e Hin)). lia.
        -- intros j Hj Hn. apply Hz; [lia | exact Hn].
Qed.

(** X18: the sparse product agrees with the dense one.  For a valid CSR
    matrix with 32-bit values and a vector, of as many entries as the matrix
    has columns, of scalars that ε absorbs,
    [palma_sparse_matvec] returns the vector that [palma_matvec] returns on
    the dense expansion of the matrix.  (In (min,+) a vector entry -∞ is
    excluded: the dense product multiplies it with the ε cells, which it
    escapes.) *)
Theorem palma_sparse_matvec_dense (sp : palma_sparse_t) (x : list Z) :
  csr_valid sp -> (0 < sp_rows sp)%nat -> (0 < sp_cols sp)%nat ->
  length x = sp_cols sp ->
  (forall k, (k < sp_nnz sp)%nat -> is_int32 (nth k (sp_values sp) 0)) ->
  (forall j, (j < sp_cols sp)%nat -> absorbed (sp_semiring sp) (nth j x 0)) ->
  exists d, palma_sparse_to_dense (Some sp) = Some d /\
            palma_sparse_matvec (Some sp) x
            = (PALMA_SUCCESS, palma_matvec d x (sp_semiring sp)).
Proof.
  intros V Hr Hc _ Hvals Hx.
  destruct (palma_sparse_to_dense_spec sp V Hr Hc) as (d & E & Dr & Dc & Hhit & Hmiss).
  exists d. split; [exact E|].
  unfold palma_sparse_matvec, palma_matvec. f_equal. rewrite Dr, Dc.
  apply map_ext_in. intros i Hi%in_seq. cbv zeta. symmetry.
  set (s := sp_semiring sp).
  fold (row_range sp i).
  rewrite (row_sum_merge s (fun j => nth j x 0) (palma_matrix_get d i) (sp_cols sp) 0
             (map (fun k => (nth k (sp_col_idx sp) 0%nat, nth k (sp_values sp) 0))
                  (row_range sp i))
             (palma_zero s)).
  - rewrite fold_left_map. reflexivity.
  - rewrite map_map. cbn [fst]. unfold row_range. apply map_seq_sorted.
    intros k1 k2 H1 H2 H3.
    apply (csr_cols_increasing sp V i); lia.
  - intros e Hin. apply in_map_iff in Hin. destruct Hin as (k & <- & Hk).
    cbn [fst snd].
    destruct (csr_entry_bounded sp V i k ltac:(lia) Hk) as [Hkn Hkc].
    split; [lia|]. split; [apply Hhit; [lia | exact Hk] | apply Hvals, Hkn].
  - intros j Hj Hnin. apply Hmiss; try lia.
    intros k Hk Hcol. apply Hnin. rewrite map_map. cbn [fst].
    apply in_map_iff. exists k. auto.
  - intros j Hj. apply Hx. lia.
  - apply sr_scalar_zero.
Qed.

Lemma palma_sparse_matvec_dense_witness :
  exists d, palma_sparse_to_dense (Some sample_csr) = Some d /\
            palma_sparse_matvec (Some sample_csr) [1; 2; 3]
            = (PALMA_SUCCESS, palma_matvec d [1; 2; 3] PALMA_MAXPLUS).
Proof.
  apply (palma_sparse_matvec_dense sample_csr [1; 2; 3] sample_csr_valid);
    try (cbn; lia); try reflexivity.
  - intros [|[|[|[|k]]]] Hk; cbn in *;
      unfold is_int32, INT32_MIN, INT32_MAX; lia.
  - intros [|[|[|j]]] Hj; cbn in *; try lia;
      (split; [unfold is_int32, INT32_MIN, INT32_MAX; lia | discriminate]).
Defined.

(** X19: the row counts of a valid CSR matrix are the lengths of its rows
    and add up to the number of stored entries; a row outside the matrix,
    like a NULL matrix, counts 0. *)
Theorem palma_sparse_row_nnz_sum (sp : palma_sparse_t) :
  csr_valid sp ->
  list_sum (map (palma_sparse_row_nnz (Some sp)) (seq 0 (sp_rows sp))) = sp_nnz sp /\
  (forall r, (r < sp_rows sp)%nat ->
             palma_sparse_row_nnz (Some sp) r = length (row_range sp r)) /\
  (forall r, (sp_rows sp <= r)%nat -> palma_sparse_row_nnz (Some sp) r = 0%nat) /\
  (forall r, palma_sparse_row_nnz None r = 0%nat).
Proof.
  intros V.
  assert (Hrow : forall r, (r < sp_rows sp)%nat ->
                   palma_sparse_row_nnz (Some sp) r = length (row_range sp r)).
  { intros r Hr. unfold palma_sparse_row_nnz, row_range.
    destruct (Nat.leb_spec (sp_rows sp) r); [lia|]. rewrite length_seq. reflexivity. }
  split; [|split; [exact Hrow|split]].
  - rewrite (map_ext_in _ (fun r => length (row_range sp r)))
      by (intros r Hr%in_seq; apply Hrow; lia).
    rewrite <- length_flat_map, (row_ranges_prefix sp (sp_rows sp) V (Nat.le_refl _)).
    rewrite length_seq. apply (csr_row_ptr_last sp V).
  - intros r Hr. unfold palma_sparse_row_nnz.
    destruct (Nat.leb_spec (sp_rows sp) r); [reflexivity|lia].
  - reflexivity.
Qed.

Lemma palma_sparse_row_nnz_sum_witness :
  list_sum (map (palma_sparse_row_nnz (Some sample_csr)) (seq 0 3)) = 4%nat.
Proof.
  exact (proj1 (palma_sparse_row_nnz_sum sample_csr sample_csr_valid)).
Defined.

(** X20: [palma_sparse_clone] of a valid non-empty CSR matrix returns a
    valid matrix with the same content; its capacity is the number of
    entries (16 for a matrix without entries).  A NULL source gives NULL
    with the null-pointer error. *)
Theorem palma_sparse_clone_same (sp : palma_sparse_t) :
  csr_valid sp -> (0 < sp_rows sp)%nat -> (0 < sp_cols sp)%nat ->
  palma_sparse_clone None = Null PALMA_ERR_NULL_PTR /\
  exists sp',
    palma_sparse_clone (Some sp) = Handle sp' /\
    csr_same sp' sp /\ csr_valid sp' /\
    sp_capacity sp' = (if (0 <? sp_nnz sp)%nat then sp_nnz sp else 16%nat).
Proof.
  intros V Hr Hc. split; [reflexivity|].
  unfold palma_sparse_clone, palma_sparse_create.
  destruct (Nat.eqb_spec (sp_rows sp) 0); [lia|].
  destruct (Nat.eqb_spec (sp_cols sp) 0); [lia|]. cbn [orb].
  cbn [sp_values sp_col_idx sp_row_ptr sp_rows sp_cols sp_nnz sp_capacity sp_semiring].
  assert (Hv : firstn (sp_nnz sp) (sp_values sp) = sp_values sp).
  { rewrite <- (csr_values_length sp V). apply firstn_all. }
  assert (Hci : firstn (sp_nnz sp) (sp_col_idx sp) = sp_col_idx sp).
  { rewrite <- (csr_col_idx_length sp V). apply firstn_all. }
  assert (Hrp : fold_left (fun rp r => upd rp r (nth r (sp_row_ptr sp) 0%nat))
                          (seq 0 (sp_rows sp + 1)) (repeat 0%nat (sp_rows sp + 1))
                = sp_row_ptr sp).
  { rewrite <- (csr_row_ptr_length sp V) at 1. apply memcpy_full.
    rewrite repeat_length. symmetry. apply (csr_row_ptr_length sp V). }
  rewrite Hv, Hci, Hrp.
  eexists. split; [reflexivity|].
  split; [repeat split|]. split; [|reflexivity].
  destruct V. constructor;
    cbn [sp_values sp_col_idx sp_row_ptr sp_rows sp_cols sp_nnz sp_capacity sp_semiring];
    try assumption.
  destruct (Nat.ltb_spec 0 (sp_nnz sp)); lia.
Qed.

Lemma palma_sparse_clone_same_witness :
  exists sp', palma_sparse_clone (Some sample_csr) = Handle sp' /\
              csr_same sp' sample_csr.
Proof.
  destruct (proj2 (palma_sparse_clone_same sample_csr sample_csr_valid
                     ltac:(cbn; lia) ltac:(cbn; lia))) as (sp' & E & Hs & _).
  exists sp'. split; [exact E | exact Hs].
Defined.

(** ** Scheduler *)

Lemma fold_left_length {A X : Type} (f : list A -> X -> list A) (l : list X) :
  (forall st x, length (f st x) = length st) ->
  forall st, length (fold_left f l st) = length st.
Proof.
  intros Hf. induction l as [|x l IH]; intros st; [reflexivity|].
  cbn [fold_left]. rewrite IH. apply Hf.
Qed.

Lemma solve_pass_length (sc : palma_scheduler_t) (prev : list Z) :
  length (solve_pass sc prev) = length prev.
Proof.
  unfold solve_pass. cbv zeta. apply fold_left_length.
  intros st i. rewrite !upd_length. reflexivity.
Qed.

Lemma additive_scalar (s : palma_semiring_t) (a : Z) :
  additive_tropical s = true -> is_int32 a -> sr_scalar s a.
Proof. intros Hs Ha. split; [exact Ha|]. intros ->. discriminate Hs. Qed.

Lemma additive_mul_int32 (s : palma_semiring_t) (a b : Z) :
  additive_tropical s = true -> is_int32 (palma_mul a b s).
Proof.
  intros Hs. destruct s; try discriminate Hs; cbn [palma_mul]; cbv zeta;
    unfold is_int32, PALMA_NEG_INF, PALMA_POS_INF, INT32_MIN, INT32_MAX;
    z_cases; apply wrap32_range.
Qed.

Lemma palma_add_int32 (s : palma_semiring_t) (a b : Z) :
  is_int32 a -> is_int32 b -> is_int32 (palma_add a b s).
Proof. intros Ha Hb. apply (palma_add_scalar s a b Ha Hb). Qed.

Lemma additive_matvec_int32 (A : palma_matrix_t) (x : list Z) (s : palma_semiring_t)
      (i : nat) :
  additive_tropical s = true -> is_int32 (nth i (palma_matvec A x s) 0).
Proof.
  intros Hs. destruct (Nat.lt_ge_cases i (m_rows A)) as [Hi|Hi].
  - unfold palma_matvec.
    rewrite (nth_map_in_range _ (seq 0 (m_rows A)) i 0%nat 0)
      by (rewrite length_seq; exact Hi).
    cbv zeta. generalize (seq 0 (m_cols A)). intros l.
    assert (Hz : is_int32 (palma_zero s)) by apply sr_scalar_zero.
    revert Hz. generalize (palma_zero s) as acc.
    induction l as [|j l IH]; intros acc Hacc; [exact Hacc|].
    cbn [fold_left]. apply IH. apply palma_add_int32; [exact Hacc|].
    apply additive_mul_int32, Hs.
  - rewrite nth_overflow by (rewrite palma_matvec_length; exact Hi).
    unfold is_int32, INT32_MIN, INT32_MAX. lia.
Qed.

Lemma solve_loop_spec (fuel : nat) :
  forall (sc : palma_scheduler_t) (iter : nat),
    sched_wf sc -> additive_tropical (sch_semiring sc) = true ->
    int32_vector (sch_n_tasks sc) (sch_input sc) ->
    int32_vector (sch_n_tasks sc) (sch_state sc) ->
    Z.of_nat (iter + fuel) <= INT32_MAX ->
    exists r sc',
      solve_loop sc fuel iter = Ret (r, sc') /\
      sch_system sc' = sch_system sc /\ sch_input sc' = sch_input sc /\
      sch_n_tasks sc' = sch_n_tasks sc /\ sch_semiring sc' = sch_semiring sc /\
      length (sch_state sc') = sch_n_tasks sc /\
      Z.of_nat iter <= r <= Z.of_nat (iter + fuel) /\
      (forall i, (i < sch_n_tasks sc)%nat ->
         is_int32 (nth i (sch_state sc') 0) /\
         palma_add (nth i (sch_state sc) 0) (nth i (sch_state sc') 0) (sch_semiring sc)
         = nth i (sch_state sc') 0) /\
      (r < Z.of_nat (iter + fuel) ->
       forall i, (i < sch_n_tasks sc)%nat ->
         palma_add (palma_add (nth i (palma_matvec (sch_system sc) (sch_state sc')
                                                   (sch_semiring sc)) 0)
                              (nth i (sch_input sc) 0) (sch_semiring sc))
                   (nth i (sch_state sc') 0) (sch_semiring sc)
         = nth i (sch_state sc') 0).
Proof.
  induction fuel as [|fuel IH]; intros sc iter W Hs Hin Hst Hmax;
    assert (Hiter : wrap32 (Z.of_nat iter) = Z.of_nat iter)
      by (apply wrap32_id; unfold is_int32, INT32_MIN, INT32_MAX in *; lia).
  - cbn [solve_loop]. rewrite Hiter. exists (Z.of_nat iter), sc.
    split; [reflexivity|]. do 4 (split; [reflexivity|]).
    split; [apply W|]. split; [lia|]. split; [|lia].
    intros i Hi. split; [apply Hst, Hi|].
    apply palma_add_idem, additive_scalar; [exact Hs | apply Hst, Hi].
  - cbn [solve_loop]. cbv zeta.
    set (prev := sch_state sc).
    set (sc1 := mkSched (sch_system sc) (solve_pass sc prev) (sch_input sc)
                        (sch_n_tasks sc) (sch_semiring sc)).
    destruct W as (Wd & Wr & Wc & Wst & Win).
    assert (Hentry : forall i, (i < sch_n_tasks sc)%nat ->
              nth i (solve_pass sc prev) 0
              = palma_add (palma_add (nth i (palma_matvec (sch_system sc) prev
                                                          (sch_semiring sc)) 0)
                                     (nth i (sch_input sc) 0) (sch_semiring sc))
                          (nth i prev 0) (sch_semiring sc)).
    { intros i Hi. apply solve_pass_entry; [exact Hi | exact Wst]. }
    assert (Hst1 : int32_vector (sch_n_tasks sc) (solve_pass sc prev)).
    { intros i Hi. rewrite (Hentry i Hi).
      apply palma_add_int32; [|apply Hst, Hi].
      apply palma_add_int32; [apply additive_matvec_int32, Hs | apply Hin, Hi]. }
    assert (Hmono1 : forall i, (i < sch_n_tasks sc)%nat ->
              sr_le (sch_semiring sc) (nth i prev 0) (nth i (solve_pass sc prev) 0)).
    { intros i Hi. rewrite (Hentry i Hi).
      apply sr_le_add_r, additive_scalar; [exact Hs | apply Hst, Hi]. }
    assert (Hlen1 : length (solve_pass sc prev) = sch_n_tasks sc)
      by (rewrite solve_pass_length; exact Wst).
    change (sch_state sc1) with (solve_pass sc prev).
    destruct (vec_eqb (sch_n_tasks sc) (solve_pass sc prev) prev) eqn:Econv.
    + exists (Z.of_nat iter + 1), sc1.
      split.
      { rewrite Hiter. unfold add_int32. cbv zeta.
        destruct (Z.leb_spec INT32_MIN (Z.of_nat iter + 1));
          [|unfold INT32_MIN in *; lia].
        destruct (Z.leb_spec (Z.of_nat iter + 1) INT32_MAX); [reflexivity|lia]. }
      do 4 (split; [reflexivity|]).
      cbn [sc1 sch_state].
      split; [exact Hlen1|]. split; [lia|]. split.
      * intros i Hi. split; [apply Hst1, Hi | apply Hmono1, Hi].
      * intros _ i Hi.
        assert (Heq : solve_pass sc prev = prev).
        { apply (nth_ext _ _ 0 0); [rewrite Hlen1; symmetry; exact Wst|].
          intros j Hj. rewrite Hlen1 in Hj.
          apply (proj1 (vec_eqb_true _ _ _) Econv), Hj. }
        rewrite Heq. rewrite <- (Hentry i Hi). rewrite Heq. reflexivity.
    + destruct (IH sc1 (S iter)) as (r & sc' & E & E1 & E2 & E3 & E4 & L & Hr & Hm & Hf).
      { split; [exact Wd|]. split; [exact Wr|]. split; [exact Wc|].
        split; [exact Hlen1 | exact Win]. }
      { exact Hs. }
      { exact Hin. }
      { exact Hst1. }
      { lia. }
      cbn [sc1 sch_system sch_input sch_n_tasks sch_semiring sch_state] in *.
      exists r, sc'. split; [exact E|].
      split; [exact E1|]. split; [exact E2|]. split; [exact E3|]. split; [exact E4|].
      split; [exact L|]. split; [lia|]. split.
      * intros i Hi. destruct (Hm i Hi) as [Hi32 Hle]. split; [exact Hi32|].
        apply (sr_le_trans _ _ (nth i (solve_pass sc prev) 0));
          [apply Hmono1, Hi | exact Hle].
      * intros Hlt. apply Hf. lia.
Qed.

(** X21: [palma_scheduler_solve] on a scheduler over (max,+) or (min,+)
    with 32-bit ready times and state, for an iteration bound (the number of
    tasks when [max_iter] is 0) that is at most INT_MAX, so that the
    returned [(int)] count is the count.  The call returns a count between 0
    and the bound and leaves the constraints and ready times as they are; no
    completion time moves against the order of the semiring (in (max,+)
    none decreases); and when the count is below the bound the state x is a
    fixed point of the pass: (A ⊗ x ⊕ b) ⊕ x = x, every constraint and ready
    time is met.  A count equal to the bound does not tell convergence in
    the last pass from none.  A NULL scheduler returns -1. *)
Theorem palma_scheduler_solve_fixed_point (sc : palma_scheduler_t) (max_iter : nat) :
  sched_wf sc -> additive_tropical (sch_semiring sc) = true ->
  int32_vector (sch_n_tasks sc) (sch_input sc) ->
  int32_vector (sch_n_tasks sc) (sch_state sc) ->
  Z.of_nat (if (max_iter =? 0)%nat then sch_n_tasks sc else max_iter) <= INT32_MAX ->
  palma_scheduler_solve None max_iter = Ret (-1, None) /\
  exists r sc',
    palma_scheduler_solve (Some sc) max_iter = Ret (r, Some sc') /\
    sch_system sc' = sch_system sc /\ sch_input sc' = sch_input sc /\
    sch_n_tasks sc' = sch_n_tasks sc /\
    0 <= r <= Z.of_nat (if (max_iter =? 0)%nat then sch_n_tasks sc else max_iter) /\
    (forall i, (i < sch_n_tasks sc)%nat ->
       palma_add (nth i (sch_state sc) 0) (nth i (sch_state sc') 0) (sch_semiring sc)
       = nth i (sch_state sc') 0) /\
    (r < Z.of_nat (if (max_iter =? 0)%nat then sch_n_tasks sc else max_iter) ->
     forall i, (i < sch_n_tasks sc)%nat ->
       palma_add (palma_add (nth i (palma_matvec (sch_system sc) (sch_state sc')
                                                 (sch_semiring sc)) 0)
                            (nth i (sch_input sc) 0) (sch_semiring sc))
                 (nth i (sch_state sc') 0) (sch_semiring sc)
       = nth i (sch_state sc') 0).
Proof.
  intros W Hs Hin Hst Hmax. split; [reflexivity|].
  unfold palma_scheduler_solve.
  set (fuel := if (max_iter =? 0)%nat then sch_n_tasks sc else max_iter) in *.
  destruct (solve_loop_spec fuel sc 0 W Hs Hin Hst Hmax)
    as (r & sc' & E & E1 & E2 & E3 & _ & _ & Hr & Hm & Hf).
  rewrite E. exists r, sc'. split; [reflexivity|].
  split; [exact E1|]. split; [exact E2|]. split; [exact E3|].
  cbn [Nat.add] in Hr, Hf. split; [lia|]. split.
  - intros i Hi. apply Hm, Hi.
  - exact Hf.
Qed.

Lemma palma_scheduler_solve_fixed_point_witness :
  exists r sc',
    palma_scheduler_solve (Some tiny_sched) 0 = Ret (r, Some sc') /\
    0 <= r <= 2 /\
    palma_add (nth 1 (sch_state tiny_sched) 0) (nth 1 (sch_state sc') 0) PALMA_MAXPLUS
    = nth 1 (sch_state sc') 0.
Proof.
  destruct (proj2 (palma_scheduler_solve_fixed_point tiny_sched 0
                     ltac:(repeat split; cbn; lia) eq_refl
                     ltac:(intros [|[|i]] Hi; cbn in *;
                           unfold is_int32, PALMA_NEG_INF, INT32_MIN, INT32_MAX; lia)
                     ltac:(intros [|[|i]] Hi; cbn in *;
                           unfold is_int32, PALMA_NEG_INF, INT32_MIN, INT32_MAX; lia)
                     ltac:(cbn; unfold INT32_MAX; lia)))
    as (r & sc' & E & _ & _ & _ & Hr & Hm & _).
  exists r, sc'. split; [exact E|]. split; [exact Hr|].
  apply (Hm 1%nat). cbn. lia.
Defined.

Lemma find_end_task_lt (sc : palma_scheduler_t) :
  (0 < sch_n_tasks sc)%nat -> (find_end_task sc < sch_n_tasks sc)%nat.
Proof.
  intros Hn. unfold find_end_task.
  apply (fold_left_inv _ (fun acc : Z * nat => (snd acc < sch_n_tasks sc)%nat));
    [|exact Hn].
  intros [max_time end_task] i Hi%in_seq Hacc.
  destruct (max_time <? nth i (sch_state sc) 0); cbn [snd] in *; lia.
Qed.

Lemma find_predecessor_tight (sc : palma_scheduler_t) (current pred : nat) :
  find_predecessor sc current = Some pred ->
  (pred < sch_n_tasks sc)%nat /\ tight sc pred current.
Proof.
  unfold find_predecessor. intros H. apply find_some in H.
  destruct H as [Hin%in_seq Hc]. cbv zeta in Hc.
  apply andb_true_iff in Hc. destruct Hc as [He Hm].
  apply negb_true_iff, Z.eqb_neq in He. apply Z.eqb_eq in Hm.
  split; [lia|]. split; assumption.
Qed.

Lemma last_nth_length {A : Type} (l : list A) (d : A) :
  l <> [] -> last l d = nth (length l - 1) l d.
Proof.
  induction l as [|a l IH]; intros Hne; [contradiction|].
  destruct l as [|b l]; [reflexivity|].
  change (last (a :: b :: l) d) with (last (b :: l) d).
  rewrite IH by discriminate. cbn [length].
  replace (S (S (length l)) - 1)%nat with (S (S (length l) - 1)) by lia.
  reflexivity.
Qed.

Lemma backtrack_spec (sc : palma_scheduler_t) (fuel : nat) :
  forall (current : nat) (temp_path : list nat),
    temp_path <> [] -> last temp_path 0%nat = current ->
    (forall t, (t + 1 < length temp_path)%nat ->
               tight sc (nth (t + 1) temp_path 0%nat) (nth t temp_path 0%nat)) ->
    (forall x, In x temp_path -> (x < sch_n_tasks sc)%nat) ->
    let r := backtrack sc fuel current temp_path in
    (forall t, (t + 1 < length r)%nat ->
               tight sc (nth (t + 1) r 0%nat) (nth t r 0%nat)) /\
    (forall x, In x r -> (x < sch_n_tasks sc)%nat) /\
    (length temp_path <= length r <= length temp_path + fuel)%nat.
Proof.
  induction fuel as [|fuel IH]; intros current temp Hne Hlast Hchain Hall;
    cbn [backtrack]; cbv zeta.
  - split; [exact Hchain|]. split; [exact Hall|]. lia.
  - destruct (find_predecessor sc current) as [pred|] eqn:Ep;
      [|split; [exact Hchain|]; split; [exact Hall|]; lia].
    destruct (Nat.eqb_spec pred current);
      [split; [exact Hchain|]; split; [exact Hall|]; lia|].
    apply find_predecessor_tight in Ep. destruct Ep as [Hp Ht].
    destruct (IH pred (temp ++ [pred])) as (H1 & H2 & H3).
    + intros H. apply app_eq_nil in H. destruct H as [_ H]. discriminate H.
    + apply last_last.
    + intros t Hlt. rewrite length_app in Hlt. cbn [length] in Hlt.
      destruct (Nat.eq_dec (t + 1) (length temp)) as [He|Hn].
      * rewrite He, nth_middle.
        rewrite app_nth1 by lia.
        replace (nth t temp 0%nat) with current; [exact Ht|].
        rewrite <- Hlast, (last_nth_length temp 0%nat Hne). f_equal. lia.
      * rewrite !app_nth1 by lia. apply Hchain. lia.
    + intros x Hx. apply in_app_iff in Hx. destruct Hx as [Hx|[<-|[]]];
        [apply Hall, Hx | exact Hp].
    + split; [exact H1|]. split; [exact H2|].
      rewrite length_app in H3. cbn [length] in H3. lia.
Qed.

(** X22: [palma_scheduler_critical_path].  For a well-formed scheduler
    with at least one task and a buffer of at least one slot the call returns
    a count
    between 1 and the smaller of the buffer size and the number of tasks,
    and writes that many task indices; consecutive tasks of the path are
    linked by a constraint that is tight, i.e. the time of the predecessor
    ⊗ the duration is the time of the successor.  A NULL scheduler or an
    empty buffer returns -1. *)
Theorem palma_scheduler_critical_path_tight (sc : palma_scheduler_t) (max_len : nat) :
  sched_wf sc -> (0 < sch_n_tasks sc)%nat -> (0 < max_len)%nat ->
  palma_scheduler_critical_path None max_len = (-1, []) /\
  palma_scheduler_critical_path (Some sc) 0 = (-1, []) /\
  exists count path,
    palma_scheduler_critical_path (Some sc) max_len = (Z.of_nat count, path) /\
    length path = count /\
    (1 <= count <= max_len)%nat /\ (count <= sch_n_tasks sc)%nat /\
    (forall x, In x path -> (x < sch_n_tasks sc)%nat) /\
    (forall t, (t + 1 < count)%nat ->
               tight sc (nth t path 0%nat) (nth (t + 1) path 0%nat)).
Proof.
  intros _ Hn Hm. split; [reflexivity|]. split; [reflexivity|].
  unfold palma_scheduler_critical_path.
  destruct (Nat.eqb_spec max_len 0); [lia|]. cbv zeta.
  pose proof (find_end_task_lt sc Hn) as Hend.
  destruct (backtrack_spec sc (sch_n_tasks sc - 1) (find_end_task sc)
                           [find_end_task sc]) as (Hchain & Hall & Hlen).
  { discriminate. }
  { reflexivity. }
  { intros t Ht. cbn [length] in Ht. lia. }
  { intros x [<-|[]]. exact Hend. }
  cbv zeta in Hchain, Hall, Hlen. cbn [length] in Hlen.
  set (temp := backtrack sc (sch_n_tasks sc - 1) (find_end_task sc) [find_end_task sc]) in *.
  set (out_len := if (length temp <? max_len)%nat then length temp else max_len).
  assert (Hout : (1 <= out_len <= max_len)%nat /\ (out_len <= length temp)%nat).
  { unfold out_len. destruct (Nat.ltb_spec (length temp) max_len); lia. }
  assert (Hnth : forall t, (t < out_len)%nat ->
            nth t (map (fun i => nth (length temp - 1 - i) temp 0%nat) (seq 0 out_len)) 0%nat
            = nth (length temp - 1 - t) temp 0%nat).
  { intros t Ht.
    rewrite (nth_map_in_range _ (seq 0 out_len) t 0%nat 0%nat)
      by (rewrite length_seq; exact Ht).
    rewrite seq_nth by exact Ht. reflexivity. }
  exists out_len. eexists. split; [reflexivity|].
  split; [rewrite length_map, length_seq; reflexivity|].
  split; [lia|]. split; [lia|]. split.
  - intros x Hx. apply in_map_iff in Hx. destruct Hx as (i & <- & Hi%in_seq).
    apply Hall, nth_In. lia.
  - intros t Ht. rewrite !Hnth by lia.
    replace (length temp - 1 - t)%nat with ((length temp - 1 - (t + 1)) + 1)%nat by lia.
    apply Hchain. lia.
Qed.

Lemma palma_scheduler_critical_path_tight_witness :
  exists count path,
    palma_scheduler_critical_path (Some tiny_sched_solved) 4 = (Z.of_nat count, path) /\
    path = [0; 1]%nat /\
    tight tiny_sched_solved (nth 0 path 0%nat) (nth 1 path 0%nat).
Proof.
  destruct (proj2 (proj2 (palma_scheduler_critical_path_tight tiny_sched_solved 4
                            ltac:(repeat split; cbn; lia)
                            ltac:(cbn; lia) ltac:(lia))))
    as (count & path & E & Hl & Hc & _ & _ & Ht).
  exists count, path. split; [exact E|].
  assert (E2 : palma_scheduler_critical_path (Some tiny_sched_solved) 4
               = (2, [0; 1]%nat)) by (vm_compute; reflexivity).
  rewrite E2 in E. injection E as Ec Ep.
  split; [symmetry; exact Ep|].
  apply (Ht 0%nat). lia.
Defined.

(** ** Critical nodes and graphs without cycles *)

Lemma count_marks_fold (marks : list Z) (l : list nat) (c : Z) :
  fold_left (fun c i => if truthy (nth i marks 0) then c + 1 else c) l c
  = c + Z.of_nat (length (filter (fun i => truthy (nth i marks 0)) l)).
Proof.
  revert c. induction l as [|i l IH]; intros c; [cbn; lia|].
  cbn [fold_left filter]. rewrite IH.
  destruct (truthy (nth i marks 0)); cbn [length]; lia.
Qed.

(** X23: [palma_critical_nodes] on a square matrix writes a 0/1 array
    and returns the number of its 1s, at most n.  It is sound for short
    cycles only: a node is marked only if it lies on a self-loop or on a
    cycle of two edges, and in the semirings other than (max,+) and (min,+)
    only if it has a self-loop.  A NULL matrix and a non-square one give
    -1. *)
Theorem palma_critical_nodes_short_cycles (A : palma_matrix_t) (s : palma_semiring_t) :
  palma_critical_nodes None s = (-1, None, PALMA_ERR_NULL_PTR) /\
  (m_rows A <> m_cols A ->
   palma_critical_nodes (Some A) s = (-1, None, PALMA_ERR_NOT_SQUARE)) /\
  (m_rows A = m_cols A ->
   exists count marks,
     palma_critical_nodes (Some A) s = (count, Some marks, PALMA_SUCCESS) /\
     length marks = m_rows A /\
     count = Z.of_nat (length (filter (fun i => truthy (nth i marks 0))
                                      (seq 0 (m_rows A)))) /\
     0 <= count <= Z.of_nat (m_rows A) /\
     forall i, (i < m_rows A)%nat ->
       (nth i marks 0 = 0 \/ nth i marks 0 = 1) /\
       (nth i marks 0 = 1 -> on_short_cycle A s i) /\
       (additive_tropical s = false -> nth i marks 0 = 1 ->
        palma_matrix_get A i i <> palma_zero s)).
Proof.
  split; [reflexivity|]. split.
  - intros Hne. unfold palma_critical_nodes.
    destruct (Nat.eqb_spec (m_rows A) (m_cols A)); [contradiction|reflexivity].
  - intros Hsq. unfold palma_critical_nodes.
    rewrite Hsq, Nat.eqb_refl. cbn [negb]. rewrite <- Hsq.
    set (n := m_rows A).
    set (Inv := fun marks : list Z =>
                  length marks = n /\
                  forall i, (i < n)%nat ->
                    (nth i marks 0 = 0 \/ nth i marks 0 = 1) /\
                    (nth i marks 0 = 1 -> on_short_cycle A s i) /\
                    (additive_tropical s = false -> nth i marks 0 = 1 ->
                     palma_matrix_get A i i <> palma_zero s)).
    assert (I0 : Inv (repeat 0 n)).
    { split; [apply repeat_length|]. intros i Hi. rewrite nth_repeat_lt by exact Hi.
      split; [left; reflexivity|]. split; intros; discriminate. }
    assert (Hfinish : forall (marks : list Z) (err : palma_error_t), Inv marks ->
              exists count marks',
                (fold_left (fun c i => if truthy (nth i marks 0) then c + 1 else c)
                           (seq 0 n) 0, Some marks, err)
                = (count, Some marks', err) /\
                length marks' = n /\
                count = Z.of_nat (length (filter (fun i => truthy (nth i marks' 0))
                                                 (seq 0 n))) /\
                0 <= count <= Z.of_nat n /\
                forall i, (i < n)%nat ->
                  (nth i marks' 0 = 0 \/ nth i marks' 0 = 1) /\
                  (nth i marks' 0 = 1 -> on_short_cycle A s i) /\
                  (additive_tropical s = false -> nth i marks' 0 = 1 ->
                   palma_matrix_get A i i <> palma_zero s)).
    { intros marks err [Hl Hm]. eexists. exists marks. split; [reflexivity|].
      split; [exact Hl|]. rewrite count_marks_fold. split; [lia|].
      split; [|exact Hm].
      pose proof (filter_length_le (fun i => truthy (nth i marks 0)) (seq 0 n)) as Hle.
      rewrite length_seq in Hle. lia. }
    unfold palma_eigenvalue. rewrite Hsq, Nat.eqb_refl. cbn [negb]. rewrite <- Hsq.
    fold n.
    destruct (karp_max_mean (karp_table A s) s n =? PALMA_NEG_INF).
    + destruct (Hfinish (repeat 0 n) PALMA_SUCCESS I0) as (count & marks & E & H).
      assert (Hz : fold_left (fun c i => if truthy (nth i (repeat 0 n) 0) then c + 1 else c)
                             (seq 0 n) 0 = 0).
      { apply (fold_left_inv _ (fun c : Z => c = 0)); [|reflexivity].
        intros c i Hi%in_seq ->. rewrite nth_repeat_lt by lia. reflexivity. }
      rewrite Hz in E. exists count, marks. split; [exact E | exact H].
    + apply Hfinish.
      apply (fold_left_inv _ Inv); [|exact I0].
      intros marks i Hi%in_seq HI. unfold critical_node. cbv zeta.
      assert (Hpairs : Inv (fold_left (critical_pair A s (karp_max_mean (karp_table A s) s n) i)
                                      (seq 0 n) marks)).
      { apply (fold_left_inv _ Inv); [|exact HI].
        intros m j Hj%in_seq [Hl Hm]. unfold critical_pair. cbv zeta.
        destruct (Z.eqb_spec (palma_matrix_get A i j) (palma_zero s)) as [|Nij];
          cbn [negb andb]; [split; assumption|].
        destruct (Z.eqb_spec (palma_matrix_get A j i) (palma_zero s)) as [|Nji];
          cbn [negb]; [split; assumption|].
        destruct (additive_tropical s) eqn:Ea; [|split; assumption].
        destruct (_ <=? _); [|split; assumption].
        split; [rewrite !upd_length; exact Hl|].
        intros t Ht. rewrite !nth_upd, !upd_length.
        destruct (Nat.eqb_spec t j) as [->|]; cbn [andb].
        - destruct (Nat.ltb_spec j (length m)); [|lia].
          split; [right; reflexivity|]. split; [|discriminate].
          intros _. exists i. split; [unfold n in *; lia|]. split; assumption.
        - destruct (Nat.eqb_spec t i) as [->|]; cbn [andb]; [|apply Hm, Ht].
          destruct (Nat.ltb_spec i (length m)); [|lia].
          split; [right; reflexivity|]. split; [|discriminate].
          intros _. exists j. split; [unfold n in *; lia|]. split; assumption. }
      destruct (Z.eqb_spec (palma_matrix_get A i i) (palma_zero s)) as [|Nii];
        cbn [negb andb]; [exact Hpairs|].
      destruct (_ <=? _); [|exact Hpairs].
      destruct Hpairs as [Hl Hm].
      split; [rewrite upd_length; exact Hl|].
      intros t Ht. rewrite nth_upd.
      destruct (Nat.eqb_spec t i) as [->|]; cbn [andb]; [|apply Hm, Ht].
      match goal with
      | |- context [(i <? ?x)%nat] => destruct (Nat.ltb_spec i x); [|lia]
      end.
      split; [right; reflexivity|]. split; [|intros _ _; exact Nii].
      intros _. exists i. split; [unfold n in *; lia|]. split; assumption.
Qed.

Lemma palma_critical_nodes_short_cycles_witness :
  exists count marks,
    palma_critical_nodes (Some two_cycles) PALMA_MAXPLUS
    = (count, Some marks, PALMA_SUCCESS) /\
    0 <= count <= 3 /\ (nth 2 marks 0 = 0 \/ nth 2 marks 0 = 1).
Proof.
  destruct (proj2 (proj2 (palma_critical_nodes_short_cycles two_cycles PALMA_MAXPLUS))
              eq_refl) as (count & marks & E & _ & _ & Hc & Hm).
  exists count, marks. split; [exact E|]. split; [exact Hc|].
  apply (Hm 2%nat). cbn. lia.
Defined.

Lemma fold_left_fixed {A B : Type} (f : A -> B -> A) (l : list B) (a : A) :
  (forall x, In x l -> f a x = a) -> fold_left f l a = a.
Proof.
  induction l as [|x l IH]; intros H; [reflexivity|].
  cbn [fold_left]. rewrite (H x (or_introl eq_refl)).
  apply IH. intros y Hy. apply H. right. exact Hy.
Qed.

Lemma karp_rows_strictly_upper (A : palma_matrix_t) (s : palma_semiring_t)
      (row : list Z) (k v : nat) :
  strictly_upper A s -> (v < k)%nat -> (v < m_rows A)%nat ->
  nth v (Nat.iter k (karp_step A s (m_rows A)) row) 0 = palma_zero s.
Proof.
  intros HU. revert v. induction k as [|k IH]; intros v Hv Hn; [lia|].
  rewrite Nat.iter_succ. unfold karp_step at 1. cbv zeta.
  rewrite (nth_map_in_range _ (seq 0 (m_rows A)) v 0%nat 0)
    by (rewrite length_seq; exact Hn).
  rewrite seq_nth by exact Hn. cbn [Nat.add].
  apply fold_left_fixed. intros u Hu%in_seq.
  destruct (Nat.le_gt_cases v u) as [Hle|Hgt].
  - rewrite (HU u v ltac:(lia) Hn Hle), Z.eqb_refl. reflexivity.
  - rewrite (IH u ltac:(lia) ltac:(lia)), Z.eqb_refl.
    rewrite andb_false_r. reflexivity.
Qed.

(** X24: a graph without cycles has no eigenvalue.  For a square matrix
    whose edges all lead to nodes of larger index, in any of the five
    semirings, [palma_eigenvalue] returns -∞ with the success code,
    [palma_eigenvector] reports non-convergence and writes the all-ε
    vector, and [palma_critical_nodes] marks nothing and returns 0. *)
Theorem palma_eigenvalue_acyclic (A : palma_matrix_t) (s : palma_semiring_t)
        (max_iter : nat) :
  m_rows A = m_cols A -> strictly_upper A s ->
  palma_eigenvalue (Some A) s = (PALMA_NEG_INF, PALMA_SUCCESS) /\
  palma_eigenvector (Some A) s max_iter
  = Ret (PALMA_ERR_NOT_CONVERGED,
         Some (repeat (palma_zero s) (m_rows A), PALMA_NEG_INF)) /\
  palma_critical_nodes (Some A) s
  = (0, Some (repeat 0 (m_rows A)), PALMA_SUCCESS).
Proof.
  intros Hsq HU.
  assert (E : palma_eigenvalue (Some A) s = (PALMA_NEG_INF, PALMA_SUCCESS)).
  { unfold palma_eigenvalue. rewrite Hsq, Nat.eqb_refl. cbn [negb]. rewrite <- Hsq.
    f_equal. unfold karp_max_mean. cbv zeta.
    apply fold_left_fixed. intros v Hv%in_seq.
    unfold tbl, karp_table. cbv zeta.
    rewrite karp_rows_nth by lia.
    rewrite (karp_rows_strictly_upper A s _ (m_rows A) v HU ltac:(lia) ltac:(lia)).
    rewrite Z.eqb_refl. reflexivity. }
  split; [exact E|]. split.
  - unfold palma_eigenvector. rewrite Hsq, Nat.eqb_refl. cbn [negb]. rewrite <- Hsq.
    cbv zeta. rewrite E. cbn [fst]. rewrite Z.eqb_refl. reflexivity.
  - unfold palma_critical_nodes. rewrite Hsq, Nat.eqb_refl. cbn [negb].
    rewrite <- Hsq, E. rewrite Z.eqb_refl. reflexivity.
Qed.

Lemma palma_eigenvalue_acyclic_witness :
  palma_eigenvalue (Some chain3) PALMA_MAXPLUS = (PALMA_NEG_INF, PALMA_SUCCESS) /\
  palma_critical_nodes (Some chain3) PALMA_MAXPLUS
  = (0, Some [0; 0; 0], PALMA_SUCCESS).
Proof.
  destruct (palma_eigenvalue_acyclic chain3 PALMA_MAXPLUS 0 eq_refl) as (E & _ & C).
  - intros [|[|[|u]]] [|[|[|v]]] Hu Hv Hle; cbn in *; try lia; reflexivity.
  - split; [exact E | exact C].
Defined.

(** ** Binary files *)

Lemma wrap32_to_uint32 (v : Z) : is_int32 v -> wrap32 (to_uint32 v) = v.
Proof.
  intros H. unfold wrap32, to_uint32.
  rewrite Zplus_mod_idemp_l. apply (wrap32_id v H).
Qed.

Lemma to_uint32_small (z : Z) : 0 <= z < 4294967296 -> to_uint32 z = z.
Proof. intros H. apply Z.mod_small, H. Qed.

Lemma firstn_app_length {A : Type} (l1 l2 : list A) (n : nat) :
  n = length l1 -> firstn n (l1 ++ l2) = l1.
Proof.
  intros ->. induction l1 as [|a l1 IH]; [reflexivity|].
  cbn [length app firstn]. rewrite IH. reflexivity.
Qed.

Lemma skipn_app_length {A : Type} (l1 l2 : list A) (n : nat) :
  n = length l1 -> skipn n (l1 ++ l2) = l2.
Proof.
  intros ->. induction l1 as [|a l1 IH]; [reflexivity|].
  cbn [length app skipn]. exact IH.
Qed.

Lemma load_rows_spec (M : palma_matrix_t) (nrows : nat) :
  forall (i : nat) (mat : palma_matrix_t) (rest : list Z),
    dense_wf mat -> (i + nrows <= m_rows mat)%nat -> (m_cols M <= m_stride mat)%nat ->
    exists m',
      load_rows mat (m_cols M) nrows i (flat_map (row_words M) (seq i nrows) ++ rest)
      = Some m' /\
      m_rows m' = m_rows mat /\ m_cols m' = m_cols mat /\ m_stride m' = m_stride mat /\
      forall r j, (j < m_stride mat)%nat ->
        palma_matrix_get m' r j
        = if (i <=? r)%nat && (r <? i + nrows)%nat && (j <? m_cols M)%nat
          then wrap32 (to_uint32 (palma_matrix_get M r j))
          else palma_matrix_get mat r j.
Proof.
  induction nrows as [|nrows IH]; intros i mat rest W Hi Hst.
  - cbn [load_rows]. exists mat. do 4 (split; [reflexivity|]).
    intros r j _. nat_cases.
  - cbn [seq flat_map load_rows]. rewrite <- app_assoc.
    assert (Hlen : length (row_words M i) = m_cols M)
      by (unfold row_words; rewrite length_map, length_seq; reflexivity).
    rewrite length_app, Hlen.
    destruct (Nat.ltb_spec (m_cols M + length (flat_map (row_words M) (seq (S i) nrows) ++ rest))
                           (m_cols M)); [lia|].
    cbv zeta.
    rewrite (firstn_app_length _ _ _ (eq_sym Hlen)),
      (skipn_app_length _ _ _ (eq_sym Hlen)).
    destruct (fill_row_cells_spec (fun j => wrap32 (nth j (row_words M i) 0)) i
                                  (m_cols M) 0 mat W ltac:(lia) ltac:(lia))
      as (Hr1 & Hc1 & Hs1 & Hw1 & Hg1).
    cbv zeta in Hr1, Hc1, Hs1, Hw1, Hg1.
    set (mat1 := fold_left _ (seq 0 (m_cols M)) mat) in *.
    destruct (IH (S i) mat1 rest Hw1 ltac:(lia) ltac:(lia))
      as (m' & E & Hr2 & Hc2 & Hs2 & Hg2).
    exists m'. split; [exact E|].
    split; [congruence|]. split; [congruence|]. split; [congruence|].
    intros r j Hj. rewrite Hg2 by lia. rewrite Hg1 by lia.
    destruct (Nat.eqb_spec r i) as [->|Hne].
    + destruct (Nat.ltb_spec j (0 + m_cols M)); cbn [andb Nat.add] in *.
      * unfold row_words.
        rewrite (nth_map_in_range _ (seq 0 (m_cols M)) j 0%nat 0)
          by (rewrite length_seq; lia).
        rewrite seq_nth by lia. nat_cases.
      * nat_cases.
    + cbn [andb]. nat_cases.
Qed.

(** X25: a matrix saved with [palma_matrix_save_binary] is read back by
    [palma_matrix_load_binary].  For a non-empty matrix of 32-bit cells
    whose dimensions fit 32 bits the saved file loads into a matrix of the
    same dimensions and cells, whatever the stride of the source and
    whatever follows the data in the file.  A file that cannot be opened, a
    file of fewer than four words and a file with another magic number are
    refused with their error kinds; the version word is not looked at. *)
Theorem palma_matrix_binary_round_trip (M : palma_matrix_t) (rest : list Z) :
  (0 < m_rows M)%nat -> (0 < m_cols M)%nat ->
  Z.of_nat (m_rows M) < 4294967296 -> Z.of_nat (m_cols M) < 4294967296 ->
  (forall i j, (i < m_rows M)%nat -> (j < m_cols M)%nat ->
               is_int32 (palma_matrix_get M i j)) ->
  (exists words M',
     palma_matrix_save_binary (Some M) = (PALMA_SUCCESS, words) /\
     palma_matrix_load_binary (Some (words ++ rest)) = Handle M' /\
     m_rows M' = m_rows M /\ m_cols M' = m_cols M /\
     forall i j, (i < m_rows M)%nat -> (j < m_cols M)%nat ->
                 palma_matrix_get M' i j = palma_matrix_get M i j) /\
  palma_matrix_load_binary None = Null PALMA_ERR_FILE_OPEN /\
  (forall words, (length words < 4)%nat ->
                 palma_matrix_load_binary (Some words) = Null PALMA_ERR_FILE_READ) /\
  (forall magic version rows cols data,
     magic <> PALMA_BINARY_MAGIC ->
     palma_matrix_load_binary (Some (magic :: version :: rows :: cols :: data))
     = Null PALMA_ERR_FILE_FORMAT) /\
  (forall magic version rows cols data,
     palma_matrix_load_binary (Some (magic :: version :: rows :: cols :: data))
     = palma_matrix_load_binary
         (Some (magic :: PALMA_BINARY_VERSION :: rows :: cols :: data))).
Proof.
  intros Hr Hc Hr32 Hc32 Hcells. split; [|split; [reflexivity|split; [|split]]].
  - eexists. 
    destruct (palma_matrix_create_spec _ _ Hr Hc) as (mat & Emat & Mr & Mc & Ms & W).
    assert (Hst : (m_cols M <= m_stride mat)%nat) by (destruct W; lia).
    destruct (load_rows_spec M (m_rows M) 0 mat rest W ltac:(lia) Hst)
      as (M' & E & Hr' & Hc' & Hs' & Hg).
    exists M'. split; [reflexivity|]. split.
    + cbv zeta. cbn [app].
      unfold palma_matrix_load_binary. rewrite Z.eqb_refl. cbn [negb].
      rewrite !to_uint32_small by lia. rewrite !Nat2Z.id, Emat.
      fold (row_words M). rewrite E. reflexivity.
    + split; [congruence|]. split; [congruence|].
      intros i j Hi Hj. rewrite Hg by lia.
      destruct (Nat.leb_spec 0 i); [|lia].
      destruct (Nat.ltb_spec i (0 + m_rows M)); [|lia].
      destruct (Nat.ltb_spec j (m_cols M)); [|lia]. cbn [andb].
      apply wrap32_to_uint32, Hcells; assumption.
  - intros [|a [|b [|c [|d words]]]] Hlen; try reflexivity. cbn [length] in Hlen. lia.
  - intros magic version rows cols data Hne. unfold palma_matrix_load_binary.
    destruct (Z.eqb_spec magic PALMA_BINARY_MAGIC); [contradiction|reflexivity].
  - intros. reflexivity.
Qed.

Lemma palma_matrix_binary_round_trip_witness :
  exists words M',
    palma_matrix_save_binary (Some strided_2x3) = (PALMA_SUCCESS, words) /\
    length words = 10%nat /\
    palma_matrix_load_binary (Some (words ++ [])) = Handle M' /\
    palma_matrix_get M' 1 2 = 6.
Proof.
  destruct (proj1 (palma_matrix_binary_round_trip strided_2x3 []
                     ltac:(cbn; lia) ltac:(cbn; lia) ltac:(cbn; lia) ltac:(cbn; lia)
                     ltac:(intros [|[|i]] [|[|[|j]]] Hi Hj; cbn in *; try lia;
                           unfold is_int32, INT32_MIN, INT32_MAX; lia)))
    as (words & M' & Es & El & _ & _ & Hg).
  exists words, M'. split; [exact Es|]. split.
  - injection Es as <-. reflexivity.
  - split; [exact El|]. rewrite (Hg 1%nat 2%nat) by (cbn; lia). reflexivity.
Defined.

(** ** Appending an entry *)

Lemma palma_sparse_add_entry_spec (sp : palma_sparse_t) (row col : nat) (val : Z) :
  (0 < sp_capacity sp)%nat ->
  ((sp_rows sp <= row \/ sp_cols sp <= col)%nat ->
   palma_sparse_add_entry (Some sp) row col val = (PALMA_ERR_INDEX_BOUNDS, Some sp)) /\
  ((row < sp_rows sp)%nat -> (col < sp_cols sp)%nat ->
   exists a b,
     palma_sparse_add_entry (Some sp) row col val = (PALMA_SUCCESS, Some a) /\
     palma_sparse_set (Some sp) row col val = (PALMA_SUCCESS, Some b) /\
     csr_same a b /\ (sp_capacity b <= sp_capacity a)%nat).
Proof.
  intros Hcap. split.
  - intros H. unfold palma_sparse_add_entry.
    destruct (Nat.leb_spec (sp_rows sp) row); cbn [orb]; [reflexivity|].
    destruct (Nat.leb_spec (sp_cols sp) col); [reflexivity|lia].
  - intros Hrow Hcol. unfold palma_sparse_add_entry.
    destruct (Nat.leb_spec (sp_rows sp) row); [lia|].
    destruct (Nat.leb_spec (sp_cols sp) col); [lia|]. cbn [orb].
    unfold sparse_ensure_capacity at 1.
    destruct (Nat.leb_spec (sp_nnz sp + 1) (sp_capacity sp)) as [Hfit|Hgrow].
    + unfold palma_sparse_set.
      destruct (Nat.leb_spec (sp_rows sp) row); [lia|].
      destruct (Nat.leb_spec (sp_cols sp) col); [lia|]. cbn [orb]. cbv zeta.
      destruct (_ && _).
      * eexists. eexists. split; [reflexivity|]. split; [reflexivity|].
        split; [repeat split | lia].
      * unfold sparse_ensure_capacity.
        destruct (Nat.leb_spec (sp_nnz sp + 1) (sp_capacity sp)); [|lia].
        eexists. eexists. split; [reflexivity|]. split; [reflexivity|].
        split; [repeat split | lia].
    + pose proof (grow_capacity_reaches (sp_nnz sp + 1) (sp_capacity sp * 2)
                                        (sp_nnz sp + 1) ltac:(lia) ltac:(lia)) as Hg.
      unfold palma_sparse_set.
      cbn [sp_values sp_col_idx sp_row_ptr sp_rows sp_cols sp_nnz sp_capacity sp_semiring].
      destruct (Nat.leb_spec (sp_rows sp) row); [lia|].
      destruct (Nat.leb_spec (sp_cols sp) col); [lia|]. cbn [orb]. cbv zeta.
      destruct (_ && _).
      * eexists. eexists. split; [reflexivity|]. split; [reflexivity|].
        split; [repeat split|]. cbn [sp_capacity]. lia.
      * unfold sparse_ensure_capacity.
        cbn [sp_values sp_col_idx sp_row_ptr sp_rows sp_cols sp_nnz sp_capacity
             sp_semiring].
        destruct (Nat.leb_spec (sp_nnz sp + 1) (sp_capacity sp)); [lia|].
        destruct (Nat.leb_spec (sp_nnz sp + 1)
                    (grow_capacity (sp_nnz sp + 1) (sp_capacity sp * 2) (sp_nnz sp + 1)));
          [|lia].
        eexists. eexists. split; [reflexivity|]. split; [reflexivity|].
        split; [repeat split|]. cbn [sp_capacity]. lia.
Qed.

(** X26: a store followed by a load.  On a valid CSR matrix
    [palma_sparse_set] inside the bounds, at a column index and with an
    entry count that [palma_idx_t] can hold (col < 2^32, nnz + 1 < 2^32),
    succeeds, whether it overwrites an entry or inserts one; afterwards
    [palma_sparse_get] returns the stored value at that cell and, at every
    other cell inside the bounds, what it returned before.
    [palma_sparse_add_entry] is the same sorted insert, not an append: it
    leaves the content that [palma_sparse_set] leaves, with at least its
    capacity.  Outside the bounds both return the bounds error and leave
    the matrix as it is. *)
Theorem palma_sparse_set_then_get (sp : palma_sparse_t) (row col : nat) (val : Z) :
  csr_valid sp ->
  ((sp_rows sp <= row \/ sp_cols sp <= col)%nat ->
   palma_sparse_set (Some sp) row col val = (PALMA_ERR_INDEX_BOUNDS, Some sp) /\
   palma_sparse_add_entry (Some sp) row col val = (PALMA_ERR_INDEX_BOUNDS, Some sp)) /\
  ((row < sp_rows sp)%nat -> (col < sp_cols sp)%nat ->
   Z.of_nat col < 4294967296 -> Z.of_nat (sp_nnz sp) + 1 < 4294967296 ->
   exists sp' a,
     palma_sparse_set (Some sp) row col val = (PALMA_SUCCESS, Some sp') /\
     palma_sparse_add_entry (Some sp) row col val = (PALMA_SUCCESS, Some a) /\
     csr_same a sp' /\ (sp_capacity sp' <= sp_capacity a)%nat /\
     palma_sparse_get (Some sp') row col = val /\
     forall i j, (i < sp_rows sp)%nat -> (j < sp_cols sp)%nat ->
                 i <> row \/ j <> col ->
                 palma_sparse_get (Some sp') i j = palma_sparse_get (Some sp) i j).
Proof.
  intros V.
  destruct (palma_sparse_add_entry_spec sp row col val (proj1 (csr_capacity sp V)))
    as [Hout Hin].
  split.
  - intros H. split; [|exact (Hout H)].
    unfold palma_sparse_set.
    destruct (Nat.leb_spec (sp_rows sp) row); cbn [orb]; [reflexivity|].
    destruct (Nat.leb_spec (sp_cols sp) col); [reflexivity|lia].
  - intros Hrow Hcol Hcolfit Hfit.
    destruct (Hin Hrow Hcol) as (a & b & Ea & Eb & Hsame & Hcap).
    destruct (palma_sparse_set_entries sp row col val V Hrow Hcol Hcolfit Hfit)
      as (sp' & E & V' & Hr & Hc & Hs & He & Ho).
    assert (b = sp') by congruence. subst b.
    exists sp', a. split; [exact E|]. split; [exact Ea|].
    split; [exact Hsame|]. split; [exact Hcap|]. split.
    + apply palma_sparse_get_entry; try assumption; lia.
    + intros i j Hi Hj Hne.
      destruct (csr_entry_dec sp i j) as [(v & Hv) | Hnone].
      * rewrite (palma_sparse_get_entry sp i j v V Hi Hj Hv).
        apply palma_sparse_get_entry; try assumption; try lia.
        apply Ho; assumption.
      * rewrite (palma_sparse_get_no_entry sp i j V Hi Hj Hnone), <- Hs.
        apply palma_sparse_get_no_entry; try assumption; try lia.
        intros v Hv. apply (Hnone v). apply Ho; assumption.
Qed.

Lemma palma_sparse_set_then_get_witness :
  exists sp' a,
    palma_sparse_set (Some sample_csr) 2 1 9 = (PALMA_SUCCESS, Some sp') /\
    palma_sparse_add_entry (Some sample_csr) 2 1 9 = (PALMA_SUCCESS, Some a) /\
    csr_same a sp' /\
    sp_col_idx a = [1; 2; 0; 2; 1]%nat /\
    palma_sparse_get (Some sp') 2 1 = 9 /\
    palma_sparse_get (Some sp') 1 2 = 7.
Proof.
  destruct (proj2 (palma_sparse_set_then_get sample_csr 2 1 9 sample_csr_valid)
              ltac:(cbn; lia) ltac:(cbn; lia) eq_refl eq_refl)
    as (sp' & a & E & Ea & Hs & _ & Hg & Ho).
  exists sp', a. split; [exact E|]. split; [exact Ea|]. split; [exact Hs|].
  split; [vm_compute in Ea; injection Ea as <-; reflexivity|].
  split; [exact Hg|].
  rewrite (Ho 1%nat 2%nat ltac:(cbn; lia) ltac:(cbn; lia) ltac:(lia)). reflexivity.
Defined.

(** ** Transitive closure *)

Lemma palma_mul_mono_l (s : palma_semiring_t) (a b c : Z) :
  is_int32 a -> is_int32 b -> is_int32 c ->
  sr_le s a b -> sr_le s (palma_mul a c s) (palma_mul b c s).
Proof.
  unfold sr_le. intros Ha Hb Hc Hle.
  rewrite <- Hle at 2.
  rewrite (palma_mul_comm s (palma_add a b s) c), palma_mul_add_distr_l by assumption.
  rewrite (palma_mul_comm s c a), (palma_mul_comm s c b). reflexivity.
Qed.

Lemma sum_ge_acc (s : palma_semiring_t) (t : nat -> Z) (l : list nat) (acc : Z) :
  sr_scalar s acc -> (forall k, In k l -> sr_scalar s (t k)) ->
  sr_scalar s (fold_left (fun sum k => palma_add sum (t k) s) l acc) /\
  sr_le s acc (fold_left (fun sum k => palma_add sum (t k) s) l acc).
Proof.
  revert acc. induction l as [|k l IH]; intros acc Ha Ht.
  - split; [exact Ha | apply sr_le_refl, Ha].
  - cbn [fold_left].
    assert (Hk : sr_scalar s (t k)) by (apply Ht; left; reflexivity).
    assert (Ha' : sr_scalar s (palma_add acc (t k) s))
      by (apply palma_add_scalar; [apply Ha | apply Hk]).
    destruct (IH _ Ha' (fun k' Hk' => Ht k' (or_intror Hk'))) as [H1 H2].
    split; [exact H1|].
    apply (sr_le_trans s _ (palma_add acc (t k) s)); [apply sr_le_add_l, Ha | exact H2].
Qed.

Lemma sum_ge_term (s : palma_semiring_t) (t : nat -> Z) (l : list nat) (acc : Z)
      (k0 : nat) :
  sr_scalar s acc -> (forall k, In k l -> sr_scalar s (t k)) -> In k0 l ->
  sr_le s (t k0) (fold_left (fun sum k => palma_add sum (t k) s) l acc).
Proof.
  revert acc. induction l as [|k l IH]; intros acc Ha Ht Hin; [destruct Hin|].
  cbn [fold_left].
  assert (Hk : sr_scalar s (t k)) by (apply Ht; left; reflexivity).
  assert (Ha' : sr_scalar s (palma_add acc (t k) s))
    by (apply palma_add_scalar; [apply Ha | apply Hk]).
  destruct Hin as [->|Hin].
  - apply (sr_le_trans s _ (palma_add acc (t k0) s)); [apply sr_le_add_r, Hk|].
    apply sum_ge_acc; [exact Ha'|]. intros k' Hk'. apply Ht. right. exact Hk'.
  - apply IH; [exact Ha' | | exact Hin]. intros k' Hk'. apply Ht. right. exact Hk'.
Qed.

(** X27: the transitive closure dominates its operand.  For a non-empty
    square matrix A over the scalars of the semiring,
    [palma_matrix_transitive_closure] returns A+ = A* ⊗ A of the same
    dimension with A ⊕ A+ = A+: no cell of A+ is worse than the direct edge.
    A NULL operand and a non-square one are refused. *)
Theorem palma_matrix_transitive_closure_dominates (A : palma_matrix_t)
        (s : palma_semiring_t) :
  palma_matrix_transitive_closure None s = Null PALMA_ERR_NULL_PTR /\
  (m_rows A <> m_cols A ->
   palma_matrix_transitive_closure (Some A) s = Null PALMA_ERR_NOT_SQUARE) /\
  (m_rows A = m_cols A -> (0 < m_rows A)%nat ->
   (forall i j, (i < m_rows A)%nat -> (j < m_rows A)%nat ->
                sr_scalar s (palma_matrix_get A i j)) ->
   exists star plus,
     palma_matrix_closure (Some A) s = Handle star /\
     palma_matrix_mul (Some star) (Some A) s = Handle plus /\
     palma_matrix_transitive_closure (Some A) s = Handle plus /\
     m_rows plus = m_rows A /\ m_cols plus = m_rows A /\
     forall i j, (i < m_rows A)%nat -> (j < m_rows A)%nat ->
       palma_add (palma_matrix_get A i j) (palma_matrix_get plus i j) s
       = palma_matrix_get plus i j).
Proof.
  split; [reflexivity|]. split.
  - intros Hne. unfold palma_matrix_transitive_closure.
    destruct (Nat.eqb_spec (m_rows A) (m_cols A)); [contradiction|reflexivity].
  - intros Hsq Hpos HA.
    destruct (palma_matrix_closure_spec A s Hsq Hpos HA) as (star & E & Sr & Sc & Sg).
    destruct (palma_matrix_mul_spec star A s ltac:(lia) ltac:(lia) ltac:(lia))
      as (plus & Ep & Pr & Pc & _ & Pg).
    exists star, plus. split; [exact E|]. split; [exact Ep|]. split.
    { unfold palma_matrix_transitive_closure.
      rewrite Hsq, Nat.eqb_refl. cbn [negb]. rewrite E. exact Ep. }
    split; [lia|]. split; [lia|].
    intros i j Hi Hj. rewrite Pg by lia. unfold mul_cell. rewrite Sc.
    set (t := fun k => palma_mul (palma_matrix_get star i k) (palma_matrix_get A k j) s).
    change (sr_le s (palma_matrix_get A i j)
                  (fold_left (fun sum k => palma_add sum (t k) s) (seq 0 (m_rows A))
                             (palma_zero s))).
    apply (sr_le_trans s _ (t i)).
    + unfold t.
      rewrite <- (palma_mul_one_l s (palma_matrix_get A i j)) at 1 by (apply HA; lia).
      destruct (Sg i i Hi Hi) as (Hs & _ & Hone).
      apply palma_mul_mono_l; [apply sr_scalar_one | apply Hs | apply HA; lia | exact Hone].
    + apply sum_ge_term; [apply sr_scalar_zero | | apply in_seq; lia].
      intros k Hk%in_seq. unfold t.
      apply palma_mul_scalar; [apply Sg; lia | apply HA; lia].
Qed.

Lemma palma_matrix_transitive_closure_dominates_witness :
  exists plus,
    palma_matrix_transitive_closure (Some two_hops) PALMA_MINPLUS = Handle plus /\
    palma_add 4 (palma_matrix_get plus 0 1) PALMA_MINPLUS = palma_matrix_get plus 0 1.
Proof.
  destruct (proj2 (proj2 (palma_matrix_transitive_closure_dominates
                            two_hops PALMA_MINPLUS)) eq_refl ltac:(cbn; lia))
    as (star & plus & _ & _ & E & _ & _ & Hg).
  - intros i j Hi Hj. cbn in Hi, Hj.
    assert (Hc : (i = 0 \/ i = 1)%nat /\ (j = 0 \/ j = 1)%nat) by lia.
    destruct Hc as [[-> | ->] [-> | ->]]; cbn;
      (split; [unfold is_int32, PALMA_POS_INF, INT32_MIN, INT32_MAX; lia
              | discriminate]).
  - exists plus. split; [exact E|].
    exact (Hg 0%nat 1%nat ltac:(cbn; lia) ltac:(cbn; lia)).
Defined.

(** ** Scheduler constraints *)

Lemma palma_scheduler_add_constraint_spec (sc : palma_scheduler_t) (from to : nat)
      (duration : Z) :
  dense_wf (sch_system sc) ->
  m_rows (sch_system sc) = sch_n_tasks sc -> m_cols (sch_system sc) = sch_n_tasks sc ->
  (from < sch_n_tasks sc)%nat -> (to < sch_n_tasks sc)%nat ->
  exists sc',
    palma_scheduler_add_constraint (Some sc) from to duration
    = (PALMA_SUCCESS, Some sc') /\
    dense_wf (sch_system sc') /\
    m_rows (sch_system sc') = sch_n_tasks sc /\
    m_cols (sch_system sc') = sch_n_tasks sc /\
    sch_state sc' = sch_state sc /\ sch_input sc' = sch_input sc /\
    sch_n_tasks sc' = sch_n_tasks sc /\ sch_semiring sc' = sch_semiring sc /\
    forall i j, (i < sch_n_tasks sc)%nat -> (j < sch_n_tasks sc)%nat ->
      palma_matrix_get (sch_system sc') i j
      = if (i =? to)%nat && (j =? from)%nat
        then palma_add (palma_matrix_get (sch_system sc) to from) duration
                       (sch_semiring sc)
        else palma_matrix_get (sch_system sc) i j.
Proof.
  intros W Hr Hc Hf Ht. unfold palma_scheduler_add_constraint.
  destruct (Nat.leb_spec (sch_n_tasks sc) from); [lia|].
  destruct (Nat.leb_spec (sch_n_tasks sc) to); [lia|]. cbn [orb]. cbv zeta.
  assert (Hst : (sch_n_tasks sc <= m_stride (sch_system sc))%nat) by (destruct W; lia).
  eexists. split; [reflexivity|].
  cbn [sch_system sch_state sch_input sch_n_tasks sch_semiring].
  split; [apply palma_matrix_set_wf, W|].
  split; [exact Hr|]. split; [exact Hc|]. do 4 (split; [reflexivity|]).
  intros i j Hi Hj.
  destruct (Nat.eqb_spec i to) as [->|]; cbn [andb].
  - destruct (Nat.eqb_spec j from) as [->|].
    + apply get_set_same; [exact W | lia | lia].
    + apply get_set_other; lia.
  - apply get_set_other; lia.
Qed.

(** X28: [palma_scheduler_add_constraint].  A task index outside the
    scheduler is refused and the scheduler is left as it is.  Otherwise the
    call stores in cell (to, from) of the system matrix the ⊕ of what was
    there and the duration, and touches nothing else; so two constraints on
    the same pair of tasks leave the ⊕ of both durations, in whichever order
    they are added. *)
Theorem palma_scheduler_add_constraint_combines (sc : palma_scheduler_t)
        (from to : nat) (d1 d2 : Z) :
  dense_wf (sch_system sc) ->
  m_rows (sch_system sc) = sch_n_tasks sc -> m_cols (sch_system sc) = sch_n_tasks sc ->
  ((sch_n_tasks sc <= from \/ sch_n_tasks sc <= to)%nat ->
   palma_scheduler_add_constraint (Some sc) from to d1
   = (PALMA_ERR_INDEX_BOUNDS, Some sc)) /\
  ((from < sch_n_tasks sc)%nat -> (to < sch_n_tasks sc)%nat ->
   exists sc1 sc12 sc2 sc21,
     palma_scheduler_add_constraint (Some sc) from to d1 = (PALMA_SUCCESS, Some sc1) /\
     palma_scheduler_add_constraint (Some sc1) from to d2 = (PALMA_SUCCESS, Some sc12) /\
     palma_scheduler_add_constraint (Some sc) from to d2 = (PALMA_SUCCESS, Some sc2) /\
     palma_scheduler_add_constraint (Some sc2) from to d1 = (PALMA_SUCCESS, Some sc21) /\
     sch_state sc12 = sch_state sc /\ sch_input sc12 = sch_input sc /\
     palma_matrix_get (sch_system sc1) to from
     = palma_add (palma_matrix_get (sch_system sc) to from) d1 (sch_semiring sc) /\
     (forall i j, (i < sch_n_tasks sc)%nat -> (j < sch_n_tasks sc)%nat ->
        i <> to \/ j <> from ->
        palma_matrix_get (sch_system sc12) i j = palma_matrix_get (sch_system sc) i j) /\
     palma_matrix_get (sch_system sc12) to from
     = palma_add (palma_matrix_get (sch_system sc) to from) (palma_add d1 d2 (sch_semiring sc))
                 (sch_semiring sc) /\
     forall i j, (i < sch_n_tasks sc)%nat -> (j < sch_n_tasks sc)%nat ->
       palma_matrix_get (sch_system sc12) i j = palma_matrix_get (sch_system sc21) i j).
Proof.
  intros W Hr Hc. split.
  - intros H. unfold palma_scheduler_add_constraint.
    destruct (Nat.leb_spec (sch_n_tasks sc) from); cbn [orb]; [reflexivity|].
    destruct (Nat.leb_spec (sch_n_tasks sc) to); [reflexivity|lia].
  - intros Hf Ht.
    destruct (palma_scheduler_add_constraint_spec sc from to d1 W Hr Hc Hf Ht)
      as (sc1 & E1 & W1 & R1 & C1 & S1 & I1 & N1 & M1 & G1).
    destruct (palma_scheduler_add_constraint_spec sc1 from to d2 W1
                ltac:(lia) ltac:(lia) ltac:(lia) ltac:(lia))
      as (sc12 & E12 & W12 & R12 & C12 & S12 & I12 & N12 & M12 & G12).
    destruct (palma_scheduler_add_constraint_spec sc from to d2 W Hr Hc Hf Ht)
      as (sc2 & E2 & W2 & R2 & C2 & S2 & I2 & N2 & M2 & G2).
    destruct (palma_scheduler_add_constraint_spec sc2 from to d1 W2
                ltac:(lia) ltac:(lia) ltac:(lia) ltac:(lia))
      as (sc21 & E21 & W21 & R21 & C21 & S21 & I21 & N21 & M21 & G21).
    rewrite N1 in G12. rewrite N2 in G21. rewrite M1 in G12. rewrite M2 in G21.
    exists sc1, sc12, sc2, sc21.
    do 4 (split; [assumption|]).
    split; [congruence|]. split; [congruence|].
    assert (Hcell12 : palma_matrix_get (sch_system sc12) to from
              = palma_add (palma_matrix_get (sch_system sc) to from)
                          (palma_add d1 d2 (sch_semiring sc)) (sch_semiring sc)).
    { rewrite G12 by lia. rewrite !Nat.eqb_refl. cbn [andb].
      rewrite G1 by lia. rewrite !Nat.eqb_refl. cbn [andb].
      apply palma_add_assoc. }
    split.
    { rewrite G1 by lia. rewrite !Nat.eqb_refl. reflexivity. }
    split.
    { intros i j Hi Hj Hne. rewrite G12 by lia.
      destruct (Nat.eqb_spec i to) as [->|]; cbn [andb].
      - destruct (Nat.eqb_spec j from) as [->|]; [lia|].
        rewrite G1 by lia. rewrite Nat.eqb_refl. cbn [andb].
        destruct (Nat.eqb_spec j from); [lia|reflexivity].
      - rewrite G1 by lia. destruct (Nat.eqb_spec i to); [lia|reflexivity]. }
    split; [exact Hcell12|].
    intros i j Hi Hj. rewrite G12, G21 by lia.
    destruct ((i =? to)%nat && (j =? from)%nat) eqn:Ecell.
    + rewrite G1, G2 by lia. rewrite !Nat.eqb_refl. cbn [andb].
      rewrite !palma_add_assoc. f_equal. apply palma_add_comm.
    + rewrite G1, G2 by lia. rewrite Ecell. reflexivity.
Qed.

Lemma palma_scheduler_add_constraint_combines_witness :
  exists sc1 sc12,
    palma_scheduler_add_constraint (Some tiny_sched) 0 1 3 = (PALMA_SUCCESS, Some sc1) /\
    palma_scheduler_add_constraint (Some sc1) 0 1 9 = (PALMA_SUCCESS, Some sc12) /\
    palma_matrix_get (sch_system sc12) 1 0 = 9.
Proof.
  destruct (proj2 (palma_scheduler_add_constraint_combines tiny_sched 0 1 3 9
                     ltac:(split; cbn; lia) eq_refl eq_refl)
              ltac:(cbn; lia) ltac:(cbn; lia))
    as (sc1 & sc12 & sc2 & sc21 & E1 & E12 & _ & _ & _ & _ & _ & _ & Hc & _).
  exists sc1, sc12. split; [exact E1|]. split; [exact E12|].
  rewrite Hc. reflexivity.
Defined.

(** ** Sparse product and sparse closure *)

Lemma csr_image_reads (dense : palma_matrix_t) (s : palma_semiring_t)
      (sp : palma_sparse_t) (i j : nat) :
  csr_image dense (palma_zero s) s sp ->
  (i < m_rows dense)%nat -> (j < m_cols dense)%nat ->
  palma_sparse_get (Some sp) i j = palma_matrix_get dense i j.
Proof.
  intros I Hi Hj.
  pose proof (csr_image_valid dense (palma_zero s) s sp I) as V.
  pose proof (img_rows _ _ _ _ I) as Er. pose proof (img_cols _ _ _ _ I) as Ec.
  destruct (Z.eq_dec (palma_matrix_get dense i j) (palma_zero s)) as [Hz|Hnz].
  - rewrite Hz, <- (img_semiring _ _ _ _ I).
    apply palma_sparse_get_no_entry; [exact V | lia | lia |].
    intros v (k & Hk & Hc & _).
    apply (csr_image_row_range dense (palma_zero s) s sp I i k Hi) in Hk.
    set (t := (k - dense_offset dense (palma_zero s) i)%nat).
    destruct (csr_image_entry dense (palma_zero s) s sp I i t Hi ltac:(unfold t; lia))
      as [Hcol _].
    replace (dense_offset dense (palma_zero s) i + t)%nat with k in Hcol
      by (unfold t; lia).
    assert (Hin : In j (dense_row_cols dense (palma_zero s) i)).
    { rewrite <- Hc, Hcol. apply nth_In. unfold t. lia. }
    apply dense_row_cols_In in Hin. destruct Hin as [_ Hin]. contradiction.
  - assert (Hin : In j (dense_row_cols dense (palma_zero s) i))
      by (apply dense_row_cols_In; split; assumption).
    destruct (In_nth _ _ 0%nat Hin) as (t & Ht & Hnth).
    destruct (csr_image_entry dense (palma_zero s) s sp I i t Hi Ht) as [Hcol Hval].
    rewrite Hnth in Hcol, Hval.
    apply palma_sparse_get_entry; [exact V | lia | lia |].
    exists (dense_offset dense (palma_zero s) i + t)%nat.
    split; [|split; assumption].
    apply (csr_image_row_range dense (palma_zero s) s sp I i _ Hi). lia.
Qed.

Lemma fold_left_rel {S1 S2 X : Type} (R : S1 -> S2 -> Prop)
      (f : S1 -> X -> S1) (g : S2 -> X -> S2) (l : list X) :
  (forall a b x, In x l -> R a b -> R (f a x) (g b x)) ->
  forall a b, R a b -> R (fold_left f l a) (fold_left g l b).
Proof.
  induction l as [|x l IH]; intros H a b Hab; [exact Hab|].
  cbn [fold_left]. apply IH.
  - intros a' b' y Hy. apply H. right. exact Hy.
  - apply H; [left; reflexivity | exact Hab].
Qed.

Lemma sparse_mul_store_building (dense : palma_matrix_t) (zero : Z)
      (row_vals : list Z) (rows cols : nat) (s : palma_semiring_t) (i j : nat)
      (C : palma_sparse_t) (st : fill_state) :
  nth j row_vals 0 = palma_matrix_get dense i j ->
  csr_building rows cols s C st ->
  csr_building rows cols s (sparse_mul_store zero row_vals C j)
               (fill_entry dense zero i st j).
Proof.
  intros Hcell (Hst & Hr & Hc & Hs & Hc0 & Hcap). subst st.
  unfold csr_building, sparse_mul_store, fill_entry, csr_state. rewrite Hcell.
  destruct (negb (palma_matrix_get dense i j =? zero));
    [|split; [reflexivity|]; repeat split; assumption].
  unfold sparse_ensure_capacity.
  destruct (Nat.leb_spec (sp_nnz C + 1) (sp_capacity C)); cbn [snd];
    cbn [sp_values sp_col_idx sp_row_ptr sp_rows sp_cols sp_nnz sp_capacity sp_semiring].
  - split; [reflexivity|]. repeat split; try assumption; lia.
  - pose proof (grow_capacity_reaches (sp_nnz C + 1) (sp_capacity C * 2)
                                      (sp_nnz C + 1) ltac:(lia) ltac:(lia)).
    split; [reflexivity|]. repeat split; try assumption; lia.
Qed.

Lemma sparse_mul_row_building (A B : palma_sparse_t) (dense : palma_matrix_t)
      (zero : Z) (rows : nat) (s : palma_semiring_t) (i : nat)
      (C : palma_sparse_t) (st : fill_state) :
  m_cols dense = sp_cols B ->
  (forall j, (j < sp_cols B)%nat ->
             nth j (sparse_mul_row_vals A B s zero i) 0 = palma_matrix_get dense i j) ->
  csr_building rows (sp_cols B) s C st ->
  csr_building rows (sp_cols B) s (sparse_mul_row A B s zero C i)
               (fill_row dense zero st i).
Proof.
  intros Hcols Hcells (Hst & Hr & Hc & Hs & Hc0 & Hcap). subst st.
  unfold sparse_mul_row, fill_row, csr_state. cbv zeta. rewrite Hcols.
  apply (fold_left_rel (csr_building rows (sp_cols B) s)).
  - intros a b j Hj%in_seq Hab. apply sparse_mul_store_building; [|exact Hab].
    apply Hcells. lia.
  - split; [reflexivity|]. repeat split; assumption.
Qed.

Lemma find_sorted_none (g : nat -> nat) (ks : list nat) (c j : nat) :
  StronglySorted lt (c :: map g ks) -> c = j ->
  find (fun kb => (g kb =? j)%nat) ks = None.
Proof.
  intros Hs <-. apply StronglySorted_inv in Hs. destruct Hs as [_ Hall].
  rewrite Forall_forall in Hall.
  induction ks as [|kb ks IH]; [reflexivity|].
  cbn [find]. destruct (Nat.eqb_spec (g kb) c) as [He|_].
  - specialize (Hall (g kb) (or_introl eq_refl)). lia.
  - apply IH. intros x Hx. apply Hall. right. exact Hx.
Qed.

(** The accumulator after the entries [ks] of a row of B. *)
Lemma accumulate_row (B : palma_sparse_t) (s : palma_semiring_t) (a : Z)
      (ks : list nat) :
  forall row_vals,
    StronglySorted lt (map (fun kb => nth kb (sp_col_idx B) 0%nat) ks) ->
    (forall kb, In kb ks -> (nth kb (sp_col_idx B) 0 < length row_vals)%nat) ->
    length (fold_left (sparse_mul_accumulate B s a) ks row_vals) = length row_vals /\
    forall j,
      nth j (fold_left (sparse_mul_accumulate B s a) ks row_vals) 0
      = match find (fun kb => (nth kb (sp_col_idx B) 0 =? j)%nat) ks with
        | Some kb => palma_add (nth j row_vals 0)
                               (palma_mul a (nth kb (sp_values B) 0) s) s
        | None => nth j row_vals 0
        end.
Proof.
  induction ks as [|kb ks IH]; intros rv Hs Hb; [split; [reflexivity|intros; reflexivity]|].
  cbn [fold_left map] in *.
  pose proof Hs as Hs'. apply StronglySorted_inv in Hs'. destruct Hs' as [Hs' _].
  unfold sparse_mul_accumulate at 2 4. cbv zeta.
  set (jb := nth kb (sp_col_idx B) 0%nat) in *.
  set (rv1 := upd rv jb (palma_add (nth jb rv 0)
                                   (palma_mul a (nth kb (sp_values B) 0) s) s)).
  assert (Hjb : (jb < length rv)%nat) by (apply Hb; left; reflexivity).
  destruct (IH rv1 Hs') as [Hlen Hnth].
  { intros kb' Hin. unfold rv1. rewrite upd_length. apply Hb. right. exact Hin. }
  split; [rewrite Hlen; unfold rv1; apply upd_length|].
  intros j. rewrite Hnth. cbn [find]. fold jb.
  destruct (Nat.eqb_spec jb j) as [He|Hne].
  - rewrite (find_sorted_none _ ks jb j Hs He).
    unfold rv1. rewrite nth_upd. subst j. rewrite Nat.eqb_refl.
    destruct (Nat.ltb_spec jb (length rv)); [reflexivity|lia].
  - unfold rv1. rewrite nth_upd.
    destruct (Nat.eqb_spec j jb); [congruence|]. reflexivity.
Qed.

Lemma absorbed_zero (s : palma_semiring_t) : absorbed s (palma_zero s).
Proof. destruct s; kernel_forms; split; try lia; discriminate. Qed.

Lemma absorbed_mul_zero_r (s : palma_semiring_t) (a : Z) :
  absorbed s a -> palma_mul a (palma_zero s) s = palma_zero s.
Proof. intros H. rewrite palma_mul_comm. apply palma_mul_zero_l, H. Qed.

Section SparseMul.

Variable A B : palma_sparse_t.
Variable dA dB : palma_matrix_t.
Variable s : palma_semiring_t.
Hypothesis VA : csr_valid A.
Hypothesis VB : csr_valid B.
Hypothesis Hdim : sp_cols A = sp_rows B.
Hypothesis HsB : sp_semiring B = s.
Hypothesis HsA : sp_semiring A = s.
Hypothesis HvA : forall k, (k < sp_nnz A)%nat -> absorbed s (nth k (sp_values A) 0).
Hypothesis HvB : forall k, (k < sp_nnz B)%nat -> absorbed s (nth k (sp_values B) 0).
Hypothesis HhitA :
  forall i k, (i < sp_rows A)%nat -> In k (row_range A i) ->
    palma_matrix_get dA i (nth k (sp_col_idx A) 0%nat) = nth k (sp_values A) 0.
Hypothesis HmissA :
  forall i j, (i < sp_rows A)%nat -> (j < sp_cols A)%nat ->
    (forall k, In k (row_range A i) -> nth k (sp_col_idx A) 0%nat <> j) ->
    palma_matrix_get dA i j = palma_zero s.
Hypothesis HhitB :
  forall i k, (i < sp_rows B)%nat -> In k (row_range B i) ->
    palma_matrix_get dB i (nth k (sp_col_idx B) 0%nat) = nth k (sp_values B) 0.
Hypothesis HmissB :
  forall i j, (i < sp_rows B)%nat -> (j < sp_cols B)%nat ->
    (forall k, In k (row_range B i) -> nth k (sp_col_idx B) 0%nat <> j) ->
    palma_matrix_get dB i j = palma_zero s.

Lemma dense_cell_absorbed (k j : nat) :
  (k < sp_rows B)%nat -> (j < sp_cols B)%nat ->
  absorbed s (palma_matrix_get dB k j).
Proof.
  intros Hk Hj. destruct (csr_entry_dec B k j) as [(v & kb & Hin & Hc & Hv) | Hnone].
  - rewrite <- Hc, (HhitB k kb Hk Hin). apply HvB.
    apply (csr_entry_bounded B VB k kb Hk Hin).
  - rewrite (HmissB k j Hk Hj); [apply absorbed_zero|].
    intros kb Hin Hc. apply (Hnone (nth kb (sp_values B) 0)). exists kb. auto.
Qed.

(** One entry of A against row [k] of B: every cell of the accumulator
    takes up the product with the dense cell of B. *)
Lemma accumulate_row_dense (k : nat) (a : Z) (row_vals : list Z) :
  (k < sp_rows B)%nat -> absorbed s a -> length row_vals = sp_cols B ->
  (forall j, (j < sp_cols B)%nat -> sr_scalar s (nth j row_vals 0)) ->
  let r := fold_left (sparse_mul_accumulate B s a) (row_range B k) row_vals in
  length r = sp_cols B /\
  forall j, (j < sp_cols B)%nat ->
    nth j r 0 = palma_add (nth j row_vals 0) (palma_mul a (palma_matrix_get dB k j) s) s /\
    sr_scalar s (nth j r 0).
Proof.
  intros Hk Ha Hlen Hrv r.
  destruct (accumulate_row B s a (row_range B k) row_vals) as [Hl Hn].
  { unfold row_range. apply map_seq_sorted. intros k1 k2 H1 H2 H3.
    apply (csr_cols_increasing B VB k); lia. }
  { intros kb Hin. rewrite Hlen. apply (csr_entry_bounded B VB k kb Hk Hin). }
  split; [unfold r; rewrite Hl; exact Hlen|].
  intros j Hj. unfold r. rewrite Hn.
  destruct (find _ (row_range B k)) as [kb|] eqn:Ef.
  - apply find_some in Ef. destruct Ef as [Hin Hc%Nat.eqb_eq].
    rewrite <- (HhitB k kb Hk Hin), Hc. split; [reflexivity|].
    apply palma_add_scalar; [apply Hrv, Hj|].
    apply palma_mul_scalar; [apply Ha|].
    rewrite <- Hc, (HhitB k kb Hk Hin).
    apply HvB, (csr_entry_bounded B VB k kb Hk Hin).
  - rewrite (HmissB k j Hk Hj).
    + rewrite absorbed_mul_zero_r by exact Ha.
      rewrite palma_add_zero_r by (apply Hrv, Hj). split; [reflexivity | apply Hrv, Hj].
    + intros kb Hin Hc. apply (find_none _ _ Ef kb) in Hin.
      apply Nat.eqb_neq in Hin. contradiction.
Qed.

Lemma row_vals_fold (i : nat) (kas : list nat) :
  (i < sp_rows A)%nat -> (forall ka, In ka kas -> In ka (row_range A i)) ->
  forall row_vals,
    length row_vals = sp_cols B ->
    (forall j, (j < sp_cols B)%nat -> sr_scalar s (nth j row_vals 0)) ->
    let r := fold_left
               (fun row_vals ka =>
                  fold_left (sparse_mul_accumulate B s (nth ka (sp_values A) 0))
                            (row_range B (nth ka (sp_col_idx A) 0%nat)) row_vals)
               kas row_vals in
    forall j, (j < sp_cols B)%nat ->
      nth j r 0
      = fold_left (fun sum ka =>
                     palma_add sum
                       (palma_mul (nth ka (sp_values A) 0)
                                  (palma_matrix_get dB (nth ka (sp_col_idx A) 0%nat) j) s) s)
                  kas (nth j row_vals 0).
Proof.
  intros Hi. induction kas as [|ka kas IH]; intros Hin rv Hlen Hrv r j Hj;
    [reflexivity|].
  unfold r. cbn [fold_left].
  destruct (csr_entry_bounded A VA i ka Hi (Hin ka (or_introl eq_refl))) as [Hka Hkc].
  destruct (accumulate_row_dense (nth ka (sp_col_idx A) 0%nat) (nth ka (sp_values A) 0) rv
              ltac:(lia) (HvA ka Hka) Hlen Hrv) as [Hl Hn].
  cbv zeta in Hl, Hn.
  rewrite (IH (fun ka' H => Hin ka' (or_intror H)) _ Hl (fun j' Hj' => proj2 (Hn j' Hj')) j Hj).
  rewrite (proj1 (Hn j Hj)). reflexivity.
Qed.

(** The accumulated cell is the cell of the dense product. *)
Lemma row_vals_cell (i j : nat) :
  m_cols dA = sp_cols A ->
  (i < sp_rows A)%nat -> (j < sp_cols B)%nat ->
  nth j (sparse_mul_row_vals A B s (palma_zero s) i) 0 = mul_cell dA dB s i j.
Proof.
  intros HcA Hi Hj. unfold sparse_mul_row_vals.
  change (fold_left _ (seq (nth i (sp_row_ptr A) 0%nat) _) (repeat (palma_zero s) (sp_cols B)))
    with (fold_left
            (fun row_vals ka =>
               fold_left (sparse_mul_accumulate B s (nth ka (sp_values A) 0))
                         (row_range B (nth ka (sp_col_idx A) 0%nat)) row_vals)
            (row_range A i) (repeat (palma_zero s) (sp_cols B))).
  rewrite (row_vals_fold i (row_range A i) Hi (fun ka H => H)
                         (repeat (palma_zero s) (sp_cols B)) (repeat_length _ _)).
  - rewrite nth_repeat_lt by exact Hj.
    unfold mul_cell. rewrite HcA.
    rewrite (row_sum_merge s (fun k => palma_matrix_get dB k j) (palma_matrix_get dA i)
               (sp_cols A) 0
               (map (fun k => (nth k (sp_col_idx A) 0%nat, nth k (sp_values A) 0))
                    (row_range A i))
               (palma_zero s)).
    + rewrite fold_left_map. reflexivity.
    + rewrite map_map. cbn [fst]. unfold row_range. apply map_seq_sorted.
      intros k1 k2 H1 H2 H3. apply (csr_cols_increasing A VA i); lia.
    + intros e Hin. apply in_map_iff in Hin. destruct Hin as (k & <- & Hk).
      cbn [fst snd].
      destruct (csr_entry_bounded A VA i k Hi Hk) as [Hkn Hkc].
      split; [lia|]. split; [apply HhitA; assumption | apply HvA, Hkn].
    + intros k Hk Hnin. apply HmissA; try lia.
      intros ka Hka Hcol. apply Hnin. rewrite map_map. cbn [fst].
      apply in_map_iff. exists ka. auto.
    + intros k Hk. apply dense_cell_absorbed; lia.
    + apply sr_scalar_zero.
  - intros j' Hj'. rewrite nth_repeat_lt by exact Hj'. apply sr_scalar_zero.
  - exact Hj.
Qed.

End SparseMul.

(** The sparse product is the CSR image of the dense matrix of its
    accumulators, when [palma_idx_t] can count the cells of the product. *)
Lemma palma_sparse_mul_image (A B : palma_sparse_t) (R : palma_matrix_t) :
  sp_cols A = sp_rows B -> sp_semiring A = sp_semiring B ->
  (0 < sp_rows A)%nat -> (0 < sp_cols B)%nat ->
  Z.of_nat (sp_rows A * sp_cols B) < 4294967296 ->
  m_rows R = sp_rows A -> m_cols R = sp_cols B ->
  (forall i j, (i < sp_rows A)%nat -> (j < sp_cols B)%nat ->
     nth j (sparse_mul_row_vals A B (sp_semiring A) (palma_zero (sp_semiring A)) i) 0
     = palma_matrix_get R i j) ->
  exists C, palma_sparse_mul (Some A) (Some B) = Handle C /\
            csr_image R (palma_zero (sp_semiring A)) (sp_semiring A) C.
Proof.
  intros Hdim Hsem Hr Hc Hfit Rr Rc Hcells. unfold palma_sparse_mul.
  rewrite Hdim, Nat.eqb_refl, <- Hsem.
  replace (semiring_eqb (sp_semiring A) (sp_semiring A)) with true
    by (symmetry; apply semiring_eqb_eq; reflexivity).
  cbn [negb orb]. cbv zeta. unfold palma_sparse_create.
  destruct (Nat.eqb_spec (sp_rows A) 0); [lia|].
  destruct (Nat.eqb_spec (sp_cols B) 0); [lia|]. cbn [orb].
  set (s := sp_semiring A) in *. set (zero := palma_zero s) in *.
  set (C0 := mkSparse [] [] (repeat 0%nat (sp_rows A + 1)) (sp_rows A) (sp_cols B) 0 _ s).
  assert (B0 : csr_building (sp_rows A) (sp_cols B) s C0
                            ([], [], repeat 0%nat (sp_rows A + 1), 0%nat)).
  { unfold csr_building, csr_state, C0.
    do 4 (split; [reflexivity|]). cbn [sp_capacity sp_nnz].
    match goal with
    | |- context [(0 <? ?c)%nat] => destruct (Nat.ltb_spec 0 c); lia
    end. }
  assert (B1 : csr_building (sp_rows A) (sp_cols B) s
                 (fold_left (sparse_mul_row A B s zero) (seq 0 (sp_rows A)) C0)
                 (fold_left (fill_row R zero) (seq 0 (sp_rows A))
                            ([], [], repeat 0%nat (sp_rows A + 1), 0%nat))).
  { apply (fold_left_rel (csr_building (sp_rows A) (sp_cols B) s)); [|exact B0].
    intros a b i Hi%in_seq Hab. apply sparse_mul_row_building; [exact Rc | | exact Hab].
    intros j Hj. apply Hcells; lia. }
  set (C1 := fold_left (sparse_mul_row A B s zero) (seq 0 (sp_rows A)) C0) in *.
  assert (Hcount : Z.of_nat (0 + length (flat_map (dense_row_cols R zero)
                                                  (seq 0 (sp_rows A))))
                   < 4294967296).
  { pose proof (dense_offset_cells R zero (sp_rows A)) as Hle.
    unfold dense_offset in Hle. rewrite Rc in Hle. cbn [Nat.add]. lia. }
  destruct (fill_rows_spec R zero (sp_rows A) 0 [] [] (repeat 0%nat (sp_rows A + 1)) 0)
    as (rp' & E & L & N); [|exact Hcount|].
  { intros i j _ Hj. unfold dense_row_cols, dense_row_filter in Hj.
    apply filter_In in Hj. destruct Hj as [Hj _]. apply in_seq in Hj. nia. }
  rewrite E in B1. cbn [app Nat.add] in B1, Hcount.
  destruct B1 as (Hst & Hr1 & Hc1 & Hs1 & Hcap0 & Hcap).
  unfold csr_state in Hst. injection Hst as Ev Eci Erp En.
  rewrite repeat_length in L, N.
  rewrite <- En in Hcount. rewrite (palma_idx_small _ Hcount).
  eexists. split; [reflexivity|].
  constructor;
    cbn [sp_values sp_col_idx sp_row_ptr sp_rows sp_cols sp_nnz sp_capacity sp_semiring].
  - rewrite Ev, Rr. reflexivity.
  - rewrite Eci, Rr. reflexivity.
  - lia.
  - lia.
  - rewrite En, Rr. reflexivity.
  - exact Hs1.
  - split; assumption.
  - rewrite upd_length, Erp, L, Rr. reflexivity.
  - intros r Hle. rewrite Rr in Hle. rewrite Erp, En, nth_upd, L, N.
    destruct (Nat.eq_dec r (sp_rows A)) as [->|Hne].
    + rewrite Nat.eqb_refl.
      destruct (Nat.ltb_spec (sp_rows A) (sp_rows A + 1)); [|lia].
      cbn [andb]. reflexivity.
    + destruct (Nat.eqb_spec r (sp_rows A)); [contradiction|]. cbn [andb].
      destruct (Nat.leb_spec 0 r); [|lia].
      destruct (Nat.ltb_spec r (0 + sp_rows A)); [|lia].
      destruct (Nat.ltb_spec r (sp_rows A + 1)); [|lia].
      cbn [andb Nat.add]. rewrite Nat.sub_0_r. reflexivity.
Qed.

(** X29: the sparse product agrees with the dense one.  For valid CSR
    matrices A and B of matching dimensions over the same semiring, whose
    stored values are scalars that ε absorbs and whose product has fewer
    than 2^32 cells (so that [palma_idx_t] holds every index that is
    stored), [palma_sparse_mul] returns a
    valid CSR matrix of the dimensions of the product that stores no ε, and
    [palma_sparse_get] reads from it the cells of [palma_matrix_mul] of the
    dense expansions.  NULL operands, unequal inner dimensions and unequal
    semirings are refused.  (In (min,+) a stored -∞ is excluded: the dense
    product takes -∞ ⊗ ε = -∞ at the ε cells, which the sparse product
    skips.) *)
Theorem palma_sparse_mul_dense (A B : palma_sparse_t) :
  palma_sparse_mul None (Some B) = Null PALMA_ERR_NULL_PTR /\
  palma_sparse_mul (Some A) None = Null PALMA_ERR_NULL_PTR /\
  (sp_cols A <> sp_rows B \/ sp_semiring A <> sp_semiring B ->
   palma_sparse_mul (Some A) (Some B) = Null PALMA_ERR_INVALID_DIM) /\
  (csr_valid A -> csr_valid B ->
   sp_cols A = sp_rows B -> sp_semiring A = sp_semiring B ->
   (0 < sp_rows A)%nat -> (0 < sp_cols A)%nat -> (0 < sp_cols B)%nat ->
   Z.of_nat (sp_rows A * sp_cols B) < 4294967296 ->
   (forall k, (k < sp_nnz A)%nat -> absorbed (sp_semiring A) (nth k (sp_values A) 0)) ->
   (forall k, (k < sp_nnz B)%nat -> absorbed (sp_semiring A) (nth k (sp_values B) 0)) ->
   exists C dA dB M,
     palma_sparse_mul (Some A) (Some B) = Handle C /\
     palma_sparse_to_dense (Some A) = Some dA /\
     palma_sparse_to_dense (Some B) = Some dB /\
     palma_matrix_mul (Some dA) (Some dB) (sp_semiring A) = Handle M /\
     csr_valid C /\ csr_compressed C /\
     sp_rows C = sp_rows A /\ sp_cols C = sp_cols B /\
     forall i j, (i < sp_rows A)%nat -> (j < sp_cols B)%nat ->
                 palma_sparse_get (Some C) i j = palma_matrix_get M i j).
Proof.
  split; [reflexivity|]. split; [reflexivity|]. split.
  - intros H. unfold palma_sparse_mul.
    destruct (Nat.eqb_spec (sp_cols A) (sp_rows B)); cbn [negb orb]; [|reflexivity].
    destruct (semiring_eqb (sp_semiring A) (sp_semiring B)) eqn:Es; [|reflexivity].
    apply semiring_eqb_eq in Es. destruct H; contradiction.
  - intros VA VB Hdim Hsem HrA HcA HcB Hfit HvA HvB.
    set (s := sp_semiring A) in *.
    destruct (palma_sparse_to_dense_spec A VA HrA HcA)
      as (dA & EA & Ar & Ac & HhitA & HmissA).
    destruct (palma_sparse_to_dense_spec B VB ltac:(lia) HcB)
      as (dB & EB & Br & Bc & HhitB & HmissB).
    fold s in HmissA. rewrite <- Hsem in HmissB. fold s in HmissB.
    destruct (palma_matrix_mul_spec dA dB s ltac:(lia) ltac:(lia) ltac:(lia))
      as (M & EM & Mr & Mc & _ & Mg).
    destruct (palma_sparse_mul_image A B M Hdim Hsem HrA HcB Hfit ltac:(lia) ltac:(lia))
      as (C & EC & I).
    { intros i j Hi Hj. fold s. rewrite Mg by lia.
      apply (row_vals_cell A B dA dB s VA VB Hdim HvA HvB HhitA HmissA HhitB HmissB);
        assumption. }
    fold s in I.
    exists C, dA, dB, M. split; [exact EC|]. split; [exact EA|]. split; [exact EB|].
    split; [exact EM|].
    split; [apply (csr_image_valid M (palma_zero s) s C I)|].
    split; [apply (csr_image_compressed M s C I)|].
    split; [rewrite (img_rows _ _ _ _ I); lia|].
    split; [rewrite (img_cols _ _ _ _ I); lia|].
    intros i j Hi Hj. apply (csr_image_reads M s C i j I); lia.
Qed.

Lemma tall_csr_valid : csr_valid tall_csr.
Proof.
  constructor; cbn; try reflexivity; try lia.
  - intros [|[|[|r]]] Hr; cbn; lia.
  - intros [|[|[|r]]] [|[|[|[|k]]]] Hr; cbn; lia.
  - intros [|[|[|[|k]]]] Hk; cbn; lia.
Qed.

Lemma palma_sparse_mul_dense_witness :
  exists C, palma_sparse_mul (Some padded_csr) (Some tall_csr) = Handle C /\
            csr_valid C /\ sp_nnz C = 3%nat.
Proof.
  destruct (proj2 (proj2 (proj2 (palma_sparse_mul_dense padded_csr tall_csr)))
              padded_csr_valid tall_csr_valid eq_refl eq_refl
              ltac:(unfold padded_csr; cbn [sp_rows]; lia)
              ltac:(unfold padded_csr; cbn [sp_cols]; lia)
              ltac:(unfold tall_csr; cbn [sp_cols]; lia)
              eq_refl)
    as (C & dA & dB & M & EC & _ & _ & _ & V & _ & _ & _ & _).
  - intros [|[|[|k]]] Hk; [| | |unfold padded_csr in Hk; cbn [sp_nnz] in Hk; lia];
      (split; [vm_compute; split; discriminate | vm_compute; discriminate]).
  - intros [|[|[|[|k]]]] Hk; [| | | |unfold tall_csr in Hk; cbn [sp_nnz] in Hk; lia];
      (split; [vm_compute; split; discriminate | vm_compute; discriminate]).
  - exists C. split; [exact EC|]. split; [exact V|].
    assert (E : palma_sparse_mul (Some padded_csr) (Some tall_csr)
                = Handle (mkSparse [7; 8; 8] [0; 1; 1]%nat [0; 2; 3]%nat 2 2 3 4
                                   PALMA_MAXPLUS)) by (vm_compute; reflexivity).
    rewrite E in EC. injection EC as <-. reflexivity.
Defined.

(** X30: [palma_sparse_closure] is the dense closure.  For a valid,
    non-empty, square CSR matrix with fewer than 2^32 cells (so that
    [palma_idx_t] holds every index of the result) it returns a valid CSR
    matrix of the same dimension that stores no ε, from which
    [palma_sparse_get] reads the cells of [palma_matrix_closure] of the
    dense expansion.  A NULL matrix and a non-square one are refused. *)
Theorem palma_sparse_closure_dense (A : palma_sparse_t) :
  palma_sparse_closure None = Null PALMA_ERR_NULL_PTR /\
  (sp_rows A <> sp_cols A ->
   palma_sparse_closure (Some A) = Null PALMA_ERR_NOT_SQUARE) /\
  (csr_valid A -> sp_rows A = sp_cols A -> (0 < sp_rows A)%nat ->
   Z.of_nat (sp_rows A * sp_rows A) < 4294967296 ->
   exists C dense star,
     palma_sparse_closure (Some A) = Handle C /\
     palma_sparse_to_dense (Some A) = Some dense /\
     palma_matrix_closure (Some dense) (sp_semiring A) = Handle star /\
     csr_valid C /\ csr_compressed C /\
     sp_rows C = sp_rows A /\ sp_cols C = sp_rows A /\
     forall i j, (i < sp_rows A)%nat -> (j < sp_rows A)%nat ->
                 palma_sparse_get (Some C) i j = palma_matrix_get star i j).
Proof.
  split; [reflexivity|]. split.
  - intros Hne. unfold palma_sparse_closure.
    destruct (Nat.eqb_spec (sp_rows A) (sp_cols A)); [contradiction|reflexivity].
  - intros V Hsq Hpos Hfit.
    destruct (palma_sparse_to_dense_spec A V Hpos ltac:(lia))
      as (dense & Ed & Dr & Dc & _ & _).
    destruct (palma_matrix_closure_unfold dense (sp_semiring A) ltac:(lia) ltac:(lia))
      as (D & WD & DDr & DDc & _ & Es).
    set (star := fold_left _ _ _) in Es.
    assert (Hshape : m_rows star = sp_rows A /\ m_cols star = sp_rows A).
    { assert (Hinv : cells_inv (fun _ _ _ => True) (m_rows dense) star).
      { unfold star. apply closure_rounds_cells; [intros; exact Logic.I|].
        destruct (closure_add_identity_spec (sp_semiring A) (m_rows dense) D WD DDr DDc)
          as (W1 & R1 & C1 & _).
        split; [exact W1|]. split; [exact R1|]. split; [exact C1|]. intros; exact Logic.I. }
      destruct Hinv as (_ & R & C & _). lia. }
    destruct Hshape as [Sr Sc].
    destruct (palma_sparse_from_dense_spec star (sp_semiring A) ltac:(lia) ltac:(lia))
      as (C & EC & I).
    { apply small_dense_fits_idx; [rewrite Sr, Sc; exact Hfit | lia]. }
    exists C, dense, star. split.
    { unfold palma_sparse_closure. rewrite Hsq, Nat.eqb_refl. cbn [negb].
      rewrite Ed, Es, EC. reflexivity. }
    split; [exact Ed|]. split; [exact Es|].
    split; [apply (csr_image_valid star (palma_zero (sp_semiring A)) (sp_semiring A) C I)|].
    split; [apply (csr_image_compressed star (sp_semiring A) C I)|].
    split; [rewrite (img_rows _ _ _ _ I); exact Sr|].
    split; [rewrite (img_cols _ _ _ _ I); exact Sc|].
    intros i j Hi Hj. apply (csr_image_reads star (sp_semiring A) C i j I); lia.
Qed.

Lemma palma_sparse_closure_dense_witness :
  exists C, palma_sparse_closure (Some sample_csr) = Handle C /\
            csr_valid C /\ sp_rows C = 3%nat.
Proof.
  destruct (proj2 (proj2 (palma_sparse_closure_dense sample_csr))
              sample_csr_valid eq_refl ltac:(cbn; lia) eq_refl)
    as (C & dense & star & E & _ & _ & V & _ & Hr & _).
  exists C. split; [exact E|]. split; [exact V | exact Hr].
Defined.
